(** * Boat-vision: the /api/process route and the upload queue

    A shallow embedding of the two TypeScript sources of the repository:

    - the route handler [POST] of [src/app/api/process/route.ts] with its
      helpers [extractMessageText], [cleanJson], [analyzeSourceImage],
      [generateShot], [verifyComposite] and the two lexicons;
    - the React component [WorkflowUploader] with its queue operations
      [handleFiles], [removeItem], [updateQueueItem], [appendLog] and the
      asynchronous [processQueue], and what it renders of the queue: the
      cards, the name of the download and the two buttons of the footer.

    JavaScript strings are modelled by Rocq strings holding their UTF-8
    bytes; every character the code inspects is ASCII.  The hosted models
    and the network are oracles passed as arguments. *)

From Stdlib Require Import List String Ascii ZArith NArith Lia Bool Arith.
Import ListNotations.
Open Scope string_scope.
Set Warnings "-register-all".

(* ================================================================= *)
(** ** The JavaScript built-ins the sources use *)
(* ================================================================= *)

Module JS.

(** The double quote and the backslash, built from their codes. *)
Definition dq : string := String (ascii_of_nat 34) "".
Definition bsl : string := String (ascii_of_nat 92) "".

(** What a [throw] carries: an [Error] with its message, or another value
    (a promise may reject with anything). *)
Inductive Thrown : Type :=
| ErrorObj (message : string)
| NonError.

Inductive Result (A : Type) : Type :=
| Ok (a : A)
| Throw (e : Thrown).
Arguments Ok {A} a.
Arguments Throw {A} e.

(** *** Strings *)

(** [String.prototype.indexOf(needle)]: the first position at which
    [needle] occurs, or -1. *)
Fixpoint indexOf_from (needle s : string) (i : Z) : Z :=
  if prefix needle s then i
  else match s with
       | EmptyString => (-1)%Z
       | String _ s' => indexOf_from needle s' (i + 1)%Z
       end.

Definition indexOf (s needle : string) : Z := indexOf_from needle s 0%Z.

(** [String.prototype.lastIndexOf(needle)]: the last such position, or -1. *)
Fixpoint lastIndexOf_from (needle s : string) (i last : Z) : Z :=
  let last' := if prefix needle s then i else last in
  match s with
  | EmptyString => last'
  | String _ s' => lastIndexOf_from needle s' (i + 1)%Z last'
  end.

Definition lastIndexOf (s needle : string) : Z :=
  lastIndexOf_from needle s 0%Z (-1)%Z.

(** [String.prototype.slice(from, to)]: negative indexes count from the
    end, both are clamped to the string, an empty span gives [""]. *)
Definition slice (s : string) (from to : Z) : string :=
  let len := Z.of_nat (String.length s) in
  let clamp i := if (i <? 0)%Z then Z.max (len + i) 0 else Z.min i len in
  let a := clamp from in
  let b := clamp to in
  substring (Z.to_nat a) (Z.to_nat (Z.max (b - a) 0)) s.

(** [Array.prototype.join(sep)] on an array of strings. *)
Definition join (sep : string) (parts : list string) : string :=
  String.concat sep parts.

(** [String.prototype.split(sep)] for a one-character separator. *)
Fixpoint split_on (sep : ascii) (s : string) (cur : string) : list string :=
  match s with
  | EmptyString => [cur]
  | String c s' =>
      if Ascii.eqb c sep then cur :: split_on sep s' ""
      else split_on sep s' (cur ++ String c "")
  end.

Definition split (s : string) (sep : ascii) : list string := split_on sep s "".

(** [sub] occurs in [s] as a contiguous run of characters. *)
Definition contains (s sub : string) : Prop :=
  exists pre post, s = pre ++ sub ++ post.

Fixpoint containsb (s sub : string) : bool :=
  prefix sub s ||
  match s with
  | EmptyString => false
  | String _ s' => containsb s' sub
  end.

(** *** Base64, as [Buffer.prototype.toString("base64")] *)

Definition b64_alphabet : string :=
  "ABCDEFGHIJKLMNOPQRSTUVWXYZabcdefghijklmnopqrstuvwxyz0123456789+/".

Definition b64_digit (n : N) : string :=
  match get (N.to_nat n) b64_alphabet with
  | Some c => String c ""
  | None => "="
  end.

Fixpoint base64 (bytes : list ascii) : string :=
  match bytes with
  | [] => ""
  | [a] =>
      let x := N_of_ascii a in
      b64_digit (N.shiftr x 2) ++ b64_digit (N.shiftl (N.land x 3) 4) ++ "=="
  | [a; b] =>
      let x := N_of_ascii a in
      let y := N_of_ascii b in
      b64_digit (N.shiftr x 2)
      ++ b64_digit (N.lor (N.shiftl (N.land x 3) 4) (N.shiftr y 4))
      ++ b64_digit (N.shiftl (N.land y 15) 2) ++ "="
  | a :: b :: c :: rest =>
      let x := N_of_ascii a in
      let y := N_of_ascii b in
      let z := N_of_ascii c in
      b64_digit (N.shiftr x 2)
      ++ b64_digit (N.lor (N.shiftl (N.land x 3) 4) (N.shiftr y 4))
      ++ b64_digit (N.lor (N.shiftl (N.land y 15) 2) (N.shiftr z 6))
      ++ b64_digit (N.land z 63)
      ++ base64 rest
  end.

(** *** JSON values *)

(** A value [JSON.parse] can return.  A number keeps the text it was
    written with: what that text denotes as a double is the engine's
    business (see [Engine]).  An object keeps its own properties in
    JavaScript's enumeration order. *)
Inductive JSValue : Type :=
| JNull
| JBool (b : bool)
| JNum (lexeme : string)
| JStr (s : string)
| JArr (items : list JSValue)
| JObj (members : list (string * JSValue)).

(** What depends on the JavaScript engine and on IEEE-754 doubles, left
    open: how a number's text rounds and prints, and the messages of the
    errors the engine itself throws. *)
Class Engine : Type := {
  number_is_zero : string -> bool;
  number_is_finite : string -> bool;
  number_to_string : string -> string;
  syntax_error_message : string -> string;
  cannot_read_message : bool -> string -> string;
  to_primitive_message : string
}.

(** A canonical array index ("0", "7", "42", below 2^32 - 1): such keys
    are enumerated first, in ascending order. *)
Definition is_digit (c : ascii) : bool :=
  (48 <=? nat_of_ascii c)%nat && (nat_of_ascii c <=? 57)%nat.

Fixpoint digits_value (s : string) (acc : N) : option N :=
  match s with
  | EmptyString => Some acc
  | String c r =>
      if is_digit c then digits_value r (acc * 10 + (N_of_ascii c - 48))%N
      else None
  end.

Definition array_index (k : string) : option N :=
  match k with
  | EmptyString => None
  | String c r =>
      if Ascii.eqb c "0" && negb (String.eqb r "") then None
      else match digits_value k 0%N with
           | Some n => if (n <? 4294967295)%N then Some n else None
           | None => None
           end
  end.

Definition precedes (k k' : string) : bool :=
  match array_index k, array_index k' with
  | Some a, Some b => (a <? b)%N
  | Some _, None => true
  | None, _ => false
  end.

(** Defining the own property [k]: an existing key keeps its place. *)
Fixpoint obj_set (k : string) (v : JSValue) (ms : list (string * JSValue))
  : list (string * JSValue) :=
  match ms with
  | [] => [(k, v)]
  | (k', v') :: r =>
      if String.eqb k k' then (k, v) :: r
      else if precedes k k' then (k, v) :: ms
      else (k', v') :: obj_set k v r
  end.

Fixpoint lookup (k : string) (ms : list (string * JSValue)) : option JSValue :=
  match ms with
  | [] => None
  | (k', v) :: r => if String.eqb k k' then Some v else lookup k r
  end.

(** Reading the property [k] of a value that is neither [null] nor
    [undefined].  The sources read only [shouldReject], [rejectionReason],
    [summary], [insights], [boatOverview], [visualFocalPoints],
    [locationAdaptation], [generatedImage], [prompt] and [qualityReport]:
    none of them is inherited from a prototype, so the read finds an own
    property of an object or [undefined]. *)
Definition member (k : string) (v : JSValue) : option JSValue :=
  match v with
  | JObj ms => lookup k ms
  | _ => None
  end.

(** [ToBoolean]; [None] is [undefined]. *)
Definition to_boolean `{Engine} (v : option JSValue) : bool :=
  match v with
  | None | Some JNull => false
  | Some (JBool b) => b
  | Some (JNum n) => negb (number_is_zero n)
  | Some (JStr s) => negb (String.eqb s "")
  | Some (JArr _) | Some (JObj _) => true
  end.

(** [ToString], as a template literal applies it.  An object prints through
    [Object.prototype.toString] unless an own [toString] property (never
    callable after [JSON.parse]) shadows it: then the conversion throws. *)
Fixpoint to_string `{Engine} (v : JSValue) : Result string :=
  match v with
  | JNull => Ok "null"
  | JBool true => Ok "true"
  | JBool false => Ok "false"
  | JNum n => Ok (number_to_string n)
  | JStr s => Ok s
  | JArr items =>
      let piece x :=
        match x with
        | JNull => Ok ""
        | _ => to_string x
        end in
      (fix go (l : list JSValue) : Result string :=
         match l with
         | [] => Ok ""
         | x :: r =>
             match piece x with
             | Throw e => Throw e
             | Ok sx =>
                 match r with
                 | [] => Ok sx
                 | _ => match go r with
                        | Throw e => Throw e
                        | Ok sr => Ok (sx ++ "," ++ sr)
                        end
                 end
             end
         end) items
  | JObj ms =>
      match lookup "toString" ms with
      | Some _ => Throw (ErrorObj to_primitive_message)
      | None => Ok "[object Object]"
      end
  end.

(** *** [JSON.stringify] *)

Definition hex_digit (n : N) : string :=
  match get (N.to_nat n) "0123456789abcdef" with
  | Some c => String c ""
  | None => ""
  end.

Definition hex4 (n : N) : string :=
  hex_digit (N.land (N.shiftr n 12) 15) ++ hex_digit (N.land (N.shiftr n 8) 15)
  ++ hex_digit (N.land (N.shiftr n 4) 15) ++ hex_digit (N.land n 15).

Definition quote_char (c : ascii) : string :=
  let n := N_of_ascii c in
  if (n =? 34)%N then bsl ++ dq
  else if (n =? 92)%N then bsl ++ bsl
  else if (n =? 8)%N then bsl ++ "b"
  else if (n =? 9)%N then bsl ++ "t"
  else if (n =? 10)%N then bsl ++ "n"
  else if (n =? 12)%N then bsl ++ "f"
  else if (n =? 13)%N then bsl ++ "r"
  else if (n <? 32)%N then bsl ++ "u" ++ hex4 n
  else String c "".

(** The three bytes ED A0..BF xx stand for a lone surrogate, which
    [JSON.stringify] writes as an escape. *)
Fixpoint quote_chars (s : string) : string :=
  match s with
  | EmptyString => ""
  | String c r =>
      match r with
      | String b2 (String b3 r') =>
          if ((N_of_ascii c =? 237) && (160 <=? N_of_ascii b2))%N
          then bsl ++ "u"
               ++ hex4 (N.lor 53248 (N.lor (N.shiftl (N.land (N_of_ascii b2) 63) 6)
                                           (N.land (N_of_ascii b3) 63)))
               ++ quote_chars r'
          else quote_char c ++ quote_chars r
      | _ => quote_char c ++ quote_chars r
      end
  end.

Definition quote (s : string) : string := dq ++ quote_chars s ++ dq.

Fixpoint stringify `{Engine} (v : JSValue) : string :=
  match v with
  | JNull => "null"
  | JBool true => "true"
  | JBool false => "false"
  | JNum n => if number_is_finite n then number_to_string n else "null"
  | JStr s => quote s
  | JArr items => "[" ++ join "," (map stringify items) ++ "]"
  | JObj ms =>
      "{" ++ join "," (map (fun kv => quote (fst kv) ++ ":" ++ stringify (snd kv)) ms)
      ++ "}"
  end.

(** An object literal of the sources whose properties may be [undefined]:
    [JSON.stringify] leaves those out. *)
Definition Literal : Type := list (string * option JSValue).

Fixpoint literal_members (l : Literal) : list (string * JSValue) :=
  match l with
  | [] => []
  | (k, Some v) :: r => (k, v) :: literal_members r
  | (_, None) :: r => literal_members r
  end.

Definition stringify_literal `{Engine} (l : Literal) : string :=
  stringify (JObj (literal_members l)).

(** *** [JSON.parse] *)

Definition is_ws (c : ascii) : bool :=
  let n := nat_of_ascii c in
  ((n =? 32) || (n =? 9) || (n =? 10) || (n =? 13))%nat.

Fixpoint skip_ws (s : string) : string :=
  match s with
  | String c r => if is_ws c then skip_ws r else s
  | EmptyString => s
  end.

(** A character of a string literal: a byte of the text, or the UTF-16
    code unit a [\uXXXX] escape names. *)
Inductive Piece : Type :=
| PByte (c : ascii)
| PUnit (u : N).

Definition hex_value (c : ascii) : option N :=
  let n := N_of_ascii c in
  if ((48 <=? n) && (n <=? 57))%N then Some (n - 48)%N
  else if ((97 <=? n) && (n <=? 102))%N then Some (n - 87)%N
  else if ((65 <=? n) && (n <=? 70))%N then Some (n - 55)%N
  else None.

Definition hex4_value (a b c d : ascii) : option N :=
  match hex_value a, hex_value b, hex_value c, hex_value d with
  | Some x, Some y, Some z, Some w => Some (x * 4096 + y * 256 + z * 16 + w)%N
  | _, _, _, _ => None
  end.

Definition simple_escape (e : ascii) : option ascii :=
  let n := nat_of_ascii e in
  if (n =? 34)%nat then Some e
  else if (n =? 92)%nat then Some e
  else if (n =? 47)%nat then Some e
  else if (n =? 98)%nat then Some (ascii_of_nat 8)
  else if (n =? 102)%nat then Some (ascii_of_nat 12)
  else if (n =? 110)%nat then Some (ascii_of_nat 10)
  else if (n =? 114)%nat then Some (ascii_of_nat 13)
  else if (n =? 116)%nat then Some (ascii_of_nat 9)
  else None.

(** The characters of a string literal after its opening quote, up to the
    closing one, and the text that follows. *)
Fixpoint parse_chars (s : string) : option (list Piece * string) :=
  match s with
  | EmptyString => None
  | String c r =>
      if (nat_of_ascii c =? 34)%nat then Some ([], r)
      else if (nat_of_ascii c <? 32)%nat then None
      else if (nat_of_ascii c =? 92)%nat then
        match r with
        | EmptyString => None
        | String e r1 =>
            if (nat_of_ascii e =? 117)%nat then
              match r1 with
              | String h1 (String h2 (String h3 (String h4 r2))) =>
                  match hex4_value h1 h2 h3 h4, parse_chars r2 with
                  | Some u, Some (ps, rest) => Some (PUnit u :: ps, rest)
                  | _, _ => None
                  end
              | _ => None
              end
            else
              match simple_escape e, parse_chars r1 with
              | Some x, Some (ps, rest) => Some (PByte x :: ps, rest)
              | _, _ => None
              end
        end
      else
        match parse_chars r with
        | Some (ps, rest) => Some (PByte c :: ps, rest)
        | None => None
        end
  end.

(** UTF-8 of a code point (a lone surrogate gets its three bytes). *)
Definition byte (n : N) : string := String (ascii_of_N n) "".

Definition utf8 (cp : N) : string :=
  if (cp <? 128)%N then byte cp
  else if (cp <? 2048)%N then
    byte (192 + N.shiftr cp 6) ++ byte (128 + N.land cp 63)
  else if (cp <? 65536)%N then
    byte (224 + N.shiftr cp 12) ++ byte (128 + N.land (N.shiftr cp 6) 63)
    ++ byte (128 + N.land cp 63)
  else
    byte (240 + N.shiftr cp 18) ++ byte (128 + N.land (N.shiftr cp 12) 63)
    ++ byte (128 + N.land (N.shiftr cp 6) 63) ++ byte (128 + N.land cp 63).

Definition is_high (u : N) : bool := ((55296 <=? u) && (u <=? 56319))%N.
Definition is_low (u : N) : bool := ((56320 <=? u) && (u <=? 57343))%N.

Definition flush (hi : option N) : string :=
  match hi with
  | Some h => utf8 h
  | None => ""
  end.

(** The string the pieces denote; [hi] is a high surrogate waiting for its
    low half. *)
Fixpoint encode_pieces (hi : option N) (ps : list Piece) : string :=
  match ps with
  | [] => flush hi
  | PByte c :: r => flush hi ++ String c (encode_pieces None r)
  | PUnit u :: r =>
      match hi with
      | Some h =>
          if is_low u
          then utf8 (65536 + (h - 55296) * 1024 + (u - 56320)) ++ encode_pieces None r
          else if is_high u then utf8 h ++ encode_pieces (Some u) r
          else utf8 h ++ utf8 u ++ encode_pieces None r
      | None =>
          if is_high u then encode_pieces (Some u) r
          else utf8 u ++ encode_pieces None r
      end
  end.

Definition parse_string (s : string) : option (string * string) :=
  match parse_chars s with
  | Some (ps, rest) => Some (encode_pieces None ps, rest)
  | None => None
  end.

(** Numbers: an optional minus, then 0 or a digit string with no leading
    zero, an optional fraction and an optional exponent. *)
Fixpoint take_digits (s : string) : string * string :=
  match s with
  | String c r =>
      if is_digit c then let (ds, rest) := take_digits r in (String c ds, rest)
      else ("", s)
  | EmptyString => ("", s)
  end.

Definition parse_int_part (s : string) : option (string * string) :=
  match s with
  | String c r =>
      if Ascii.eqb c "0" then Some ("0", r)
      else if is_digit c then let (ds, rest) := take_digits r in Some (String c ds, rest)
      else None
  | EmptyString => None
  end.

Definition parse_fraction (s : string) : option (string * string) :=
  match s with
  | String c r =>
      if Ascii.eqb c "." then
        match take_digits r with
        | ("", _) => None
        | (ds, rest) => Some ("." ++ ds, rest)
        end
      else Some ("", s)
  | EmptyString => Some ("", s)
  end.

Definition parse_exponent (s : string) : option (string * string) :=
  match s with
  | String c r =>
      if Ascii.eqb c "e" || Ascii.eqb c "E" then
        let (sign, r1) :=
          match r with
          | String g r' =>
              if Ascii.eqb g "+" || Ascii.eqb g "-" then (String g "", r') else ("", r)
          | EmptyString => ("", r)
          end in
        match take_digits r1 with
        | ("", _) => None
        | (ds, rest) => Some (String c sign ++ ds, rest)
        end
      else Some ("", s)
  | EmptyString => Some ("", s)
  end.

Definition parse_number (s : string) : option (string * string) :=
  let (sign, s1) :=
    match s with
    | String c r => if Ascii.eqb c "-" then ("-", r) else ("", s)
    | EmptyString => ("", s)
    end in
  match parse_int_part s1 with
  | None => None
  | Some (i, s2) =>
      match parse_fraction s2 with
      | None => None
      | Some (f, s3) =>
          match parse_exponent s3 with
          | None => None
          | Some (e, s4) => Some (sign ++ i ++ f ++ e, s4)
          end
      end
  end.

Definition drop_prefix (p s : string) : option string :=
  if prefix p s then Some (substring (String.length p) (String.length s - String.length p) s)
  else None.

(** One value at the head of [s] (after white space) and the text after
    it.  Every call uses up one unit of [fuel]; [JSON_parse] gives more
    than the text has characters. *)
Fixpoint parse_value (fuel : nat) (s : string) {struct fuel}
  : option (JSValue * string) :=
  match fuel with
  | O => None
  | S n =>
      match skip_ws s with
      | EmptyString => None
      | String c r =>
          let k := nat_of_ascii c in
          if (k =? 123)%nat then
            match skip_ws r with
            | String c2 r2 =>
                if (nat_of_ascii c2 =? 125)%nat then Some (JObj [], r2)
                else match parse_members n [] r with
                     | Some (ms, rest) => Some (JObj ms, rest)
                     | None => None
                     end
            | EmptyString => None
            end
          else if (k =? 91)%nat then
            match skip_ws r with
            | String c2 r2 =>
                if (nat_of_ascii c2 =? 93)%nat then Some (JArr [], r2)
                else match parse_elements n [] r with
                     | Some (vs, rest) => Some (JArr vs, rest)
                     | None => None
                     end
            | EmptyString => None
            end
          else if (k =? 34)%nat then
            match parse_string r with
            | Some (str, rest) => Some (JStr str, rest)
            | None => None
            end
          else if (k =? 116)%nat then
            match drop_prefix "true" (String c r) with
            | Some rest => Some (JBool true, rest)
            | None => None
            end
          else if (k =? 102)%nat then
            match drop_prefix "false" (String c r) with
            | Some rest => Some (JBool false, rest)
            | None => None
            end
          else if (k =? 110)%nat then
            match drop_prefix "null" (String c r) with
            | Some rest => Some (JNull, rest)
            | None => None
            end
          else
            match parse_number (String c r) with
            | Some (lexeme, rest) => Some (JNum lexeme, rest)
            | None => None
            end
      end
  end

with parse_elements (fuel : nat) (acc : list JSValue) (s : string) {struct fuel}
  : option (list JSValue * string) :=
  match fuel with
  | O => None
  | S n =>
      match parse_value n s with
      | None => None
      | Some (v, r) =>
          match skip_ws r with
          | String c r' =>
              if (nat_of_ascii c =? 44)%nat then parse_elements n (acc ++ [v])%list r'
              else if (nat_of_ascii c =? 93)%nat then Some ((acc ++ [v])%list, r')
              else None
          | EmptyString => None
          end
      end
  end

with parse_members (fuel : nat) (acc : list (string * JSValue)) (s : string)
  {struct fuel} : option (list (string * JSValue) * string) :=
  match fuel with
  | O => None
  | S n =>
      match skip_ws s with
      | String c r =>
          if (nat_of_ascii c =? 34)%nat then
            match parse_string r with
            | None => None
            | Some (key, r1) =>
                match skip_ws r1 with
                | String c1 r2 =>
                    if (nat_of_ascii c1 =? 58)%nat then
                      match parse_value n r2 with
                      | None => None
                      | Some (v, r3) =>
                          match skip_ws r3 with
                          | String c3 r4 =>
                              if (nat_of_ascii c3 =? 44)%nat
                              then parse_members n (obj_set key v acc) r4
                              else if (nat_of_ascii c3 =? 125)%nat
                              then Some (obj_set key v acc, r4)
                              else None
                          | EmptyString => None
                          end
                      end
                    else None
                | EmptyString => None
                end
            end
          else None
      | EmptyString => None
      end
  end.

(** [JSON.parse(text)]: [None] stands for the [SyntaxError] it throws. *)
Definition JSON_parse (text : string) : option JSValue :=
  match parse_value (S (String.length text)) text with
  | Some (v, rest) =>
      match skip_ws rest with
      | EmptyString => Some v
      | String _ _ => None
      end
  | None => None
  end.

End JS.


(* ================================================================= *)
(** ** The route handler: src/app/api/process/route.ts *)
(* ================================================================= *)

Module Route.
Import JS.

(** *** The lexicons *)

Definition lensLexicon : list (string * string) :=
  [ ("wide-immersive",
     "ultra-wide 18mm lens, low horizon, cinematic atmosphere, immersive scale");
    ("action-zoom",
     "high-speed telephoto capture, sweeping rooster tail, tack sharp hull detail");
    ("luxury-showcase",
     "mid focal length lifestyle showcase, golden hour polish, upscale staging") ].

Definition dynamicDirectives : list (string * string) :=
  [ ("running",
     "capture hull-on-plane, spray arcs, strong diagonal energy, sense of motion");
    ("anchored",
     "quiet anchorage, glassy reflections, relaxed lifestyle moment with tasteful props");
    ("harbor",
     "arrival sequence past iconic marina landmarks, soft dusk lighting, warm hospitality") ].

(** Both lexicons are object literals, so [lexicon[key]] finds an own
    property or, failing that, what every object inherits from
    [Object.prototype]: its methods, and itself under [__proto__]. *)
Inductive Property : Type :=
| OwnString (s : string)
| NativeFunction (name : string)
| ObjectPrototype.

Definition object_prototype_methods : list (string * string) :=
  [ ("constructor", "Object");
    ("hasOwnProperty", "hasOwnProperty");
    ("isPrototypeOf", "isPrototypeOf");
    ("propertyIsEnumerable", "propertyIsEnumerable");
    ("toLocaleString", "toLocaleString");
    ("toString", "toString");
    ("valueOf", "valueOf");
    ("__defineGetter__", "__defineGetter__");
    ("__defineSetter__", "__defineSetter__");
    ("__lookupGetter__", "__lookupGetter__");
    ("__lookupSetter__", "__lookupSetter__") ].

Fixpoint assoc (k : string) (l : list (string * string)) : option string :=
  match l with
  | [] => None
  | (k', v) :: r => if String.eqb k k' then Some v else assoc k r
  end.

(** [obj[key]]; [None] is [undefined]. *)
Definition read_property (obj : list (string * string)) (key : string)
  : option Property :=
  match assoc key obj with
  | Some s => Some (OwnString s)
  | None =>
      match assoc key object_prototype_methods with
      | Some name => Some (NativeFunction name)
      | None => if String.eqb key "__proto__" then Some ObjectPrototype else None
      end
  end.

(** [a ?? b] *)
Definition coalesce {A : Type} (a b : option A) : option A :=
  match a with
  | Some x => Some x
  | None => b
  end.

(** How a template literal prints what [read_property] found. *)
Definition property_text (p : option Property) : string :=
  match p with
  | Some (OwnString s) => s
  | Some (NativeFunction name) => "function " ++ name ++ "() { [native code] }"
  | Some ObjectPrototype => "[object Object]"
  | None => "undefined"
  end.

(** *** The OpenAI client, an oracle *)

Record ContentBlock : Type := {
  block_type : option string;
  block_text : option string
}.

Record OutputItem : Type := { content : option (list ContentBlock) }.

(** What [client.responses.create] resolves to, as [extractMessageText]
    looks at it. *)
Inductive Payload : Type :=
| NotAnObject
| NoOutputKey
| WithOutput (output : option (list OutputItem)).

Record ResponsesRequest : Type := {
  rq_model : string;
  rq_text : string;
  rq_image_url : string;
  rq_detail : string;
  rq_temperature : string
}.

Record ImagesRequest : Type := {
  ig_model : string;
  ig_prompt : string;
  ig_size : string;
  ig_quality : string;
  ig_style : string
}.

Record ImageDatum : Type := { b64_json : option string }.
Record ImagesResponse : Type := { data : option (list ImageDatum) }.

Record OpenAI : Type := {
  responses_create : ResponsesRequest -> Result Payload;
  images_generate : ImagesRequest -> Result ImagesResponse
}.

(** *** Remote calls are recorded: a state-and-error monad over the trace *)

Inductive Call : Type :=
| ResponsesCall (r : ResponsesRequest)
| ImagesCall (r : ImagesRequest).

Definition M (A : Type) : Type := list Call -> Result A * list Call.

Definition ret {A : Type} (a : A) : M A := fun tr => (Ok a, tr).
Definition throw {A : Type} (e : Thrown) : M A := fun tr => (Throw e, tr).
Definition lift {A : Type} (r : Result A) : M A := fun tr => (r, tr).

Definition bind {A B : Type} (c : M A) (k : A -> M B) : M B :=
  fun tr =>
    match c tr with
    | (Ok a, tr') => k a tr'
    | (Throw e, tr') => (Throw e, tr')
    end.

Notation "x <- c ;; k" := (bind c (fun x => k))
  (at level 61, c at next level, right associativity).

Definition call_responses (client : OpenAI) (r : ResponsesRequest) : M Payload :=
  fun tr => (responses_create client r, (tr ++ [ResponsesCall r])%list).

Definition call_images (client : OpenAI) (r : ImagesRequest) : M ImagesResponse :=
  fun tr => (images_generate client r, (tr ++ [ImagesCall r])%list).

(** *** extractMessageText *)

Definition block_hit (b : ContentBlock) : option string :=
  match block_type b, block_text b with
  | Some ty, Some text =>
      if String.eqb ty "output_text" && negb (String.eqb text "") then Some text else None
  | _, _ => None
  end.

Fixpoint first_hit (blocks : list ContentBlock) : option string :=
  match blocks with
  | [] => None
  | b :: r => coalesce (block_hit b) (first_hit r)
  end.

Fixpoint scan_output (items : list OutputItem) : string :=
  match items with
  | [] => ""
  | item :: r =>
      match first_hit (match content item with Some bs => bs | None => [] end) with
      | Some text => text
      | None => scan_output r
      end
  end.

Definition extractMessageText (payload : Payload) : string :=
  match payload with
  | NotAnObject | NoOutputKey => ""
  | WithOutput output => scan_output (match output with Some o => o | None => [] end)
  end.

(** *** cleanJson *)

(** The text [cleanJson] hands to [JSON.parse], when it gets that far. *)
Definition json_span (text : string) : option string :=
  let start := indexOf text "{" in
  let end_ := lastIndexOf text "}" in
  if (start =? -1)%Z || (end_ =? -1)%Z then None
  else Some (slice text start (end_ + 1)%Z).

(** [null] and a caught [SyntaxError] both come out as [None]. *)
Definition cleanJson (text : string) : option JSValue :=
  match json_span text with
  | None => None
  | Some span => JSON_parse span
  end.

(** *** analyzeSourceImage *)

Definition analysis_instruction : string :=
  "You are a marine photo analyst. Inspect the image for boats on trailers and dealership backdrops. "
  ++ "Return JSON with keys: shouldReject (boolean), rejectionReason (string), summary (string), boatOverview, visualFocalPoints, locationAdaptation. "
  ++ "shouldReject must be true if any trailer parts, parking lot, ramps, vehicles, or dealership clutter dominate the frame or if the boat is occluded.".

Definition analysis_request (imageBase64 mimeType : string) : ResponsesRequest :=
  {| rq_model := "gpt-4.1-mini";
     rq_text := analysis_instruction;
     rq_image_url := "data:" ++ mimeType ++ ";base64," ++ imageBase64;
     rq_detail := "high";
     rq_temperature := "0.2" |}.

(** The payload returned when nothing could be parsed. *)
Definition default_analysis : JSValue :=
  JObj [ ("shouldReject", JBool false);
         ("summary",
          JStr "Unable to parse structured inspection; proceeding with default transformation.");
         ("insights", JObj []) ].

(** The parsed value is cast to [AnalysisPayload] unchecked, so the
    analysis is whatever JSON value came back. *)
Definition analyzeSourceImage `{Engine} (client : OpenAI)
  (imageBase64 mimeType : string) : M JSValue :=
  res <- call_responses client (analysis_request imageBase64 mimeType) ;;
  match cleanJson (extractMessageText res) with
  | Some parsed => if to_boolean (Some parsed) then ret parsed else ret default_analysis
  | None => ret default_analysis
  end.

(** *** generateShot *)

Definition images_request (prompt : string) : ImagesRequest :=
  {| ig_model := "gpt-image-1";
     ig_prompt := prompt;
     ig_size := "1024x1024";
     ig_quality := "high";
     ig_style := "natural" |}.

Definition first_b64 (response : ImagesResponse) : option string :=
  match data response with
  | Some (d :: _) =>
      match b64_json d with
      | Some b => if String.eqb b "" then None else Some b
      | None => None
      end
  | _ => None
  end.

Definition generateShot (client : OpenAI) (prompt : string) : M string :=
  response <- call_images client (images_request prompt) ;;
  match first_b64 response with
  | None => throw (ErrorObj "Image generation returned no data.")
  | Some b => ret ("data:image/png;base64," ++ b)
  end.

(** *** verifyComposite *)

Definition verify_instruction : string :=
  "You are a marine art director. Inspect the generated photo for lingering trailer fragments, warped hulls, or water physics issues. "
  ++ "Respond with a short paragraph describing quality, authenticity, and any detected issues. Flag any problem explicitly.".

Definition verify_request (imageBase64 : string) : ResponsesRequest :=
  {| rq_model := "gpt-4.1-mini";
     rq_text := verify_instruction;
     rq_image_url := "data:image/png;base64," ++ imageBase64;
     rq_detail := "high";
     rq_temperature := "0.3" |}.

Definition verifyComposite (client : OpenAI) (imageBase64 : string) : M string :=
  res <- call_responses client (verify_request imageBase64) ;;
  ret (extractMessageText res).

(** *** POST *)

Record File : Type := {
  file_name : string;
  file_type : string;
  file_bytes : list ascii
}.

Inductive FormDataEntryValue : Type :=
| EString (s : string)
| EFile (f : File).

Definition FormData : Type := list (string * FormDataEntryValue).

(** [form.get(name)]: the first value under [name], or [null]. *)
Fixpoint form_get (form : FormData) (name : string) : option FormDataEntryValue :=
  match form with
  | [] => None
  | (k, v) :: r => if String.eqb k name then Some v else form_get r name
  end.

(** [request.formData()] may reject (a body that is no form). *)
Record Request : Type := { formData : Result FormData }.

Record NextResponse : Type := {
  status : nat;
  body : Literal
}.

(** [image.type || "image/jpeg"] *)
Definition mime_of (image : File) : string :=
  if String.eqb (file_type image) "" then "image/jpeg" else file_type image.

(** [(form.get(name) as string) || fallback].  The cast checks nothing: a
    [File] sent under the name passes, and prints as "[object File]" in the
    only places the value is used, a template literal and a property key. *)
Definition field_or (v : option FormDataEntryValue) (fallback : string) : string :=
  match v with
  | None => fallback
  | Some (EString s) => if String.eqb s "" then fallback else s
  | Some (EFile _) => "[object File]"
  end.

(** [form.get("includeInteriors") === "true"] *)
Definition is_true_string (v : option FormDataEntryValue) : bool :=
  match v with
  | Some (EString s) => String.eqb s "true"
  | _ => false
  end.

Definition interior_sentence : string :=
  "Deliver a secondary interior vantage with luxurious wide-angle cabin framing.".

Definition exterior_sentence : string := "Focus solely on exterior hero shot.".

Definition reinforcement (includeInteriors : bool) : string :=
  join " "
    [ "No trailers, parking lots, or dealership backgrounds.";
      "Boat dominates the frame with authentic reflections and crisp wake physics.";
      "Match hull lines, colors, and trim accents from the source description.";
      if includeInteriors then interior_sentence else exterior_sentence ].

(** [obj.key] where [obj] itself may be [null] or [undefined]. *)
Definition read_member `{Engine} (obj : option JSValue) (key : string)
  : Result (option JSValue) :=
  match obj with
  | None => Throw (ErrorObj (cannot_read_message false key))
  | Some JNull => Throw (ErrorObj (cannot_read_message true key))
  | Some v => Ok (member key v)
  end.

(** [`${value ?? fallback}`] *)
Definition text_or `{Engine} (value : option JSValue) (fallback : string)
  : Result string :=
  match value with
  | None | Some JNull => Ok fallback
  | Some v => to_string v
  end.

Definition lensDirective (lens : string) : option Property :=
  coalesce (read_property lensLexicon lens) (read_property lensLexicon "wide-immersive").

Definition motionDirective (dynamic : string) : option Property :=
  coalesce (read_property dynamicDirectives dynamic)
           (read_property dynamicDirectives "running").

(** The prompt, built in the order the array literal evaluates its
    elements: reading [analysis.insights.x] throws when [insights] is
    missing, and printing the value may throw. *)
Definition build_prompt `{Engine} (location lens dynamic : string)
  (includeInteriors : bool) (analysis : JSValue) : Result string :=
  let insights := member "insights" analysis in
  match read_member insights "boatOverview" with
  | Throw e => Throw e
  | Ok overview =>
  match text_or overview "modern powerboat." with
  | Throw e => Throw e
  | Ok overview_text =>
  match read_member insights "visualFocalPoints" with
  | Throw e => Throw e
  | Ok focal =>
  match text_or focal "sleek hull, helm, passengers if present." with
  | Throw e => Throw e
  | Ok focal_text =>
  match read_member insights "locationAdaptation" with
  | Throw e => Throw e
  | Ok cues =>
  match text_or cues "match regional water coloration and skyline." with
  | Throw e => Throw e
  | Ok cues_text =>
      Ok (join " "
            [ "Transform this vessel into a premium marketing render shot on the water.";
              "Locale: " ++ location ++ ".";
              "Lens profile: " ++ property_text (lensDirective lens) ++ ".";
              "Shot dynamic: " ++ property_text (motionDirective dynamic) ++ ".";
              "Boat summary: " ++ overview_text;
              "Key focal points: " ++ focal_text;
              "Local cues: " ++ cues_text;
              reinforcement includeInteriors;
              "Hyper-realistic photographic lighting, zero distortion, glossy magazine quality." ])
  end end end end end end.

(** [a ?? b] on a value read from the analysis. *)
Definition value_or (value : option JSValue) (fallback : JSValue) : JSValue :=
  match value with
  | None | Some JNull => fallback
  | Some v => v
  end.

(** The handler from the test of [analysis.shouldReject] on: the
    rejection, or stages 2 and 3 and the success response. *)
Definition respond `{Engine} (openai : OpenAI) (location lens dynamic : string)
  (includeInteriors : bool) (analysis : JSValue) : M NextResponse :=
  if to_boolean (member "shouldReject" analysis) then
    ret {| status := 422;
           body := [ ("error", Some (JStr "Source image rejected"));
                     ("reason", member "rejectionReason" analysis) ] |}
  else
    prompt <- lift (build_prompt location lens dynamic includeInteriors analysis) ;;
    finalImage <- generateShot openai prompt ;;
    let finalBase64 :=
      match nth_error (split finalImage ",") 1 with
      | Some part => part
      | None => ""
      end in
    qualityReport <- verifyComposite openai finalBase64 ;;
    ret {| status := 200;
           body := [ ("generatedImage", Some (JStr finalImage));
                     ("prompt", Some (JStr prompt));
                     ("summary",
                      Some (value_or (member "summary" analysis)
                              (JStr "Marine transformation and trailer cleanup completed successfully.")));
                     ("qualityReport", Some (JStr qualityReport));
                     ("insights", member "insights" analysis) ] |}.

(** The handler.  [env_key] is [process.env.OPENAI_API_KEY] and [sdk] the
    constructor [new OpenAI({ apiKey })]. *)
Definition POST `{Engine} (env_key : option string) (sdk : string -> OpenAI)
  (request : Request) : M NextResponse :=
  match env_key with
  | None => ret {| status := 500; body := [("error", Some (JStr "OPENAI_API_KEY missing"))] |}
  | Some key =>
  if String.eqb key "" then
    ret {| status := 500; body := [("error", Some (JStr "OPENAI_API_KEY missing"))] |}
  else
    let openai := sdk key in
    form <- lift (formData request) ;;
    let image := form_get form "image" in
    let location := field_or (form_get form "location") "Local waterways" in
    let lens := field_or (form_get form "lens") "wide-immersive" in
    let dynamic := field_or (form_get form "dynamic") "running" in
    let includeInteriors := is_true_string (form_get form "includeInteriors") in
    match image with
    | Some (EFile image) =>
        let base64 := JS.base64 (file_bytes image) in
        let mimeType := mime_of image in
        analysis <- analyzeSourceImage openai base64 mimeType ;;
        respond openai location lens dynamic includeInteriors analysis
    | _ => ret {| status := 400; body := [("error", Some (JStr "Missing upload"))] |}
    end
  end.

End Route.

(* ================================================================= *)
(** ** The upload queue: src/components/workflow-uploader.tsx *)
(* ================================================================= *)

Module Uploader.
Import JS.

Definition File : Type := Route.File.
Definition FormData : Type := Route.FormData.

Inductive ProcessingStatus : Type :=
| Idle
| Ready
| Analyzing
| Generating
| Verifying
| Complete
| Error.

Definition status_eqb (a b : ProcessingStatus) : bool :=
  match a, b with
  | Idle, Idle | Ready, Ready | Analyzing, Analyzing | Generating, Generating
  | Verifying, Verifying | Complete, Complete | Error, Error => true
  | _, _ => false
  end.

(** The fields are typed [string] in the source but filled from an
    unchecked JSON payload: each holds whatever value was there, or
    [undefined]. *)
Record ProcessedResult : Type := {
  finalImage : option JSValue;
  prompt : option JSValue;
  summary : option JSValue;
  qualityReport : option JSValue;
  insights : JSValue
}.

Record QueueItem : Type := {
  id : string;
  file : File;
  previewUrl : string;
  status : ProcessingStatus;
  logs : list string;
  result : option ProcessedResult;
  error : option string
}.

(** [Partial<QueueItem>]: [None] is a key the update does not carry. *)
Record Partial : Type := {
  p_id : option string;
  p_file : option File;
  p_previewUrl : option string;
  p_status : option ProcessingStatus;
  p_logs : option (list string);
  p_result : option ProcessedResult;
  p_error : option string
}.

Definition no_updates : Partial :=
  {| p_id := None; p_file := None; p_previewUrl := None; p_status := None;
     p_logs := None; p_result := None; p_error := None |}.

(** The component's state: one [useState] cell per field. *)
Record State : Type := {
  queue : list QueueItem;
  location : string;
  lens : string;
  dynamic : string;
  includeInteriors : bool;
  isProcessing : bool
}.

Definition initial_state : State :=
  {| queue := []; location := ""; lens := "wide-immersive"; dynamic := "running";
     includeInteriors := true; isProcessing := false |}.

Definition setQueue (f : list QueueItem -> list QueueItem) (st : State) : State :=
  {| queue := f (queue st); location := location st; lens := lens st;
     dynamic := dynamic st; includeInteriors := includeInteriors st;
     isProcessing := isProcessing st |}.

Definition setLocation (v : string) (st : State) : State :=
  {| queue := queue st; location := v; lens := lens st; dynamic := dynamic st;
     includeInteriors := includeInteriors st; isProcessing := isProcessing st |}.

Definition setLens (v : string) (st : State) : State :=
  {| queue := queue st; location := location st; lens := v; dynamic := dynamic st;
     includeInteriors := includeInteriors st; isProcessing := isProcessing st |}.

Definition setDynamic (v : string) (st : State) : State :=
  {| queue := queue st; location := location st; lens := lens st; dynamic := v;
     includeInteriors := includeInteriors st; isProcessing := isProcessing st |}.

Definition setIncludeInteriors (v : bool) (st : State) : State :=
  {| queue := queue st; location := location st; lens := lens st;
     dynamic := dynamic st; includeInteriors := v; isProcessing := isProcessing st |}.

Definition setIsProcessing (v : bool) (st : State) : State :=
  {| queue := queue st; location := location st; lens := lens st;
     dynamic := dynamic st; includeInteriors := includeInteriors st;
     isProcessing := v |}.

(** *** The queue operations *)

Definition eligible (item : QueueItem) : bool :=
  status_eqb (status item) Idle || status_eqb (status item) Ready.

Definition readyForProcessing (st : State) : bool :=
  (0 <? List.length (queue st))%nat && existsb eligible (queue st).

Definition supported_types : list string :=
  ["image/jpeg"; "image/png"; "image/webp"; "image/heic"; "image/heif"].

Definition supported (f : File) : bool :=
  existsb (String.eqb (Route.file_type f)) supported_types.

(** [handleFiles]; [fresh] holds what [crypto.randomUUID()] and
    [URL.createObjectURL(file)] return for each retained file. *)
Definition handleFiles (files : option (list File)) (fresh : list (string * string))
  (prev : list QueueItem) : list QueueItem :=
  match files with
  | None => prev
  | Some fs =>
      let mapped :=
        map (fun fu : File * (string * string) =>
               {| id := fst (snd fu); file := fst fu; previewUrl := snd (snd fu);
                  status := Ready; logs := ["Queued for processing"];
                  result := None; error := None |})
            (combine (filter supported fs) fresh) in
      (prev ++ mapped)%list
  end.

Definition removeItem (target : string) (prev : list QueueItem) : list QueueItem :=
  filter (fun item => negb (String.eqb (id item) target)) prev.

Definition or_else {A : Type} (o : option A) (d : A) : A :=
  match o with
  | Some x => x
  | None => d
  end.

(** [{ ...item, ...updates }], then the logs put back with the new entries
    after the old ones. *)
Definition merge (item : QueueItem) (updates : Partial) : QueueItem :=
  {| id := or_else (p_id updates) (id item);
     file := or_else (p_file updates) (file item);
     previewUrl := or_else (p_previewUrl updates) (previewUrl item);
     status := or_else (p_status updates) (status item);
     logs := match p_logs updates with
             | Some entries => (logs item ++ entries)%list
             | None => logs item
             end;
     result := match p_result updates with
               | Some r => Some r
               | None => result item
               end;
     error := match p_error updates with
              | Some e => Some e
              | None => error item
              end |}.

Definition updateQueueItem (target : string) (updates : Partial)
  (prev : list QueueItem) : list QueueItem :=
  map (fun item => if negb (String.eqb (id item) target) then item else merge item updates)
      prev.

Definition appendLog (target entry : string) (prev : list QueueItem) : list QueueItem :=
  updateQueueItem target
    {| p_id := None; p_file := None; p_previewUrl := None; p_status := None;
       p_logs := Some [entry]; p_result := None; p_error := None |} prev.

(** *** Asynchronous code *)

(** What [await fetch(...)] gives back: a rejection, or a response with its
    [ok] flag and what reading its body will yield. *)
Inductive FetchOutcome : Type :=
| Rejected (e : Thrown)
| Resolved (ok : bool) (text : Result string).

(** An [async] function body as a tree: state updates, and the two kinds
    of [await] at which it hands control back to the event loop. *)
Inductive Task : Type :=
| Return
| SetState (f : State -> State) (k : Task)
| AwaitFetch (body : FormData) (k : FetchOutcome -> Task)
| AwaitBody (k : Task).

Definition do_appendLog (target entry : string) (k : Task) : Task :=
  SetState (setQueue (appendLog target entry)) k.

Definition do_update (target : string) (updates : Partial) (k : Task) : Task :=
  SetState (setQueue (updateQueueItem target updates)) k.

(** The emoji that open the log lines, as their UTF-8 bytes. *)
Definition rocket : string := "🚀".
Definition magnifier : string := "🔍".
Definition cross : string := "❌".
Definition palette : string := "🎨".
Definition repeat_sign : string := "🔁".

(** [String(includeInteriors)] *)
Definition string_of_bool (b : bool) : string := if b then "true" else "false".

(** The form the closure [env] sends for [item]. *)
Definition form_of (env : State) (item : QueueItem) : FormData :=
  [ ("image", Route.EFile (file item));
    ("location", Route.EString (location env));
    ("lens", Route.EString (lens env));
    ("dynamic", Route.EString (dynamic env));
    ("includeInteriors", Route.EString (string_of_bool (includeInteriors env))) ].

(** The [catch] block. *)
Definition on_catch (target : string) (e : Thrown) (k : Task) : Task :=
  let message :=
    match e with
    | ErrorObj m => m
    | NonError => "Unknown processing error"
    end in
  do_appendLog target (cross ++ " " ++ message)
    (do_update target
       {| p_id := None; p_file := None; p_previewUrl := None; p_status := Some Error;
          p_logs := None; p_result := None; p_error := Some message |} k).

(** [response.json()]: the body, parsed. *)
Definition response_json `{Engine} (text : Result string) : Result JSValue :=
  match text with
  | Throw e => Throw e
  | Ok t =>
      match JSON_parse t with
      | Some v => Ok v
      | None => Throw (ErrorObj (syntax_error_message t))
      end
  end.

(** The object literal handed to the last update; reading a property of a
    [null] payload throws. *)
Definition result_of `{Engine} (payload : JSValue) : Result ProcessedResult :=
  match payload with
  | JNull => Throw (ErrorObj (cannot_read_message true "generatedImage"))
  | _ =>
      Ok {| finalImage := member "generatedImage" payload;
            prompt := member "prompt" payload;
            summary := member "summary" payload;
            qualityReport := member "qualityReport" payload;
            insights := Route.value_or (member "insights" payload) (JObj []) |}
  end.

(** The code that runs once the body has been read. *)
Definition after_body `{Engine} (item : QueueItem) (ok : bool)
  (text : Result string) (k : Task) : Task :=
  if negb ok then
    match text with
    | Throw e => on_catch (id item) e k
    | Ok t =>
        do_appendLog (id item) (cross ++ " Failed: " ++ t)
          (do_update (id item)
             {| p_id := None; p_file := None; p_previewUrl := None;
                p_status := Some Error; p_logs := None; p_result := None;
                p_error := Some t |} k)
    end
  else
    match response_json text with
    | Throw e => on_catch (id item) e k
    | Ok payload =>
        do_update (id item)
          {| p_id := None; p_file := None; p_previewUrl := None;
             p_status := Some Generating; p_logs := None; p_result := None;
             p_error := None |}
          (do_appendLog (id item) (palette ++ " Rendering cinematic water shot")
             (do_update (id item)
                {| p_id := None; p_file := None; p_previewUrl := None;
                   p_status := Some Verifying; p_logs := None; p_result := None;
                   p_error := None |}
                (do_appendLog (id item)
                   (repeat_sign ++ " Double-checking trailer removal and composition")
                   match result_of payload with
                   | Throw e => on_catch (id item) e k
                   | Ok r =>
                       do_update (id item)
                         {| p_id := None; p_file := None; p_previewUrl := None;
                            p_status := Some Complete; p_logs := None;
                            p_result := Some r; p_error := None |} k
                   end)))
    end.

(** The code that runs once [fetch] has settled. *)
Definition after_fetch `{Engine} (item : QueueItem) (o : FetchOutcome) (k : Task)
  : Task :=
  match o with
  | Rejected e => on_catch (id item) e k
  | Resolved ok text => AwaitBody (after_body item ok text k)
  end.

(** One turn of the [for] loop; [k] is the rest of the loop. *)
Definition process_item `{Engine} (env : State) (item : QueueItem) (k : Task) : Task :=
  if status_eqb (status item) Complete then k
  else
    do_appendLog (id item) (rocket ++ " Starting processing pipeline")
      (do_update (id item)
         {| p_id := None; p_file := None; p_previewUrl := None;
            p_status := Some Analyzing; p_logs := None; p_result := None;
            p_error := None |}
         (do_appendLog (id item)
            (magnifier ++ " Extracting vessel details and trailer remnants")
            (AwaitFetch (form_of env item) (fun o => after_fetch item o k)))).

Fixpoint process_items `{Engine} (env : State) (items : list QueueItem) : Task :=
  match items with
  | [] => SetState (setIsProcessing false) Return
  | item :: rest => process_item env item (process_items env rest)
  end.

(** [processQueue] as the render with state [env] creates it: the callback
    closes over that render's [queue], [location], [lens], [dynamic],
    [includeInteriors], [isProcessing] and [readyForProcessing]. *)
Definition processQueue `{Engine} (env : State) : Task :=
  if negb (readyForProcessing env) || isProcessing env then Return
  else SetState (setIsProcessing true) (process_items env (queue env)).

(** *** The event loop *)

Inductive Suspended : Type :=
| OnFetch (body : FormData) (k : FetchOutcome -> Task)
| OnBody (k : Task).

(** Runs [t] up to its next [await]; the states passed through are kept,
    latest first. *)
Fixpoint run (t : Task) (st : State) (seen : list State)
  : State * list State * option Suspended :=
  match t with
  | Return => (st, seen, None)
  | SetState f k => run k (f st) (f st :: seen)
  | AwaitFetch body k => (st, seen, Some (OnFetch body k))
  | AwaitBody k => (st, seen, Some (OnBody k))
  end.

(** The page: the component's state, the async calls waiting on the
    network, every state the component has been in (latest first), every
    request sent so far (oldest first) and every UUID handed out. *)
Record World : Type := {
  state : State;
  pending : list Suspended;
  history : list State;
  requests : list FormData;
  issued : list string
}.

Definition initial : World :=
  {| state := initial_state; pending := []; history := [initial_state];
     requests := []; issued := [] |}.

Inductive Event : Type :=
| PickFiles (files : option (list File)) (fresh : list (string * string))
| ClickRemove (target : string)
| TypeLocation (v : string)
| ChooseLens (v : string)
| ChooseDynamic (v : string)
| ToggleInteriors (v : bool)
| ClickClear
| ClickLaunch
| FetchSettles (n : nat) (o : FetchOutcome)
| BodyRead (n : nat).

Definition with_state (w : World) (st : State) : World :=
  {| state := st; pending := pending w; history := st :: history w;
     requests := requests w; issued := issued w |}.

(** Runs a task from the page's current state and files what it is left
    waiting for. *)
Definition resume (w : World) (others : list Suspended) (t : Task) : World :=
  let '(st, seen, susp) := run t (state w) (history w) in
  {| state := st;
     pending := match susp with
                | Some s => (others ++ [s])%list
                | None => others
                end;
     history := seen;
     requests := match susp with
                 | Some (OnFetch body _) => (requests w ++ [body])%list
                 | _ => requests w
                 end;
     issued := issued w |}.

Fixpoint remove_nth {A : Type} (n : nat) (l : list A) : list A :=
  match n, l with
  | _, [] => []
  | O, _ :: r => r
  | S m, x :: r => x :: remove_nth m r
  end.

Fixpoint distinct (l : list string) : bool :=
  match l with
  | [] => true
  | x :: r => negb (existsb (String.eqb x) r) && distinct r
  end.

(** The UUIDs are new: none repeats, none was handed out before, and there
    is one per retained file. *)
Definition fresh_ok (w : World) (files : option (list File))
  (fresh : list (string * string)) : bool :=
  distinct (map fst fresh)
  && forallb (fun u => negb (existsb (String.eqb u) (issued w))) (map fst fresh)
  && (List.length fresh =? List.length (filter supported (or_else files [])))%nat.

(** One event.  [None]: the page offers no such event in [w] (a control is
    disabled or not rendered, nothing waits at that place). *)
Definition step `{Engine} (w : World) (e : Event) : option World :=
  match e with
  | PickFiles files fresh =>
      if fresh_ok w files fresh then
        Some {| state := setQueue (handleFiles files fresh) (state w);
                pending := pending w;
                history := setQueue (handleFiles files fresh) (state w) :: history w;
                requests := requests w;
                issued := (issued w ++ map fst fresh)%list |}
      else None
  | ClickRemove target =>
      if existsb (fun item => String.eqb (id item) target && status_eqb (status item) Error)
                 (queue (state w))
      then Some (with_state w (setQueue (removeItem target) (state w)))
      else None
  | TypeLocation v => Some (with_state w (setLocation v (state w)))
  | ChooseLens v => Some (with_state w (setLens v (state w)))
  | ChooseDynamic v => Some (with_state w (setDynamic v (state w)))
  | ToggleInteriors v => Some (with_state w (setIncludeInteriors v (state w)))
  | ClickClear =>
      if isProcessing (state w) then None
      else Some (with_state (with_state w (setQueue (fun _ => []) (state w)))
                            (setIsProcessing false (setQueue (fun _ => []) (state w))))
  | ClickLaunch => Some (resume w (pending w) (processQueue (state w)))
  | FetchSettles n o =>
      match nth_error (pending w) n with
      | Some (OnFetch _ k) => Some (resume w (remove_nth n (pending w)) (k o))
      | _ => None
      end
  | BodyRead n =>
      match nth_error (pending w) n with
      | Some (OnBody k) => Some (resume w (remove_nth n (pending w)) k)
      | _ => None
      end
  end.

Fixpoint steps `{Engine} (w : World) (es : list Event) : option World :=
  match es with
  | [] => Some w
  | e :: r =>
      match step w e with
      | Some w' => steps w' r
      | None => None
      end
  end.

(** The worlds the page can be in. *)
Inductive reachable `{Engine} : World -> Prop :=
| reach_initial : reachable initial
| reach_step : forall w e w', reachable w -> step w e = Some w' -> reachable w'.

End Uploader.


(* ================================================================= *)
(** ** What the component renders *)
(* ================================================================= *)

Module Page.
Import JS.
Import Uploader.

(** *** The option tables *)

Record StyleOption : Type := {
  option_id : string;
  label : string;
  description : string
}.

Definition lensStyles : list StyleOption :=
  [ {| option_id := "wide-immersive"; label := "Wide Immersive";
       description := "Dramatic sweep with immersive horizon lines and cinematic depth." |};
    {| option_id := "action-zoom"; label := "Action Zoom";
       description := "Telephoto burst capturing speed, rooster tails, and tight detail." |};
    {| option_id := "luxury-showcase"; label := "Luxury Showcase";
       description := "Focused on premium finishes, lifestyle staging, and deck layouts." |} ].

Definition shotDynamics : list StyleOption :=
  [ {| option_id := "running"; label := "Running Shot";
       description := "Full-throttle carving with crisp wake detail and dynamic spray." |};
    {| option_id := "anchored"; label := "Anchored Lifestyle";
       description := "Calm water, scenic anchorage, elegant composition for brochures." |};
    {| option_id := "harbor"; label := "Harbor Arrival";
       description := "Iconic local landmarks, marina energy, and on-brand mood." |} ].

Definition defaultLocationExamples : list string :=
  [ "Fort Lauderdale, FL (Intracoastal Waterway)";
    "San Diego, CA (Mission Bay)";
    "Seattle, WA (Lake Union)";
    "Lake of the Ozarks, MO" ].

(** The events the rendered controls can raise: a radio button sets the
    id of its option, an example button its example; the text box, the
    file input and the buttons are as in [Uploader.step]. *)
Definition offered (e : Event) : Prop :=
  match e with
  | ChooseLens v => In v (map option_id lensStyles)
  | ChooseDynamic v => In v (map option_id shotDynamics)
  | _ => True
  end.

(** *** A card of the queue *)

(** The badge on the picture. *)
Definition badge (item : QueueItem) : string :=
  if status_eqb (status item) Complete then "Final" else "Source".

(** [item.result?.finalImage ?? item.previewUrl] *)
Definition image_src (item : QueueItem) : JSValue :=
  match result item with
  | Some r => Route.value_or (finalImage r) (JStr (previewUrl item))
  | None => JStr (previewUrl item)
  end.

(** The names of the statuses, as the type [ProcessingStatus] spells them. *)
Definition status_name (s : ProcessingStatus) : string :=
  match s with
  | Idle => "idle"
  | Ready => "ready"
  | Analyzing => "analyzing"
  | Generating => "generating"
  | Verifying => "verifying"
  | Complete => "complete"
  | Error => "error"
  end.

(** [toUpperCase] on one character of a status name (ASCII). *)
Definition to_upper (c : ascii) : ascii :=
  let n := nat_of_ascii c in
  if ((97 <=? n) && (n <=? 122))%nat then ascii_of_nat (n - 32) else c.

(** [s.charAt(0).toUpperCase() + s.slice(1)] *)
Definition capitalize (s : string) : string :=
  match s with
  | EmptyString => ""
  | String c r => String (to_upper c) r
  end.

Definition status_label (item : QueueItem) : string :=
  if status_eqb (status item) Complete then "Ready for download"
  else if status_eqb (status item) Error then "Action required"
  else capitalize (status_name (status item)).

(** [item.status === 'complete' && item.result]: the quality report, the
    prompt and the download link are rendered. *)
Definition shows_result (item : QueueItem) : bool :=
  status_eqb (status item) Complete
  && match result item with Some _ => true | None => false end.

(** [item.status !== 'complete' && item.status !== 'error']: the progress
    bar is rendered. *)
Definition shows_progress (item : QueueItem) : bool :=
  negb (status_eqb (status item) Complete) && negb (status_eqb (status item) Error).

(** [item.status === 'error']: the "Remove Item" button is rendered. *)
Definition shows_remove (item : QueueItem) : bool := status_eqb (status item) Error.

(** *** The name of the download *)

(** The class [[^/.]]. *)
Definition extension_char (c : ascii) : bool :=
  negb (Ascii.eqb c "/") && negb (Ascii.eqb c ".").

Fixpoint all_extension_chars (s : string) : bool :=
  match s with
  | EmptyString => true
  | String c r => extension_char c && all_extension_chars r
  end.

(** The pattern [/\.[^/.]+$/] matched at the head of [s]: a dot, then one
    or more characters of the class, then the end of the text. *)
Definition extension_here (s : string) : bool :=
  match s with
  | String c (String d r) => Ascii.eqb c "." && all_extension_chars (String d r)
  | _ => false
  end.

(** [name.replace(/\.[^/.]+$/, '')]: the leftmost match, which runs to the
    end of the name, is cut off. *)
Fixpoint strip_extension (name : string) : string :=
  if extension_here name then ""
  else match name with
       | EmptyString => ""
       | String c r => String c (strip_extension r)
       end.

(** The [download] attribute of the link. *)
Definition download_name (item : QueueItem) : string :=
  strip_extension (Route.file_name (file item)) ++ "-on-water.png".

(** *** The footer *)

Definition banner (st : State) : string :=
  if isProcessing st then "Processing batch… Rendering premium marina assets."
  else if readyForProcessing st
       then "Ready when you are. Queue up more shots or launch the transformation."
       else "Load files to kick off the marina-grade enhancement pipeline.".

Definition clear_disabled (st : State) : bool := isProcessing st.

Definition launch_disabled (st : State) : bool :=
  negb (readyForProcessing st) || isProcessing st.

Definition launch_label (st : State) : string :=
  if isProcessing st then "Transforming…" else "Launch Transformation".

End Page.

(* ================================================================= *)
(** ** Definitions used to state the properties *)
(* ================================================================= *)

Import JS.

(** The character [c] occurs in [s]. *)
Fixpoint occurs (c : ascii) (s : string) : bool :=
  match s with
  | EmptyString => false
  | String d r => Ascii.eqb d c || occurs c r
  end.


(** Follows the spec's words ("the first balanced {...} span"): from an
    opening brace, the text up to the closing brace that brings the
    nesting depth back to zero. *)
Fixpoint balanced_from (s : string) (depth : nat) (acc : string) : option string :=
  match s with
  | EmptyString => None
  | String c r =>
      if Ascii.eqb c "{" then balanced_from r (S depth) (acc ++ String c "")
      else if Ascii.eqb c "}" then
        match depth with
        | O => Some (acc ++ String c "")
        | S d => balanced_from r d (acc ++ String c "")
        end
      else balanced_from r depth (acc ++ String c "")
  end.

Fixpoint first_balanced_span (s : string) : option string :=
  match s with
  | EmptyString => None
  | String c r =>
      if Ascii.eqb c "{" then
        match balanced_from r 0 "{" with
        | Some span => Some span
        | None => first_balanced_span r
        end
      else first_balanced_span r
  end.

(** An engine for the concrete runs: V8's messages; a number prints as it
    was written and is zero when its mantissa has no digit but 0 (exact for
    the numbers those runs contain). *)
Fixpoint mantissa_is_zero (s : string) : bool :=
  match s with
  | EmptyString => true
  | String c r =>
      if Ascii.eqb c "e" || Ascii.eqb c "E" then true
      else (negb (is_digit c) || Ascii.eqb c "0") && mantissa_is_zero r
  end.

Definition v8_like : Engine :=
  {| number_is_zero := mantissa_is_zero;
     number_is_finite := fun _ => true;
     number_to_string := fun lexeme => lexeme;
     syntax_error_message := fun _ => "Unexpected token in JSON";
     cannot_read_message := fun is_null key =>
       "Cannot read properties of " ++ (if is_null then "null" else "undefined")
       ++ " (reading '" ++ key ++ "')";
     to_primitive_message := "Cannot convert object to primitive value" |}.

(** A client whose analysis model answers [analysis_text] and whose
    verification model answers a fixed sentence. *)
Definition scripted_client (analysis_text : string) : Route.OpenAI :=
  {| Route.responses_create := fun r =>
       Ok (Route.WithOutput
             (Some [ {| Route.content :=
                          Some [ {| Route.block_type := Some "output_text";
                                    Route.block_text :=
                                      Some (if String.eqb (Route.rq_text r) Route.analysis_instruction
                                            then analysis_text
                                            else "Clean composite, no trailer fragments.") |} ] |} ]));
     Route.images_generate := fun _ =>
       Ok {| Route.data := Some [ {| Route.b64_json := Some "iVBORw0KGgo=" |} ] |} |}.

Definition boat_jpg : Route.File :=
  {| Route.file_name := "boat.jpg"; Route.file_type := "image/jpeg";
     Route.file_bytes := list_ascii_of_string "boat" |}.

Definition yacht_png : Route.File :=
  {| Route.file_name := "yacht.png"; Route.file_type := "image/png";
     Route.file_bytes := list_ascii_of_string "yacht" |}.

(** The text of a JSON object with the given members, already encoded. *)
Definition json_object (members : list (string * string)) : string :=
  "{" ++ join "," (map (fun kv => quote (fst kv) ++ ":" ++ snd kv) members) ++ "}".

Definition rejecting_text : string :=
  json_object [ ("shouldReject", "true"); ("rejectionReason", quote "trailer visible");
                ("summary", quote "Boat on a trailer") ].

Definition accepting_text : string :=
  json_object [ ("shouldReject", "false"); ("summary", quote "Centre console at rest");
                ("insights", json_object [("boatOverview", quote "white centre console")]) ].

Definition missing_key_response : Route.NextResponse :=
  {| Route.status := 500;
     Route.body := [("error", Some (JStr "OPENAI_API_KEY missing"))] |}.

Definition missing_upload_response : Route.NextResponse :=
  {| Route.status := 400; Route.body := [("error", Some (JStr "Missing upload"))] |}.

Definition rejection_response (reason : option JSValue) : Route.NextResponse :=
  {| Route.status := 422;
     Route.body := [ ("error", Some (JStr "Source image rejected")); ("reason", reason) ] |}.

(** Forms for the concrete runs. *)
Definition form_without_file : Route.FormData :=
  [ ("location", Route.EString "Lake Union"); ("lens", Route.EString "action-zoom") ].

Definition form_bare : Route.FormData := [ ("image", Route.EFile boat_jpg) ].

Definition form_with (lens dynamic interiors : string) : Route.FormData :=
  [ ("image", Route.EFile boat_jpg);
    ("location", Route.EString "Lake Union");
    ("lens", Route.EString lens);
    ("dynamic", Route.EString dynamic);
    ("includeInteriors", Route.EString interiors) ].

(** The prompts of the image requests in a trace. *)
Fixpoint prompts_sent (tr : list Route.Call) : list string :=
  match tr with
  | [] => []
  | Route.ImagesCall r :: rest => Route.ig_prompt r :: prompts_sent rest
  | Route.ResponsesCall _ :: rest => prompts_sent rest
  end.

(** The lexicon phrases the properties name. *)
Definition action_zoom_phrase : string :=
  "high-speed telephoto capture, sweeping rooster tail, tack sharp hull detail".

Definition harbor_phrase : string :=
  "arrival sequence past iconic marina landmarks, soft dusk lighting, warm hospitality".

Definition wide_immersive_phrase : string :=
  "ultra-wide 18mm lens, low horizon, cinematic atmosphere, immersive scale".

Definition running_phrase : string :=
  "capture hull-on-plane, spray arcs, strong diagonal energy, sense of motion".

(** *** The queue *)

Import Uploader.

(** What [NextResponse.json(body, { status })] is on the client's side of
    the wire. *)
Definition over_http `{Engine} (r : Route.NextResponse) : FetchOutcome :=
  Resolved ((200 <=? Route.status r)%nat && (Route.status r <=? 299)%nat)
           (Ok (stringify_literal (Route.body r))).

(** The requests a task sends, in order, when the fetch it starts as its
    n-th gets the answer [answers n]. *)
Fixpoint requests_of (answers : nat -> FetchOutcome) (n : nat) (t : Task)
  : list FormData :=
  match t with
  | Return => []
  | SetState _ k => requests_of answers n k
  | AwaitFetch body k => body :: requests_of answers (S n) (k (answers n))
  | AwaitBody k => requests_of answers n k
  end.

Definition not_complete (item : QueueItem) : bool :=
  negb (status_eqb (status item) Complete).

(** What a pass started in state [env] is to send. *)
Definition expected_requests (env : State) : list FormData :=
  if negb (readyForProcessing env) || isProcessing env then []
  else map (form_of env) (filter not_complete (queue env)).

(** The style parameters a request carries. *)
Definition style_of (body : FormData)
  : option Route.FormDataEntryValue * option Route.FormDataEntryValue
    * option Route.FormDataEntryValue * option Route.FormDataEntryValue :=
  (Route.form_get body "location", Route.form_get body "lens",
   Route.form_get body "dynamic", Route.form_get body "includeInteriors").

Definition style_in (st : State)
  : option Route.FormDataEntryValue * option Route.FormDataEntryValue
    * option Route.FormDataEntryValue * option Route.FormDataEntryValue :=
  (Some (Route.EString (location st)), Some (Route.EString (lens st)),
   Some (Route.EString (dynamic st)),
   Some (Route.EString (string_of_bool (includeInteriors st)))).

(** A result is attached exactly when the status is [Complete]. *)
Definition item_ok (item : QueueItem) : Prop :=
  result item <> None <-> status item = Complete.

(** [new] is [old] with entries added at the end. *)
Definition extends_logs (old new : list string) : Prop :=
  exists added, new = (old ++ added)%list.

(** [b] is the item [a] after some updates: the same id, the old log
    lines still there in their order, new ones after them. *)
Definition grows (a b : QueueItem) : Prop :=
  id a = id b /\ extends_logs (logs a) (logs b).

(** The item a failed response leaves behind. *)
Definition mark_failed (target text : string) (item : QueueItem) : QueueItem :=
  if String.eqb (id item) target then
    {| id := id item; file := file item; previewUrl := previewUrl item;
       status := Error;
       logs := (logs item ++ [(cross ++ " Failed: " ++ text)%string])%list;
       result := result item; error := Some text |}
  else item.

Definition status_update (s : ProcessingStatus) (e : option string) : Partial :=
  {| p_id := None; p_file := None; p_previewUrl := None; p_status := Some s;
     p_logs := None; p_result := None; p_error := e |}.

Definition complete_update (r : ProcessedResult) : Partial :=
  {| p_id := None; p_file := None; p_previewUrl := None; p_status := Some Complete;
     p_logs := None; p_result := Some r; p_error := None |}.

(** The tasks a pass is made of, for the ids [ids] it may still give a
    status to: log lines for anyone, a status short of [Complete] or
    [Complete] with a result for one of [ids] (which then leaves the
    list), and lowering the processing flag as the last thing. *)
Inductive safe : list string -> Task -> Prop :=
| safe_finish ids : safe ids (SetState (setIsProcessing false) Return)
| safe_log ids target entry k :
    safe ids k -> safe ids (do_appendLog target entry k)
| safe_status ids target s e k :
    In target ids -> s <> Complete -> safe ids k ->
    safe ids (do_update target (status_update s e) k)
| safe_complete ids target r k :
    In target ids -> safe (remove string_dec target ids) k ->
    safe ids (do_update target (complete_update r) k)
| safe_fetch ids body k :
    (forall o, safe ids (k o)) -> safe ids (AwaitFetch body k)
| safe_body ids k : safe ids k -> safe ids (AwaitBody k).

Definition safe_suspended (ids : list string) (s : Suspended) : Prop :=
  match s with
  | OnFetch _ k => forall o, safe ids (k o)
  | OnBody k => safe ids k
  end.

(** [sends l t]: whatever answers its fetches get, the task [t] sends the
    requests [l], in that order, before it ends. *)
Inductive sends : list FormData -> Task -> Prop :=
| sends_return : sends [] Return
| sends_set l f k : sends l k -> sends l (SetState f k)
| sends_fetch l body k :
    (forall o, sends l (k o)) -> sends (body :: l) (AwaitFetch body k)
| sends_body l k : sends l k -> sends l (AwaitBody k).

Definition sends_suspended (l : list FormData) (s : Suspended) : Prop :=
  match s with
  | OnFetch _ k => forall o, sends l (k o)
  | OnBody k => sends l k
  end.

(** The requests the waiting calls have yet to send, read off along the
    run in which every fetch is rejected (by [sends], any run gives the
    same). *)
Definition all_rejected : nat -> FetchOutcome := fun _ => Rejected NonError.

Definition owed_by (s : Suspended) : list FormData :=
  match s with
  | OnFetch _ k => requests_of all_rejected 0 (k (all_rejected 0))
  | OnBody k => requests_of all_rejected 0 k
  end.

Definition owed (w : World) : list FormData := flat_map owed_by (pending w).

(** No item with one of [ids] is complete or has a result yet. *)
Definition open (ids : list string) (st : State) : Prop :=
  forall item, In item (queue st) -> In (id item) ids ->
               status item <> Complete /\ result item = None.

(** The ids of the items a pass over [items] will process. *)
Definition todo (items : list QueueItem) : list string :=
  map id (filter not_complete items).

(** The items [handleFiles] adds. *)
Definition new_items (files : option (list File)) (fresh : list (string * string))
  : list QueueItem :=
  match files with
  | None => []
  | Some fs =>
      map (fun fu : File * (string * string) =>
             {| id := fst (snd fu); file := fst fu; previewUrl := snd (snd fu);
                status := Ready; logs := ["Queued for processing"];
                result := None; error := None |})
          (combine (filter supported fs) fresh)
  end.

(** An item as [open] wants it, and consistent. *)
Definition good (ids : list string) (item : QueueItem) : Prop :=
  item_ok item
  /\ (In (id item) ids -> status item <> Complete /\ result item = None).

(** What holds of every world the page can be in. *)
Record invariant (w : World) : Prop := {
  inv_current : exists older, history w = state w :: older;
  inv_ids : NoDup (map id (queue (state w)));
  inv_issued : forall item, In item (queue (state w)) -> In (id item) (issued w);
  inv_items : forall st item, In st (history w) -> In item (queue st) -> item_ok item;
  inv_pending :
    pending w = []
    \/ exists s ids, pending w = [s] /\ isProcessing (state w) = true
                     /\ safe_suspended ids s /\ open ids (state w);
  inv_idle : pending w = [] -> isProcessing (state w) = false;
  inv_owed : forall s, In s (pending w) -> exists l, sends_suspended l s
}.

(** Two files picked, the pass launched, and the lens changed while the
    first request is in flight; then the first response arrives. *)
Definition picked : list Event :=
  [ PickFiles (Some [boat_jpg; yacht_png])
      [("id-1", "blob:boat"); ("id-2", "blob:yacht")] ].

Definition late_change : list Event :=
  (picked ++ [ ClickLaunch; ChooseLens "action-zoom";
               FetchSettles 0 (Resolved true (Ok "{}")); BodyRead 0 ])%list.

(** The world after the events [es], from the start of the page. *)
Definition world_after `{Engine} (es : list Event) : World :=
  match steps initial es with
  | Some w => w
  | None => initial
  end.

(** The page accepts the events [es], one after the other. *)
Definition runs `{Engine} (es : list Event) : bool :=
  match steps initial es with
  | Some _ => true
  | None => false
  end.

(** C8 as the claim words it: a request carries the style parameters the
    component holds when the turn that sends it begins, that is when its
    item begins processing. *)
Definition style_read_at_item_start `{Engine} : Prop :=
  forall w e w' body,
    reachable w -> step w e = Some w' ->
    requests w' = (requests w ++ [body])%list ->
    style_of body = style_in (state w).

(** Events that change a style parameter and nothing else. *)
Definition style_event (e : Event) : bool :=
  match e with
  | TypeLocation _ | ChooseLens _ | ChooseDynamic _ | ToggleInteriors _ => true
  | _ => false
  end.

(* ================================================================= *)
(** ** Definitions used to state further properties *)
(* ================================================================= *)

(** *** The route handler *)

(** The content blocks of a response in document order: item after item,
    an item without [content] contributing none. *)
Definition blocks_of (item : Route.OutputItem) : list Route.ContentBlock :=
  match Route.content item with
  | Some bs => bs
  | None => []
  end.

Definition all_blocks (items : list Route.OutputItem) : list Route.ContentBlock :=
  flat_map blocks_of items.

(** The block [b] is an [output_text] block with the non-empty text [t]. *)
Definition is_output_text (b : Route.ContentBlock) (t : string) : Prop :=
  Route.block_type b = Some "output_text" /\ Route.block_text b = Some t /\ t <> "".

(** The success response of the handler. *)
Definition success_response (finalImage prompt : string) (summary : JSValue)
  (qualityReport : string) (insights : option JSValue) : Route.NextResponse :=
  {| Route.status := 200;
     Route.body := [ ("generatedImage", Some (JStr finalImage));
                     ("prompt", Some (JStr prompt));
                     ("summary", Some summary);
                     ("qualityReport", Some (JStr qualityReport));
                     ("insights", insights) ] |}.

Definition default_summary : JSValue :=
  JStr "Marine transformation and trailer cleanup completed successfully.".

(** The three remote calls of a complete run, in the order they are made. *)
Definition full_trace (image : Route.File) (prompt payload : string) : list Route.Call :=
  [ Route.ResponsesCall
      (Route.analysis_request (base64 (Route.file_bytes image)) (Route.mime_of image));
    Route.ImagesCall (Route.images_request prompt);
    Route.ResponsesCall (Route.verify_request payload) ].

(** An analysis as the instruction sent to the model asks for it: the
    three insight texts are top-level keys, there is no [insights] key. *)
Definition flat_analysis_text : string :=
  json_object [ ("shouldReject", "false"); ("summary", quote "Runabout on a trailer");
                ("boatOverview", quote "white runabout");
                ("visualFocalPoints", quote "bow and windshield");
                ("locationAdaptation", quote "lake at dusk") ].

(** [l] is an initial part of [full]. *)
Definition initial_part {A : Type} (l full : list A) : Prop :=
  exists rest, full = (l ++ rest)%list.

Definition analysis_call (image : Route.File) : Route.Call :=
  Route.ResponsesCall
    (Route.analysis_request (base64 (Route.file_bytes image)) (Route.mime_of image)).

(** [shouldReject] as a string: any non-empty string is truthy. *)
Definition string_flag_text : string :=
  json_object [ ("shouldReject", quote "false"); ("summary", quote "Boat afloat") ].

(** *** The upload queue *)

(** A log-only update. *)
Definition log_update (entries : list string) : Partial :=
  {| p_id := None; p_file := None; p_previewUrl := None; p_status := None;
     p_logs := Some entries; p_result := None; p_error := None |}.

(** What [field || fallback] gives for a string field. *)
Definition or_default (v fallback : string) : string :=
  if String.eqb v "" then fallback else v.

Definition dinghy_gif : Route.File :=
  {| Route.file_name := "dinghy.gif"; Route.file_type := "image/gif";
     Route.file_bytes := list_ascii_of_string "dinghy" |}.

Definition boat_item : QueueItem :=
  {| id := "id-1"; file := boat_jpg; previewUrl := "blob:boat"; status := Ready;
     logs := ["Queued for processing"]; result := None; error := None |}.

Definition yacht_item : QueueItem :=
  {| id := "id-2"; file := yacht_png; previewUrl := "blob:yacht"; status := Ready;
     logs := ["Queued for processing"]; result := None; error := None |}.

(** The updates a pass makes to an item: a log line, a step forward in
    the pipeline, a failure with its message, the completion with its
    result. *)
Inductive pass_partial : Partial -> Prop :=
| pass_log entry : pass_partial (log_update [entry])
| pass_progress s :
    s = Analyzing \/ s = Generating \/ s = Verifying ->
    pass_partial (status_update s None)
| pass_failed message : pass_partial (status_update Error (Some message))
| pass_done r : pass_partial (complete_update r).

(** The state updates of a pass: one item update, or the processing flag. *)
Inductive pass_update : (State -> State) -> Prop :=
| pass_item target updates :
    pass_partial updates -> pass_update (setQueue (updateQueueItem target updates))
| pass_flag b : pass_update (setIsProcessing b).

(** Tasks all of whose state updates are those of a pass. *)
Inductive pass_task : Task -> Prop :=
| pass_return : pass_task Return
| pass_set f k : pass_update f -> pass_task k -> pass_task (SetState f k)
| pass_fetch body k : (forall o, pass_task (k o)) -> pass_task (AwaitFetch body k)
| pass_body k : pass_task k -> pass_task (AwaitBody k).

Definition pass_suspended (s : Suspended) : Prop :=
  match s with
  | OnFetch _ k => forall o, pass_task (k o)
  | OnBody k => pass_task k
  end.

(** Two files picked and the pass launched; the first request fails on
    the network, the second is answered with an empty object. *)
Definition mixed_pass : list Event :=
  (picked ++ [ ClickLaunch; FetchSettles 0 (Rejected (ErrorObj "Failed to fetch"));
               FetchSettles 0 (Resolved true (Ok "{}")); BodyRead 0 ])%list.

(** The first line of every log. *)
Definition queued_line : string := "Queued for processing".

Definition starts_queued (item : QueueItem) : Prop :=
  exists rest, logs item = queued_line :: rest.

Definition error_explained (item : QueueItem) : Prop :=
  status item = Error -> exists message, error item = Some message.

Definition is_ready (item : QueueItem) : bool := status_eqb (status item) Ready.

(** What no update takes away from an item: its id, its file and preview
    URL, and a result or an error message once it has one. *)
Definition keeps_identity (a b : QueueItem) : Prop :=
  id b = id a /\ file b = file a /\ previewUrl b = previewUrl a
  /\ (result a <> None -> result b <> None)
  /\ (error a <> None -> error b <> None).

(** The events that come from the network. *)
Definition network_event (e : Event) : Prop :=
  match e with
  | FetchSettles _ _ | BodyRead _ => True
  | _ => False
  end.

Definition queue_ids (w : World) : list string := map id (queue (state w)).

(** Two files picked and the pass launched; the first request fails, and
    its item is removed while the second request is in flight. *)
Definition before_removal : list Event :=
  (picked ++ [ ClickLaunch; FetchSettles 0 (Rejected (ErrorObj "Failed to fetch")) ])%list.

Definition after_removal : list Event :=
  [ FetchSettles 0 (Resolved true (Ok "{}")); BodyRead 0 ].

(** A request built by the page: the form of some state [env] for some
    item, with [J env item]. *)
Definition from_launch (J : State -> QueueItem -> Prop) (body : FormData) : Prop :=
  exists env item, body = form_of env item /\ J env item.

(** The selected lens and dynamic are keys of the handler's lexicons. *)
Definition known_style (st : State) : Prop :=
  (exists phrase, Route.assoc (lens st) Route.lensLexicon = Some phrase)
  /\ (exists phrase, Route.assoc (dynamic st) Route.dynamicDirectives = Some phrase).

(** The request names a lens and a dynamic for which the handler's
    lexicons have a phrase of their own. *)
Definition styled_request (body : FormData) : Prop :=
  exists l d lens_phrase dynamic_phrase,
    Route.form_get body "lens" = Some (Route.EString l)
    /\ Route.form_get body "dynamic" = Some (Route.EString d)
    /\ Route.lensDirective l = Some (Route.OwnString lens_phrase)
    /\ Route.motionDirective d = Some (Route.OwnString dynamic_phrase).

(** An item no pass is working on. *)
Definition settled (item : QueueItem) : Prop :=
  status item = Ready \/ status item = Complete \/ status item = Error.

(** Where a pass stands: between two items, waiting for the answer to the
    request of the item [cur], or closing that item once the answer is in. *)
Inductive Phase : Type :=
| Between
| Waiting (cur : string)
| Closing (cur : string).

(** [working rest ph t]: the task [t] is the remainder of a pass in phase
    [ph] that has still to start the items with the ids [rest], in that
    order.  Each item is started by two log lines around the status
    [Analyzing] and its request; once the answer is in, log lines and the
    statuses [Generating] and [Verifying] may follow, for that item only
    and with no further wait, until [Error] or [Complete] closes it. *)
Inductive working : list string -> Phase -> Task -> Prop :=
| work_finish : working [] Between (SetState (setIsProcessing false) Return)
| work_start target rest entry entry' body k :
    (forall o, working rest (Waiting target) (k o)) ->
    working (target :: rest) Between
      (do_appendLog target entry
         (do_update target (status_update Analyzing None)
            (do_appendLog target entry' (AwaitFetch body k))))
| work_body cur rest k :
    working rest (Closing cur) k -> working rest (Waiting cur) (AwaitBody k)
| work_close cur rest k :
    working rest (Closing cur) k -> working rest (Waiting cur) k
| work_log cur rest entry k :
    working rest (Closing cur) k -> working rest (Closing cur) (do_appendLog cur entry k)
| work_progress cur rest s k :
    s = Generating \/ s = Verifying ->
    working rest (Closing cur) k ->
    working rest (Closing cur) (do_update cur (status_update s None) k)
| work_failed cur rest message k :
    working rest Between k ->
    working rest (Closing cur) (do_update cur (status_update Error (Some message)) k)
| work_done cur rest r k :
    working rest Between k ->
    working rest (Closing cur) (do_update cur (complete_update r) k).

Definition working_suspended (rest : list string) (cur : string) (s : Suspended) : Prop :=
  match s with
  | OnFetch _ k => forall o, working rest (Waiting cur) (k o)
  | OnBody k => working rest (Closing cur) k
  end.

(** The ids a pass in phase [ph] may still touch. *)
Definition phase_ids (rest : list string) (ph : Phase) : list string :=
  match ph with
  | Between => rest
  | Waiting cur | Closing cur => cur :: rest
  end.

(** The queue as a pass in phase [ph] with [rest] to go finds it: the
    items still to start are not complete, and every item but the current
    one is settled; while the answer is awaited the current item is in
    [Analyzing]. *)
Definition calm (rest : list string) (ph : Phase) (q : list QueueItem) : Prop :=
  NoDup rest
  /\ (forall a, In a q -> In (id a) rest -> status a <> Complete)
  /\ match ph with
     | Between => forall a, In a q -> settled a
     | Waiting cur =>
         ~ In cur rest
         /\ forall a, In a q ->
                      (id a = cur -> status a = Analyzing) /\ (id a <> cur -> settled a)
     | Closing cur =>
         ~ In cur rest /\ forall a, In a q -> id a <> cur -> settled a
     end.

(** [q'] is [q] with the items whose id is in [ids] possibly updated;
    the others are as they were. *)
Definition frame (ids : list string) (q q' : list QueueItem) : Prop :=
  Forall2 (fun a b => id b = id a /\ (~ In (id a) ids -> b = a)) q q'.

(** What holds of the queue between two events. *)
Record orderly (w : World) : Prop := {
  ord_idle : pending w = [] -> forall a, In a (queue (state w)) -> settled a;
  ord_busy :
    forall s, In s (pending w) ->
              exists rest cur,
                working_suspended rest cur s
                /\ calm rest (Waiting cur) (queue (state w))
                /\ forall x, In x (cur :: rest) -> In x (issued w)
}.

(** *** The rendered page *)

Definition tarball : Route.File :=
  {| Route.file_name := "fleet.2024.tar.gz"; Route.file_type := "image/png";
     Route.file_bytes := [] |}.

(** What a card shows of its item. *)
Record Card : Type := {
  card_badge : string;
  card_label : string;
  card_result : bool;
  card_progress : bool;
  card_remove : bool
}.

Definition card_of (item : QueueItem) : Card :=
  {| card_badge := Page.badge item;
     card_label := Page.status_label item;
     card_result := Page.shows_result item;
     card_progress := Page.shows_progress item;
     card_remove := Page.shows_remove item |}.

(** *** What an answer does to its item *)

(** The item [target] with log lines added and, where given, a new status,
    a result and an error message; every other item as it is. *)
Definition touch (target : string) (lines : list string) (s : option ProcessingStatus)
  (r : option ProcessedResult) (e : option string) (item : QueueItem) : QueueItem :=
  if String.eqb (id item) target then
    {| id := id item; file := file item; previewUrl := previewUrl item;
       status := or_else s (status item);
       logs := (logs item ++ lines)%list;
       result := match r with Some x => Some x | None => result item end;
       error := match e with Some x => Some x | None => error item end |}
  else item.

(** The message the [catch] block logs. *)
Definition thrown_message (e : Thrown) : string :=
  match e with
  | ErrorObj message => message
  | NonError => "Unknown processing error"
  end.

(** The result the page stores for a payload. *)
Definition payload_result (payload : JSValue) : ProcessedResult :=
  {| finalImage := member "generatedImage" payload;
     prompt := member "prompt" payload;
     summary := member "summary" payload;
     qualityReport := member "qualityReport" payload;
     insights := Route.value_or (member "insights" payload) (JObj []) |}.

Definition rendering_line : string := palette ++ " Rendering cinematic water shot".
Definition checking_line : string :=
  repeat_sign ++ " Double-checking trailer removal and composition".

(** The state in which the item of [target] has been touched. *)
Definition touched (target : string) (lines : list string) (s : option ProcessingStatus)
  (r : option ProcessedResult) (e : option string) (st : State) : State :=
  setQueue (map (touch target lines s r e)) st.

(** *** JSON on the wire *)

(** No three bytes of [s] stand for a lone surrogate: [JSON.stringify]
    writes every character of such a string as it is or as a simple
    escape. *)
Fixpoint clean (s : string) : bool :=
  match s with
  | EmptyString => true
  | String c r =>
      negb match r with
           | String b2 (String _ _) => ((N_of_ascii c =? 237) && (160 <=? N_of_ascii b2))%N
           | _ => false
           end
      && clean r
  end.

(** A value without numbers (how a number prints is the engine's
    business) whose strings and keys are [clean]. *)
Fixpoint wire_safe (v : JSValue) : bool :=
  match v with
  | JNull | JBool _ => true
  | JNum _ => false
  | JStr s => clean s
  | JArr items => forallb wire_safe items
  | JObj ms => forallb (fun kv => clean (fst kv) && wire_safe (snd kv)) ms
  end.

(** The value with its objects rebuilt property by property, as
    [JSON.parse] builds them: a repeated key keeps its first place and its
    last value, keys that are array indexes come first. *)
Fixpoint normalize (v : JSValue) : JSValue :=
  match v with
  | JArr items => JArr (map normalize items)
  | JObj ms =>
      JObj (fold_left (fun acc kv => obj_set (fst kv) (normalize (snd kv)) acc) ms [])
  | _ => v
  end.

(** The piece [JSON.parse] reads where [JSON.stringify] wrote the
    character [c]. *)
Definition piece_of (c : ascii) : Piece :=
  let n := N_of_ascii c in
  if ((n <? 32) && negb ((n =? 8) || (n =? 9) || (n =? 10) || (n =? 12) || (n =? 13)))%N
  then PUnit n
  else PByte c.

Fixpoint pieces_of (s : string) : list Piece :=
  match s with
  | EmptyString => []
  | String c r => piece_of c :: pieces_of r
  end.

(** A property of an object as [JSON.stringify] writes it. *)
Definition member_text `{Engine} (kv : string * JSValue) : string :=
  quote (fst kv) ++ ":" ++ stringify (snd kv).

(** The keys are distinct and in enumeration order: no key is repeated
    later, and no later key is to be enumerated before an earlier one. *)
Fixpoint sorted_keys (ks : list string) : bool :=
  match ks with
  | [] => true
  | k :: r =>
      forallb (fun k' => negb (String.eqb k' k) && negb (precedes k' k)) r
      && sorted_keys r
  end.

(** Every object of the value has its keys so. *)
Fixpoint in_order (v : JSValue) : bool :=
  match v with
  | JArr items => forallb in_order items
  | JObj ms => sorted_keys (map fst ms) && forallb (fun kv => in_order (snd kv)) ms
  | _ => true
  end.

(** The result the page stores for a success response of the handler. *)
Definition stored_result (finalImage prompt : string) (summary : JSValue)
  (qualityReport : string) (insights : option JSValue) : ProcessedResult :=
  {| Uploader.finalImage := Some (JStr finalImage);
     Uploader.prompt := Some (JStr prompt);
     Uploader.summary := Some summary;
     Uploader.qualityReport := Some (JStr qualityReport);
     Uploader.insights := Route.value_or insights (JObj []) |}.

(** An optional value that can go over the wire as it is. *)
Definition wire_ready (v : option JSValue) : Prop :=
  match v with
  | Some x => wire_safe x = true /\ in_order x = true
  | None => True
  end.

Definition sample_report : JSValue :=
  JObj [ ("7", JStr "seven");
         ("summary", JStr ("a " ++ dq ++ "quoted" ++ dq ++ " line"));
         ("tags",
          JArr [ JBool true; JNull;
                 JStr ("tab" ++ String (ascii_of_nat 9) "and"
                       ++ String (ascii_of_nat 10) "newline") ]) ].

(** A client whose analysis model answers [text], whatever the request. *)
Definition answering (text : string) : Route.OpenAI :=
  {| Route.responses_create := fun _ =>
       Ok (Route.WithOutput
             (Some [ {| Route.content :=
                          Some [ {| Route.block_type := Some "output_text";
                                    Route.block_text := Some text |} ] |} ]));
     Route.images_generate := fun _ => Ok {| Route.data := None |} |}.

Definition fence : string := "```".

(** *** Form fields and their defaults *)

(** A field [||] replaces by its default: not in the form, or there as
    the empty string. *)
Definition unset (v : option Route.FormDataEntryValue) : Prop :=
  v = None \/ v = Some (Route.EString "").

(** A field that is in the form as the non-empty string [s]. *)
Definition given (v : option Route.FormDataEntryValue) (s : string) : Prop :=
  v = Some (Route.EString s) /\ s <> "".

(** A form with the upload and the lens alone, and one whose lens is left
    empty. *)
Definition form_lens_only : Route.FormData :=
  [ ("image", Route.EFile boat_jpg); ("lens", Route.EString "action-zoom") ].

Definition form_empty_lens : Route.FormData :=
  [ ("image", Route.EFile boat_jpg);
    ("location", Route.EString "Lake Union");
    ("lens", Route.EString "");
    ("dynamic", Route.EString "harbor") ].

(** *** How the fetches of a pass end *)

(** The events [es] come from the network alone and settle the fetches as
    [answers] says: the first fetch to settle gets [answers n], the next
    one [answers (S n)], and so on. *)
Fixpoint settled_as (answers : nat -> FetchOutcome) (n : nat) (es : list Event) : Prop :=
  match es with
  | [] => True
  | FetchSettles _ o :: rest => o = answers n /\ settled_as answers (S n) rest
  | BodyRead _ :: rest => settled_as answers n rest
  | _ :: _ => False
  end.

(** A network failure, then a refusal, then successes. *)
Definition mixed_answers (n : nat) : FetchOutcome :=
  match n with
  | 0 => Rejected NonError
  | 1 => Resolved false (Ok "busy")
  | _ => Resolved true (Ok "{}")
  end.

(** *** A rejection on the wire *)

(** A character [JSON.stringify] writes as it is: no control character,
    double quote or backslash. *)
Definition as_is_char (c : ascii) : bool :=
  let n := N_of_ascii c in
  ((32 <=? n) && negb (n =? 34) && negb (n =? 92))%N.

Fixpoint unescaped (s : string) : bool :=
  match s with
  | EmptyString => true
  | String c r => as_is_char c && unescaped r
  end.

(** A string [JSON.stringify] writes between its quotes unchanged. *)
Definition written_as_is (s : string) : bool := unescaped s && clean s.

(** The body text of the 422 response for the reason [r]. *)
Definition rejection_text (r : string) : string :=
  "{" ++ quote "error" ++ ":" ++ quote "Source image rejected" ++ ","
  ++ quote "reason" ++ ":" ++ quote r ++ "}".

(** A reason with quotation marks in it, the analysis that gives it, the
    response [POST] answers with, and the page's run in which the first
    request of a pass gets that response. *)
Definition quoted_reason : string := "trailer " ++ dq ++ "A" ++ dq ++ " visible".

Definition rejecting_quoted_text : string :=
  json_object [ ("shouldReject", "true"); ("rejectionReason", quote quoted_reason);
                ("summary", quote "Boat on a trailer") ].

Definition quoted_rejection : Route.NextResponse :=
  rejection_response (Some (JStr quoted_reason)).

Definition rejected_run : list Event :=
  (picked ++ [ ClickLaunch; FetchSettles 0 (@over_http v8_like quoted_rejection);
               BodyRead 0 ])%list.

(* ================================================================= *)
(** ** Facts about the built-ins *)
(* ================================================================= *)

Lemma append_assoc (a b c : string) : (a ++ b) ++ c = a ++ (b ++ c).
Proof. induction a as [|x a IH]; simpl; [reflexivity | now rewrite IH]. Qed.

Lemma append_empty_r (a : string) : a ++ "" = a.
Proof. induction a as [|x a IH]; simpl; [reflexivity | now rewrite IH]. Qed.

Lemma length_append (a b : string) :
  String.length (a ++ b) = String.length a + String.length b.
Proof. induction a as [|x a IH]; simpl; [reflexivity | now rewrite IH]. Qed.

Lemma prefix_iff (p s : string) : prefix p s = true <-> exists r, s = p ++ r.
Proof.
  revert s; induction p as [|c p IH]; intros s.
  - split; [intros _; now exists s | intros _; now destruct s].
  - destruct s as [|d s]; simpl.
    + split; [discriminate | intros [r Hr]; discriminate].
    + destruct (ascii_dec c d) as [->|Hne].
      * rewrite IH. split; intros [r Hr]; exists r; [now rewrite Hr | now inversion Hr].
      * split; [discriminate | intros [r Hr]; inversion Hr; congruence].
Qed.

Lemma containsb_iff (s sub : string) : containsb s sub = true <-> contains s sub.
Proof.
  induction s as [|c s IH]; cbn [containsb].
  - rewrite orb_false_r, prefix_iff. split.
    + intros [r Hr]. exists "", r. exact Hr.
    + intros [pre [post Hp]]. destruct pre; [now exists post | discriminate].
  - rewrite orb_true_iff, prefix_iff, IH. split.
    + intros [[r Hr] | [pre [post Hp]]].
      * exists "", r. exact Hr.
      * exists (String c pre), post. simpl. now rewrite Hp.
    + intros [pre [post Hp]]. destruct pre as [|d pre]; simpl in Hp.
      * left. now exists post.
      * right. inversion Hp; subst. now exists pre, post.
Qed.

Lemma contains_refl (s : string) : contains s s.
Proof. exists "", "". simpl. now rewrite append_empty_r. Qed.

Lemma contains_app_l (a b sub : string) : contains a sub -> contains (a ++ b) sub.
Proof.
  intros [pre [post ->]]. exists pre, (post ++ b).
  now rewrite !append_assoc.
Qed.

Lemma contains_app_r (a b sub : string) : contains b sub -> contains (a ++ b) sub.
Proof.
  intros [pre [post ->]]. exists (a ++ pre), post.
  now rewrite !append_assoc.
Qed.

Lemma contains_trans (s t u : string) : contains s t -> contains t u -> contains s u.
Proof.
  intros [p1 [q1 ->]] [p2 [q2 ->]]. exists (p1 ++ p2), (q2 ++ q1).
  now rewrite !append_assoc.
Qed.

Lemma contains_join (sep x : string) (parts : list string) :
  In x parts -> contains (join sep parts) x.
Proof.
  unfold join. induction parts as [|y parts IH]; intros Hin; [contradiction|].
  destruct parts as [|z parts].
  - destruct Hin as [->|[]]. apply contains_refl.
  - change (String.concat sep (y :: z :: parts))
      with (y ++ sep ++ String.concat sep (z :: parts)).
    destruct Hin as [->|Hin].
    + apply contains_app_l, contains_refl.
    + apply contains_app_r, contains_app_r, IH, Hin.
Qed.

Lemma prefix_char (c : ascii) (s : string) :
  prefix (String c "") s = match s with String d _ => Ascii.eqb d c | EmptyString => false end.
Proof.
  destruct s as [|d s]; simpl; [reflexivity|].
  destruct (ascii_dec c d) as [->|Hne].
  - rewrite Ascii.eqb_refl. now destruct s.
  - symmetry. apply Ascii.eqb_neq. congruence.
Qed.

Lemma indexOf_from_skip (c : ascii) (pre rest : string) (i : Z) :
  occurs c pre = false ->
  indexOf_from (String c "") (pre ++ String c rest) i = (i + Z.of_nat (String.length pre))%Z.
Proof.
  revert i; induction pre as [|d pre IH]; intros i Hocc.
  - cbn [append indexOf_from]. rewrite prefix_char, Ascii.eqb_refl. simpl. lia.
  - simpl in Hocc. apply orb_false_iff in Hocc as [Hd Hpre].
    cbn [append indexOf_from]. rewrite prefix_char, Hd.
    rewrite IH by assumption. cbn [String.length]. lia.
Qed.

Lemma indexOf_from_absent (c : ascii) (s : string) (i : Z) :
  occurs c s = false -> indexOf_from (String c "") s i = (-1)%Z.
Proof.
  revert i; induction s as [|d s IH]; intros i Hocc.
  - reflexivity.
  - simpl in Hocc. apply orb_false_iff in Hocc as [Hd Hs].
    cbn [indexOf_from]. rewrite prefix_char, Hd. now apply IH.
Qed.

Lemma occurs_split (c : ascii) (s : string) :
  occurs c s = true ->
  exists pre post, s = pre ++ String c post /\ occurs c pre = false.
Proof.
  induction s as [|d s IH]; simpl; [discriminate|].
  destruct (Ascii.eqb d c) eqn:Hd; simpl.
  - intros _. apply Ascii.eqb_eq in Hd as ->. now exists "", s.
  - intros Hs. destruct (IH Hs) as [pre [post [-> Hpre]]].
    exists (String d pre), post. simpl. now rewrite Hd.
Qed.

Lemma occurs_split_last (c : ascii) (s : string) :
  occurs c s = true ->
  exists pre post, s = pre ++ String c post /\ occurs c post = false.
Proof.
  induction s as [|d s IH]; simpl; [discriminate|].
  destruct (occurs c s) eqn:Hs.
  - intros _. destruct (IH eq_refl) as [pre [post [-> Hpost]]].
    now exists (String d pre), post.
  - rewrite orb_false_r. intros Hd. apply Ascii.eqb_eq in Hd as ->.
    now exists "", s.
Qed.

Lemma lastIndexOf_from_absent (c : ascii) (s : string) (i last : Z) :
  occurs c s = false -> lastIndexOf_from (String c "") s i last = last.
Proof.
  revert i last; induction s as [|d s IH]; intros i last Hocc.
  - reflexivity.
  - simpl in Hocc. apply orb_false_iff in Hocc as [Hd Hs].
    cbn [lastIndexOf_from]. rewrite prefix_char, Hd. now apply IH.
Qed.

Lemma lastIndexOf_from_skip (c : ascii) (pre post : string) (i last : Z) :
  occurs c post = false ->
  lastIndexOf_from (String c "") (pre ++ String c post) i last
  = (i + Z.of_nat (String.length pre))%Z.
Proof.
  revert i last; induction pre as [|d pre IH]; intros i last Hocc.
  - cbn [append lastIndexOf_from]. rewrite prefix_char, Ascii.eqb_refl.
    rewrite lastIndexOf_from_absent by assumption. simpl. lia.
  - cbn [append lastIndexOf_from]. rewrite IH by assumption.
    cbn [String.length]. lia.
Qed.

Lemma substring_skip (pre s : string) (m : nat) :
  substring (String.length pre) m (pre ++ s) = substring 0 m s.
Proof. induction pre as [|d pre IH]; [reflexivity | exact IH]. Qed.

Lemma substring_take (mid post : string) :
  substring 0 (String.length mid) (mid ++ post) = mid.
Proof.
  induction mid as [|d mid IH]; simpl.
  - now destruct post.
  - now rewrite IH.
Qed.

Lemma substring_prefix (s : string) (m : nat) :
  exists post, s = substring 0 m s ++ post.
Proof.
  revert m; induction s as [|c s IH]; intros m.
  - exists "". now destruct m.
  - destruct m as [|m]; simpl.
    + now exists (String c s).
    + destruct (IH m) as [post Hp]. exists post. now rewrite <- Hp.
Qed.

Lemma substring_contained (s : string) (n m : nat) : contains s (substring n m s).
Proof.
  revert n; induction s as [|c s IH]; intros n.
  - destruct n, m; simpl; apply contains_refl.
  - destruct n as [|n].
    + destruct (substring_prefix (String c s) m) as [post Hp].
      exists "", post. exact Hp.
    + simpl. destruct (IH n) as [pre [post Hp]].
      exists (String c pre), post. simpl. now rewrite <- Hp.
Qed.

Lemma slice_inside (s : string) (a b : nat) :
  a <= b -> b <= String.length s ->
  slice s (Z.of_nat a) (Z.of_nat b) = substring a (b - a) s.
Proof.
  intros Hab Hb. unfold slice.
  replace (Z.of_nat a <? 0)%Z with false by (symmetry; apply Z.ltb_ge; lia).
  replace (Z.of_nat b <? 0)%Z with false by (symmetry; apply Z.ltb_ge; lia).
  rewrite !Z.min_l by lia. rewrite Z.max_l by lia.
  rewrite Nat2Z.id. f_equal. lia.
Qed.

Lemma slice_backwards (s : string) (a b : nat) :
  b <= a -> a <= String.length s ->
  slice s (Z.of_nat a) (Z.of_nat b) = "".
Proof.
  intros Hab Ha. unfold slice.
  replace (Z.of_nat a <? 0)%Z with false by (symmetry; apply Z.ltb_ge; lia).
  replace (Z.of_nat b <? 0)%Z with false by (symmetry; apply Z.ltb_ge; lia).
  rewrite !Z.min_l by lia. rewrite Z.max_r by lia.
  simpl. generalize (Z.to_nat (Z.of_nat a)). clear.
  induction s as [|c s IH]; intros n; destruct n; simpl; auto.
Qed.

Lemma indexOf_found (c : ascii) (pre rest : string) :
  occurs c pre = false ->
  indexOf (pre ++ String c rest) (String c "") = Z.of_nat (String.length pre).
Proof. intros H. unfold indexOf. now rewrite indexOf_from_skip. Qed.

Lemma lastIndexOf_found (c : ascii) (pre post : string) :
  occurs c post = false ->
  lastIndexOf (pre ++ String c post) (String c "") = Z.of_nat (String.length pre).
Proof. intros H. unfold lastIndexOf. now rewrite lastIndexOf_from_skip. Qed.

Lemma json_span_none (text : string) :
  occurs "{" text = false \/ occurs "}" text = false ->
  Route.json_span text = None.
Proof.
  intros [H|H]; unfold Route.json_span.
  - unfold indexOf. now rewrite (indexOf_from_absent "{" text 0 H).
  - unfold lastIndexOf. rewrite (lastIndexOf_from_absent "}" text 0 (-1) H).
    now rewrite orb_true_r.
Qed.

Lemma json_span_some (pre post1 pre2 post2 : string) :
  occurs "{" pre = false -> occurs "}" post2 = false ->
  pre ++ String "{" post1 = pre2 ++ String "}" post2 ->
  Route.json_span (pre ++ String "{" post1)
  = Some (slice (pre2 ++ String "}" post2)
                (Z.of_nat (String.length pre)) (Z.of_nat (S (String.length pre2)))).
Proof.
  intros Hpre Hpost Heq. unfold Route.json_span.
  rewrite (indexOf_found "{" pre post1 Hpre).
  rewrite Heq. rewrite (lastIndexOf_found "}" pre2 post2 Hpost).
  clear Heq.
  replace (Z.of_nat (String.length pre) =? -1)%Z with false
    by (symmetry; apply Z.eqb_neq; lia).
  replace (Z.of_nat (String.length pre2) =? -1)%Z with false
    by (symmetry; apply Z.eqb_neq; lia).
  simpl orb. cbv iota. do 2 f_equal. lia.
Qed.

Lemma json_span_sandwich (pre mid post : string) :
  occurs "{" pre = false -> occurs "}" post = false ->
  Route.json_span (pre ++ "{" ++ mid ++ "}" ++ post) = Some ("{" ++ mid ++ "}").
Proof.
  intros Hpre Hpost.
  change (pre ++ "{" ++ mid ++ "}" ++ post) with (pre ++ String "{" (mid ++ String "}" post)).
  rewrite (json_span_some pre (mid ++ String "}" post) (pre ++ String "{" mid) post Hpre Hpost).
  2: { rewrite append_assoc. reflexivity. }
  replace ((pre ++ String "{" mid) ++ String "}" post)
    with (pre ++ String "{" (mid ++ String "}" post))
    by (rewrite append_assoc; reflexivity).
  f_equal. rewrite slice_inside.
  - rewrite substring_skip.
    replace (S (String.length (pre ++ String "{" mid)) - String.length pre)
      with (String.length ("{" ++ mid ++ "}")).
    + change (String "{" (mid ++ String "}" post)) with ("{" ++ mid ++ String "}" post).
      replace ("{" ++ mid ++ String "}" post) with (("{" ++ mid ++ "}") ++ post).
      * apply substring_take.
      * simpl. f_equal. rewrite append_assoc. reflexivity.
    + cbn [append]. repeat (rewrite ?length_append; cbn [String.length]). lia.
  - rewrite length_append. lia.
  - repeat (rewrite ?length_append; cbn [String.length]). lia.
Qed.

Lemma json_span_shape (text span : string) :
  Route.json_span text = Some span ->
  (span = "" \/ exists r, span = String "{" r) /\ contains text span.
Proof.
  intros Hspan.
  destruct (occurs "{" text) eqn:Hl.
  2: { rewrite json_span_none in Hspan by now left. discriminate. }
  destruct (occurs "}" text) eqn:Hr.
  2: { rewrite json_span_none in Hspan by now right. discriminate. }
  destruct (occurs_split _ _ Hl) as [pre [post1 [E1 Hpre]]].
  destruct (occurs_split_last _ _ Hr) as [pre2 [post2 [E2 Hpost]]].
  subst text.
  rewrite (json_span_some pre post1 pre2 post2 Hpre Hpost E2) in Hspan.
  assert (Hs : span = slice (pre2 ++ String "}" post2) (Z.of_nat (String.length pre))
                         (Z.of_nat (S (String.length pre2)))) by congruence.
  clear Hspan. subst span. rewrite <- E2.
  assert (Hlen : S (String.length pre2) <= String.length (pre ++ String "{" post1)).
  { rewrite E2, length_append. simpl. clear. lia. }
  clear E2.
  destruct (le_lt_dec (S (String.length pre2)) (String.length pre)) as [Hle|Hlt].
  - rewrite slice_backwards; [| lia | rewrite length_append; lia].
    split; [now left | exists "", (pre ++ String "{" post1); reflexivity].
  - rewrite slice_inside by lia. split.
    + right. rewrite substring_skip.
      destruct (S (String.length pre2) - String.length pre) as [|k] eqn:Hk; [lia|].
      simpl. eauto.
    + apply substring_contained.
Qed.

Lemma parse_value_object (n : nat) (r : string) (v : JSValue) (rest : string) :
  parse_value n (String "{" r) = Some (v, rest) -> exists ms, v = JObj ms.
Proof.
  destruct n as [|n]; [discriminate|].
  cbn [parse_value skip_ws]. change (is_ws "{") with false. cbv iota.
  change (nat_of_ascii "{" =? 123)%nat with true. cbv iota.
  destruct (skip_ws r) as [|c2 r2]; [discriminate|].
  destruct (nat_of_ascii c2 =? 125)%nat.
  - intros [= <- _]. eauto.
  - destruct (parse_members n [] r) as [[ms rest']|]; [|discriminate].
    intros [= <- _]. eauto.
Qed.

Lemma JSON_parse_object (r : string) (v : JSValue) :
  JSON_parse (String "{" r) = Some v -> exists ms, v = JObj ms.
Proof.
  unfold JSON_parse.
  destruct (parse_value _ _) as [[v' rest]|] eqn:Hp; [|discriminate].
  destruct (skip_ws rest); [|discriminate].
  intros [= <-]. eapply parse_value_object, Hp.
Qed.

Lemma JSON_parse_empty : JSON_parse "" = None.
Proof. reflexivity. Qed.

(** *** [JSON_parse] does not run out of fuel *)

Lemma skip_ws_length (s : string) : String.length (skip_ws s) <= String.length s.
Proof.
  induction s as [|c s IH]; cbn; [lia|].
  destruct (is_ws c); cbn; lia.
Qed.

Lemma parse_chars_length (s rest : string) (ps : list Piece) :
  parse_chars s = Some (ps, rest) -> String.length rest < String.length s.
Proof.
  remember (String.length s) as n eqn:Hn.
  revert s ps rest Hn. induction n as [n IH] using lt_wf_ind.
  intros s ps rest -> Hp. destruct s as [|c r]; [discriminate|].
  cbn [parse_chars] in Hp. cbn [String.length].
  destruct (nat_of_ascii c =? 34)%nat.
  { injection Hp as _ <-. lia. }
  destruct (nat_of_ascii c <? 32)%nat; [discriminate|].
  destruct (nat_of_ascii c =? 92)%nat.
  - destruct r as [|e r1]; [discriminate|].
    destruct (nat_of_ascii e =? 117)%nat.
    + destruct r1 as [|h1 [|h2 [|h3 [|h4 r2]]]]; try discriminate.
      destruct (hex4_value h1 h2 h3 h4); [|discriminate].
      destruct (parse_chars r2) as [[ps' rest']|] eqn:Hr; [|discriminate].
      injection Hp as _ <-.
      pose proof (IH (String.length r2) ltac:(cbn; lia) r2 ps' rest' eq_refl Hr).
      cbn [String.length]. lia.
    + destruct (simple_escape e); [|discriminate].
      destruct (parse_chars r1) as [[ps' rest']|] eqn:Hr; [|discriminate].
      injection Hp as _ <-.
      pose proof (IH (String.length r1) ltac:(cbn; lia) r1 ps' rest' eq_refl Hr).
      cbn [String.length]. lia.
  - destruct (parse_chars r) as [[ps' rest']|] eqn:Hr; [|discriminate].
    injection Hp as _ <-.
    pose proof (IH (String.length r) ltac:(cbn; lia) r ps' rest' eq_refl Hr). lia.
Qed.

Lemma parse_string_length (s str rest : string) :
  parse_string s = Some (str, rest) -> String.length rest < String.length s.
Proof.
  unfold parse_string. destruct (parse_chars s) as [[ps r]|] eqn:Hp; [|discriminate].
  intros [= _ <-]. eapply parse_chars_length, Hp.
Qed.

Lemma take_digits_length (s : string) :
  String.length (snd (take_digits s)) <= String.length s.
Proof.
  induction s as [|c s IH]; cbn; [lia|].
  destruct (is_digit c); cbn; [|lia].
  destruct (take_digits s) as [ds rest]. cbn in *. lia.
Qed.

Lemma parse_int_part_length (s i rest : string) :
  parse_int_part s = Some (i, rest) -> String.length rest < String.length s.
Proof.
  destruct s as [|c r]; cbn; [discriminate|].
  destruct (Ascii.eqb c "0").
  - intros [= _ <-]. lia.
  - destruct (is_digit c); [|discriminate].
    pose proof (take_digits_length r) as Hl.
    destruct (take_digits r) as [ds rest']. intros [= _ <-]. cbn in Hl. lia.
Qed.

Lemma parse_fraction_length (s f rest : string) :
  parse_fraction s = Some (f, rest) -> String.length rest <= String.length s.
Proof.
  destruct s as [|c r]; cbn.
  - intros [= _ <-]. cbn. lia.
  - destruct (Ascii.eqb c ".").
    + pose proof (take_digits_length r) as Hl.
      destruct (take_digits r) as [[|d ds] rest']; [discriminate|].
      intros [= _ <-]. cbn in Hl. lia.
    + intros [= _ <-]. cbn. lia.
Qed.

Lemma parse_exponent_length (s e rest : string) :
  parse_exponent s = Some (e, rest) -> String.length rest <= String.length s.
Proof.
  destruct s as [|c r]; cbn.
  - intros [= _ <-]. cbn. lia.
  - destruct (Ascii.eqb c "e" || Ascii.eqb c "E").
    + destruct r as [|g r'].
      * cbn. discriminate.
      * destruct (Ascii.eqb g "+" || Ascii.eqb g "-").
        -- pose proof (take_digits_length r') as Hl.
           destruct (take_digits r') as [[|d ds] rest']; [discriminate|].
           intros [= _ <-]. cbn in Hl |- *. lia.
        -- pose proof (take_digits_length (String g r')) as Hl.
           destruct (take_digits (String g r')) as [[|d ds] rest']; [discriminate|].
           intros [= _ <-]. cbn in Hl |- *. lia.
    + intros [= _ <-]. cbn. lia.
Qed.

Lemma parse_number_length (s lexeme rest : string) :
  parse_number s = Some (lexeme, rest) -> String.length rest < String.length s.
Proof.
  unfold parse_number.
  assert (Hsign : forall s1, (s1 = s \/ exists c, s = String c s1) ->
            String.length s1 <= String.length s).
  { intros s1 [->|[c ->]]; cbn; lia. }
  destruct (match s with
            | EmptyString => ("", s)
            | String c r => if Ascii.eqb c "-" then ("-", r) else ("", s)
            end) as [sign s1] eqn:Hs.
  assert (Hs1 : String.length s1 <= String.length s).
  { apply Hsign. destruct s as [|c r]; [injection Hs as _ <-; now left|].
    destruct (Ascii.eqb c "-"); injection Hs as _ <-; [right; eauto | now left]. }
  destruct (parse_int_part s1) as [[i s2]|] eqn:Hi; [|discriminate].
  destruct (parse_fraction s2) as [[f s3]|] eqn:Hf; [|discriminate].
  destruct (parse_exponent s3) as [[e s4]|] eqn:He; [|discriminate].
  intros [= _ <-].
  apply parse_int_part_length in Hi. apply parse_fraction_length in Hf.
  apply parse_exponent_length in He. clear Hs Hsign. lia.
Qed.

Lemma substring_length_rest (n : nat) (s : string) :
  n <= String.length s ->
  String.length (substring n (String.length s - n) s) = String.length s - n.
Proof.
  revert n; induction s as [|c s IH]; intros n Hn.
  - destruct n; cbn in *; [reflexivity | lia].
  - destruct n as [|n]; cbn [substring String.length Nat.sub].
    + cbn. f_equal. specialize (IH 0 ltac:(lia)). now rewrite Nat.sub_0_r in IH.
    + apply IH. cbn in Hn. lia.
Qed.

Lemma prefix_length (p s : string) :
  prefix p s = true -> String.length p <= String.length s.
Proof.
  intros Hp. apply prefix_iff in Hp as [r ->]. rewrite length_append. lia.
Qed.

Lemma drop_prefix_length (p s rest : string) :
  drop_prefix p s = Some rest ->
  String.length rest = String.length s - String.length p.
Proof.
  unfold drop_prefix. destruct (prefix p s) eqn:Hp; [|discriminate].
  intros [= <-]. apply substring_length_rest. now apply prefix_length.
Qed.

(** Fuel is only a termination measure: a successful parse consumes at
    least one character, and any fuel at least as large as the number of
    characters consumed gives the same result. *)
Lemma parse_fuel (n : nat) :
  (forall s v rest,
      parse_value n s = Some (v, rest) ->
      String.length rest < String.length s
      /\ forall m, String.length s - String.length rest <= m ->
                   parse_value m s = Some (v, rest))
  /\ (forall acc s vs rest,
      parse_elements n acc s = Some (vs, rest) ->
      String.length rest < String.length s
      /\ forall m, String.length s - String.length rest <= m ->
                   parse_elements m acc s = Some (vs, rest))
  /\ (forall acc s ms rest,
      parse_members n acc s = Some (ms, rest) ->
      String.length rest < String.length s
      /\ forall m, String.length s - String.length rest <= m ->
                   parse_members m acc s = Some (ms, rest)).
Proof.
  induction n as [|n [IHv [IHe IHm]]]; [repeat split; discriminate|].
  split; [|split].
  - (* a value *)
    intros s v rest Hp. cbn [parse_value] in Hp. cbv zeta in Hp.
    pose proof (skip_ws_length s) as Hs.
    destruct (skip_ws s) as [|c r] eqn:Es; [discriminate|]. cbn [String.length] in Hs.
    destruct (nat_of_ascii c =? 123)%nat eqn:E123.
    { pose proof (skip_ws_length r) as Hr.
      destruct (skip_ws r) as [|c2 r2] eqn:Er; [discriminate|]. cbn [String.length] in Hr.
      destruct (nat_of_ascii c2 =? 125)%nat eqn:E125.
      - injection Hp as <- <-. split; [lia|].
        intros m Hm. destruct m as [|m]; [lia|]. cbn [parse_value]. cbv zeta.
        now rewrite Es, E123, Er, E125.
      - destruct (parse_members n [] r) as [[ms rest']|] eqn:Em; [|discriminate].
        injection Hp as <- <-. destruct (IHm _ _ _ _ Em) as [Hlen Hmore].
        split; [lia|].
        intros m Hm. destruct m as [|m]; [lia|]. cbn [parse_value]. cbv zeta.
        rewrite Es, E123, Er, E125, Hmore; [reflexivity | lia]. }
    destruct (nat_of_ascii c =? 91)%nat eqn:E91.
    { pose proof (skip_ws_length r) as Hr.
      destruct (skip_ws r) as [|c2 r2] eqn:Er; [discriminate|]. cbn [String.length] in Hr.
      destruct (nat_of_ascii c2 =? 93)%nat eqn:E93.
      - injection Hp as <- <-. split; [lia|].
        intros m Hm. destruct m as [|m]; [lia|]. cbn [parse_value]. cbv zeta.
        now rewrite Es, E123, E91, Er, E93.
      - destruct (parse_elements n [] r) as [[vs rest']|] eqn:Ee; [|discriminate].
        injection Hp as <- <-. destruct (IHe _ _ _ _ Ee) as [Hlen Hmore].
        split; [lia|].
        intros m Hm. destruct m as [|m]; [lia|]. cbn [parse_value]. cbv zeta.
        rewrite Es, E123, E91, Er, E93, Hmore; [reflexivity | lia]. }
    destruct (nat_of_ascii c =? 34)%nat eqn:E34.
    { destruct (parse_string r) as [[str rest']|] eqn:Estr; [|discriminate].
      injection Hp as <- <-. pose proof (parse_string_length _ _ _ Estr) as Hlen.
      split; [lia|].
      intros m Hm. destruct m as [|m]; [lia|]. cbn [parse_value]. cbv zeta.
      now rewrite Es, E123, E91, E34, Estr. }
    destruct (nat_of_ascii c =? 116)%nat eqn:E116.
    { destruct (drop_prefix "true" (String c r)) as [rest'|] eqn:Ed; [|discriminate].
      injection Hp as <- <-. pose proof (drop_prefix_length _ _ _ Ed) as Hlen.
      cbn [String.length] in Hlen. split; [lia|].
      intros m Hm. destruct m as [|m]; [lia|]. cbn [parse_value]. cbv zeta.
      now rewrite Es, E123, E91, E34, E116, Ed. }
    destruct (nat_of_ascii c =? 102)%nat eqn:E102.
    { destruct (drop_prefix "false" (String c r)) as [rest'|] eqn:Ed; [|discriminate].
      injection Hp as <- <-. pose proof (drop_prefix_length _ _ _ Ed) as Hlen.
      cbn [String.length] in Hlen. split; [lia|].
      intros m Hm. destruct m as [|m]; [lia|]. cbn [parse_value]. cbv zeta.
      now rewrite Es, E123, E91, E34, E116, E102, Ed. }
    destruct (nat_of_ascii c =? 110)%nat eqn:E110.
    { destruct (drop_prefix "null" (String c r)) as [rest'|] eqn:Ed; [|discriminate].
      injection Hp as <- <-. pose proof (drop_prefix_length _ _ _ Ed) as Hlen.
      cbn [String.length] in Hlen. split; [lia|].
      intros m Hm. destruct m as [|m]; [lia|]. cbn [parse_value]. cbv zeta.
      now rewrite Es, E123, E91, E34, E116, E102, E110, Ed. }
    destruct (parse_number (String c r)) as [[lexeme rest']|] eqn:En; [|discriminate].
    injection Hp as <- <-. pose proof (parse_number_length _ _ _ En) as Hlen.
    cbn [String.length] in Hlen. split; [lia|].
    intros m Hm. destruct m as [|m]; [lia|]. cbn [parse_value]. cbv zeta.
    now rewrite Es, E123, E91, E34, E116, E102, E110, En.
  - (* the elements of an array *)
    intros acc s vs rest Hp. cbn [parse_elements] in Hp.
    destruct (parse_value n s) as [[v r]|] eqn:Ev; [|discriminate].
    destruct (IHv _ _ _ Ev) as [Hv Hvmore].
    pose proof (skip_ws_length r) as Hr.
    destruct (skip_ws r) as [|c r'] eqn:Er; [discriminate|]. cbn [String.length] in Hr.
    destruct (nat_of_ascii c =? 44)%nat eqn:E44.
    + destruct (IHe _ _ _ _ Hp) as [Hlen Hmore]. split; [lia|].
      intros m Hm. destruct m as [|m]; [lia|]. cbn [parse_elements].
      rewrite Hvmore by lia. rewrite Er, E44. apply Hmore. lia.
    + destruct (nat_of_ascii c =? 93)%nat eqn:E93; [|discriminate].
      injection Hp as <- <-. split; [lia|].
      intros m Hm. destruct m as [|m]; [lia|]. cbn [parse_elements].
      rewrite Hvmore by lia. now rewrite Er, E44, E93.
  - (* the members of an object *)
    intros acc s ms rest Hp. cbn [parse_members] in Hp.
    pose proof (skip_ws_length s) as Hs.
    destruct (skip_ws s) as [|c r] eqn:Es; [discriminate|]. cbn [String.length] in Hs.
    destruct (nat_of_ascii c =? 34)%nat eqn:E34; [|discriminate].
    destruct (parse_string r) as [[key r1]|] eqn:Ek; [|discriminate].
    pose proof (parse_string_length _ _ _ Ek) as Hk.
    pose proof (skip_ws_length r1) as Hr1.
    destruct (skip_ws r1) as [|c1 r2] eqn:Er1; [discriminate|]. cbn [String.length] in Hr1.
    destruct (nat_of_ascii c1 =? 58)%nat eqn:E58; [|discriminate].
    destruct (parse_value n r2) as [[v r3]|] eqn:Ev; [|discriminate].
    destruct (IHv _ _ _ Ev) as [Hv Hvmore].
    pose proof (skip_ws_length r3) as Hr3.
    destruct (skip_ws r3) as [|c3 r4] eqn:Er3; [discriminate|]. cbn [String.length] in Hr3.
    destruct (nat_of_ascii c3 =? 44)%nat eqn:E44.
    + destruct (IHm _ _ _ _ Hp) as [Hlen Hmore]. split; [lia|].
      intros m Hm. destruct m as [|m]; [lia|]. cbn [parse_members].
      rewrite Es, E34, Ek, Er1, E58. rewrite Hvmore by lia.
      rewrite Er3, E44. apply Hmore. lia.
    + destruct (nat_of_ascii c3 =? 125)%nat eqn:E125; [|discriminate].
      injection Hp as <- <-. split; [lia|].
      intros m Hm. destruct m as [|m]; [lia|]. cbn [parse_members].
      rewrite Es, E34, Ek, Er1, E58. rewrite Hvmore by lia.
      now rewrite Er3, E44, E125.
Qed.

(** With the fuel [JSON_parse] passes, a [None] is a syntax error and never
    an exhausted counter: more fuel changes nothing. *)
Lemma parse_value_fuel_irrelevant (n : nat) (text : string) :
  S (String.length text) <= n ->
  parse_value n text = parse_value (S (String.length text)) text.
Proof.
  intros Hn.
  destruct (parse_value (S (String.length text)) text) as [[v rest]|] eqn:E.
  - destruct (parse_fuel (S (String.length text))) as [Hv _].
    destruct (Hv _ _ _ E) as [_ Hmore]. apply Hmore. lia.
  - destruct (parse_value n text) as [[v rest]|] eqn:E'; [|reflexivity].
    destruct (parse_fuel n) as [Hv _].
    destruct (Hv _ _ _ E') as [_ Hmore].
    rewrite Hmore in E by lia. discriminate.
Qed.

(* ================================================================= *)
(** ** The route handler *)
(* ================================================================= *)

Import Route.

Example accepting_text_parses :
  JSON_parse accepting_text
  = Some (JObj [ ("shouldReject", JBool false); ("summary", JStr "Centre console at rest");
                 ("insights", JObj [("boatOverview", JStr "white centre console")]) ]).
Proof. reflexivity. Qed.

Section RouteFacts.
Context `{Engine}.

Lemma analyze_trace (client : OpenAI) (b64 mime : string) (tr : list Call) :
  snd (analyzeSourceImage client b64 mime tr)
  = (tr ++ [ResponsesCall (analysis_request b64 mime)])%list.
Proof.
  unfold analyzeSourceImage, bind, call_responses, ret.
  destruct (responses_create client _) as [res|e]; [|reflexivity].
  destruct (cleanJson _) as [parsed|]; [|reflexivity].
  now destruct (to_boolean (Some parsed)).
Qed.

Lemma analyze_result (client : OpenAI) (b64 mime : string) (tr : list Call) :
  fst (analyzeSourceImage client b64 mime tr)
  = match responses_create client (analysis_request b64 mime) with
    | Throw e => Throw e
    | Ok res =>
        match cleanJson (extractMessageText res) with
        | Some parsed => if to_boolean (Some parsed) then Ok parsed else Ok default_analysis
        | None => Ok default_analysis
        end
    end.
Proof.
  unfold analyzeSourceImage, bind, call_responses, ret.
  destruct (responses_create client _) as [res|e]; [|reflexivity].
  destruct (cleanJson _) as [parsed|]; [|reflexivity].
  now destruct (to_boolean (Some parsed)).
Qed.

Lemma POST_with_image (key : string) (sdk : string -> OpenAI) (request : Request)
  (form : FormData) (image : File) :
  key <> "" ->
  formData request = Ok form ->
  form_get form "image" = Some (EFile image) ->
  POST (Some key) sdk request
  = bind (analyzeSourceImage (sdk key) (base64 (file_bytes image)) (mime_of image))
         (respond (sdk key)
            (field_or (form_get form "location") "Local waterways")
            (field_or (form_get form "lens") "wide-immersive")
            (field_or (form_get form "dynamic") "running")
            (is_true_string (form_get form "includeInteriors"))).
Proof.
  intros Hkey Hform Himage. unfold POST.
  apply String.eqb_neq in Hkey. rewrite Hkey.
  unfold bind at 1, lift at 1. rewrite Hform.
  rewrite Himage. reflexivity.
Qed.

(** The calls [respond] adds to the trace: none, the image request alone,
    or the image request and the verification. *)
Lemma respond_trace (openai : OpenAI) (loc lens dyn : string) (b : bool)
  (analysis : JSValue) (tr : list Call) :
  exists extra,
    snd (respond openai loc lens dyn b analysis tr) = (tr ++ extra)%list
    /\ (to_boolean (member "shouldReject" analysis) = true -> extra = [])
    /\ (forall p, to_boolean (member "shouldReject" analysis) = false ->
                  build_prompt loc lens dyn b analysis = Ok p ->
                  exists more, extra = ImagesCall (images_request p) :: more)
    /\ (forall r, In (ImagesCall r) extra ->
                  exists p, build_prompt loc lens dyn b analysis = Ok p
                            /\ r = images_request p).
Proof.
  unfold respond.
  destruct (to_boolean (member "shouldReject" analysis)) eqn:Hrej.
  - exists []. cbn. rewrite app_nil_r. repeat split; try discriminate; try contradiction.
  - unfold bind at 1, lift.
    destruct (build_prompt loc lens dyn b analysis) as [p|e] eqn:Hp.
    2: { exists []. cbn. rewrite app_nil_r.
         repeat split; try discriminate; try contradiction. }
    unfold bind at 1, generateShot, bind at 1, call_images.
    destruct (images_generate openai (images_request p)) as [resp|e].
    2: { exists [ImagesCall (images_request p)]. cbn. repeat split; try discriminate.
         - intros p' _ [= <-]. eauto.
         - intros r [[= <-]|[]]. eauto. }
    destruct (first_b64 resp) as [b64|].
    2: { exists [ImagesCall (images_request p)]. cbn. repeat split; try discriminate.
         - intros p' _ [= <-]. eauto.
         - intros r [[= <-]|[]]. eauto. }
    unfold ret, bind, verifyComposite, bind, call_responses.
    eexists [ImagesCall (images_request p); ResponsesCall _]. cbn.
    destruct (responses_create openai _); cbn; rewrite <- app_assoc; cbn;
      (repeat split; try discriminate;
       [ intros p' _ [= <-]; eauto
       | intros r [[= <-]|[[=]|[]]]; eauto ]).
Qed.

Lemma build_prompt_parts (loc lens dyn : string) (b : bool) (analysis : JSValue)
  (p : string) :
  build_prompt loc lens dyn b analysis = Ok p ->
  contains p ("Locale: " ++ loc ++ ".")
  /\ contains p ("Lens profile: " ++ property_text (lensDirective lens) ++ ".")
  /\ contains p ("Shot dynamic: " ++ property_text (motionDirective dyn) ++ ".")
  /\ contains p (reinforcement b).
Proof.
  unfold build_prompt.
  destruct (read_member _ "boatOverview"); [|discriminate].
  destruct (text_or _ "modern powerboat."); [|discriminate].
  destruct (read_member _ "visualFocalPoints"); [|discriminate].
  destruct (text_or _ "sleek hull, helm, passengers if present."); [|discriminate].
  destruct (read_member _ "locationAdaptation"); [|discriminate].
  destruct (text_or _ "match regional water coloration and skyline."); [|discriminate].
  intros Heq.
  match type of Heq with Ok ?x = _ => assert (E : p = x) by congruence end.
  rewrite E. repeat split; apply contains_join; simpl; auto 10.
Qed.

(** Every image request [POST] sends carries a prompt built from the
    form's fields, defaults applied, and the analysis. *)
Lemma POST_image_request (key : string) (sdk : string -> OpenAI) (request : Request)
  (form : FormData) (r : ImagesRequest) :
  formData request = Ok form ->
  In (ImagesCall r) (snd (POST (Some key) sdk request [])) ->
  exists image analysis,
    form_get form "image" = Some (EFile image)
    /\ fst (analyzeSourceImage (sdk key) (base64 (file_bytes image)) (mime_of image) [])
       = Ok analysis
    /\ build_prompt (field_or (form_get form "location") "Local waterways")
         (field_or (form_get form "lens") "wide-immersive")
         (field_or (form_get form "dynamic") "running")
         (is_true_string (form_get form "includeInteriors")) analysis
       = Ok (ig_prompt r).
Proof.
  intros Hform Hin.
  destruct (String.eqb key "") eqn:Hkey.
  { unfold POST in Hin. rewrite Hkey in Hin. destruct Hin. }
  apply String.eqb_neq in Hkey.
  destruct (form_get form "image") as [[s|image]|] eqn:Himage.
  1, 3: unfold POST in Hin; apply String.eqb_neq in Hkey; rewrite Hkey in Hin;
        unfold bind, lift in Hin; rewrite Hform, Himage in Hin; destruct Hin.
  rewrite (POST_with_image key sdk request form image Hkey Hform Himage) in Hin.
  unfold bind in Hin.
  pose proof (analyze_trace (sdk key) (base64 (file_bytes image)) (mime_of image) []) as Htr.
  destruct (analyzeSourceImage (sdk key) _ _ []) as [[analysis|e] tr1] eqn:Han;
    cbn in Htr; subst tr1.
  2: { cbn in Hin. destruct Hin as [[=]|[]]. }
  destruct (respond_trace (sdk key)
              (field_or (form_get form "location") "Local waterways")
              (field_or (form_get form "lens") "wide-immersive")
              (field_or (form_get form "dynamic") "running")
              (is_true_string (form_get form "includeInteriors")) analysis
              [ResponsesCall (analysis_request (base64 (file_bytes image)) (mime_of image))])
    as [extra [Hsnd [_ [_ Hextra]]]].
  rewrite Hsnd in Hin. cbn in Hin. destruct Hin as [[=]|Hin].
  destruct (Hextra r Hin) as [p [Hp ->]].
  exists image, analysis. split; [reflexivity|]. split; [now rewrite Han | exact Hp].
Qed.

Lemma analyze_unparsed (client : OpenAI) (b64 mime : string) (res : Payload) :
  responses_create client (analysis_request b64 mime) = Ok res ->
  to_boolean (cleanJson (extractMessageText res)) = false ->
  analyzeSourceImage client b64 mime []
  = (Ok default_analysis, [ResponsesCall (analysis_request b64 mime)]).
Proof.
  intros Hres Hfalsy.
  unfold analyzeSourceImage, bind, call_responses, ret. rewrite Hres.
  destruct (cleanJson _) as [parsed|]; [|reflexivity].
  now rewrite Hfalsy.
Qed.

Lemma cleanJson_object (text : string) (v : JSValue) :
  cleanJson text = Some v ->
  exists span ms, contains text span /\ JSON_parse span = Some (JObj ms) /\ v = JObj ms.
Proof.
  unfold cleanJson. destruct (json_span text) as [span|] eqn:Hspan; [|discriminate].
  intros Hparse. destruct (json_span_shape text span Hspan) as [[->|[r ->]] Hin].
  - rewrite JSON_parse_empty in Hparse. discriminate.
  - destruct (JSON_parse_object r v Hparse) as [ms ->]. eauto.
Qed.

End RouteFacts.

Lemma occurs_app (c : ascii) (a b : string) :
  occurs c (a ++ b) = occurs c a || occurs c b.
Proof.
  induction a as [|d a IH]; simpl; [reflexivity|].
  now rewrite IH, orb_assoc.
Qed.

Lemma occurs_contained (c : ascii) (s sub : string) :
  contains s sub -> occurs c sub = true -> occurs c s = true.
Proof.
  intros [pre [post ->]] Hsub.
  rewrite !occurs_app, Hsub. now rewrite orb_true_r.
Qed.

Lemma skip_ws_occurs (c : ascii) (s : string) :
  occurs c (skip_ws s) = true -> occurs c s = true.
Proof.
  induction s as [|d s IH]; simpl; [tauto|].
  destruct (is_ws d); simpl; [|tauto].
  intros Hs. rewrite (IH Hs). apply orb_true_r.
Qed.

Lemma parse_value_object_brace (n : nat) (s rest : string) (ms : list (string * JSValue)) :
  parse_value n s = Some (JObj ms, rest) -> occurs "{" s = true.
Proof.
  destruct n as [|n]; [discriminate|].
  cbn [parse_value]. intros Hp. apply skip_ws_occurs.
  destruct (skip_ws s) as [|c r]; [discriminate|].
  destruct (nat_of_ascii c =? 123)%nat eqn:Hc.
  - apply Nat.eqb_eq in Hc.
    assert (c = "{"%char) as -> by (rewrite <- (ascii_nat_embedding c), Hc; reflexivity).
    reflexivity.
  - exfalso. revert Hp.
    repeat match goal with
           | |- context [if ?b then _ else _] => destruct b
           | |- context [match ?x with _ => _ end] => destruct x
           end; discriminate.
Qed.

Lemma JSON_parse_object_brace (s : string) (ms : list (string * JSValue)) :
  JSON_parse s = Some (JObj ms) -> occurs "{" s = true.
Proof.
  unfold JSON_parse.
  destruct (parse_value _ s) as [[v rest]|] eqn:Hp; [|discriminate].
  destruct (skip_ws rest); [|discriminate].
  intros [= ->]. eapply parse_value_object_brace, Hp.
Qed.

(** C5.  When the stage-1 response text has no substring that parses as a
    JSON object, [analyzeSourceImage] does not throw: it returns the
    default analysis, whose [shouldReject] is false, whose summary is the
    default sentence and whose insights bundle is empty; and [respond] then
    goes on to the image request. *)
Theorem analyze_defaults_when_unparseable `{Engine} (client : OpenAI)
  (b64 mime : string) (res : Payload) :
  responses_create client (analysis_request b64 mime) = Ok res ->
  (forall sub ms, contains (extractMessageText res) sub ->
                  JSON_parse sub <> Some (JObj ms)) ->
  analyzeSourceImage client b64 mime []
  = (Ok default_analysis, [ResponsesCall (analysis_request b64 mime)])
  /\ member "shouldReject" default_analysis = Some (JBool false)
  /\ member "summary" default_analysis
     = Some (JStr "Unable to parse structured inspection; proceeding with default transformation.")
  /\ member "insights" default_analysis = Some (JObj [])
  /\ forall loc lens dyn b tr,
       exists p more,
         build_prompt loc lens dyn b default_analysis = Ok p
         /\ snd (respond client loc lens dyn b default_analysis tr)
            = (tr ++ ImagesCall (images_request p) :: more)%list.
Proof.
  intros Hres Hnone. split; [|repeat split].
  - apply (analyze_unparsed client b64 mime res Hres).
    destruct (cleanJson (extractMessageText res)) as [v|] eqn:Hclean; [|reflexivity].
    destruct (cleanJson_object _ _ Hclean) as [span [ms [Hin [Hparse _]]]].
    now destruct (Hnone span ms Hin).
  - intros loc lens dyn b tr.
    destruct (respond_trace client loc lens dyn b default_analysis tr)
      as [extra [Hsnd [_ [Hgo _]]]].
    eexists. destruct (Hgo _ eq_refl eq_refl) as [more ->].
    exists more. split; [reflexivity | exact Hsnd].
Qed.

Lemma analyze_defaults_witness :
  @analyzeSourceImage v8_like (scripted_client "The photo shows a boat on calm water.")
    (base64 (file_bytes boat_jpg)) (mime_of boat_jpg) []
  = (Ok default_analysis,
     [ResponsesCall (analysis_request (base64 (file_bytes boat_jpg)) (mime_of boat_jpg))]).
Proof.
  refine (proj1 (@analyze_defaults_when_unparseable v8_like
                   (scripted_client "The photo shows a boat on calm water.")
                   (base64 (file_bytes boat_jpg)) (mime_of boat_jpg) _ eq_refl _)).
  intros sub ms Hin Hparse.
  apply JSON_parse_object_brace in Hparse.
  pose proof (occurs_contained "{" _ sub Hin Hparse) as Hocc.
  vm_compute in Hocc. discriminate Hocc.
Defined.

(** C6, as the code has it.  [cleanJson] hands [JSON.parse] the text from
    the first opening brace through the last closing brace; with no
    opening or no closing brace it parses nothing; and when the last
    closing brace stands before the first opening one the span is empty. *)
Theorem json_span_first_to_last :
  (forall pre mid post,
      occurs "{" pre = false -> occurs "}" post = false ->
      json_span (pre ++ "{" ++ mid ++ "}" ++ post) = Some ("{" ++ mid ++ "}")
      /\ cleanJson (pre ++ "{" ++ mid ++ "}" ++ post) = JSON_parse ("{" ++ mid ++ "}"))
  /\ (forall text,
      occurs "{" text = false \/ occurs "}" text = false ->
      json_span text = None /\ cleanJson text = None)
  /\ (forall pre mid post,
      occurs "{" (pre ++ "}" ++ mid) = false -> occurs "}" (mid ++ "{" ++ post) = false ->
      json_span (pre ++ "}" ++ mid ++ "{" ++ post) = Some ""
      /\ cleanJson (pre ++ "}" ++ mid ++ "{" ++ post) = None).
Proof.
  split; [|split].
  - intros pre mid post Hpre Hpost. unfold cleanJson.
    now rewrite (json_span_sandwich pre mid post Hpre Hpost).
  - intros text Hno. unfold cleanJson. now rewrite (json_span_none text Hno).
  - intros pre mid post Hl Hr.
    assert (Hspan : json_span (pre ++ "}" ++ mid ++ "{" ++ post) = Some "").
    { replace (pre ++ "}" ++ mid ++ "{" ++ post)
        with ((pre ++ "}" ++ mid) ++ String "{" post)
        by (rewrite !append_assoc; reflexivity).
      rewrite (json_span_some (pre ++ "}" ++ mid) post pre (mid ++ "{" ++ post) Hl Hr)
        by (rewrite !append_assoc; reflexivity).
      f_equal. apply slice_backwards.
      - repeat (rewrite ?length_append; cbn [String.length append]). clear. lia.
      - repeat (rewrite ?length_append; cbn [String.length append]). clear. lia. }
    split; [exact Hspan|]. unfold cleanJson. now rewrite Hspan.
Qed.

Lemma json_span_first_to_last_witness :
  json_span ("Result: " ++ "{" ++ "} and {" ++ "}" ++ " done")
  = Some ("{" ++ "} and {" ++ "}").
Proof.
  exact (proj1 (proj1 json_span_first_to_last "Result: " "} and {" " done" eq_refl eq_refl)).
Defined.

(** C6, as the claim states it, fails: with two objects in the text the
    code takes everything from the first opening brace to the last closing
    one, which is not the first balanced span and does not parse, although
    the first balanced span does. *)
Lemma json_span_not_first_balanced :
  let text := rejecting_text ++ " Note: {see above}" in
  json_span text = Some text
  /\ first_balanced_span text = Some rejecting_text
  /\ json_span text <> first_balanced_span text
  /\ cleanJson text = None
  /\ JSON_parse rejecting_text
     = Some (JObj [ ("shouldReject", JBool true);
                    ("rejectionReason", JStr "trailer visible");
                    ("summary", JStr "Boat on a trailer") ]).
Proof. vm_compute. repeat split. discriminate. Qed.

(** C7.  [POST] answers 500 when [OPENAI_API_KEY] is unset or empty,
    before the form is read or any model is called; with the key present
    it answers 400 when the form holds no file under [image], again with
    no call made.  With the file present each of [location], [lens] and
    [dynamic] is defaulted on its own, whatever the other two are: a field
    that is absent (or empty) is processed as "Local waterways",
    "wide-immersive" and "running" respectively, a field given as a
    non-empty string is processed as given, and the prompt of every image
    request sent shows the default of each absent field. *)
Theorem POST_validation_and_defaults `{Engine} (sdk : string -> OpenAI)
  (request : Request) :
  (forall tr, POST None sdk request tr = (Ok missing_key_response, tr))
  /\ (forall tr, POST (Some "") sdk request tr = (Ok missing_key_response, tr))
  /\ (forall key form tr,
        key <> "" -> formData request = Ok form ->
        (forall f, form_get form "image" <> Some (EFile f)) ->
        POST (Some key) sdk request tr = (Ok missing_upload_response, tr))
  /\ (forall key form image,
        key <> "" -> formData request = Ok form ->
        form_get form "image" = Some (EFile image) ->
        let analysis :=
          analyzeSourceImage (sdk key) (base64 (file_bytes image)) (mime_of image) in
        let location := field_or (form_get form "location") "Local waterways" in
        let lens := field_or (form_get form "lens") "wide-immersive" in
        let dynamic := field_or (form_get form "dynamic") "running" in
        let interiors := is_true_string (form_get form "includeInteriors") in
        (unset (form_get form "location") ->
         POST (Some key) sdk request
         = bind analysis (respond (sdk key) "Local waterways" lens dynamic interiors))
        /\ (unset (form_get form "lens") ->
            POST (Some key) sdk request
            = bind analysis (respond (sdk key) location "wide-immersive" dynamic interiors))
        /\ (unset (form_get form "dynamic") ->
            POST (Some key) sdk request
            = bind analysis (respond (sdk key) location lens "running" interiors))
        /\ (forall l z d,
              given (form_get form "location") l -> given (form_get form "lens") z ->
              given (form_get form "dynamic") d ->
              POST (Some key) sdk request
              = bind analysis (respond (sdk key) l z d interiors))
        /\ (forall r,
              In (ImagesCall r) (snd (POST (Some key) sdk request [])) ->
              (unset (form_get form "location") ->
               contains (ig_prompt r) "Locale: Local waterways.")
              /\ (unset (form_get form "lens") ->
                  contains (ig_prompt r) ("Lens profile: " ++ wide_immersive_phrase ++ "."))
              /\ (unset (form_get form "dynamic") ->
                  contains (ig_prompt r) ("Shot dynamic: " ++ running_phrase ++ ".")))).
Proof.
  assert (Hunset : forall v d, unset v -> field_or v d = d).
  { intros v d [-> | ->]; reflexivity. }
  assert (Hgiven : forall v d s, given v s -> field_or v d = s).
  { intros v d s [-> Hs]. cbn. apply String.eqb_neq in Hs. now rewrite Hs. }
  split; [reflexivity|]. split; [reflexivity|]. split.
  - intros key form tr Hkey Hform Hnofile. unfold POST.
    apply String.eqb_neq in Hkey. rewrite Hkey.
    unfold bind, lift. rewrite Hform.
    destruct (form_get form "image") as [[s|f]|] eqn:Himage; try reflexivity.
    now destruct (Hnofile f).
  - intros key form image Hkey Hform Himage. cbv zeta.
    pose proof (POST_with_image key sdk request form image Hkey Hform Himage) as Hpost.
    split; [|split; [|split; [|split]]].
    + intros Hu. now rewrite (Hunset _ "Local waterways" Hu) in Hpost.
    + intros Hu. now rewrite (Hunset _ "wide-immersive" Hu) in Hpost.
    + intros Hu. now rewrite (Hunset _ "running" Hu) in Hpost.
    + intros l z d Hl Hz Hd.
      now rewrite (Hgiven _ "Local waterways" l Hl), (Hgiven _ "wide-immersive" z Hz),
        (Hgiven _ "running" d Hd) in Hpost.
    + intros r Hin.
      destruct (POST_image_request key sdk request form r Hform Hin)
        as [image' [analysis [_ [_ Hp]]]].
      destruct (build_prompt_parts _ _ _ _ _ _ Hp) as [Hloc [Hlens [Hdyn _]]].
      split; [|split]; intros Hu.
      * now rewrite (Hunset _ "Local waterways" Hu) in Hloc.
      * now rewrite (Hunset _ "wide-immersive" Hu) in Hlens.
      * now rewrite (Hunset _ "running" Hu) in Hdyn.
Qed.

Lemma POST_validation_witness :
  @POST v8_like (Some "sk-test") (fun _ => scripted_client accepting_text)
    {| formData := Ok form_without_file |} []
  = (Ok missing_upload_response, [])
  /\ @POST v8_like (Some "sk-test") (fun _ => scripted_client accepting_text)
       {| formData := Ok form_lens_only |}
     = bind (@analyzeSourceImage v8_like (scripted_client accepting_text)
               (base64 (file_bytes boat_jpg)) (mime_of boat_jpg))
            (@respond v8_like (scripted_client accepting_text)
               "Local waterways" "action-zoom" "running" false)
  /\ @POST v8_like (Some "sk-test") (fun _ => scripted_client accepting_text)
       {| formData := Ok form_empty_lens |}
     = bind (@analyzeSourceImage v8_like (scripted_client accepting_text)
               (base64 (file_bytes boat_jpg)) (mime_of boat_jpg))
            (@respond v8_like (scripted_client accepting_text)
               "Lake Union" "wide-immersive" "harbor" false).
Proof.
  split; [|split].
  - refine (proj1 (proj2 (proj2 (@POST_validation_and_defaults v8_like
                                    (fun _ => scripted_client accepting_text)
                                    {| formData := Ok form_without_file |})))
              "sk-test" form_without_file [] _ eq_refl _).
    + discriminate.
    + intros f. discriminate.
  - destruct (proj2 (proj2 (proj2 (@POST_validation_and_defaults v8_like
                                     (fun _ => scripted_client accepting_text)
                                     {| formData := Ok form_lens_only |})))
                "sk-test" form_lens_only boat_jpg ltac:(discriminate) eq_refl eq_refl)
      as [Hloc _].
    apply Hloc. left. reflexivity.
  - destruct (proj2 (proj2 (proj2 (@POST_validation_and_defaults v8_like
                                     (fun _ => scripted_client accepting_text)
                                     {| formData := Ok form_empty_lens |})))
                "sk-test" form_empty_lens boat_jpg ltac:(discriminate) eq_refl eq_refl)
      as [_ [Hlens _]].
    apply Hlens. right. reflexivity.
Defined.

Lemma is_true_string_iff (v : option FormDataEntryValue) :
  is_true_string v = true <-> v = Some (EString "true").
Proof.
  destruct v as [[s|f]|]; simpl; try (split; discriminate).
  rewrite String.eqb_eq. split; [now intros -> | now intros [= ->]].
Qed.

Lemma reinforcement_sentence (b : bool) :
  contains (reinforcement b) interior_sentence <-> b = true.
Proof.
  rewrite <- containsb_iff. destruct b; vm_compute; split; congruence.
Qed.

(** C10.  The interior sentence stands in the reinforcement clause of the
    prompt exactly when the form's [includeInteriors] field is the string
    "true"; with any other value, a file, or no field the clause ends in
    the exterior-only sentence; and every image request [POST] sends
    carries the clause chosen this way. *)
Theorem interiors_only_for_true_string `{Engine} :
  (forall v, contains (reinforcement (is_true_string v)) interior_sentence
             <-> v = Some (EString "true"))
  /\ (forall v, v <> Some (EString "true") ->
         reinforcement (is_true_string v) = reinforcement false
         /\ contains (reinforcement false) exterior_sentence
         /\ ~ contains (reinforcement false) interior_sentence)
  /\ (forall key sdk request form r,
         formData request = Ok form ->
         In (ImagesCall r) (snd (POST (Some key) sdk request [])) ->
         contains (ig_prompt r)
           (reinforcement (is_true_string (form_get form "includeInteriors")))).
Proof.
  split; [|split].
  - intros v. now rewrite reinforcement_sentence, is_true_string_iff.
  - intros v Hv.
    assert (is_true_string v = false) as ->.
    { destruct (is_true_string v) eqn:Hb; [|reflexivity].
      now apply is_true_string_iff in Hb. }
    split; [reflexivity|]. split.
    + apply containsb_iff. reflexivity.
    + rewrite reinforcement_sentence. discriminate.
  - intros key sdk request form r Hform Hin.
    destruct (POST_image_request key sdk request form r Hform Hin)
      as [image [analysis [_ [_ Hp]]]].
    apply (build_prompt_parts _ _ _ _ _ _ Hp).
Qed.

Lemma interiors_witness :
  reinforcement (is_true_string (Some (EString "True"))) = reinforcement false
  /\ reinforcement (is_true_string (Some (EString "1"))) = reinforcement false
  /\ reinforcement (is_true_string None) = reinforcement false
  /\ contains
       (ig_prompt (images_request
          (match @build_prompt v8_like "Lake Union" "action-zoom" "harbor" true
                   default_analysis with
           | Ok p => p
           | Throw _ => ""
           end)))
       (reinforcement (is_true_string
          (form_get (form_with "action-zoom" "harbor" "true") "includeInteriors"))).
Proof.
  pose proof (@interiors_only_for_true_string v8_like) as [_ [Hother Hsent]].
  split; [|split; [|split]].
  - apply (Hother (Some (EString "True"))). discriminate.
  - apply (Hother (Some (EString "1"))). discriminate.
  - apply (Hother None). discriminate.
  - apply (Hsent "sk-test" (fun _ => scripted_client "no json")
             {| formData := Ok (form_with "action-zoom" "harbor" "true") |}
             (form_with "action-zoom" "harbor" "true") _ eq_refl).
    vm_compute. auto.
Defined.

(** With lens [action-zoom] and dynamic [harbor], every prompt [POST]
    sends to the image model holds both lexicon phrases word for word and
    the locale string the caller supplied. *)
Theorem action_zoom_harbor_prompt `{Engine} (key : string) (sdk : string -> OpenAI)
  (request : Request) (form : FormData) (r : ImagesRequest) (locale : string) :
  formData request = Ok form ->
  form_get form "lens" = Some (EString "action-zoom") ->
  form_get form "dynamic" = Some (EString "harbor") ->
  form_get form "location" = Some (EString locale) ->
  In (ImagesCall r) (snd (POST (Some key) sdk request [])) ->
  contains (ig_prompt r) action_zoom_phrase
  /\ contains (ig_prompt r) harbor_phrase
  /\ contains (ig_prompt r) locale.
Proof.
  intros Hform Hlens Hdyn Hloc Hin.
  destruct (POST_image_request key sdk request form r Hform Hin)
    as [image [analysis [_ [_ Hp]]]].
  rewrite Hlens, Hdyn, Hloc in Hp.
  destruct (build_prompt_parts _ _ _ _ _ _ Hp) as [Hl [Hz [Hh _]]].
  split; [|split].
  - eapply contains_trans; [exact Hz|]. apply containsb_iff. reflexivity.
  - eapply contains_trans; [exact Hh|]. apply containsb_iff. reflexivity.
  - simpl field_or in Hl. destruct (String.eqb locale "") eqn:Hempty.
    + apply String.eqb_eq in Hempty as ->. now exists "", (ig_prompt r).
    + eapply contains_trans; [exact Hl|].
      exists "Locale: ", ".". reflexivity.
Qed.

Lemma action_zoom_harbor_witness :
  contains
    (match @build_prompt v8_like "Lake Union" "action-zoom" "harbor" true default_analysis with
     | Ok p => p
     | Throw _ => ""
     end) action_zoom_phrase.
Proof.
  refine (proj1 (@action_zoom_harbor_prompt v8_like "sk-test"
                   (fun _ => scripted_client "no json")
                   {| formData := Ok (form_with "action-zoom" "harbor" "true") |}
                   (form_with "action-zoom" "harbor" "true")
                   (images_request _) "Lake Union" eq_refl eq_refl eq_refl eq_refl _)).
  vm_compute. auto.
Defined.

(** A lens or dynamic id that names no property at all, own or inherited,
    gets the default directive. *)
Theorem unknown_id_gets_default (lens dynamic : string) :
  assoc lens lensLexicon = None ->
  assoc dynamic dynamicDirectives = None ->
  assoc lens object_prototype_methods = None -> lens <> "__proto__" ->
  assoc dynamic object_prototype_methods = None -> dynamic <> "__proto__" ->
  property_text (lensDirective lens) = wide_immersive_phrase
  /\ property_text (motionDirective dynamic) = running_phrase.
Proof.
  intros Hl Hd Hlp Hl' Hdp Hd'.
  unfold lensDirective, motionDirective, read_property at 1 3.
  rewrite Hl, Hd, Hlp, Hdp.
  apply String.eqb_neq in Hl', Hd'. now rewrite Hl', Hd'.
Qed.

Lemma unknown_id_witness :
  property_text (lensDirective "fisheye") = wide_immersive_phrase
  /\ property_text (motionDirective "drifting") = running_phrase.
Proof.
  apply (unknown_id_gets_default "fisheye" "drifting"); try reflexivity; discriminate.
Defined.

(** C2 at the failing input.  [constructor] is no key of the lens lexicon,
    yet [lensLexicon["constructor"]] is the inherited [Object] function,
    which [??] does not replace: the prompt sent for such a request holds
    the function's source text and not the default directive. *)
Theorem inherited_id_escapes_default :
  assoc "constructor" lensLexicon = None
  /\ lensDirective "constructor" = Some (NativeFunction "Object")
  /\ motionDirective "toString" = Some (NativeFunction "toString")
  /\ exists p,
       prompts_sent
         (snd (@POST v8_like (Some "sk-test") (fun _ => scripted_client accepting_text)
                 {| formData := Ok (form_with "constructor" "harbor" "true") |} []))
       = [p]
       /\ containsb p "Lens profile: function Object() { [native code] }." = true
       /\ containsb p wide_immersive_phrase = false.
Proof.
  split; [reflexivity|]. split; [reflexivity|]. split; [reflexivity|].
  eexists. split; [vm_compute; reflexivity|]. split; vm_compute; reflexivity.
Qed.

(** The rejection: a truthy [shouldReject] ends the request with status
    422 and the analysis's reason after the one analysis call. *)
Lemma POST_rejects `{Engine} (key : string) (sdk : string -> OpenAI)
  (request : Request) (form : FormData) (image : File) (analysis : JSValue) :
  key <> "" ->
  formData request = Ok form ->
  form_get form "image" = Some (EFile image) ->
  fst (analyzeSourceImage (sdk key) (base64 (file_bytes image)) (mime_of image) [])
  = Ok analysis ->
  to_boolean (member "shouldReject" analysis) = true ->
  POST (Some key) sdk request []
  = (Ok (rejection_response (member "rejectionReason" analysis)),
     [ResponsesCall (analysis_request (base64 (file_bytes image)) (mime_of image))]).
Proof.
  intros Hkey Hform Himage Han Hrej.
  rewrite (POST_with_image key sdk request form image Hkey Hform Himage).
  unfold bind.
  pose proof (analyze_trace (sdk key) (base64 (file_bytes image)) (mime_of image) []) as Htr.
  destruct (analyzeSourceImage (sdk key) _ _ []) as [res tr1].
  cbn in Han, Htr. subst res tr1.
  unfold respond. now rewrite Hrej.
Qed.

(* ================================================================= *)
(** ** The route handler: further properties *)
(* ================================================================= *)

Import Route.

(** *** extractMessageText *)

Lemma first_hit_app (a b : list ContentBlock) :
  first_hit (a ++ b) = coalesce (first_hit a) (first_hit b).
Proof.
  induction a as [|x a IH]; [reflexivity|]. cbn [app first_hit].
  rewrite IH. now destruct (block_hit x).
Qed.

Lemma scan_output_flat (items : list OutputItem) :
  scan_output items
  = match first_hit (all_blocks items) with
    | Some text => text
    | None => ""
    end.
Proof.
  induction items as [|item items IH]; [reflexivity|].
  cbn [scan_output all_blocks flat_map]. rewrite first_hit_app.
  fold (blocks_of item). fold (all_blocks items).
  destruct (first_hit (blocks_of item)); [reflexivity|]. exact IH.
Qed.

Lemma block_hit_text (b : ContentBlock) (t : string) :
  block_hit b = Some t <-> is_output_text b t.
Proof.
  unfold block_hit, is_output_text.
  destruct (block_type b) as [ty|], (block_text b) as [text|];
    try (split; [discriminate | intros [? [? ?]]; discriminate]).
  destruct (String.eqb ty "output_text") eqn:Ety; cbn [andb].
  - apply String.eqb_eq in Ety as ->.
    destruct (String.eqb text "") eqn:Etext; cbn [negb].
    + apply String.eqb_eq in Etext as ->.
      split; [discriminate | intros [_ [[= <-] Hne]]; now elim Hne].
    + apply String.eqb_neq in Etext.
      split; [intros [= <-]; auto | intros [_ [[= <-] _]]; reflexivity].
  - apply String.eqb_neq in Ety.
    split; [discriminate | intros [[= ->] _]; now elim Ety].
Qed.

Lemma first_hit_none (blocks : list ContentBlock) :
  (forall b t, In b blocks -> ~ is_output_text b t) -> first_hit blocks = None.
Proof.
  induction blocks as [|b blocks IH]; intros Hno; [reflexivity|].
  cbn [first_hit]. destruct (block_hit b) as [t|] eqn:Hb.
  - apply block_hit_text in Hb. elim (Hno b t); [now left | assumption].
  - cbn [coalesce]. apply IH. intros b' t Hin. apply Hno. now right.
Qed.

(** [extractMessageText] returns the text of the first block, in document
    order, whose type is [output_text] and whose text is not empty: items
    without content and blocks of another type or with an empty or missing
    text are passed over.  It returns the empty string when there is no
    such block, when [output] is null, and when the payload is no object
    or has no [output] key. *)
Theorem extractMessageText_first_text :
  (forall items pre b post t,
      all_blocks items = (pre ++ b :: post)%list ->
      (forall b' t', In b' pre -> ~ is_output_text b' t') ->
      is_output_text b t ->
      extractMessageText (WithOutput (Some items)) = t)
  /\ (forall items,
      (forall b t, In b (all_blocks items) -> ~ is_output_text b t) ->
      extractMessageText (WithOutput (Some items)) = "")
  /\ extractMessageText (WithOutput None) = ""
  /\ extractMessageText NoOutputKey = ""
  /\ extractMessageText NotAnObject = "".
Proof.
  split; [|split; [|repeat split]].
  - intros items pre b post t Hall Hpre Hb.
    cbn [extractMessageText]. rewrite scan_output_flat, Hall, first_hit_app.
    rewrite (first_hit_none pre Hpre). cbn [coalesce first_hit].
    apply block_hit_text in Hb. now rewrite Hb.
  - intros items Hno. cbn [extractMessageText].
    now rewrite scan_output_flat, (first_hit_none _ Hno).
Qed.

Lemma extractMessageText_witness :
  extractMessageText
    (WithOutput
       (Some [ {| content := None |};
               {| content := Some [ {| block_type := Some "reasoning";
                                       block_text := Some "thinking" |};
                                    {| block_type := Some "output_text";
                                       block_text := Some "" |} ] |};
               {| content := Some [ {| block_type := Some "output_text";
                                       block_text := Some "A boat." |};
                                    {| block_type := Some "output_text";
                                       block_text := Some "Another." |} ] |} ]))
  = "A boat.".
Proof.
  destruct extractMessageText_first_text as [Hfirst _].
  apply (Hfirst _ [ {| block_type := Some "reasoning"; block_text := Some "thinking" |};
                    {| block_type := Some "output_text"; block_text := Some "" |} ]
                {| block_type := Some "output_text"; block_text := Some "A boat." |}
                [ {| block_type := Some "output_text"; block_text := Some "Another." |} ]).
  - reflexivity.
  - intros b' t' [<-|[<-|[]]] [Hty [Htext Hne]]; cbn in *; congruence.
  - repeat split; discriminate.
Defined.

(** *** generateShot *)

Section ShotFacts.
Context `{Engine}.

Lemma generateShot_trace (client : OpenAI) (prompt : string) (tr : list Call) :
  snd (generateShot client prompt tr) = (tr ++ [ImagesCall (images_request prompt)])%list.
Proof.
  unfold generateShot, bind, call_images.
  destruct (images_generate client _) as [response|e]; [|reflexivity].
  now destruct (first_b64 response).
Qed.

Lemma generateShot_result (client : OpenAI) (prompt : string) (tr : list Call) :
  fst (generateShot client prompt tr)
  = match images_generate client (images_request prompt) with
    | Throw e => Throw e
    | Ok response =>
        match first_b64 response with
        | Some b => Ok ("data:image/png;base64," ++ b)
        | None => Throw (ErrorObj "Image generation returned no data.")
        end
    end.
Proof.
  unfold generateShot, bind, call_images.
  destruct (images_generate client _) as [response|e]; [|reflexivity].
  now destruct (first_b64 response).
Qed.

Lemma first_b64_none (response : ImagesResponse) :
  first_b64 response = None
  <-> data response = None \/ data response = Some []
      \/ exists d rest, data response = Some (d :: rest)
                        /\ (b64_json d = None \/ b64_json d = Some "").
Proof.
  unfold first_b64. destruct (data response) as [[|d rest]|].
  - split; [auto | reflexivity].
  - destruct (b64_json d) as [b|] eqn:Hb.
    + destruct (String.eqb b "") eqn:Eb.
      * apply String.eqb_eq in Eb as ->. split; [|reflexivity].
        intros _. right. right. exists d, rest. auto.
      * apply String.eqb_neq in Eb. split; [discriminate|].
        intros [Hn|[Hn|[d' [rest' [Hd [Hn|Hn]]]]]]; try discriminate;
          injection Hd as <- <-; rewrite Hb in Hn; [discriminate|].
        injection Hn as ->. now elim Eb.
    + split; [|reflexivity]. intros _. right. right. exists d, rest. auto.
  - split; [auto | reflexivity].
Qed.

End ShotFacts.

(** [generateShot] makes one request to the image model, with the prompt
    and the fixed model, size, quality and style.  It returns the data URL
    of the first image of the answer and looks at no other; it throws
    "Image generation returned no data." when the answer has no [data], an
    empty [data], or a first image whose [b64_json] is missing or empty;
    an error of the request itself is passed on. *)
Theorem generateShot_outcomes (client : OpenAI) (prompt : string) (tr : list Call) :
  snd (generateShot client prompt tr) = (tr ++ [ImagesCall (images_request prompt)])%list
  /\ (forall e, images_generate client (images_request prompt) = Throw e ->
                fst (generateShot client prompt tr) = Throw e)
  /\ (forall d rest b,
        images_generate client (images_request prompt) = Ok {| data := Some (d :: rest) |} ->
        b64_json d = Some b -> b <> "" ->
        fst (generateShot client prompt tr) = Ok ("data:image/png;base64," ++ b))
  /\ (forall response,
        images_generate client (images_request prompt) = Ok response ->
        data response = None \/ data response = Some []
        \/ (exists d rest, data response = Some (d :: rest)
                           /\ (b64_json d = None \/ b64_json d = Some "")) ->
        fst (generateShot client prompt tr)
        = Throw (ErrorObj "Image generation returned no data.")).
Proof.
  split; [apply generateShot_trace|]. rewrite generateShot_result.
  split; [|split].
  - now intros e ->.
  - intros d rest b -> Hb Hne. cbv beta iota. unfold first_b64. cbn [data].
    rewrite Hb. apply String.eqb_neq in Hne. now rewrite Hne.
  - intros response -> Hnone. apply first_b64_none in Hnone. now rewrite Hnone.
Qed.

Lemma generateShot_witness :
  fst (generateShot
         {| responses_create := fun _ => Ok NotAnObject;
            images_generate := fun _ =>
              Ok {| data := Some [ {| b64_json := Some "QUJD" |};
                                   {| b64_json := Some "REVG" |} ] |} |}
         "a boat" [])
  = Ok "data:image/png;base64,QUJD"
  /\ fst (generateShot
            {| responses_create := fun _ => Ok NotAnObject;
               images_generate := fun _ => Ok {| data := Some [ {| b64_json := Some "" |} ] |} |}
            "a boat" [])
     = Throw (ErrorObj "Image generation returned no data.")
  /\ fst (generateShot
            {| responses_create := fun _ => Ok NotAnObject;
               images_generate := fun _ => Throw (ErrorObj "rate limit") |}
            "a boat" [])
     = Throw (ErrorObj "rate limit").
Proof.
  split; [|split].
  - destruct (generateShot_outcomes
                {| responses_create := fun _ => Ok NotAnObject;
                   images_generate := fun _ =>
                     Ok {| data := Some [ {| b64_json := Some "QUJD" |};
                                          {| b64_json := Some "REVG" |} ] |} |}
                "a boat" []) as [_ [_ [Hfirst _]]].
    apply (Hfirst {| b64_json := Some "QUJD" |} [ {| b64_json := Some "REVG" |} ] "QUJD");
      [reflexivity | reflexivity | discriminate].
  - destruct (generateShot_outcomes
                {| responses_create := fun _ => Ok NotAnObject;
                   images_generate := fun _ =>
                     Ok {| data := Some [ {| b64_json := Some "" |} ] |} |}
                "a boat" []) as [_ [_ [_ Hnone]]].
    apply (Hnone {| data := Some [ {| b64_json := Some "" |} ] |}); [reflexivity|].
    right. right. exists {| b64_json := Some "" |}, []. split; [reflexivity | now right].
  - destruct (generateShot_outcomes
                {| responses_create := fun _ => Ok NotAnObject;
                   images_generate := fun _ => Throw (ErrorObj "rate limit") |}
                "a boat" []) as [_ [Hthrow _]].
    apply Hthrow. reflexivity.
Defined.

(** *** The handler from end to end *)

Lemma split_on_without (sep : ascii) (s cur : string) :
  occurs sep s = false -> split_on sep s cur = [cur ++ s].
Proof.
  revert cur; induction s as [|c s IH]; intros cur Hno; cbn [split_on].
  - now rewrite append_empty_r.
  - cbn [occurs] in Hno. apply orb_false_iff in Hno as [Hc Hs].
    rewrite Hc, (IH _ Hs), append_assoc. reflexivity.
Qed.

Lemma split_on_first (sep : ascii) (pre rest cur : string) :
  occurs sep pre = false ->
  split_on sep (pre ++ String sep rest) cur = (cur ++ pre) :: split_on sep rest "".
Proof.
  revert cur; induction pre as [|c pre IH]; intros cur Hno; cbn [split_on append].
  - now rewrite Ascii.eqb_refl, append_empty_r.
  - cbn [occurs] in Hno. apply orb_false_iff in Hno as [Hc Hs].
    rewrite Hc, (IH _ Hs), append_assoc. reflexivity.
Qed.

Lemma data_url_payload (b : string) :
  occurs "," b = false ->
  nth_error (split ("data:image/png;base64," ++ b) ",") 1 = Some b.
Proof.
  intros Hno. unfold split.
  change ("data:image/png;base64," ++ b) with ("data:image/png;base64" ++ String "," b).
  rewrite split_on_first by reflexivity.
  now rewrite (split_on_without _ _ _ Hno).
Qed.

Section HandlerFacts.
Context `{Engine}.

Lemma analyze_run (client : OpenAI) (b64 mime : string) (analysis : JSValue) :
  fst (analyzeSourceImage client b64 mime []) = Ok analysis ->
  analyzeSourceImage client b64 mime []
  = (Ok analysis, [ResponsesCall (analysis_request b64 mime)]).
Proof.
  intros Han. rewrite (surjective_pairing (analyzeSourceImage client b64 mime [])).
  now rewrite Han, analyze_trace.
Qed.

Lemma respond_success (openai : OpenAI) (loc lens dyn : string) (incl : bool)
  (analysis : JSValue) (p b : string) (response : ImagesResponse) (res : Payload)
  (tr : list Call) :
  to_boolean (member "shouldReject" analysis) = false ->
  build_prompt loc lens dyn incl analysis = Ok p ->
  images_generate openai (images_request p) = Ok response ->
  first_b64 response = Some b ->
  occurs "," b = false ->
  responses_create openai (verify_request b) = Ok res ->
  respond openai loc lens dyn incl analysis tr
  = (Ok (success_response ("data:image/png;base64," ++ b) p
           (value_or (member "summary" analysis) default_summary)
           (extractMessageText res) (member "insights" analysis)),
     (tr ++ [ImagesCall (images_request p); ResponsesCall (verify_request b)])%list).
Proof.
  intros Hrej Hp Himg Hb Hcomma Hres. unfold respond. rewrite Hrej.
  unfold bind at 1, lift at 1. rewrite Hp.
  unfold bind at 1, generateShot, bind at 1, call_images. rewrite Himg, Hb.
  unfold ret at 1. rewrite (data_url_payload b Hcomma).
  unfold bind, verifyComposite, bind, call_responses, ret. rewrite Hres.
  now rewrite <- app_assoc.
Qed.

Lemma respond_without_insights (openai : OpenAI) (loc lens dyn : string) (incl : bool)
  (analysis : JSValue) (tr : list Call) :
  to_boolean (member "shouldReject" analysis) = false ->
  (member "insights" analysis = None
   -> respond openai loc lens dyn incl analysis tr
      = (Throw (ErrorObj (cannot_read_message false "boatOverview")), tr))
  /\ (member "insights" analysis = Some JNull
      -> respond openai loc lens dyn incl analysis tr
         = (Throw (ErrorObj (cannot_read_message true "boatOverview")), tr)).
Proof.
  intros Hrej. split; intros Hins; unfold respond; rewrite Hrej;
    unfold bind, lift, build_prompt; now rewrite Hins.
Qed.

(** The outcomes of the handler once the analysis is in. *)
Lemma respond_cases (openai : OpenAI) (loc lens dyn : string) (incl : bool)
  (analysis : JSValue) (tr : list Call) :
  (to_boolean (member "shouldReject" analysis) = true
   /\ respond openai loc lens dyn incl analysis tr
      = (Ok (rejection_response (member "rejectionReason" analysis)), tr))
  \/ (to_boolean (member "shouldReject" analysis) = false
      /\ ((exists e, respond openai loc lens dyn incl analysis tr = (Throw e, tr))
          \/ (exists e p,
                 respond openai loc lens dyn incl analysis tr
                 = (Throw e, (tr ++ [ImagesCall (images_request p)])%list))
          \/ (exists e p b,
                 respond openai loc lens dyn incl analysis tr
                 = (Throw e, (tr ++ [ImagesCall (images_request p);
                                     ResponsesCall (verify_request b)])%list))
          \/ (exists image p b report,
                 respond openai loc lens dyn incl analysis tr
                 = (Ok (success_response image p
                          (value_or (member "summary" analysis) default_summary)
                          report (member "insights" analysis)),
                    (tr ++ [ImagesCall (images_request p);
                            ResponsesCall (verify_request b)])%list)))).
Proof.
  unfold respond.
  destruct (to_boolean (member "shouldReject" analysis)); [left; now split|].
  right. split; [reflexivity|].
  unfold bind, lift, generateShot, bind, call_images, verifyComposite, bind,
    call_responses, ret, throw.
  destruct (build_prompt loc lens dyn incl analysis) as [p|e]; [|left; now exists e].
  right.
  destruct (images_generate openai (images_request p)) as [response|e];
    [|left; now exists e, p].
  destruct (first_b64 response) as [b|];
    [|left; now exists (ErrorObj "Image generation returned no data."), p].
  right.
  set (payload := match nth_error (split ("data:image/png;base64," ++ b) ",") 1 with
                  | Some part => part
                  | None => ""
                  end).
  destruct (responses_create openai (verify_request payload)) as [res|e].
  - right. exists ("data:image/png;base64," ++ b), p, payload, (extractMessageText res).
    now rewrite <- app_assoc.
  - left. exists e, p, payload. now rewrite <- app_assoc.
Qed.

End HandlerFacts.

(** A complete run of the handler.  With the key set, a file under
    [image], an analysis that does not reject and from which the prompt
    can be built, an image model that returns a payload [b] and a
    verification model that answers [res], [POST] answers 200 with the
    data URL of [b], the prompt it sent to the image model, the summary of
    the analysis (the stock sentence when it has none), the text of [res]
    as quality report and the insights of the analysis; and it has made
    exactly three remote calls: the analysis of the upload, the image
    generation with that prompt, the verification of that same payload. *)
Theorem POST_success `{Engine} (key : string) (sdk : string -> OpenAI)
  (request : Request) (form : FormData) (image : File) (analysis : JSValue)
  (p b : string) (response : ImagesResponse) (res : Payload) :
  key <> "" ->
  formData request = Ok form ->
  form_get form "image" = Some (EFile image) ->
  fst (analyzeSourceImage (sdk key) (base64 (file_bytes image)) (mime_of image) [])
  = Ok analysis ->
  to_boolean (member "shouldReject" analysis) = false ->
  build_prompt (field_or (form_get form "location") "Local waterways")
    (field_or (form_get form "lens") "wide-immersive")
    (field_or (form_get form "dynamic") "running")
    (is_true_string (form_get form "includeInteriors")) analysis
  = Ok p ->
  images_generate (sdk key) (images_request p) = Ok response ->
  first_b64 response = Some b ->
  occurs "," b = false ->
  responses_create (sdk key) (verify_request b) = Ok res ->
  POST (Some key) sdk request []
  = (Ok (success_response ("data:image/png;base64," ++ b) p
           (value_or (member "summary" analysis) default_summary)
           (extractMessageText res) (member "insights" analysis)),
     full_trace image p b).
Proof.
  intros Hkey Hform Himage Han Hrej Hp Himg Hb Hcomma Hres.
  rewrite (POST_with_image key sdk request form image Hkey Hform Himage).
  unfold bind. rewrite (analyze_run _ _ _ _ Han).
  now rewrite (respond_success _ _ _ _ _ _ p b response res _ Hrej Hp Himg Hb Hcomma Hres).
Qed.

Lemma POST_success_witness :
  exists p,
    @POST v8_like (Some "sk-test") (fun _ => scripted_client accepting_text)
      {| formData := Ok (form_with "action-zoom" "harbor" "true") |} []
    = (Ok (success_response "data:image/png;base64,iVBORw0KGgo=" p
             (JStr "Centre console at rest")
             "Clean composite, no trailer fragments."
             (Some (JObj [("boatOverview", JStr "white centre console")]))),
       full_trace boat_jpg p "iVBORw0KGgo=").
Proof.
  eexists.
  apply (@POST_success v8_like "sk-test" (fun _ => scripted_client accepting_text)
           {| formData := Ok (form_with "action-zoom" "harbor" "true") |}
           (form_with "action-zoom" "harbor" "true") boat_jpg
           (JObj [ ("shouldReject", JBool false);
                   ("summary", JStr "Centre console at rest");
                   ("insights", JObj [("boatOverview", JStr "white centre console")]) ])
           _ "iVBORw0KGgo="
           {| data := Some [ {| b64_json := Some "iVBORw0KGgo=" |} ] |}
           (WithOutput
              (Some [ {| content :=
                           Some [ {| block_type := Some "output_text";
                                     block_text := Some "Clean composite, no trailer fragments." |} ] |} ])));
    try reflexivity.
  discriminate.
Defined.

(** The remote calls of [POST] are always an initial part of "analysis,
    image generation, verification", in that order.  An answer with status
    500 or 400 comes with no call made, 422 after the analysis alone, and
    200 only after all three. *)
Theorem POST_calls_in_order `{Engine} (env_key : option string)
  (sdk : string -> OpenAI) (request : Request) :
  (exists image p b,
      initial_part (snd (POST env_key sdk request [])) (full_trace image p b))
  /\ forall resp,
       fst (POST env_key sdk request []) = Ok resp ->
       ((status resp = 500 \/ status resp = 400) /\ snd (POST env_key sdk request []) = [])
       \/ (status resp = 422
           /\ exists image, snd (POST env_key sdk request []) = [analysis_call image])
       \/ (status resp = 200
           /\ exists image p b, snd (POST env_key sdk request []) = full_trace image p b).
Proof.
  set (nothing := {| file_name := ""; file_type := ""; file_bytes := [] |}).
  remember (POST env_key sdk request []) as out eqn:Hout. revert Hout.
  assert (Hnone : forall r : Result NextResponse,
             exists image p b, initial_part (snd (r, @nil Call)) (full_trace image p b)).
  { intros r. exists nothing, "", "". now exists (full_trace nothing "" ""). }
  assert (Hearly : forall resp : NextResponse,
             status resp = 500 \/ status resp = 400 ->
             out = (Ok resp, []) ->
             (exists image p b, initial_part (snd out) (full_trace image p b))
             /\ forall resp',
                  fst out = Ok resp' ->
                  ((status resp' = 500 \/ status resp' = 400) /\ snd out = [])
                  \/ (status resp' = 422 /\ exists image, snd out = [analysis_call image])
                  \/ (status resp' = 200
                      /\ exists image p b, snd out = full_trace image p b)).
  { intros resp Hs ->. split; [apply Hnone|]. intros resp' [= <-]. left. now split. }
  unfold POST. destruct env_key as [key|]; [|apply Hearly; now left].
  destruct (String.eqb key ""); [apply Hearly; now left|].
  unfold bind at 1, lift at 1.
  destruct (formData request) as [form|e];
    [|intros ->; split; [apply Hnone | discriminate]].
  destruct (form_get form "image") as [[s|image]|];
    [apply Hearly; now right| |apply Hearly; now right].
  unfold bind.
  rewrite (surjective_pairing
             (analyzeSourceImage (sdk key) (base64 (file_bytes image)) (mime_of image) [])).
  rewrite analyze_trace. cbn [app].
  destruct (fst (analyzeSourceImage (sdk key) (base64 (file_bytes image)) (mime_of image) []))
    as [analysis|e].
  2:{ intros ->. split; [|discriminate]. exists image, "", "". cbn [snd].
      now exists [ImagesCall (images_request ""); ResponsesCall (verify_request "")]. }
  destruct (respond_cases (sdk key)
              (field_or (form_get form "location") "Local waterways")
              (field_or (form_get form "lens") "wide-immersive")
              (field_or (form_get form "dynamic") "running")
              (is_true_string (form_get form "includeInteriors")) analysis
              [ResponsesCall (analysis_request (base64 (file_bytes image)) (mime_of image))])
    as [[_ ->]|[_ [[e ->]|[[e [p ->]]|[[e [p [b ->]]]|[url [p [b [report ->]]]]]]]]];
    intros ->; cbn [fst snd app].
  - split.
    + exists image, "", "".
      now exists [ImagesCall (images_request ""); ResponsesCall (verify_request "")].
    + intros resp [= <-]. right. left. split; [reflexivity | now exists image].
  - split; [|discriminate]. exists image, "", "".
    now exists [ImagesCall (images_request ""); ResponsesCall (verify_request "")].
  - split; [|discriminate]. exists image, p, "".
    now exists [ResponsesCall (verify_request "")].
  - split; [|discriminate]. exists image, p, b. now exists [].
  - split.
    + exists image, p, b. now exists [].
    + intros resp [= <-]. right. right. split; [reflexivity | now exists image, p, b].
Qed.

Lemma POST_calls_witness :
  ((Route.status (rejection_response (Some (JStr "trailer visible"))) = 500
    \/ Route.status (rejection_response (Some (JStr "trailer visible"))) = 400)
   /\ snd (@POST v8_like (Some "sk-test") (fun _ => scripted_client rejecting_text)
             {| formData := Ok (form_with "action-zoom" "harbor" "true") |} []) = [])
  \/ (Route.status (rejection_response (Some (JStr "trailer visible"))) = 422
      /\ exists image,
           snd (@POST v8_like (Some "sk-test") (fun _ => scripted_client rejecting_text)
                  {| formData := Ok (form_with "action-zoom" "harbor" "true") |} [])
           = [analysis_call image])
  \/ (Route.status (rejection_response (Some (JStr "trailer visible"))) = 200
      /\ exists image p b,
           snd (@POST v8_like (Some "sk-test") (fun _ => scripted_client rejecting_text)
                  {| formData := Ok (form_with "action-zoom" "harbor" "true") |} [])
           = full_trace image p b).
Proof.
  destruct (@POST_calls_in_order v8_like (Some "sk-test")
              (fun _ => scripted_client rejecting_text)
              {| formData := Ok (form_with "action-zoom" "harbor" "true") |}) as [_ Hstatus].
  apply (Hstatus (rejection_response (Some (JStr "trailer visible")))). reflexivity.
Defined.

(** The instruction sent to the analysis model asks for [boatOverview],
    [visualFocalPoints] and [locationAdaptation] as keys of the answer
    itself, while the handler reads them under [insights].  When the
    analysis does not reject and has no [insights] (or a null one),
    building the prompt reads a property of [undefined] (of [null]): the
    handler throws that [TypeError] after the analysis call, builds no
    prompt and generates no image. *)
Theorem missing_insights_throws `{Engine} (key : string) (sdk : string -> OpenAI)
  (request : Request) (form : FormData) (image : File) (analysis : JSValue) :
  key <> "" ->
  formData request = Ok form ->
  form_get form "image" = Some (EFile image) ->
  fst (analyzeSourceImage (sdk key) (base64 (file_bytes image)) (mime_of image) [])
  = Ok analysis ->
  to_boolean (member "shouldReject" analysis) = false ->
  (member "insights" analysis = None ->
   POST (Some key) sdk request []
   = (Throw (ErrorObj (cannot_read_message false "boatOverview")), [analysis_call image]))
  /\ (member "insights" analysis = Some JNull ->
      POST (Some key) sdk request []
      = (Throw (ErrorObj (cannot_read_message true "boatOverview")), [analysis_call image])).
Proof.
  intros Hkey Hform Himage Han Hrej.
  rewrite (POST_with_image key sdk request form image Hkey Hform Himage).
  unfold bind. rewrite (analyze_run _ _ _ _ Han).
  destruct (respond_without_insights (sdk key)
              (field_or (form_get form "location") "Local waterways")
              (field_or (form_get form "lens") "wide-immersive")
              (field_or (form_get form "dynamic") "running")
              (is_true_string (form_get form "includeInteriors")) analysis
              [ResponsesCall (analysis_request (base64 (file_bytes image)) (mime_of image))]
              Hrej) as [Hnone Hnull].
  split; intros Hins; [now rewrite (Hnone Hins) | now rewrite (Hnull Hins)].
Qed.

Lemma missing_insights_witness :
  @POST v8_like (Some "sk-test") (fun _ => scripted_client flat_analysis_text)
    {| formData := Ok (form_with "action-zoom" "harbor" "true") |} []
  = (Throw (ErrorObj "Cannot read properties of undefined (reading 'boatOverview')"),
     [analysis_call boat_jpg]).
Proof.
  apply (@missing_insights_throws v8_like "sk-test"
           (fun _ => scripted_client flat_analysis_text)
           {| formData := Ok (form_with "action-zoom" "harbor" "true") |}
           (form_with "action-zoom" "harbor" "true") boat_jpg
           (JObj [ ("shouldReject", JBool false);
                   ("summary", JStr "Runabout on a trailer");
                   ("boatOverview", JStr "white runabout");
                   ("visualFocalPoints", JStr "bow and windshield");
                   ("locationAdaptation", JStr "lake at dusk") ]));
    try reflexivity.
  discriminate.
Defined.

(** The handler rejects exactly when [analysis.shouldReject] is truthy.
    The value is whatever the model wrote: a non-empty string rejects,
    the string "false" included, while [false], [null], the empty string
    and a missing key do not; an answer that is not a rejection is a 200. *)
Theorem rejects_iff_truthy `{Engine} (openai : OpenAI) (loc lens dyn : string)
  (incl : bool) (analysis : JSValue) (tr : list Call) :
  (forall resp tr',
      respond openai loc lens dyn incl analysis tr = (Ok resp, tr') ->
      (status resp = 422 <-> to_boolean (member "shouldReject" analysis) = true)
      /\ (status resp = 200 <-> to_boolean (member "shouldReject" analysis) = false))
  /\ (forall s,
      member "shouldReject" analysis = Some (JStr s) -> s <> "" ->
      respond openai loc lens dyn incl analysis tr
      = (Ok (rejection_response (member "rejectionReason" analysis)), tr))
  /\ (member "shouldReject" analysis = None
      \/ member "shouldReject" analysis = Some JNull
      \/ member "shouldReject" analysis = Some (JBool false)
      \/ member "shouldReject" analysis = Some (JStr "") ->
      forall resp tr',
        respond openai loc lens dyn incl analysis tr = (Ok resp, tr') -> status resp = 200).
Proof.
  pose proof (respond_cases openai loc lens dyn incl analysis tr) as Hcases.
  assert (Hok : forall resp tr',
             respond openai loc lens dyn incl analysis tr = (Ok resp, tr') ->
             (to_boolean (member "shouldReject" analysis) = true /\ status resp = 422)
             \/ (to_boolean (member "shouldReject" analysis) = false /\ status resp = 200)).
  { intros resp tr' Hr.
    destruct Hcases
      as [[Ht E]|[Hf [[e E]|[[e [p E]]|[[e [p [b E]]]|[url [p [b [report E]]]]]]]]];
      rewrite E in Hr; try discriminate; injection Hr as <- _; auto. }
  split; [|split].
  - intros resp tr' Hr.
    destruct (Hok resp tr' Hr) as [[Ht ->]|[Hf ->]]; rewrite ?Ht, ?Hf;
      split; split; intros; try reflexivity; discriminate.
  - intros s Hs Hne.
    destruct Hcases as [[_ E]|[Hf _]]; [exact E|].
    rewrite Hs in Hf. cbn in Hf. apply String.eqb_neq in Hne. rewrite Hne in Hf.
    discriminate.
  - intros Hfalsy resp tr' Hr.
    destruct (Hok resp tr' Hr) as [[Ht _]|[_ Hs]]; [|exact Hs].
    destruct Hfalsy as [E|[E|[E|E]]]; rewrite E in Ht; discriminate.
Qed.

Lemma rejects_iff_truthy_witness :
  @respond v8_like (scripted_client string_flag_text) "Lake Union" "action-zoom" "harbor" true
    (JObj [ ("shouldReject", JStr "false"); ("summary", JStr "Boat afloat") ]) []
  = (Ok (rejection_response None), []).
Proof.
  destruct (@rejects_iff_truthy v8_like (scripted_client string_flag_text)
              "Lake Union" "action-zoom" "harbor" true
              (JObj [ ("shouldReject", JStr "false"); ("summary", JStr "Boat afloat") ]) [])
    as [_ [Hstring _]].
  apply (Hstring "false"); [reflexivity | discriminate].
Defined.

(* ================================================================= *)
(** ** The upload queue *)
(* ================================================================= *)

Import Uploader.

Example late_change_runs :
  option_map (fun w => (map (fun b => Route.form_get b "lens") (requests w),
                        lens (state w), map status (queue (state w)),
                        List.length (pending w)))
             (@steps v8_like initial late_change)
  = Some ([Some (Route.EString "wide-immersive"); Some (Route.EString "wide-immersive")],
          "action-zoom", [Complete; Analyzing], 1).
Proof. vm_compute. reflexivity. Qed.

Section QueueFacts.
Context `{Engine}.

(** *** The requests of a pass *)

Lemma requests_after_catch (answers : nat -> FetchOutcome) (n : nat)
  (target : string) (e : Thrown) (k : Task) :
  requests_of answers n (on_catch target e k) = requests_of answers n k.
Proof. reflexivity. Qed.

Lemma requests_after_body (answers : nat -> FetchOutcome) (n : nat)
  (item : QueueItem) (ok : bool) (text : Result string) (k : Task) :
  requests_of answers n (after_body item ok text k) = requests_of answers n k.
Proof.
  unfold after_body. destruct ok; simpl.
  - destruct (response_json text) as [payload|e]; [|reflexivity].
    simpl. now destruct (result_of payload).
  - now destruct text.
Qed.

Lemma requests_after_fetch (answers : nat -> FetchOutcome) (n : nat)
  (item : QueueItem) (o : FetchOutcome) (k : Task) :
  requests_of answers n (after_fetch item o k) = requests_of answers n k.
Proof.
  destruct o as [e|ok text]; [reflexivity|].
  simpl. apply requests_after_body.
Qed.

Lemma requests_of_items (answers : nat -> FetchOutcome) (env : State)
  (items : list QueueItem) (n : nat) :
  requests_of answers n (process_items env items)
  = map (form_of env) (filter not_complete items).
Proof.
  revert n; induction items as [|item rest IH]; intros n; [reflexivity|].
  cbn [process_items filter]. unfold process_item, not_complete.
  destruct (status_eqb (status item) Complete); cbn [negb].
  - apply IH.
  - cbn [do_appendLog do_update requests_of map]. f_equal.
    rewrite requests_after_fetch. apply IH.
Qed.

Lemma requests_of_pass (answers : nat -> FetchOutcome) (env : State) :
  requests_of answers 0 (processQueue env) = expected_requests env.
Proof.
  unfold processQueue, expected_requests.
  destruct (negb (readyForProcessing env) || isProcessing env); [reflexivity|].
  apply requests_of_items.
Qed.

(** *** One update *)

Lemma extends_logs_refl (l : list string) : extends_logs l l.
Proof. exists []. now rewrite app_nil_r. Qed.

Lemma extends_logs_trans (a b c : list string) :
  extends_logs a b -> extends_logs b c -> extends_logs a c.
Proof. intros [x ->] [y ->]. exists (x ++ y)%list. now rewrite app_assoc. Qed.

Lemma grows_refl (a : QueueItem) : grows a a.
Proof. split; [reflexivity | apply extends_logs_refl]. Qed.

Lemma grows_trans (a b c : QueueItem) : grows a b -> grows b c -> grows a c.
Proof.
  intros [Hab Lab] [Hbc Lbc]. split; [congruence|].
  eapply extends_logs_trans; eassumption.
Qed.

Lemma Forall2_grows_refl (q : list QueueItem) : Forall2 grows q q.
Proof. induction q; constructor; auto using grows_refl. Qed.

Lemma Forall2_grows_trans (p q r : list QueueItem) :
  Forall2 grows p q -> Forall2 grows q r -> Forall2 grows p r.
Proof.
  intros Hpq; revert r; induction Hpq; intros r Hqr; inversion Hqr; subst;
    constructor; eauto using grows_trans.
Qed.

Lemma merge_logs (item : QueueItem) (updates : Partial) :
  extends_logs (logs item) (logs (merge item updates)).
Proof.
  unfold merge; cbn. destruct (p_logs updates) as [entries|].
  - now exists entries.
  - apply extends_logs_refl.
Qed.

Lemma update_logs (target : string) (updates : Partial) (q : list QueueItem) :
  Forall2 (fun a b => extends_logs (logs a) (logs b)) q (updateQueueItem target updates q).
Proof.
  induction q as [|a q IH]; cbn; constructor; [|exact IH].
  destruct (negb (String.eqb (id a) target)).
  - apply extends_logs_refl.
  - apply merge_logs.
Qed.

Lemma update_grows (target : string) (updates : Partial) (q : list QueueItem) :
  p_id updates = None ->
  Forall2 grows q (updateQueueItem target updates q).
Proof.
  intros Hid. induction q as [|a q IH]; cbn; constructor; [|exact IH].
  destruct (negb (String.eqb (id a) target)); [apply grows_refl|].
  split; [|apply merge_logs]. unfold merge; cbn. now rewrite Hid.
Qed.

Lemma update_all (P Q : QueueItem -> Prop) (target : string) (updates : Partial)
  (q : list QueueItem) :
  (forall a, P a -> id a <> target -> Q a) ->
  (forall a, P a -> id a = target -> Q (merge a updates)) ->
  Forall P q -> Forall Q (updateQueueItem target updates q).
Proof.
  intros Hother Hhit Hq. induction Hq as [|a q Ha Hq IH]; cbn; constructor; [|exact IH].
  destruct (String.eqb (id a) target) eqn:E; cbn.
  - apply Hhit; [assumption | now apply String.eqb_eq].
  - apply Hother; [assumption | now apply String.eqb_neq].
Qed.

Lemma good_weaken (ids ids' : list string) (a : QueueItem) :
  incl ids' ids -> good ids a -> good ids' a.
Proof. intros Hincl [Hok Hopen]. split; [exact Hok | auto]. Qed.

Lemma good_after_log (ids : list string) (target entry : string) (q : list QueueItem) :
  Forall (good ids) q -> Forall (good ids) (appendLog target entry q).
Proof.
  apply update_all; [auto|]. intros a [Hok Hopen] _. split; [exact Hok | exact Hopen].
Qed.

Lemma good_after_status (ids : list string) (target : string) (s : ProcessingStatus)
  (e : option string) (q : list QueueItem) :
  In target ids -> s <> Complete ->
  Forall (good ids) q ->
  Forall (good ids) (updateQueueItem target (status_update s e) q).
Proof.
  intros Hin Hs. apply update_all; [auto|].
  intros a [Hok Hopen] Hid. rewrite <- Hid in Hin. destruct (Hopen Hin) as [_ Hres].
  unfold good, item_ok, merge; cbn. rewrite Hres. split; [|auto].
  split; [congruence | intros ->; congruence].
Qed.

Lemma good_after_complete (ids : list string) (target : string) (r : ProcessedResult)
  (q : list QueueItem) :
  Forall (good ids) q ->
  Forall (good (remove string_dec target ids))
         (updateQueueItem target (complete_update r) q).
Proof.
  apply update_all.
  - intros a Ha _. eapply good_weaken; [|exact Ha].
    intros x Hx. now apply in_remove in Hx.
  - intros a _ Hid. unfold good, item_ok, merge; cbn. split.
    + split; [reflexivity | discriminate].
    + intros Hin. apply in_remove in Hin. tauto.
Qed.

(** *** Running a task to its next await *)

Lemma good_items_ok (ids : list string) (q : list QueueItem) :
  Forall (good ids) q -> Forall item_ok q.
Proof. apply Forall_impl. now intros a [Hok _]. Qed.

Lemma run_safe (ids : list string) (t : Task) :
  safe ids t ->
  forall st seen,
    Forall (good ids) (queue st) ->
    Forall2 grows (queue st) (queue (fst (fst (run t st seen))))
    /\ (forall s, In s (snd (fst (run t st seen))) ->
                  In s seen \/ Forall item_ok (queue s))
    /\ ((exists older, seen = st :: older) ->
        exists older, snd (fst (run t st seen)) = fst (fst (run t st seen)) :: older)
    /\ exists ids',
         Forall (good ids') (queue (fst (fst (run t st seen))))
         /\ match snd (run t st seen) with
            | Some s => isProcessing (fst (fst (run t st seen))) = isProcessing st
                        /\ safe_suspended ids' s
            | None => isProcessing (fst (fst (run t st seen))) = false
            end.
Proof.
  induction 1 as [ids | ids target entry k Hk IH | ids target s e k Hin Hs Hk IH
                 | ids target r k Hin Hk IH | ids body k Hk IH | ids k Hk IH];
    intros st seen Hgood.
  - cbn. split; [apply Forall2_grows_refl|]. split.
    + intros s [<-|Hs]; [right; cbn; eapply good_items_ok, Hgood | now left].
    + split; [eauto|]. exists ids. split; [exact Hgood | reflexivity].
  - unfold do_appendLog. cbn [run].
    set (st1 := setQueue (appendLog target entry) st).
    assert (Hgood1 : Forall (good ids) (queue st1)) by now apply good_after_log.
    destruct (IH st1 (st1 :: seen) Hgood1) as [Hgrow [Hseen [Hhead Hsusp]]].
    split; [|split; [|split]].
    + eapply Forall2_grows_trans; [|exact Hgrow]. now apply update_grows.
    + intros s Hs. destruct (Hseen s Hs) as [[<-|Hold]|Hok]; auto.
      right. eapply good_items_ok, Hgood1.
    + intros _. apply Hhead. eauto.
    + exact Hsusp.
  - unfold do_update. cbn [run].
    set (st1 := setQueue (updateQueueItem target (status_update s e)) st).
    assert (Hgood1 : Forall (good ids) (queue st1)) by now apply good_after_status.
    destruct (IH st1 (st1 :: seen) Hgood1) as [Hgrow [Hseen [Hhead Hsusp]]].
    split; [|split; [|split]].
    + eapply Forall2_grows_trans; [|exact Hgrow]. now apply update_grows.
    + intros x Hx. destruct (Hseen x Hx) as [[<-|Hold]|Hok]; auto.
      right. eapply good_items_ok, Hgood1.
    + intros _. apply Hhead. eauto.
    + exact Hsusp.
  - unfold do_update. cbn [run].
    set (st1 := setQueue (updateQueueItem target (complete_update r)) st).
    assert (Hgood1 : Forall (good (remove string_dec target ids)) (queue st1))
      by now apply good_after_complete.
    destruct (IH st1 (st1 :: seen) Hgood1) as [Hgrow [Hseen [Hhead Hsusp]]].
    split; [|split; [|split]].
    + eapply Forall2_grows_trans; [|exact Hgrow]. now apply update_grows.
    + intros x Hx. destruct (Hseen x Hx) as [[<-|Hold]|Hok]; auto.
      right. eapply good_items_ok, Hgood1.
    + intros _. apply Hhead. eauto.
    + exact Hsusp.
  - cbn. split; [apply Forall2_grows_refl|]. split; [auto|]. split; [auto|].
    exists ids. split; [exact Hgood|]. split; [reflexivity | exact Hk].
  - cbn. split; [apply Forall2_grows_refl|]. split; [auto|]. split; [auto|].
    exists ids. split; [exact Hgood|]. split; [reflexivity | exact Hk].
Qed.

(** *** The pass is made of safe tasks *)

Lemma incl_remove (x : string) (l l' : list string) :
  incl l l' -> incl (remove string_dec x l) (remove string_dec x l').
Proof.
  intros Hincl y Hy. apply in_remove in Hy as [Hy Hne].
  apply in_in_remove; auto.
Qed.

Lemma safe_weaken (ids : list string) (t : Task) :
  safe ids t -> forall ids', incl ids ids' -> safe ids' t.
Proof.
  induction 1; intros ids' Hincl; constructor; auto using incl_remove.
Qed.

Lemma safe_catch (ids : list string) (target : string) (e : Thrown) (k : Task) :
  In target ids -> safe ids k -> safe ids (on_catch target e k).
Proof.
  intros Hin Hk. unfold on_catch. apply safe_log.
  apply (safe_status ids target Error); [assumption | discriminate | assumption].
Qed.

Lemma safe_after_body (ids : list string) (item : QueueItem) (ok : bool)
  (text : Result string) (k : Task) :
  In (id item) ids ->
  safe (remove string_dec (id item) ids) k ->
  safe ids (after_body item ok text k).
Proof.
  intros Hin Hk.
  assert (Hk' : safe ids k).
  { apply (safe_weaken _ _ Hk). intros x Hx. now apply in_remove in Hx. }
  unfold after_body. destruct ok; cbn [negb].
  - destruct (response_json text) as [payload|e]; [|now apply safe_catch].
    apply (safe_status ids (id item) Generating None); [assumption | discriminate|].
    apply safe_log.
    apply (safe_status ids (id item) Verifying None); [assumption | discriminate|].
    apply safe_log.
    destruct (result_of payload) as [r|e]; [|now apply safe_catch].
    now apply (safe_complete ids (id item) r).
  - destruct text as [t|e]; [|now apply safe_catch].
    apply safe_log.
    apply (safe_status ids (id item) Error (Some t)); [assumption | discriminate | assumption].
Qed.

Lemma safe_after_fetch (ids : list string) (item : QueueItem) (o : FetchOutcome)
  (k : Task) :
  In (id item) ids ->
  safe (remove string_dec (id item) ids) k ->
  safe ids (after_fetch item o k).
Proof.
  intros Hin Hk. destruct o as [e|ok text]; cbn.
  - apply safe_catch; [assumption|].
    apply (safe_weaken _ _ Hk). intros x Hx. now apply in_remove in Hx.
  - apply safe_body. now apply safe_after_body.
Qed.

Lemma todo_subset (items : list QueueItem) (x : string) :
  In x (todo items) -> In x (map id items).
Proof.
  unfold todo. rewrite !in_map_iff. intros [a [Ha Hin]].
  apply filter_In in Hin as [Hin _]. eauto.
Qed.

Lemma safe_items (env : State) (items : list QueueItem) :
  NoDup (map id items) -> safe (todo items) (process_items env items).
Proof.
  induction items as [|item rest IH]; intros Hnd; [constructor|].
  inversion Hnd as [|x l Hnotin Hnd']; subst.
  cbn [process_items]. unfold process_item, todo. cbn [filter]. unfold not_complete at 1.
  destruct (status_eqb (status item) Complete); cbn [negb]; [now apply IH|].
  cbn [map]. fold (todo rest).
  apply safe_log.
  apply (safe_status _ (id item) Analyzing None); [now left | discriminate|].
  apply safe_log. apply safe_fetch. intros o.
  apply safe_after_fetch; [now left|].
  cbn [remove]. destruct (string_dec (id item) (id item)) as [_|Hne]; [|contradiction].
  rewrite notin_remove; [now apply IH|].
  intros Hin. apply Hnotin. now apply todo_subset.
Qed.

(** *** Lists *)

Lemma ids_distinct_after_filter (keep : QueueItem -> bool) (q : list QueueItem) :
  NoDup (map id q) -> NoDup (map id (filter keep q)).
Proof.
  intros Hnd. induction q as [|a q IH]; cbn in *; [constructor|].
  apply NoDup_cons_iff in Hnd as [Hnotin Hnd].
  destruct (keep a); cbn; [|auto].
  apply NoDup_cons; [|auto].
  intros Hin. apply Hnotin.
  apply in_map_iff in Hin as [b [Hb Hin]].
  apply filter_In in Hin as [Hin _].
  apply in_map_iff. eauto.
Qed.

Lemma NoDup_map_inj {A B : Type} (f : A -> B) (l : list A) (a b : A) :
  NoDup (map f l) -> In a l -> In b l -> f a = f b -> a = b.
Proof.
  induction l as [|x l IH]; cbn; intros Hnd Ha Hb Hf; [contradiction|].
  inversion Hnd as [|y m Hnotin Hnd']; subst.
  destruct Ha as [->|Ha], Hb as [->|Hb]; auto.
  - exfalso. apply Hnotin. rewrite Hf. now apply in_map.
  - exfalso. apply Hnotin. rewrite <- Hf. now apply in_map.
Qed.

Lemma map_snd_combine {A B : Type} (l : list A) (l' : list B) :
  List.length l' = List.length l -> map snd (combine l l') = l'.
Proof.
  revert l'; induction l as [|a l IH]; intros [|b l'] Hlen; cbn in *;
    try discriminate; [reflexivity|].
  f_equal. apply IH. congruence.
Qed.

Lemma distinct_NoDup (l : list string) : distinct l = true -> NoDup l.
Proof.
  induction l as [|x l IH]; cbn; intros Hd; [constructor|].
  apply andb_true_iff in Hd as [Hx Hl]. constructor; [|auto].
  intros Hin. apply negb_true_iff in Hx.
  assert (existsb (String.eqb x) l = true); [|congruence].
  apply existsb_exists. exists x. split; [assumption | apply String.eqb_refl].
Qed.

Lemma Forall2_grows_ids (p q : list QueueItem) :
  Forall2 grows p q -> map id q = map id p.
Proof. induction 1 as [|a b p q [Hid _] _ IH]; cbn; [reflexivity | congruence]. Qed.

Lemma Forall2_grows_find (p q : list QueueItem) (b : QueueItem) :
  Forall2 grows p q -> In b q -> exists a, In a p /\ grows a b.
Proof.
  induction 1 as [|a0 b0 p q Hab _ IH]; cbn; [contradiction|].
  intros [<-|Hin]; [eauto|]. destruct (IH Hin) as [a [Ha Hg]]. eauto.
Qed.

Lemma good_of_open (ids : list string) (st : State) :
  (forall item, In item (queue st) -> item_ok item) -> open ids st ->
  Forall (good ids) (queue st).
Proof.
  intros Hok Hopen. apply Forall_forall. intros a Ha. split; [auto|].
  intros Hin. now apply Hopen.
Qed.

Lemma open_of_good (ids : list string) (st : State) :
  Forall (good ids) (queue st) -> open ids st.
Proof.
  intros Hgood item Hin Hid. rewrite Forall_forall in Hgood.
  now apply (Hgood item Hin).
Qed.

(** *** What a pass has yet to send *)

Lemma sends_requests (l : list FormData) (t : Task) :
  sends l t -> forall answers n, requests_of answers n t = l.
Proof.
  induction 1 as [|l f k _ IH|l body k _ IH|l k _ IH]; intros answers n; cbn; auto.
  now rewrite IH.
Qed.

Lemma owed_by_sends (l : list FormData) (s : Suspended) :
  sends_suspended l s -> owed_by s = l.
Proof.
  destruct s as [body k|k]; cbn; intros Hs; now apply sends_requests.
Qed.

Lemma run_sends (l : list FormData) (t : Task) :
  sends l t ->
  forall st seen,
    match snd (run t st seen) with
    | None => l = []
    | Some (OnFetch body k) => exists l', l = body :: l' /\ forall o, sends l' (k o)
    | Some (OnBody k) => sends l k
    end.
Proof.
  induction 1 as [|l f k _ IH|l body k Hk _|l k Hk _]; intros st seen; cbn.
  - reflexivity.
  - apply IH.
  - eauto.
  - exact Hk.
Qed.

Lemma sends_catch (l : list FormData) (target : string) (e : Thrown) (k : Task) :
  sends l k -> sends l (on_catch target e k).
Proof. intros Hk. unfold on_catch, do_appendLog, do_update. now do 2 constructor. Qed.

Lemma sends_after_body (l : list FormData) (item : QueueItem) (ok : bool)
  (text : Result string) (k : Task) :
  sends l k -> sends l (after_body item ok text k).
Proof.
  intros Hk. unfold after_body, do_appendLog, do_update. destruct ok; cbn [negb].
  - destruct (response_json text) as [payload|e]; [|now apply sends_catch].
    do 4 constructor. destruct (result_of payload) as [r|e]; [|now apply sends_catch].
    now constructor.
  - destruct text as [t|e]; [|now apply sends_catch]. now do 2 constructor.
Qed.

Lemma sends_items (env : State) (items : list QueueItem) :
  sends (map (form_of env) (filter not_complete items)) (process_items env items).
Proof.
  induction items as [|item rest IH]; cbn [process_items filter map].
  - do 2 constructor.
  - unfold process_item, not_complete at 1.
    destruct (status_eqb (status item) Complete); cbn [negb]; [exact IH|].
    unfold do_appendLog, do_update. cbn [map]. do 3 constructor.
    constructor. intros [e|ok text]; cbn [after_fetch].
    + now apply sends_catch.
    + constructor. now apply sends_after_body.
Qed.

(** *** The invariant *)

Lemma resume_return (w : World) : resume w (pending w) Return = w.
Proof. now destruct w. Qed.

Lemma resume_set (w : World) (others : list Suspended) (f : State -> State) (k : Task) :
  resume w others (SetState f k) = resume (with_state w (f (state w))) others k.
Proof. reflexivity. Qed.

Lemma resume_fields (w : World) (others : list Suspended) (t : Task) :
  state (resume w others t) = fst (fst (run t (state w) (history w)))
  /\ history (resume w others t) = snd (fst (run t (state w) (history w)))
  /\ pending (resume w others t)
     = match snd (run t (state w) (history w)) with
       | Some s => (others ++ [s])%list
       | None => others
       end
  /\ issued (resume w others t) = issued w.
Proof.
  unfold resume. destruct (run t (state w) (history w)) as [[st seen] susp].
  now repeat split.
Qed.

Lemma invariant_initial : invariant initial.
Proof.
  constructor; cbn.
  - eauto.
  - constructor.
  - contradiction.
  - intros st item [<-|[]] [].
  - now left.
  - reflexivity.
  - contradiction.
Qed.

(** Running a safe task from a world that is consistent so far. *)
Lemma invariant_resume (w : World) (ids : list string) (l : list FormData) (t : Task) :
  (exists older, history w = state w :: older) ->
  NoDup (map id (queue (state w))) ->
  (forall item, In item (queue (state w)) -> In (id item) (issued w)) ->
  (forall st item, In st (history w) -> In item (queue st) -> item_ok item) ->
  isProcessing (state w) = true ->
  safe ids t ->
  sends l t ->
  open ids (state w) ->
  invariant (resume w [] t).
Proof.
  intros Hcur Hnd Hiss Hitems Hflag Hsafe Hsends Hopen.
  assert (Hgood : Forall (good ids) (queue (state w))).
  { apply good_of_open; [|assumption]. intros item Hin.
    destruct Hcur as [older Hh]. apply (Hitems (state w)); [|assumption].
    rewrite Hh. now left. }
  destruct (run_safe ids t Hsafe (state w) (history w) Hgood)
    as [Hgrow [Hseen [Hhead [ids' [Hgood' Hsusp]]]]].
  pose proof (run_sends l t Hsends (state w) (history w)) as Hrest.
  destruct (resume_fields w [] t) as [Est [Eh [Ep Ei]]].
  constructor.
  - rewrite Est, Eh. now apply Hhead.
  - rewrite Est, (Forall2_grows_ids _ _ Hgrow). exact Hnd.
  - rewrite Est, Ei. intros item Hin.
    destruct (Forall2_grows_find _ _ item Hgrow Hin) as [a [Ha [Hid _]]].
    rewrite <- Hid. now apply Hiss.
  - rewrite Eh. intros st item Hst Hin.
    destruct (Hseen st Hst) as [Hold|Hok]; [now apply (Hitems st)|].
    rewrite Forall_forall in Hok. now apply Hok.
  - rewrite Ep, Est.
    destruct (snd (run t (state w) (history w))) as [s|]; [|now left].
    right. destruct Hsusp as [Hflag' Hs]. exists s, ids'.
    split; [reflexivity|]. split; [congruence|]. split; [exact Hs|].
    now apply open_of_good.
  - rewrite Ep, Est.
    destruct (snd (run t (state w) (history w))) as [s|]; [discriminate|].
    intros _. exact Hsusp.
  - rewrite Ep.
    destruct (snd (run t (state w) (history w))) as [[body k|k]|];
      intros s Hin; try contradiction; destruct Hin as [<-|[]].
    + destruct Hrest as [l' [_ Hl']]. now exists l'.
    + now exists l.
Qed.

Lemma open_todo (st : State) :
  NoDup (map id (queue st)) ->
  (forall item, In item (queue st) -> item_ok item) ->
  open (todo (queue st)) st.
Proof.
  intros Hnd Hok item Hin Hid. unfold todo in Hid.
  apply in_map_iff in Hid as [it [Heq Hit]].
  apply filter_In in Hit as [Hit Hnc].
  assert (it = item) as -> by (eapply NoDup_map_inj; eauto).
  unfold not_complete in Hnc. apply negb_true_iff in Hnc.
  assert (Hs : status item <> Complete).
  { intros E. rewrite E in Hnc. discriminate. }
  split; [exact Hs|].
  destruct (result item) eqn:Hr; [|reflexivity].
  exfalso. apply Hs. apply (Hok item Hin). congruence.
Qed.

(** A change of state that leaves the queue and the flag alone. *)
Lemma invariant_same_queue (w : World) (st : State) :
  queue st = queue (state w) -> isProcessing st = isProcessing (state w) ->
  invariant w -> invariant (with_state w st).
Proof.
  intros Hq Hf [Hcur Hnd Hiss Hitems Hpend Hidle Howed]. constructor; cbn.
  - eauto.
  - now rewrite Hq.
  - rewrite Hq. exact Hiss.
  - intros s item [<-|Hs] Hin; [|now apply (Hitems s)].
    rewrite Hq in Hin. destruct Hcur as [older Hh].
    apply (Hitems (state w)); [rewrite Hh; now left | assumption].
  - destruct Hpend as [Hp|[s [ids [Hp [Hflag [Hs Hopen]]]]]]; [now left|].
    right. exists s, ids. split; [assumption|]. split; [congruence|].
    split; [assumption|].
    intros item Hin. rewrite Hq in Hin. now apply Hopen.
  - rewrite Hf. exact Hidle.
  - exact Howed.
Qed.

Lemma handleFiles_appends (files : option (list File)) (fresh : list (string * string))
  (q : list QueueItem) :
  handleFiles files fresh q = (q ++ new_items files fresh)%list.
Proof. destruct files; cbn; [reflexivity | now rewrite app_nil_r]. Qed.

Lemma new_items_ids (files : option (list File)) (fresh : list (string * string)) :
  List.length fresh = List.length (filter supported (or_else files [])) ->
  map id (new_items files fresh) = map fst fresh.
Proof.
  intros Hlen. destruct files as [fs|]; cbn in *.
  - rewrite map_map. cbn.
    rewrite <- (map_map snd fst). now rewrite map_snd_combine.
  - now destruct fresh.
Qed.

Lemma new_items_ready (files : option (list File)) (fresh : list (string * string))
  (item : QueueItem) :
  In item (new_items files fresh) -> status item = Ready /\ result item = None.
Proof.
  destruct files as [fs|]; cbn; [|contradiction].
  rewrite in_map_iff. intros [fu [<- _]]. now split.
Qed.

Lemma ready_item_ok (item : QueueItem) :
  status item = Ready -> result item = None -> item_ok item.
Proof. intros Hs Hr. unfold item_ok. rewrite Hs, Hr. split; congruence. Qed.

Lemma pending_single (s : Suspended) (n : nat) (x : Suspended) :
  nth_error [s] n = Some x -> n = 0 /\ x = s.
Proof.
  destruct n as [|n]; cbn.
  - intros [= ->]. now split.
  - destruct n; discriminate.
Qed.

Theorem invariant_step (w w' : World) (e : Event) :
  invariant w -> step w e = Some w' -> invariant w'.
Proof.
  intros Hinv Hstep. pose proof Hinv as [Hcur Hnd Hiss Hitems Hpend Hidle Howed].
  assert (Hnow : forall item, In item (queue (state w)) -> item_ok item).
  { intros item Hin. destruct Hcur as [older Hh].
    apply (Hitems (state w)); [rewrite Hh; now left | assumption]. }
  destruct e as [files fresh | target | v | v | v | v | | | n o | n]; cbn in Hstep.
  - (* PickFiles *)
    destruct (fresh_ok w files fresh) eqn:Hfresh; [|discriminate].
    injection Hstep as <-.
    unfold fresh_ok in Hfresh.
    apply andb_true_iff in Hfresh as [Hfresh Hlen].
    apply andb_true_iff in Hfresh as [Hdist Hnew].
    apply Nat.eqb_eq in Hlen. apply distinct_NoDup in Hdist.
    rewrite forallb_forall in Hnew.
    assert (Hunseen : forall u, In u (map fst fresh) -> ~ In u (issued w)).
    { intros u Hu Hin. specialize (Hnew u Hu). apply negb_true_iff in Hnew.
      assert (existsb (String.eqb u) (issued w) = true); [|congruence].
      apply existsb_exists. exists u. split; [assumption | apply String.eqb_refl]. }
    constructor; cbn; rewrite ?handleFiles_appends.
    + eauto.
    + rewrite map_app, (new_items_ids files fresh Hlen).
      apply NoDup_app; [assumption | assumption|].
      intros u Hu Hu'. apply (Hunseen u Hu').
      apply in_map_iff in Hu as [item [<- Hin]]. now apply Hiss.
    + intros item Hin. apply in_app_iff in Hin as [Hin|Hin]; apply in_app_iff.
      * left. now apply Hiss.
      * right. rewrite <- (new_items_ids files fresh Hlen). now apply in_map.
    + intros st item [<-|Hst] Hin; [|now apply (Hitems st)].
      cbn in Hin. rewrite handleFiles_appends in Hin.
      apply in_app_iff in Hin as [Hin|Hin]; [now apply Hnow|].
      destruct (new_items_ready _ _ _ Hin). now apply ready_item_ok.
    + destruct Hpend as [Hp|[s [ids [Hp [Hflag [Hs Hopen]]]]]]; [now left|].
      right. exists s, ids. split; [assumption|]. split; [assumption|].
      split; [assumption|].
      intros item Hin Hid. cbn in Hin. rewrite handleFiles_appends in Hin.
      apply in_app_iff in Hin as [Hin|Hin]; [now apply Hopen|].
      destruct (new_items_ready _ _ _ Hin) as [Hst Hr]. rewrite Hst. split; [discriminate|assumption].
    + exact Hidle.
    + exact Howed.
  - (* ClickRemove *)
    destruct (existsb _ (queue (state w))); [|discriminate].
    injection Hstep as <-.
    constructor; cbn.
    + eauto.
    + unfold removeItem. now apply ids_distinct_after_filter.
    + intros item Hin. apply filter_In in Hin as [Hin _]. now apply Hiss.
    + intros st item [<-|Hst] Hin; [|now apply (Hitems st)].
      cbn in Hin. apply filter_In in Hin as [Hin _]. now apply Hnow.
    + destruct Hpend as [Hp|[s [ids [Hp [Hflag [Hs Hopen]]]]]]; [now left|].
      right. exists s, ids. split; [assumption|]. split; [assumption|].
      split; [assumption|].
      intros item Hin Hid. cbn in Hin. apply filter_In in Hin as [Hin _].
      now apply Hopen.
    + exact Hidle.
    + exact Howed.
  - injection Hstep as <-. now apply invariant_same_queue.
  - injection Hstep as <-. now apply invariant_same_queue.
  - injection Hstep as <-. now apply invariant_same_queue.
  - injection Hstep as <-. now apply invariant_same_queue.
  - (* ClickClear *)
    destruct (isProcessing (state w)) eqn:Hflag; [discriminate|].
    injection Hstep as <-.
    constructor; cbn.
    + eauto.
    + constructor.
    + contradiction.
    + intros st item [<-|[<-|Hst]] Hin; try contradiction. now apply (Hitems st).
    + destruct Hpend as [Hp|[s [ids [Hp [Hflag' _]]]]]; [now left | congruence].
    + reflexivity.
    + exact Howed.
  - (* ClickLaunch *)
    injection Hstep as <-. unfold processQueue.
    destruct (negb (readyForProcessing (state w)) || isProcessing (state w)) eqn:Hguard.
    { now rewrite resume_return. }
    apply orb_false_iff in Hguard as [_ Hflag].
    destruct Hpend as [Hp|[s [ids [Hp [Hflag' _]]]]]; [|congruence].
    rewrite Hp, resume_set.
    apply (invariant_resume _ (todo (queue (state w)))
             (map (form_of (state w)) (filter not_complete (queue (state w))))); cbn.
    + eauto.
    + assumption.
    + assumption.
    + intros st item [<-|Hst] Hin; [apply Hnow; exact Hin | now apply (Hitems st)].
    + reflexivity.
    + now apply safe_items.
    + apply sends_items.
    + intros item Hin Hid. now apply (open_todo (state w) Hnd Hnow item).
  - (* FetchSettles *)
    destruct (nth_error (pending w) n) as [[body k|k]|] eqn:Hn; try discriminate.
    injection Hstep as <-.
    destruct Hpend as [Hp|[s [ids [Hp [Hflag [Hs Hopen]]]]]].
    { rewrite Hp in Hn. destruct n; discriminate. }
    destruct (Howed s) as [l Hl]; [rewrite Hp; now left|].
    rewrite Hp in Hn |- *. apply pending_single in Hn as [-> <-]. cbn [remove_nth].
    apply (invariant_resume w ids l); auto.
  - (* BodyRead *)
    destruct (nth_error (pending w) n) as [[body k|k]|] eqn:Hn; try discriminate.
    injection Hstep as <-.
    destruct Hpend as [Hp|[s [ids [Hp [Hflag [Hs Hopen]]]]]].
    { rewrite Hp in Hn. destruct n; discriminate. }
    destruct (Howed s) as [l Hl]; [rewrite Hp; now left|].
    rewrite Hp in Hn |- *. apply pending_single in Hn as [-> <-]. cbn [remove_nth].
    apply (invariant_resume w ids l); auto.
Qed.

Theorem reachable_invariant (w : World) : reachable w -> invariant w.
Proof.
  induction 1 as [|w e w' _ IH Hstep]; [apply invariant_initial|].
  eapply invariant_step; eassumption.
Qed.

Lemma steps_reachable (w w' : World) (es : list Event) :
  reachable w -> steps w es = Some w' -> reachable w'.
Proof.
  revert w; induction es as [|e es IH]; cbn; intros w Hw Hsteps.
  - now injection Hsteps as <-.
  - destruct (step w e) as [w1|] eqn:Hstep; [|discriminate].
    apply (IH w1); [|assumption]. now apply (reach_step w e).
Qed.

(** What one event does to the queue: a turn of the pass lets every item
    grow in place, the other events add, drop or leave items. *)
Lemma resume_grows (w : World) (others : list Suspended) (ids : list string) (t : Task) :
  safe ids t -> Forall (good ids) (queue (state w)) ->
  Forall2 grows (queue (state w)) (queue (state (resume w others t))).
Proof.
  intros Hsafe Hgood.
  destruct (resume_fields w others t) as [-> _].
  apply (run_safe ids t Hsafe (state w) (history w) Hgood).
Qed.

Lemma turn_grows (w w' : World) (e : Event) :
  invariant w -> step w e = Some w' ->
  match e with
  | ClickLaunch | FetchSettles _ _ | BodyRead _ =>
      Forall2 grows (queue (state w)) (queue (state w'))
  | _ => True
  end.
Proof.
  intros [Hcur Hnd Hiss Hitems Hpend _ _] Hstep.
  assert (Hnow : forall item, In item (queue (state w)) -> item_ok item).
  { intros item Hin. destruct Hcur as [older Hh].
    apply (Hitems (state w)); [rewrite Hh; now left | assumption]. }
  destruct e as [files fresh | target | v | v | v | v | | | n o | n];
    try exact I; cbn in Hstep.
  - injection Hstep as <-. unfold processQueue.
    destruct (negb (readyForProcessing (state w)) || isProcessing (state w)).
    { rewrite resume_return. apply Forall2_grows_refl. }
    rewrite resume_set.
    apply (resume_grows (with_state w (setIsProcessing true (state w))) (pending w)
             (todo (queue (state w)))).
    + now apply safe_items.
    + apply (good_of_open _ (state w) Hnow). now apply open_todo.
  - destruct (nth_error (pending w) n) as [[body k|k]|] eqn:Hn; try discriminate.
    injection Hstep as <-.
    destruct Hpend as [Hp|[s [ids [Hp [Hflag [Hs Hopen]]]]]].
    { rewrite Hp in Hn. destruct n; discriminate. }
    rewrite Hp in Hn. apply pending_single in Hn as [-> <-].
    apply (resume_grows w _ ids); [apply Hs | now apply good_of_open].
  - destruct (nth_error (pending w) n) as [[body k|k]|] eqn:Hn; try discriminate.
    injection Hstep as <-.
    destruct Hpend as [Hp|[s [ids [Hp [Hflag [Hs Hopen]]]]]].
    { rewrite Hp in Hn. destruct n; discriminate. }
    rewrite Hp in Hn. apply pending_single in Hn as [-> <-].
    apply (resume_grows w _ ids); [apply Hs | now apply good_of_open].
Qed.

Lemma step_keeps_logs (w w' : World) (e : Event) (it it' : QueueItem) :
  invariant w -> step w e = Some w' ->
  In it (queue (state w)) -> In it' (queue (state w')) -> id it = id it' ->
  extends_logs (logs it) (logs it').
Proof.
  intros Hinv Hstep Hit Hit' Hid.
  pose proof (turn_grows w w' e Hinv Hstep) as Hturn.
  pose proof Hinv as [Hcur Hnd Hiss Hitems Hpend _ _].
  assert (Hsame : In it' (queue (state w)) -> extends_logs (logs it) (logs it')).
  { intros Hin. assert (it = it') as <- by (eapply NoDup_map_inj; eauto).
    apply extends_logs_refl. }
  assert (Hgrown : Forall2 grows (queue (state w)) (queue (state w')) ->
                   extends_logs (logs it) (logs it')).
  { intros Hgrow. destruct (Forall2_grows_find _ _ it' Hgrow Hit') as [a [Ha [Hida Hl]]].
    assert (it = a) as -> by (eapply NoDup_map_inj; eauto; congruence).
    exact Hl. }
  destruct e as [files fresh | target | v | v | v | v | | | n o | n];
    try (now apply Hgrown); cbn in Hstep.
  - destruct (fresh_ok w files fresh) eqn:Hfresh; [|discriminate].
    injection Hstep as <-. cbn in Hit'. rewrite handleFiles_appends in Hit'.
    apply in_app_iff in Hit' as [Hin|Hin]; [now apply Hsame|]. exfalso.
    unfold fresh_ok in Hfresh.
    apply andb_true_iff in Hfresh as [Hfresh Hlen].
    apply andb_true_iff in Hfresh as [_ Hnew].
    apply Nat.eqb_eq in Hlen. rewrite forallb_forall in Hnew.
    assert (Hu : In (id it') (map fst fresh)).
    { rewrite <- (new_items_ids files fresh Hlen). now apply in_map. }
    specialize (Hnew _ Hu). apply negb_true_iff in Hnew.
    assert (existsb (String.eqb (id it')) (issued w) = true); [|congruence].
    apply existsb_exists. exists (id it'). split; [|apply String.eqb_refl].
    rewrite <- Hid. now apply Hiss.
  - destruct (existsb _ (queue (state w))); [|discriminate].
    injection Hstep as <-. cbn in Hit'. apply filter_In in Hit' as [Hin _].
    now apply Hsame.
  - injection Hstep as <-. now apply Hsame.
  - injection Hstep as <-. now apply Hsame.
  - injection Hstep as <-. now apply Hsame.
  - injection Hstep as <-. now apply Hsame.
  - destruct (isProcessing (state w)); [discriminate|].
    injection Hstep as <-. destruct Hit'.
Qed.

(** *** A pass sends what it set out to send *)

Lemma resume_requests (w : World) (others : list Suspended) (t : Task) :
  requests (resume w others t)
  = match snd (run t (state w) (history w)) with
    | Some (OnFetch body _) => (requests w ++ [body])%list
    | _ => requests w
    end.
Proof.
  unfold resume. now destruct (run t (state w) (history w)) as [[st seen] [[body k|k]|]].
Qed.

Lemma resume_promise (w : World) (l : list FormData) (t : Task) :
  sends l t ->
  (requests (resume w [] t) ++ owed (resume w [] t))%list = (requests w ++ l)%list.
Proof.
  intros Hsends. pose proof (run_sends l t Hsends (state w) (history w)) as Hrest.
  destruct (resume_fields w [] t) as [_ [_ [Ep _]]].
  unfold owed. rewrite Ep, resume_requests.
  destruct (snd (run t (state w) (history w))) as [[body k|k]|]; cbn [flat_map app].
  - destruct Hrest as [l' [-> Hl']]. rewrite app_nil_r.
    rewrite (owed_by_sends l' (OnFetch body k) Hl'). now rewrite <- app_assoc.
  - rewrite app_nil_r. now rewrite (owed_by_sends l (OnBody k) Hrest).
  - now rewrite Hrest.
Qed.

Lemma launch_promise (w w' : World) :
  invariant w -> pending w = [] -> step w ClickLaunch = Some w' ->
  (requests w' ++ owed w')%list = (requests w ++ expected_requests (state w))%list.
Proof.
  intros Hinv Hp Hstep. cbn in Hstep. injection Hstep as <-.
  unfold processQueue, expected_requests.
  destruct (negb (readyForProcessing (state w)) || isProcessing (state w)).
  - rewrite resume_return. unfold owed. now rewrite Hp.
  - rewrite Hp, resume_set.
    apply (resume_promise (with_state w (setIsProcessing true (state w)))).
    apply sends_items.
Qed.

Lemma step_keeps_promise (w w' : World) (e : Event) :
  invariant w -> pending w <> [] -> step w e = Some w' ->
  (requests w' ++ owed w')%list = (requests w ++ owed w)%list.
Proof.
  intros [_ _ _ _ Hpend _ Howed] Hbusy Hstep.
  destruct Hpend as [Hp|[s [ids [Hp [Hflag _]]]]]; [contradiction|].
  destruct (Howed s) as [l Hl]; [rewrite Hp; now left|].
  assert (Howe : owed w = l).
  { unfold owed. rewrite Hp. cbn. rewrite app_nil_r. now apply owed_by_sends. }
  destruct e as [files fresh | target | v | v | v | v | | | n o | n]; cbn in Hstep.
  - destruct (fresh_ok w files fresh); [|discriminate]. now injection Hstep as <-.
  - destruct (existsb _ (queue (state w))); [|discriminate]. now injection Hstep as <-.
  - now injection Hstep as <-.
  - now injection Hstep as <-.
  - now injection Hstep as <-.
  - now injection Hstep as <-.
  - rewrite Hflag in Hstep. discriminate.
  - injection Hstep as <-. unfold processQueue.
    rewrite Hflag, orb_true_r. now rewrite resume_return.
  - destruct (nth_error (pending w) n) as [[body k|k]|] eqn:Hn; try discriminate.
    injection Hstep as <-. rewrite Hp in Hn |- *.
    apply pending_single in Hn as [-> <-]. cbn [remove_nth].
    rewrite Howe. apply resume_promise. apply Hl.
  - destruct (nth_error (pending w) n) as [[body k|k]|] eqn:Hn; try discriminate.
    injection Hstep as <-. rewrite Hp in Hn |- *.
    apply pending_single in Hn as [-> <-]. cbn [remove_nth].
    rewrite Howe. apply resume_promise. apply Hl.
Qed.

End QueueFacts.

(** C3.  A pass started in state [env] sends, whatever the answers, one
    request per item of [env]'s queue that is not complete, in queue
    order: a complete item is skipped and a failed one does not end the
    pass.  On the page: a launch with nothing waiting commits the pass to
    exactly those requests; every later event, whatever it is and however
    a fetch ends, keeps "sent so far, then still to send" as it was, so
    the requests go out one after the other in that order; at most one
    call waits on the network at any time, the processing flag is up
    exactly while one does, and nothing is left to send when none does.
    Launching while a call waits, or with no idle or ready item, changes
    nothing and sends nothing. *)
Theorem processQueue_sequential `{Engine} :
  (forall answers env,
      requests_of answers 0 (processQueue env) = expected_requests env)
  /\ (forall env item k, status item = Complete -> process_item env item k = k)
  /\ (forall w w',
        reachable w -> pending w = [] -> step w ClickLaunch = Some w' ->
        (requests w' ++ owed w')%list = (requests w ++ expected_requests (state w))%list)
  /\ (forall w e w',
        reachable w -> pending w <> [] -> step w e = Some w' ->
        (requests w' ++ owed w')%list = (requests w ++ owed w)%list)
  /\ (forall w, reachable w ->
        List.length (pending w) <= 1
        /\ (pending w = [] -> owed w = [] /\ isProcessing (state w) = false)
        /\ (pending w <> [] -> isProcessing (state w) = true))
  /\ (forall w, reachable w -> pending w <> [] -> step w ClickLaunch = Some w)
  /\ (forall w, readyForProcessing (state w) = false -> step w ClickLaunch = Some w).
Proof.
  split; [|split; [|split; [|split; [|split; [|split]]]]].
  - apply requests_of_pass.
  - intros env item k Hs. unfold process_item. now rewrite Hs.
  - intros w w' Hw. apply launch_promise. now apply reachable_invariant.
  - intros w e w' Hw. apply step_keeps_promise. now apply reachable_invariant.
  - intros w Hw. destruct (reachable_invariant w Hw) as [_ _ _ _ Hpend Hidle _].
    split; [|split].
    + destruct Hpend as [->|[s [ids [-> _]]]]; cbn; lia.
    + intros Hp. split; [unfold owed; now rewrite Hp | now apply Hidle].
    + intros Hp. destruct Hpend as [Hnil|[s [ids [_ [Hflag _]]]]]; [contradiction|assumption].
  - intros w Hw Hp. destruct (reachable_invariant w Hw) as [_ _ _ _ Hpend _ _].
    destruct Hpend as [Hnil|[s [ids [_ [Hflag _]]]]]; [contradiction|].
    change (step w ClickLaunch) with (Some (resume w (pending w) (processQueue (state w)))).
    unfold processQueue. rewrite Hflag, orb_true_r. now rewrite resume_return.
  - intros w Hready.
    change (step w ClickLaunch) with (Some (resume w (pending w) (processQueue (state w)))).
    unfold processQueue. rewrite Hready. cbn [negb orb]. now rewrite resume_return.
Qed.

(** C4.  In every state the page passes through, an item has a result
    exactly when its status is [Complete]; so an item in [Error] has none
    and a [Complete] one has one. *)
Theorem result_iff_complete `{Engine} (w : World) :
  reachable w ->
  In (state w) (history w)
  /\ forall st item, In st (history w) -> In item (queue st) ->
       (result item <> None <-> status item = Complete)
       /\ (status item = Error -> result item = None)
       /\ (status item = Complete -> exists r, result item = Some r).
Proof.
  intros Hw. destruct (reachable_invariant w Hw) as [[older Hh] _ _ Hitems _ _ _].
  split; [rewrite Hh; now left|].
  intros st item Hst Hin. pose proof (Hitems st item Hst Hin) as Hok.
  split; [exact Hok|]. split.
  - intros Hs. destruct (result item) eqn:Hr; [|reflexivity].
    assert (status item = Complete) by (apply Hok; congruence). congruence.
  - intros Hs. apply Hok in Hs. destruct (result item) as [r|]; [eauto | contradiction].
Qed.

(** C9.  An update leaves every item's log lines in place and puts the
    entries it carries after them; [appendLog] adds its one entry at the
    end of the target's log; and no event of the page takes a line away
    from, or reorders the lines of, an item that is still in the queue
    afterwards. *)
Theorem logs_only_grow `{Engine} :
  (forall target updates q,
      Forall2 (fun a b => extends_logs (logs a) (logs b)) q
              (updateQueueItem target updates q))
  /\ (forall item updates entries,
        p_logs updates = Some entries ->
        logs (merge item updates) = (logs item ++ entries)%list)
  /\ (forall target entry q,
        appendLog target entry q
        = map (fun item => if String.eqb (id item) target
                           then merge item {| p_id := None; p_file := None;
                                              p_previewUrl := None; p_status := None;
                                              p_logs := Some [entry]; p_result := None;
                                              p_error := None |}
                           else item) q)
  /\ (forall w e w' it it',
        reachable w -> step w e = Some w' ->
        In it (queue (state w)) -> In it' (queue (state w')) -> id it = id it' ->
        extends_logs (logs it) (logs it')).
Proof.
  split; [|split; [|split]].
  - apply update_logs.
  - intros item updates entries Hl. unfold merge; cbn. now rewrite Hl.
  - intros target entry q. unfold appendLog, updateQueueItem.
    apply map_ext. intros a. now destruct (String.eqb (id a) target).
  - intros w e w' it it' Hw. apply step_keeps_logs. now apply reachable_invariant.
Qed.

Lemma world_after_steps `{Engine} (es : list Event) :
  runs es = true -> steps initial es = Some (world_after es).
Proof. unfold runs, world_after. now destruct (steps initial es). Qed.

Lemma world_after_reachable `{Engine} (es : list Event) :
  runs es = true -> reachable (world_after es).
Proof.
  intros Hruns. apply (steps_reachable initial _ es); [constructor|].
  now apply world_after_steps.
Qed.

Lemma steps_snoc `{Engine} (w : World) (es : list Event) (e : Event) :
  steps w (es ++ [e]) = match steps w es with
                        | Some w1 => step w1 e
                        | None => None
                        end.
Proof.
  revert w; induction es as [|x es IH]; intros w; cbn [steps app].
  - now destruct (step w e).
  - destruct (step w x); [apply IH | reflexivity].
Qed.

Lemma world_after_snoc `{Engine} (es : list Event) (e : Event) :
  runs (es ++ [e]) = true ->
  step (world_after es) e = Some (world_after (es ++ [e])).
Proof.
  unfold runs, world_after. rewrite steps_snoc.
  destruct (steps initial es) as [w|]; [|discriminate].
  now destruct (step w e).
Qed.

Lemma processQueue_sequential_witness :
  @step v8_like (@world_after v8_like (picked ++ [ClickLaunch])%list) ClickLaunch
  = Some (@world_after v8_like (picked ++ [ClickLaunch])%list)
  /\ List.length (pending (@world_after v8_like (picked ++ [ClickLaunch])%list)) <= 1.
Proof.
  pose proof (@processQueue_sequential v8_like) as [_ [_ [_ [_ [Hone [Hbusy _]]]]]].
  assert (Hw : @reachable v8_like (@world_after v8_like (picked ++ [ClickLaunch])%list)).
  { apply world_after_reachable. vm_compute. reflexivity. }
  split; [apply (Hbusy _ Hw) | apply (proj1 (Hone _ Hw))].
  intros Hnil. apply (f_equal (@List.length Suspended)) in Hnil.
  vm_compute in Hnil. discriminate Hnil.
Defined.

Lemma result_iff_complete_witness :
  Forall (fun item => result item <> None <-> status item = Complete)
         (queue (state (@world_after v8_like late_change))).
Proof.
  apply Forall_forall. intros item Hin.
  assert (Hw : @reachable v8_like (@world_after v8_like late_change)).
  { apply world_after_reachable. vm_compute. reflexivity. }
  destruct (@result_iff_complete v8_like _ Hw) as [Hcur Hall].
  apply (Hall _ item Hcur Hin).
Defined.

Lemma logs_only_grow_witness :
  Forall (fun it' =>
            Forall (fun it => id it = id it' -> extends_logs (logs it) (logs it'))
                   (queue (state (@world_after v8_like (picked ++ [ClickLaunch])%list))))
         (queue (state (@world_after v8_like
                          (picked ++ [ClickLaunch; FetchSettles 0 (Rejected NonError)])%list))).
Proof.
  pose proof (@logs_only_grow v8_like) as [_ [_ [_ Hstep]]].
  apply Forall_forall. intros it' Hit'. apply Forall_forall. intros it Hit.
  apply (Hstep (@world_after v8_like (picked ++ [ClickLaunch])%list)
               (FetchSettles 0 (Rejected NonError))
               (@world_after v8_like
                  (picked ++ [ClickLaunch; FetchSettles 0 (Rejected NonError)])%list));
    try assumption.
  - apply world_after_reachable. vm_compute. reflexivity.
  - apply (@world_after_snoc v8_like (picked ++ [ClickLaunch])%list
             (FetchSettles 0 (Rejected NonError))).
    vm_compute. reflexivity.
Defined.

Section StyleFacts.
Context `{Engine}.

Lemma form_of_style (env : State) (item : QueueItem) :
  style_of (form_of env item) = style_in env.
Proof. reflexivity. Qed.

(** C8, as the code has it.  [processQueue] closes over the style
    parameters of the render that created it: every request of a pass
    carries the parameters the component held when the pass was launched.
    On the page: whatever a launch adds to "sent or still to send" carries
    the launch-time parameters; no later event of the pass changes what is
    sent or still to send; and changing a parameter touches neither the
    calls that wait nor the requests.  So a change made during a pass
    reaches no item of that pass. *)
Theorem style_fixed_at_launch :
  (forall answers env body,
      In body (requests_of answers 0 (processQueue env)) ->
      style_of body = style_in env)
  /\ (forall w w' body,
        reachable w -> pending w = [] -> step w ClickLaunch = Some w' ->
        In body (requests w' ++ owed w')%list ->
        In body (requests w) \/ style_of body = style_in (state w))
  /\ (forall w e w',
        reachable w -> pending w <> [] -> step w e = Some w' ->
        (requests w' ++ owed w')%list = (requests w ++ owed w)%list)
  /\ (forall w e w',
        step w e = Some w' -> style_event e = true ->
        pending w' = pending w /\ requests w' = requests w
        /\ queue (state w') = queue (state w)).
Proof.
  assert (Hexp : forall env body, In body (expected_requests env) ->
                                  style_of body = style_in env).
  { intros env body. unfold expected_requests.
    destruct (negb (readyForProcessing env) || isProcessing env); [contradiction|].
    rewrite in_map_iff. intros [item [<- _]]. apply form_of_style. }
  split; [|split; [|split]].
  - intros answers env body. rewrite requests_of_pass. apply Hexp.
  - intros w w' body Hw Hp Hstep Hin.
    rewrite (launch_promise w w' (reachable_invariant w Hw) Hp Hstep) in Hin.
    apply in_app_iff in Hin as [Hin|Hin]; [now left | right; now apply Hexp].
  - intros w e w' Hw. apply step_keeps_promise. now apply reachable_invariant.
  - intros w e w' Hstep He.
    destruct e; try discriminate He; cbn in Hstep; injection Hstep as <-;
      now repeat split.
Qed.

End StyleFacts.

Lemma style_fixed_witness :
  Forall (fun body => style_of body = style_in (state (@world_after v8_like picked)))
         (requests_of (fun _ => Resolved true (Ok "{}")) 0
            (@processQueue v8_like (state (@world_after v8_like picked))))
  /\ pending (@world_after v8_like (picked ++ [ClickLaunch; ChooseLens "action-zoom"])%list)
     = pending (@world_after v8_like (picked ++ [ClickLaunch])%list).
Proof.
  pose proof (@style_fixed_at_launch v8_like) as [Hpass [_ [_ Hframe]]]. split.
  - apply Forall_forall. intros body Hin. apply (Hpass _ _ body Hin).
  - apply (Hframe (@world_after v8_like (picked ++ [ClickLaunch])%list)
                  (ChooseLens "action-zoom")); [|reflexivity].
    apply (@world_after_snoc v8_like (picked ++ [ClickLaunch])%list
             (ChooseLens "action-zoom")).
    vm_compute. reflexivity.
Defined.

(** C8, as the claim states it, fails: the lens is changed while the first
    request is in flight, and the second item, which had not begun, is
    still sent with the lens of the launch. *)
Lemma style_not_read_at_item_start : ~ @style_read_at_item_start v8_like.
Proof.
  intros Hclaim.
  set (before := (picked ++ [ ClickLaunch; ChooseLens "action-zoom";
                              FetchSettles 0 (Resolved true (Ok "{}")) ])%list).
  assert (Hw : @reachable v8_like (@world_after v8_like before)).
  { apply world_after_reachable. vm_compute. reflexivity. }
  specialize (Hclaim (@world_after v8_like before) (BodyRead 0)
                     (@world_after v8_like late_change)
                     (form_of (setLens "wide-immersive" initial_state)
                        {| id := "id-2"; file := yacht_png; previewUrl := "blob:yacht";
                           status := Ready; logs := ["Queued for processing"];
                           result := None; error := None |})
                     Hw).
  assert (Hstyle : style_of
                     (form_of (setLens "wide-immersive" initial_state)
                        {| id := "id-2"; file := yacht_png; previewUrl := "blob:yacht";
                           status := Ready; logs := ["Queued for processing"];
                           result := None; error := None |})
                   = style_in (state (@world_after v8_like before))).
  { apply Hclaim.
    - apply (@world_after_snoc v8_like before (BodyRead 0)). vm_compute. reflexivity.
    - vm_compute. reflexivity. }
  vm_compute in Hstyle. discriminate Hstyle.
Qed.

(** *** A rejected image, end to end *)

Lemma failed_updates (target text : string) (q : list QueueItem) :
  updateQueueItem target (status_update Error (Some text))
    (appendLog target (cross ++ " Failed: " ++ text) q)
  = map (mark_failed target text) q.
Proof.
  unfold appendLog, updateQueueItem. rewrite map_map. apply map_ext. intros a.
  unfold mark_failed. destruct (String.eqb (id a) target) eqn:E; cbn.
  - rewrite E. reflexivity.
  - rewrite E. reflexivity.
Qed.

Lemma failed_state (target text : string) (st : State) :
  setQueue (updateQueueItem target (status_update Error (Some text)))
    (setQueue (appendLog target (cross ++ " Failed: " ++ text)) st)
  = setQueue (map (mark_failed target text)) st.
Proof.
  unfold setQueue. cbn [queue location lens dynamic includeInteriors isProcessing].
  now rewrite failed_updates.
Qed.

(* ================================================================= *)
(** ** The upload queue: further properties *)
(* ================================================================= *)

(** *** From the page's form to the handler's settings *)

Lemma form_of_fields (env : State) (item : QueueItem) :
  Route.form_get (form_of env item) "image" = Some (Route.EFile (file item))
  /\ Route.form_get (form_of env item) "location" = Some (Route.EString (location env))
  /\ Route.form_get (form_of env item) "lens" = Some (Route.EString (lens env))
  /\ Route.form_get (form_of env item) "dynamic" = Some (Route.EString (dynamic env))
  /\ Route.form_get (form_of env item) "includeInteriors"
     = Some (Route.EString (string_of_bool (includeInteriors env))).
Proof. repeat split. Qed.

(** The handler reads the form the page sends back into the page's own
    settings: the image is the item's file, lens and dynamic are the
    selected ids, the interior flag is the state of the checkbox (it
    travels as "true" or "false"), and the locale is what was typed, or
    "Local waterways" when the box was left empty. *)
Theorem page_form_read_back `{Engine} (key : string) (sdk : string -> Route.OpenAI)
  (env : State) (item : QueueItem) :
  key <> "" ->
  Route.POST (Some key) sdk {| Route.formData := Ok (form_of env item) |}
  = Route.bind
      (Route.analyzeSourceImage (sdk key) (base64 (Route.file_bytes (file item)))
         (Route.mime_of (file item)))
      (Route.respond (sdk key)
         (or_default (location env) "Local waterways")
         (or_default (lens env) "wide-immersive")
         (or_default (dynamic env) "running")
         (includeInteriors env)).
Proof.
  intros Hkey.
  destruct (form_of_fields env item) as [Himage [Hloc [Hlens [Hdyn Hint]]]].
  rewrite (POST_with_image key sdk {| Route.formData := Ok (form_of env item) |}
             (form_of env item) (file item) Hkey eq_refl Himage).
  rewrite Hloc, Hlens, Hdyn, Hint. unfold Route.field_or, or_default.
  now destruct (includeInteriors env).
Qed.

Lemma page_form_witness :
  @Route.POST v8_like (Some "sk-test") (fun _ => scripted_client accepting_text)
    {| Route.formData := Ok (form_of initial_state boat_item) |}
  = Route.bind
      (@Route.analyzeSourceImage v8_like (scripted_client accepting_text)
         (base64 (Route.file_bytes boat_jpg)) "image/jpeg")
      (@Route.respond v8_like (scripted_client accepting_text)
         "Local waterways" "wide-immersive" "running" true).
Proof.
  apply (@page_form_read_back v8_like "sk-test" (fun _ => scripted_client accepting_text)
           initial_state boat_item).
  discriminate.
Defined.

(** *** handleFiles *)

Lemma map_fst_combine {A B : Type} (l : list A) (l' : list B) :
  List.length l' = List.length l -> map fst (combine l l') = l.
Proof.
  revert l'; induction l as [|a l IH]; intros [|b l'] Hlen; try discriminate;
    [reflexivity|].
  cbn. f_equal. apply IH. now injection Hlen.
Qed.

Lemma supported_type (f : File) :
  supported f = true <-> In (Route.file_type f) supported_types.
Proof.
  unfold supported. rewrite existsb_exists. split.
  - intros [t [Hin Heq]]. apply String.eqb_eq in Heq. now rewrite Heq.
  - intros Hin. exists (Route.file_type f). split; [assumption | apply String.eqb_refl].
Qed.

(** [handleFiles] leaves the queue alone when it is given no file list.
    Otherwise it keeps the queue as it is and adds, at the end and in the
    order of the list, one item per file whose type is one of the five
    supported image types: files of another type are dropped without a
    word.  An added item is ready, has the one log line "Queued for
    processing", no result and no error, a new id and a preview URL of its
    own. *)
Theorem handleFiles_adds_supported (fresh : list (string * string))
  (q : list QueueItem) :
  handleFiles None fresh q = q
  /\ forall fs,
       List.length fresh = List.length (filter supported fs) ->
       exists added,
         handleFiles (Some fs) fresh q = (q ++ added)%list
         /\ map file added = filter supported fs
         /\ map id added = map fst fresh
         /\ map previewUrl added = map snd fresh
         /\ Forall (fun item =>
                      status item = Ready /\ logs item = ["Queued for processing"]
                      /\ result item = None /\ error item = None
                      /\ In (Route.file_type (file item)) supported_types)
                   added.
Proof.
  split; [reflexivity|]. intros fs Hlen.
  exists (new_items (Some fs) fresh). rewrite handleFiles_appends.
  split; [reflexivity|]. unfold new_items. rewrite !map_map. cbn [id file previewUrl].
  split; [|split; [|split]].
  - rewrite <- (map_map fst (fun x => x)), map_id. now apply map_fst_combine.
  - rewrite <- (map_map snd fst). now rewrite map_snd_combine.
  - rewrite <- (map_map snd snd). now rewrite map_snd_combine.
  - apply Forall_forall. intros item Hin.
    apply in_map_iff in Hin as [[f [u url]] [<- Hin]]. cbn.
    repeat split. apply in_combine_l in Hin. apply filter_In in Hin as [_ Hs].
    now apply supported_type.
Qed.

Lemma handleFiles_witness :
  exists added,
    handleFiles (Some [boat_jpg; dinghy_gif; yacht_png])
      [("id-1", "blob:boat"); ("id-2", "blob:yacht")] []
    = ([] ++ added)%list
    /\ map file added = [boat_jpg; yacht_png].
Proof.
  destruct (handleFiles_adds_supported [("id-1", "blob:boat"); ("id-2", "blob:yacht")] [])
    as [_ Hadd].
  destruct (Hadd [boat_jpg; dinghy_gif; yacht_png] eq_refl) as [added [E [Hfiles _]]].
  exists added. split; [exact E | exact Hfiles].
Defined.

(** *** removeItem and updateQueueItem *)

Lemma removeItem_absent (target : string) (q : list QueueItem) :
  ~ In target (map id q) -> removeItem target q = q.
Proof.
  induction q as [|a q IH]; intros Hno; [reflexivity|].
  cbn [removeItem filter]. destruct (String.eqb (id a) target) eqn:E.
  - apply String.eqb_eq in E. elim Hno. now left.
  - cbn [negb]. f_equal. apply IH. intros Hin. apply Hno. now right.
Qed.

Lemma removeItem_app (target : string) (p q : list QueueItem) :
  removeItem target (p ++ q) = (removeItem target p ++ removeItem target q)%list.
Proof. unfold removeItem. apply filter_app. Qed.

Lemma NoDup_ids_split (pre post : list QueueItem) (item : QueueItem) :
  NoDup (map id (pre ++ item :: post)) ->
  ~ In (id item) (map id pre) /\ ~ In (id item) (map id post).
Proof.
  rewrite map_app. cbn [map]. intros Hnd.
  apply NoDup_remove_2 in Hnd. split; intros Hin; apply Hnd, in_or_app; auto.
Qed.

(** [removeItem] drops the items whose id is the target and keeps every
    other item, in order: no item with that id is left, removing an id the
    queue does not hold changes nothing, and in a queue of distinct ids
    the one item with the id goes while its neighbours close up. *)
Theorem removeItem_drops_target (target : string) (q : list QueueItem) :
  ~ In target (map id (removeItem target q))
  /\ (forall item, In item (removeItem target q) <-> In item q /\ id item <> target)
  /\ (~ In target (map id q) -> removeItem target q = q)
  /\ (forall pre item post,
         q = (pre ++ item :: post)%list -> id item = target -> NoDup (map id q) ->
         removeItem target q = (pre ++ post)%list).
Proof.
  assert (Hin : forall item, In item (removeItem target q) <-> In item q /\ id item <> target).
  { intros item. unfold removeItem. rewrite filter_In, negb_true_iff.
    now rewrite String.eqb_neq. }
  split; [|split; [exact Hin | split; [apply removeItem_absent|]]].
  - intros Hid. apply in_map_iff in Hid as [item [Hid Hitem]].
    apply Hin in Hitem as [_ Hne]. contradiction.
  - intros pre item post -> <- Hnd.
    destruct (NoDup_ids_split pre post item Hnd) as [Hpre Hpost].
    rewrite removeItem_app. cbn [removeItem filter]. rewrite String.eqb_refl. cbn [negb].
    fold (removeItem (id item) post).
    now rewrite (removeItem_absent _ pre Hpre), (removeItem_absent _ post Hpost).
Qed.

Lemma removeItem_witness :
  removeItem "id-1" [boat_item; yacht_item] = [yacht_item]
  /\ removeItem "id-9" [boat_item; yacht_item] = [boat_item; yacht_item].
Proof.
  destruct (removeItem_drops_target "id-1" [boat_item; yacht_item]) as [_ [_ [_ Hone]]].
  destruct (removeItem_drops_target "id-9" [boat_item; yacht_item]) as [_ [_ [Hnone _]]].
  split.
  - apply (Hone [] boat_item [yacht_item]); [reflexivity | reflexivity|].
    repeat constructor; cbn; intuition discriminate.
  - apply Hnone. cbn. intuition discriminate.
Defined.

Lemma updateQueueItem_absent (target : string) (updates : Partial) (q : list QueueItem) :
  ~ In target (map id q) -> updateQueueItem target updates q = q.
Proof.
  induction q as [|a q IH]; intros Hno; [reflexivity|].
  cbn [updateQueueItem map]. destruct (String.eqb (id a) target) eqn:E.
  - apply String.eqb_eq in E. elim Hno. now left.
  - cbn [negb]. f_equal. apply IH. intros Hin. apply Hno. now right.
Qed.

Lemma updateQueueItem_app (target : string) (updates : Partial) (p q : list QueueItem) :
  updateQueueItem target updates (p ++ q)
  = (updateQueueItem target updates p ++ updateQueueItem target updates q)%list.
Proof. unfold updateQueueItem. apply map_app. Qed.

Lemma updateQueueItem_ids (target : string) (updates : Partial) (q : list QueueItem) :
  p_id updates = None -> map id (updateQueueItem target updates q) = map id q.
Proof.
  intros Hid. unfold updateQueueItem. rewrite map_map. apply map_ext.
  intros a. destruct (negb (String.eqb (id a) target)); [reflexivity|].
  unfold merge. cbn [id]. now rewrite Hid.
Qed.

Lemma appendLog_twice (target a b : string) (q : list QueueItem) :
  appendLog target b (appendLog target a q)
  = updateQueueItem target (log_update [a; b]) q.
Proof.
  unfold appendLog, updateQueueItem. rewrite map_map. apply map_ext. intros item.
  destruct (String.eqb (id item) target) eqn:E; cbn [negb].
  - unfold merge, log_update. cbn [id p_id p_file p_previewUrl p_status p_logs p_result
                                      p_error or_else file previewUrl status logs result
                                      error].
    rewrite E. cbn [negb]. now rewrite <- app_assoc.
  - now rewrite E.
Qed.

(** [updateQueueItem] changes the queue in place: the length, the ids and
    the order stay, an id the queue does not hold changes nothing, and in
    a queue of distinct ids only the item with the target id is replaced,
    by itself merged with the update.  Two log lines appended one after
    the other end up in that order after the lines already there. *)
Theorem updateQueueItem_in_place (target : string) (updates : Partial)
  (q : list QueueItem) :
  List.length (updateQueueItem target updates q) = List.length q
  /\ (p_id updates = None -> map id (updateQueueItem target updates q) = map id q)
  /\ (~ In target (map id q) -> updateQueueItem target updates q = q)
  /\ (forall pre item post,
         q = (pre ++ item :: post)%list -> id item = target -> NoDup (map id q) ->
         updateQueueItem target updates q = (pre ++ merge item updates :: post)%list)
  /\ (forall a b,
         appendLog target b (appendLog target a q)
         = updateQueueItem target (log_update [a; b]) q)
  /\ (forall item entries,
         logs (merge item (log_update entries)) = (logs item ++ entries)%list
         /\ status (merge item (log_update entries)) = status item
         /\ result (merge item (log_update entries)) = result item
         /\ error (merge item (log_update entries)) = error item).
Proof.
  split; [unfold updateQueueItem; apply length_map|].
  split; [apply updateQueueItem_ids|].
  split; [apply updateQueueItem_absent|].
  split; [|split; [intros a b; apply appendLog_twice | now intros item entries]].
  intros pre item post -> <- Hnd.
  destruct (NoDup_ids_split pre post item Hnd) as [Hpre Hpost].
  rewrite updateQueueItem_app. cbn [updateQueueItem map].
  rewrite String.eqb_refl. cbn [negb].
  fold (updateQueueItem (id item) updates post).
  now rewrite (updateQueueItem_absent _ _ pre Hpre), (updateQueueItem_absent _ _ post Hpost).
Qed.

Lemma updateQueueItem_witness :
  updateQueueItem "id-2" (status_update Analyzing None) [boat_item; yacht_item]
  = [boat_item; merge yacht_item (status_update Analyzing None)]
  /\ updateQueueItem "id-9" (status_update Analyzing None) [boat_item; yacht_item]
     = [boat_item; yacht_item].
Proof.
  destruct (updateQueueItem_in_place "id-2" (status_update Analyzing None)
              [boat_item; yacht_item]) as [_ [_ [_ [Hone _]]]].
  destruct (updateQueueItem_in_place "id-9" (status_update Analyzing None)
              [boat_item; yacht_item]) as [_ [_ [Hnone _]]].
  split.
  - apply (Hone [boat_item] yacht_item []); [reflexivity | reflexivity|].
    repeat constructor; cbn; intuition discriminate.
  - apply Hnone. cbn. intuition discriminate.
Defined.

(** *** The updates of a pass *)

Section PassFacts.
Context `{Engine}.

Lemma pass_log_task (target entry : string) (k : Task) :
  pass_task k -> pass_task (do_appendLog target entry k).
Proof. intros Hk. apply pass_set; [|assumption]. apply pass_item, pass_log. Qed.

Lemma pass_progress_task (target : string) (s : ProcessingStatus) (k : Task) :
  s = Analyzing \/ s = Generating \/ s = Verifying ->
  pass_task k -> pass_task (do_update target (status_update s None) k).
Proof. intros Hs Hk. apply pass_set; [|assumption]. now apply pass_item, pass_progress. Qed.

Lemma pass_failed_task (target message : string) (k : Task) :
  pass_task k -> pass_task (do_update target (status_update Error (Some message)) k).
Proof. intros Hk. apply pass_set; [|assumption]. apply pass_item, pass_failed. Qed.

Lemma pass_catch (target : string) (e : Thrown) (k : Task) :
  pass_task k -> pass_task (on_catch target e k).
Proof. intros Hk. unfold on_catch. now apply pass_log_task, pass_failed_task. Qed.

Lemma pass_after_body (item : QueueItem) (ok : bool) (text : Result string) (k : Task) :
  pass_task k -> pass_task (after_body item ok text k).
Proof.
  intros Hk. unfold after_body. destruct ok; cbn [negb].
  - destruct (response_json text) as [payload|e]; [|now apply pass_catch].
    apply (pass_progress_task _ Generating); [auto|].
    apply pass_log_task. apply (pass_progress_task _ Verifying); [auto|].
    apply pass_log_task.
    destruct (result_of payload) as [r|e]; [|now apply pass_catch].
    apply pass_set; [|assumption]. apply pass_item, pass_done.
  - destruct text as [t|e]; [|now apply pass_catch].
    now apply pass_log_task, pass_failed_task.
Qed.

Lemma pass_after_fetch (item : QueueItem) (o : FetchOutcome) (k : Task) :
  pass_task k -> pass_task (after_fetch item o k).
Proof.
  intros Hk. destruct o as [e|ok text]; cbn [after_fetch].
  - now apply pass_catch.
  - now apply pass_body, pass_after_body.
Qed.

Lemma pass_items (env : State) (items : list QueueItem) :
  pass_task (process_items env items).
Proof.
  induction items as [|item items IH]; cbn [process_items].
  - apply pass_set; [apply pass_flag | apply pass_return].
  - unfold process_item. destruct (status_eqb (status item) Complete); [assumption|].
    apply pass_log_task. apply (pass_progress_task _ Analyzing); [auto|].
    apply pass_log_task. apply pass_fetch. intros o. now apply pass_after_fetch.
Qed.

Lemma pass_processQueue (env : State) : pass_task (processQueue env).
Proof.
  unfold processQueue.
  destruct (negb (readyForProcessing env) || isProcessing env); [apply pass_return|].
  apply pass_set; [apply pass_flag | apply pass_items].
Qed.

Lemma run_pass_suspended (t : Task) :
  pass_task t ->
  forall st seen,
    match snd (run t st seen) with
    | Some s => pass_suspended s
    | None => True
    end.
Proof.
  induction 1 as [|f k _ _ IH|body k Hk _|k Hk _]; intros st seen; cbn [run snd].
  - exact I.
  - apply IH.
  - exact Hk.
  - exact Hk.
Qed.

Lemma Forall_remove_nth {A : Type} (P : A -> Prop) (n : nat) (l : list A) :
  Forall P l -> Forall P (remove_nth n l).
Proof.
  revert n; induction l as [|a l IH]; intros n Hl; destruct n; cbn [remove_nth];
    try assumption; inversion Hl; subst; [assumption|].
  constructor; [assumption | now apply IH].
Qed.

Lemma resume_pending_pass (w : World) (others : list Suspended) (t : Task) :
  Forall pass_suspended others -> pass_task t ->
  Forall pass_suspended (pending (resume w others t)).
Proof.
  intros Hothers Ht. destruct (resume_fields w others t) as [_ [_ [-> _]]].
  pose proof (run_pass_suspended t Ht (state w) (history w)) as Hs.
  destruct (snd (run t (state w) (history w))) as [s|]; [|assumption].
  apply Forall_app. split; [assumption | now constructor].
Qed.

(** Every call that waits on the network is a piece of a pass. *)
Lemma pending_pass (w : World) : reachable w -> Forall pass_suspended (pending w).
Proof.
  induction 1 as [|w e w' _ IH Hstep]; [constructor|].
  destruct e as [files fresh | target | v | v | v | v | | | n o | n]; cbn in Hstep.
  - destruct (fresh_ok w files fresh); [|discriminate]. now injection Hstep as <-.
  - destruct (existsb _ (queue (state w))); [|discriminate]. now injection Hstep as <-.
  - now injection Hstep as <-.
  - now injection Hstep as <-.
  - now injection Hstep as <-.
  - now injection Hstep as <-.
  - destruct (isProcessing (state w)); [discriminate|]. now injection Hstep as <-.
  - injection Hstep as <-. apply resume_pending_pass; [assumption|].
    apply pass_processQueue.
  - destruct (nth_error (pending w) n) as [[body k|k]|] eqn:Hn; try discriminate.
    injection Hstep as <-. apply resume_pending_pass.
    + now apply Forall_remove_nth.
    + apply nth_error_In in Hn. rewrite Forall_forall in IH. apply (IH _ Hn).
  - destruct (nth_error (pending w) n) as [[body k|k]|] eqn:Hn; try discriminate.
    injection Hstep as <-. apply resume_pending_pass.
    + now apply Forall_remove_nth.
    + apply nth_error_In in Hn. rewrite Forall_forall in IH. apply (IH _ Hn).
Qed.

End PassFacts.

(** *** What holds of every item, whatever happens *)

Section ItemInvariant.
Context `{Engine}.
Variable P : QueueItem -> Prop.
Hypothesis P_new :
  forall item,
    status item = Ready -> logs item = ["Queued for processing"] ->
    result item = None -> error item = None -> supported (file item) = true ->
    P item.
Hypothesis P_merge : forall item updates, pass_partial updates -> P item -> P (merge item updates).

Lemma items_after_update (f : State -> State) (st : State) :
  pass_update f -> Forall P (queue st) -> Forall P (queue (f st)).
Proof.
  intros [target updates Hu|b] Hq; cbn; [|assumption].
  unfold updateQueueItem. apply Forall_map. revert Hq. apply Forall_impl.
  intros item Hitem. destruct (negb (String.eqb (id item) target)); [assumption|].
  now apply P_merge.
Qed.

Lemma items_after_run (t : Task) :
  pass_task t ->
  forall st seen,
    Forall P (queue st) -> (forall s, In s seen -> Forall P (queue s)) ->
    Forall P (queue (fst (fst (run t st seen))))
    /\ forall s, In s (snd (fst (run t st seen))) -> Forall P (queue s).
Proof.
  induction 1 as [|f k Hf _ IH|body k _ _|k _ _]; intros st seen Hst Hseen; cbn [run fst snd];
    try (split; assumption).
  apply IH; [now apply items_after_update|].
  intros s [<-|Hs]; [now apply items_after_update | now apply Hseen].
Qed.

Lemma items_after_resume (w : World) (others : list Suspended) (t : Task) :
  pass_task t ->
  Forall P (queue (state w)) -> (forall s, In s (history w) -> Forall P (queue s)) ->
  Forall P (queue (state (resume w others t)))
  /\ forall s, In s (history (resume w others t)) -> Forall P (queue s).
Proof.
  intros Ht Hst Hseen. destruct (resume_fields w others t) as [-> [-> _]].
  now apply items_after_run.
Qed.

Lemma items_new (files : option (list File)) (fresh : list (string * string)) :
  Forall P (new_items files fresh).
Proof.
  apply Forall_forall. intros item Hin. destruct files as [fs|]; [|destruct Hin].
  cbn [new_items] in Hin. apply in_map_iff in Hin as [[f [u url]] [<- Hin]].
  apply P_new; try reflexivity. cbn [file fst].
  apply in_combine_l in Hin. now apply filter_In in Hin as [_ Hs].
Qed.

(** A property of items that holds of a new item and that no update of a
    pass breaks holds of every item of every state the page passes
    through. *)
Lemma items_reachable (w : World) :
  reachable w ->
  Forall P (queue (state w)) /\ forall s, In s (history w) -> Forall P (queue s).
Proof.
  induction 1 as [|w e w' Hw [IHnow IHseen] Hstep].
  { split; [constructor|]. intros s [<-|[]]. constructor. }
  pose proof (pending_pass w Hw) as Hpend.
  assert (Hsame : forall st, queue st = queue (state w) ->
            Forall P (queue (state (with_state w st)))
            /\ forall s, In s (history (with_state w st)) -> Forall P (queue s)).
  { intros st Hq. cbn. rewrite Hq. split; [assumption|].
    intros s [<-|Hs]; [now rewrite Hq | now apply IHseen]. }
  destruct e as [files fresh | target | v | v | v | v | | | n o | n]; cbn in Hstep.
  - destruct (fresh_ok w files fresh); [|discriminate]. injection Hstep as <-. cbn.
    assert (Hadded : Forall P (handleFiles files fresh (queue (state w)))).
    { rewrite handleFiles_appends. apply Forall_app. split; [assumption | apply items_new]. }
    split; [assumption|]. intros s [<-|Hs]; [assumption | now apply IHseen].
  - destruct (existsb _ (queue (state w))); [|discriminate]. injection Hstep as <-. cbn.
    assert (Hleft : Forall P (removeItem target (queue (state w)))).
    { unfold removeItem. apply Forall_forall. intros item Hin.
      apply filter_In in Hin as [Hin _]. rewrite Forall_forall in IHnow. now apply IHnow. }
    split; [assumption|]. intros s [<-|Hs]; [assumption | now apply IHseen].
  - injection Hstep as <-. now apply Hsame.
  - injection Hstep as <-. now apply Hsame.
  - injection Hstep as <-. now apply Hsame.
  - injection Hstep as <-. now apply Hsame.
  - destruct (isProcessing (state w)); [discriminate|]. injection Hstep as <-. cbn.
    split; [constructor|]. intros s [<-|[<-|Hs]]; [constructor | constructor | now apply IHseen].
  - injection Hstep as <-. apply items_after_resume; [apply pass_processQueue | |]; assumption.
  - destruct (nth_error (pending w) n) as [[body k|k]|] eqn:Hn; try discriminate.
    injection Hstep as <-. apply items_after_resume; try assumption.
    apply nth_error_In in Hn. rewrite Forall_forall in Hpend. apply (Hpend _ Hn).
  - destruct (nth_error (pending w) n) as [[body k|k]|] eqn:Hn; try discriminate.
    injection Hstep as <-. apply items_after_resume; try assumption.
    apply nth_error_In in Hn. rewrite Forall_forall in Hpend. apply (Hpend _ Hn).
Qed.

End ItemInvariant.

(** An item in [Error] always carries an error message: in every state
    the page passes through, whatever the network does, the status
    [Error] never appears without the [error] field set. *)
Theorem error_has_message `{Engine} (w : World) :
  reachable w ->
  Forall error_explained (queue (state w))
  /\ forall st, In st (history w) -> Forall error_explained (queue st).
Proof.
  apply items_reachable.
  - intros item Hs _ _ _ _ Herr. rewrite Hs in Herr. discriminate.
  - intros item updates [entry|s Hs|message|r] Hitem; unfold error_explained; cbn.
    + exact Hitem.
    + intros ->. destruct Hs as [?|[?|?]]; discriminate.
    + intros _. now exists message.
    + discriminate.
Qed.

Lemma error_has_message_witness :
  Forall error_explained (queue (state (@world_after v8_like mixed_pass))).
Proof.
  apply (@error_has_message v8_like).
  apply world_after_reachable. vm_compute. reflexivity.
Defined.

(** The log of an item always opens with "Queued for processing": the
    line is there from the moment the file is queued and no update
    removes or moves it, so no log is ever empty. *)
Theorem log_starts_queued `{Engine} (w : World) :
  reachable w ->
  Forall starts_queued (queue (state w))
  /\ forall st, In st (history w) -> Forall starts_queued (queue st).
Proof.
  apply items_reachable.
  - intros item _ Hl _ _ _. exists []. exact Hl.
  - intros item updates Hu [rest Hl]. unfold starts_queued, merge. cbn [logs].
    destruct Hu as [entry|s Hs|message|r]; cbn [p_logs log_update status_update complete_update];
      rewrite Hl; eauto.
    exists (rest ++ [entry])%list. reflexivity.
Qed.

Lemma log_starts_queued_witness :
  Forall starts_queued (queue (state (@world_after v8_like mixed_pass))).
Proof.
  apply (@log_starts_queued v8_like).
  apply world_after_reachable. vm_compute. reflexivity.
Defined.

Lemma existsb_nonempty {A : Type} (f : A -> bool) (l : list A) :
  ((0 <? List.length l)%nat && existsb f l) = existsb f l.
Proof. now destruct l. Qed.

Lemma existsb_ready (q : list QueueItem) :
  Forall (fun item => status item <> Idle) q ->
  ((0 <? List.length q)%nat && existsb eligible q) = existsb is_ready q.
Proof.
  intros Hq. rewrite existsb_nonempty.
  induction Hq as [|a q Ha _ IH]; [reflexivity|].
  cbn [existsb]. rewrite IH. f_equal. unfold eligible, is_ready.
  destruct (status a); try reflexivity. now elim Ha.
Qed.

(** The status [idle] is declared and tested for but never given to an
    item: in every state the page passes through no item is idle.  So the
    launch button is enabled exactly when the queue holds an item that is
    [ready] and no pass is running. *)
Theorem idle_never_occurs `{Engine} (w : World) :
  reachable w ->
  Forall (fun item => status item <> Idle) (queue (state w))
  /\ (forall st, In st (history w) ->
                 Forall (fun item => status item <> Idle) (queue st))
  /\ readyForProcessing (state w) = existsb is_ready (queue (state w)).
Proof.
  intros Hw.
  assert (Hidle : Forall (fun item => status item <> Idle) (queue (state w))
                  /\ forall st, In st (history w) ->
                                Forall (fun item => status item <> Idle) (queue st)).
  { revert w Hw. apply items_reachable.
    - intros item Hs _ _ _ _. rewrite Hs. discriminate.
    - intros item updates [entry|s Hs|message|r] Hitem; cbn; try discriminate.
      + exact Hitem.
      + destruct Hs as [-> | [-> | ->]]; discriminate. }
  destruct Hidle as [Hnow Hseen]. split; [assumption | split; [assumption|]].
  unfold readyForProcessing. now apply existsb_ready.
Qed.

Lemma idle_never_occurs_witness :
  Forall (fun item => status item <> Idle) (queue (state (@world_after v8_like mixed_pass)))
  /\ readyForProcessing (state (@world_after v8_like mixed_pass)) = false.
Proof.
  assert (Hw : @reachable v8_like (@world_after v8_like mixed_pass)).
  { apply world_after_reachable. vm_compute. reflexivity. }
  destruct (@idle_never_occurs v8_like _ Hw) as [Hnow [_ Hready]].
  split; [exact Hnow|]. rewrite Hready. vm_compute. reflexivity.
Defined.

(** *** What one event does to an item that stays *)

Section ItemRelation.
Context `{Engine}.
Variable R : QueueItem -> QueueItem -> Prop.
Hypothesis R_refl : forall a, R a a.
Hypothesis R_trans : forall a b c, R a b -> R b c -> R a c.
Hypothesis R_id : forall a b, R a b -> id b = id a.
Hypothesis R_merge : forall item updates, pass_partial updates -> R item (merge item updates).

Lemma related_refl (q : list QueueItem) : Forall2 R q q.
Proof. induction q; constructor; auto. Qed.

Lemma related_trans (p q r : list QueueItem) :
  Forall2 R p q -> Forall2 R q r -> Forall2 R p r.
Proof.
  intros Hpq; revert r; induction Hpq as [|a b p q Hab _ IH]; intros r Hqr;
    inversion Hqr; subst; constructor; eauto.
Qed.

Lemma related_after_update (f : State -> State) (st : State) :
  pass_update f -> Forall2 R (queue st) (queue (f st)).
Proof.
  intros [target updates Hu|b]; cbn; [|apply related_refl].
  unfold updateQueueItem. induction (queue st) as [|a q IH]; cbn [map]; constructor; auto.
  destruct (negb (String.eqb (id a) target)); auto.
Qed.

Lemma related_after_run (t : Task) :
  pass_task t ->
  forall st seen, Forall2 R (queue st) (queue (fst (fst (run t st seen)))).
Proof.
  induction 1 as [|f k Hf _ IH|body k _ _|k _ _]; intros st seen; cbn [run fst];
    try apply related_refl.
  eapply related_trans; [apply (related_after_update f st Hf) | apply IH].
Qed.

Lemma related_ids (p q : list QueueItem) : Forall2 R p q -> map id q = map id p.
Proof. induction 1 as [|a b p q Hab _ IH]; cbn; [reflexivity|]. now rewrite IH, (R_id a b). Qed.

Lemma related_find (p q : list QueueItem) (b : QueueItem) :
  Forall2 R p q -> In b q -> exists a, In a p /\ R a b.
Proof.
  induction 1 as [|a0 b0 p q Hab _ IH]; intros Hin; [destruct Hin|].
  destruct Hin as [<-|Hin]; [exists a0; split; [now left | assumption]|].
  destruct (IH Hin) as [a [Ha Hr]]. exists a. split; [now right | assumption].
Qed.

(** The queue after one event, set against the queue before it. *)
Lemma queue_after_step (w w' : World) (e : Event) :
  reachable w -> step w e = Some w' ->
  Forall2 R (queue (state w)) (queue (state w'))
  \/ (exists files fresh,
         fresh_ok w files fresh = true
         /\ queue (state w') = (queue (state w) ++ new_items files fresh)%list)
  \/ (exists target, queue (state w') = removeItem target (queue (state w)))
  \/ queue (state w') = [].
Proof.
  intros Hw Hstep. pose proof (pending_pass w Hw) as Hpend.
  assert (Hturn : forall others t,
             pass_task t ->
             Forall2 R (queue (state w)) (queue (state (resume w others t)))).
  { intros others t Ht. destruct (resume_fields w others t) as [-> _].
    now apply related_after_run. }
  destruct e as [files fresh | target | v | v | v | v | | | n o | n]; cbn in Hstep.
  - destruct (fresh_ok w files fresh) eqn:Hfresh; [|discriminate]. injection Hstep as <-.
    right. left. exists files, fresh. split; [assumption|]. cbn. apply handleFiles_appends.
  - destruct (existsb _ (queue (state w))); [|discriminate]. injection Hstep as <-.
    right. right. left. now exists target.
  - injection Hstep as <-. left. apply related_refl.
  - injection Hstep as <-. left. apply related_refl.
  - injection Hstep as <-. left. apply related_refl.
  - injection Hstep as <-. left. apply related_refl.
  - destruct (isProcessing (state w)); [discriminate|]. injection Hstep as <-. now right; right; right.
  - injection Hstep as <-. left. apply Hturn, pass_processQueue.
  - destruct (nth_error (pending w) n) as [[body k|k]|] eqn:Hn; try discriminate.
    injection Hstep as <-. left. apply Hturn.
    apply nth_error_In in Hn. rewrite Forall_forall in Hpend. apply (Hpend _ Hn).
  - destruct (nth_error (pending w) n) as [[body k|k]|] eqn:Hn; try discriminate.
    injection Hstep as <-. left. apply Hturn.
    apply nth_error_In in Hn. rewrite Forall_forall in Hpend. apply (Hpend _ Hn).
Qed.

Lemma fresh_ids_unseen (w : World) (files : option (list File))
  (fresh : list (string * string)) (item : QueueItem) :
  fresh_ok w files fresh = true -> In item (new_items files fresh) ->
  ~ In (id item) (issued w).
Proof.
  intros Hfresh Hin Hissued. unfold fresh_ok in Hfresh.
  apply andb_true_iff in Hfresh as [Hfresh Hlen].
  apply andb_true_iff in Hfresh as [_ Hnew].
  apply Nat.eqb_eq in Hlen. rewrite forallb_forall in Hnew.
  assert (Hu : In (id item) (map fst fresh)).
  { rewrite <- (new_items_ids files fresh Hlen). now apply in_map. }
  specialize (Hnew _ Hu). apply negb_true_iff in Hnew.
  assert (existsb (String.eqb (id item)) (issued w) = true); [|congruence].
  apply existsb_exists. exists (id item). split; [assumption | apply String.eqb_refl].
Qed.

(** An item that is in the queue before and after an event (the same id)
    is related by [R]. *)
Lemma same_item_after_step (w w' : World) (e : Event) (a b : QueueItem) :
  reachable w -> step w e = Some w' ->
  In a (queue (state w)) -> In b (queue (state w')) -> id a = id b -> R a b.
Proof.
  intros Hw Hstep Ha Hb Hid.
  destruct (reachable_invariant w Hw) as [_ Hnd Hiss _ _ _ _].
  assert (Hsame : In b (queue (state w)) -> R a b).
  { intros Hin. assert (a = b) as <- by (eapply NoDup_map_inj; eauto). apply R_refl. }
  destruct (queue_after_step w w' e Hw Hstep)
    as [Hrel|[[files [fresh [Hfresh Hq]]]|[[target Hq]|Hq]]].
  - destruct (related_find _ _ b Hrel Hb) as [a' [Ha' Hr]].
    pose proof (R_id a' b Hr) as Hid'.
    assert (a = a') as -> by (eapply NoDup_map_inj; eauto; congruence).
    exact Hr.
  - rewrite Hq in Hb. apply in_app_iff in Hb as [Hb|Hb]; [now apply Hsame|].
    elim (fresh_ids_unseen w files fresh b Hfresh Hb). rewrite <- Hid. now apply Hiss.
  - rewrite Hq in Hb. apply filter_In in Hb as [Hb _]. now apply Hsame.
  - rewrite Hq in Hb. destruct Hb.
Qed.

End ItemRelation.

Lemma keeps_identity_merge (item : QueueItem) (updates : Partial) :
  pass_partial updates -> keeps_identity item (merge item updates).
Proof.
  intros [entry|s Hs|message|r]; unfold keeps_identity; cbn; repeat split; auto;
    discriminate.
Qed.

(** No event changes the file or the preview URL of an item that stays in
    the queue, and none takes away a result or an error message: an item
    that has a result keeps one, and an error message, once set, is never
    cleared (it stays on an item that a later pass completes). *)
Theorem item_keeps_identity `{Engine} (w w' : World) (e : Event) (a b : QueueItem) :
  reachable w -> step w e = Some w' ->
  In a (queue (state w)) -> In b (queue (state w')) -> id a = id b ->
  file b = file a /\ previewUrl b = previewUrl a
  /\ (result a <> None -> result b <> None)
  /\ (error a <> None -> error b <> None).
Proof.
  intros Hw Hstep Ha Hb Hid.
  apply (same_item_after_step keeps_identity) with (a := a) (b := b) in Hstep;
    try assumption.
  - now destruct Hstep as [_ Hrest].
  - intros x. unfold keeps_identity. auto.
  - intros x y z [Hi [Hf [Hp [Hr He]]]] [Hi' [Hf' [Hp' [Hr' He']]]].
    unfold keeps_identity. repeat split; try congruence; auto.
  - now intros x y [Hi _].
  - apply keeps_identity_merge.
Qed.

Lemma item_keeps_identity_witness :
  Forall (fun b =>
            Forall (fun a => id a = id b -> file b = file a /\ previewUrl b = previewUrl a)
                   (queue (state (@world_after v8_like (picked ++ [ClickLaunch])%list))))
         (queue (state (@world_after v8_like
                          (picked ++ [ClickLaunch; FetchSettles 0 (Rejected NonError)])%list))).
Proof.
  apply Forall_forall. intros b Hb. apply Forall_forall. intros a Ha Hid.
  destruct (@item_keeps_identity v8_like
              (@world_after v8_like (picked ++ [ClickLaunch])%list)
              (@world_after v8_like
                 (picked ++ [ClickLaunch; FetchSettles 0 (Rejected NonError)])%list)
              (FetchSettles 0 (Rejected NonError)) a b) as [Hf [Hp _]];
    try assumption; [| |now split].
  - apply world_after_reachable. vm_compute. reflexivity.
  - apply (@world_after_snoc v8_like (picked ++ [ClickLaunch])%list
             (FetchSettles 0 (Rejected NonError))).
    vm_compute. reflexivity.
Defined.

(** *** A pass comes to an end *)

Section Finish.
Context `{Engine}.

Lemma resume_fetch (w : World) (body : FormData) (k : FetchOutcome -> Task)
  (o : FetchOutcome) :
  step (resume w [] (AwaitFetch body k)) (FetchSettles 0 o)
  = Some (resume (resume w [] (AwaitFetch body k)) [] (k o)).
Proof. reflexivity. Qed.

Lemma resume_body (w : World) (k : Task) :
  step (resume w [] (AwaitBody k)) (BodyRead 0)
  = Some (resume (resume w [] (AwaitBody k)) [] k).
Proof. reflexivity. Qed.

Lemma drain (answers : nat -> FetchOutcome) (t : Task) :
  forall n w,
    exists es w',
      settled_as answers n es /\ steps (resume w [] t) es = Some w' /\ pending w' = [].
Proof.
  induction t as [|f k IH|body k IH|k IH]; intros n w.
  - exists [], (resume w [] Return). repeat split.
  - rewrite resume_set. apply IH.
  - destruct (IH (answers n) (S n) (resume w [] (AwaitFetch body k)))
      as [es [w' [Hnet [Hsteps Hp]]]].
    exists (FetchSettles 0 (answers n) :: es), w'. split; [split; [reflexivity | assumption]|].
    split; [|assumption]. cbn [steps]. now rewrite resume_fetch.
  - destruct (IH n (resume w [] (AwaitBody k))) as [es [w' [Hnet [Hsteps Hp]]]].
    exists (BodyRead 0 :: es), w'. split; [assumption|].
    split; [|assumption]. cbn [steps]. now rewrite resume_body.
Qed.

End Finish.

(** A running pass always comes to its end, however its fetches end.  From
    any world the page can be in, and for every choice [answers] of how
    the fetches still to settle end (a network failure, a refusal, a
    success, in any mix), the network events that settle them so lead to
    a world where no call waits and the processing flag is down, so that
    the queue can be cleared and a pass launched again.  While a call
    waits the page takes its settling whatever the outcome, and whenever
    no call waits the flag is down: no failure leaves the page stuck in
    "processing". *)
Theorem pass_can_finish `{Engine} (w : World) :
  reachable w ->
  (forall answers : nat -> FetchOutcome,
      exists es w',
        settled_as answers 0 es /\ steps w es = Some w'
        /\ pending w' = [] /\ isProcessing (state w') = false)
  /\ (pending w <> [] ->
      forall o, exists e w',
        (e = FetchSettles 0 o \/ e = BodyRead 0) /\ step w e = Some w')
  /\ (pending w = [] -> isProcessing (state w) = false).
Proof.
  intros Hw.
  assert (Hdone : forall es w',
             steps w es = Some w' -> pending w' = [] -> isProcessing (state w') = false).
  { intros es w' Hsteps Hp.
    destruct (reachable_invariant w' (steps_reachable w w' es Hw Hsteps))
      as [_ _ _ _ _ Hidle _].
    now apply Hidle. }
  destruct (reachable_invariant w Hw) as [_ _ _ _ Hpend _ _].
  split; [|split].
  - intros answers. destruct Hpend as [Hp|[s [ids [Hp _]]]].
    + exists [], w. split; [exact I|]. split; [reflexivity|]. split; [assumption|].
      now apply (Hdone [] w).
    + destruct s as [body k|k].
      * destruct (drain answers (k (answers 0)) 1 w) as [es [w' [Hnet [Hsteps Hp']]]].
        assert (Hall : steps w (FetchSettles 0 (answers 0) :: es) = Some w').
        { cbn [steps step]. rewrite Hp. cbn [nth_error remove_nth]. exact Hsteps. }
        exists (FetchSettles 0 (answers 0) :: es), w'.
        split; [split; [reflexivity | assumption]|]. split; [assumption|].
        split; [assumption | now apply (Hdone _ _ Hall)].
      * destruct (drain answers k 0 w) as [es [w' [Hnet [Hsteps Hp']]]].
        assert (Hall : steps w (BodyRead 0 :: es) = Some w').
        { cbn [steps step]. rewrite Hp. cbn [nth_error remove_nth]. exact Hsteps. }
        exists (BodyRead 0 :: es), w'.
        split; [assumption|]. split; [assumption|].
        split; [assumption | now apply (Hdone _ _ Hall)].
  - intros Hne o. destruct Hpend as [Hp|[s [ids [Hp _]]]]; [contradiction|].
    destruct s as [body k|k].
    + exists (FetchSettles 0 o). eexists. split; [now left|].
      cbn [step]. rewrite Hp. reflexivity.
    + exists (BodyRead 0). eexists. split; [now right|].
      cbn [step]. rewrite Hp. reflexivity.
  - intros Hp. now apply (Hdone [] w).
Qed.

Lemma pass_can_finish_witness :
  exists es w',
    settled_as mixed_answers 0 es
    /\ @steps v8_like (@world_after v8_like (picked ++ [ClickLaunch])%list) es = Some w'
    /\ pending w' = [] /\ isProcessing (state w') = false.
Proof.
  refine (proj1 (@pass_can_finish v8_like _ _) mixed_answers).
  apply world_after_reachable. vm_compute. reflexivity.
Defined.

(** *** An item that is gone stays gone *)

Section Gone.
Context `{Engine}.

Lemma issued_grows (w w' : World) (e : Event) (x : string) :
  step w e = Some w' -> In x (issued w) -> In x (issued w').
Proof.
  intros Hstep Hx.
  assert (Hturn : forall others t, In x (issued (resume w others t))).
  { intros others t. now destruct (resume_fields w others t) as [_ [_ [_ ->]]]. }
  destruct e as [files fresh | target | v | v | v | v | | | n o | n]; cbn in Hstep.
  - destruct (fresh_ok w files fresh); [|discriminate]. injection Hstep as <-. cbn.
    apply in_app_iff. now left.
  - destruct (existsb _ (queue (state w))); [|discriminate]. now injection Hstep as <-.
  - now injection Hstep as <-.
  - now injection Hstep as <-.
  - now injection Hstep as <-.
  - now injection Hstep as <-.
  - destruct (isProcessing (state w)); [discriminate|]. now injection Hstep as <-.
  - injection Hstep as <-. apply Hturn.
  - destruct (nth_error (pending w) n) as [[body k|k]|]; try discriminate.
    injection Hstep as <-. apply Hturn.
  - destruct (nth_error (pending w) n) as [[body k|k]|]; try discriminate.
    injection Hstep as <-. apply Hturn.
Qed.

Lemma same_id_merge (item : QueueItem) (updates : Partial) :
  pass_partial updates -> id (merge item updates) = id item.
Proof. now intros [entry|s Hs|message|r]. Qed.

Lemma ids_after_step (w w' : World) (e : Event) (x : string) :
  reachable w -> step w e = Some w' ->
  In x (queue_ids w') -> In x (queue_ids w) \/ ~ In x (issued w).
Proof.
  intros Hw Hstep Hx. unfold queue_ids in *.
  destruct (queue_after_step (fun a b => id b = id a)
              (fun a => eq_refl) (fun a b c E1 E2 => eq_trans E2 E1)
              same_id_merge w w' e Hw Hstep)
    as [Hrel|[[files [fresh [Hfresh Hq]]]|[[target Hq]|Hq]]].
  - left. rewrite <- (related_ids (fun a b => id b = id a) (fun a b E => E) _ _ Hrel).
    exact Hx.
  - rewrite Hq, map_app in Hx. apply in_app_iff in Hx as [Hx|Hx]; [now left|].
    right. apply in_map_iff in Hx as [item [<- Hin]].
    now apply (fresh_ids_unseen w files fresh).
  - left. rewrite Hq in Hx. apply in_map_iff in Hx as [item [<- Hin]].
    apply filter_In in Hin as [Hin _]. now apply in_map.
  - rewrite Hq in Hx. destruct Hx.
Qed.

Lemma gone_for_good (es : list Event) :
  forall w w' x,
    reachable w -> In x (issued w) -> ~ In x (queue_ids w) ->
    steps w es = Some w' -> ~ In x (queue_ids w').
Proof.
  induction es as [|e es IH]; intros w w' x Hw Hissued Hgone Hsteps; cbn [steps] in Hsteps.
  - now injection Hsteps as <-.
  - destruct (step w e) as [w1|] eqn:Hstep; [|discriminate].
    apply (IH w1 w' x); try assumption.
    + now apply (reach_step w e).
    + now apply (issued_grows w w1 e).
    + intros Hin. destruct (ids_after_step w w1 e x Hw Hstep Hin); contradiction.
Qed.

Lemma removeItem_gone (target : string) (q : list QueueItem) :
  ~ In target (map id (removeItem target q)).
Proof.
  intros Hin. apply in_map_iff in Hin as [item [Hid Hitem]].
  apply filter_In in Hitem as [_ Hne]. apply negb_true_iff, String.eqb_neq in Hne.
  contradiction.
Qed.

End Gone.

(** An item that has left the queue never comes back.  The pass that was
    running when it was removed still holds it and goes on updating it by
    id, but an update for an id the queue does not hold changes nothing
    and new items get ids never used before: after "Remove Item", and
    more generally for any id once handed out and now absent, no sequence
    of events puts an item with that id in the queue again. *)
Theorem removed_stays_removed `{Engine} :
  (forall w target w1 es w2,
      reachable w -> step w (ClickRemove target) = Some w1 -> steps w1 es = Some w2 ->
      ~ In target (queue_ids w2))
  /\ (forall w x es w',
      reachable w -> In x (issued w) -> ~ In x (queue_ids w) ->
      steps w es = Some w' -> ~ In x (queue_ids w')).
Proof.
  split; [|intros w x es w'; apply gone_for_good].
  intros w target w1 es w2 Hw Hstep Hsteps.
  apply (gone_for_good es w1 w2 target); [now apply (reach_step w (ClickRemove target))| | |assumption].
  - destruct (reachable_invariant w Hw) as [_ _ Hiss _ _ _ _].
    cbn in Hstep.
    destruct (existsb _ (queue (state w))) eqn:Hex; [|discriminate].
    injection Hstep as <-. cbn.
    apply existsb_exists in Hex as [item [Hin Hitem]].
    apply andb_true_iff in Hitem as [Hid _]. apply String.eqb_eq in Hid as <-.
    now apply Hiss.
  - cbn in Hstep. destruct (existsb _ (queue (state w))); [|discriminate].
    injection Hstep as <-. unfold queue_ids. cbn. apply removeItem_gone.
Qed.

Lemma steps_app `{Engine} (w : World) (es es' : list Event) :
  steps w (es ++ es') = match steps w es with
                        | Some w1 => steps w1 es'
                        | None => None
                        end.
Proof.
  revert w; induction es as [|x es IH]; intros w; cbn [steps app]; [reflexivity|].
  destruct (step w x); [apply IH | reflexivity].
Qed.

Lemma world_after_app `{Engine} (es es' : list Event) :
  runs (es ++ es') = true ->
  steps (world_after es) es' = Some (world_after (es ++ es')).
Proof.
  unfold runs, world_after. rewrite steps_app.
  destruct (steps initial es) as [w|]; [|discriminate].
  now destruct (steps w es').
Qed.

Lemma removed_stays_removed_witness :
  ~ In "id-1"
       (queue_ids (@world_after v8_like
                     ((before_removal ++ [ClickRemove "id-1"]) ++ after_removal)%list)).
Proof.
  destruct (@removed_stays_removed v8_like) as [Hremoved _].
  apply (Hremoved (@world_after v8_like before_removal) "id-1"
                  (@world_after v8_like (before_removal ++ [ClickRemove "id-1"])%list)
                  after_removal).
  - apply world_after_reachable. vm_compute. reflexivity.
  - apply (@world_after_snoc v8_like before_removal (ClickRemove "id-1")).
    vm_compute. reflexivity.
  - apply (@world_after_app v8_like (before_removal ++ [ClickRemove "id-1"])%list
             after_removal).
    vm_compute. reflexivity.
Defined.

(** *** What the page sends *)

Section Requests.
Context `{Engine}.
Variable J : State -> QueueItem -> Prop.

(** With nothing waiting, only a launch sends anything. *)
Lemma idle_step (w w' : World) (e : Event) :
  pending w = [] -> e <> ClickLaunch -> step w e = Some w' ->
  requests w' = requests w /\ pending w' = [].
Proof.
  intros Hp He Hstep.
  destruct e as [files fresh | target | v | v | v | v | | | n o | n]; cbn in Hstep.
  - destruct (fresh_ok w files fresh); [|discriminate]. injection Hstep as <-. now split.
  - destruct (existsb _ (queue (state w))); [|discriminate]. injection Hstep as <-. now split.
  - injection Hstep as <-. now split.
  - injection Hstep as <-. now split.
  - injection Hstep as <-. now split.
  - injection Hstep as <-. now split.
  - destruct (isProcessing (state w)); [discriminate|]. injection Hstep as <-. now split.
  - now elim He.
  - rewrite Hp in Hstep. destruct n; discriminate.
  - rewrite Hp in Hstep. destruct n; discriminate.
Qed.

Lemma expected_from_launch (st : State) :
  (forall item, In item (queue st) -> J st item) ->
  Forall (from_launch J) (expected_requests st).
Proof.
  intros HJ. unfold expected_requests.
  destruct (negb (readyForProcessing st) || isProcessing st); [constructor|].
  apply Forall_forall. intros body Hin.
  apply in_map_iff in Hin as [item [<- Hitem]]. apply filter_In in Hitem as [Hitem _].
  exists st, item. split; [reflexivity | now apply HJ].
Qed.

Lemma promise_after_step (w w' : World) (e : Event) :
  reachable w -> step w e = Some w' ->
  (forall item, In item (queue (state w)) -> J (state w) item) ->
  Forall (from_launch J) (requests w ++ owed w) ->
  Forall (from_launch J) (requests w' ++ owed w').
Proof.
  intros Hw Hstep HJ Hall. pose proof (reachable_invariant w Hw) as Hinv.
  destruct (pending w) as [|s l] eqn:Hp.
  - assert (Hnow : Forall (from_launch J) (requests w)).
    { apply Forall_app in Hall. tauto. }
    destruct e as [files fresh | target | v | v | v | v | | | n o | n];
      try (match type of Hstep with
           | step _ ?e = _ =>
               assert (He : e <> ClickLaunch) by discriminate;
               destruct (idle_step w w' e Hp He Hstep) as [-> Hp']
           end;
           unfold owed; rewrite Hp'; cbn [flat_map]; now rewrite app_nil_r).
    rewrite (launch_promise w w' Hinv Hp Hstep). apply Forall_app. split; [assumption|].
    now apply expected_from_launch.
  - rewrite (step_keeps_promise w w' e Hinv); [assumption | | assumption].
    rewrite Hp. discriminate.
Qed.

End Requests.

Lemma queue_files_supported `{Engine} (w : World) :
  reachable w -> forall item, In item (queue (state w)) -> supported (file item) = true.
Proof.
  intros Hw.
  destruct (items_reachable (fun item => supported (file item) = true)) with (w := w)
    as [Hnow _]; try assumption.
  - now intros item _ _ _ _ Hs.
  - now intros item updates [entry|s Hs|message|r] Hitem.
  - now rewrite Forall_forall in Hnow.
Qed.

Lemma requests_supported `{Engine} (w : World) :
  reachable w ->
  Forall (from_launch (fun _ item => supported (file item) = true)) (requests w ++ owed w).
Proof.
  induction 1 as [|w e w' Hw IH Hstep]; [constructor|].
  apply (promise_after_step _ w w' e Hw Hstep); [|assumption].
  intros item. now apply queue_files_supported.
Qed.

(** Every request the page sends is a form of five fields: under [image]
    a file of one of the five supported image types, so that the handler
    never falls back on "image/jpeg" for it, then the locale, the lens,
    the dynamic and the interior flag as "true" or "false".  The handler,
    with its key set, answers none of them with 400 or 500: it goes on to
    the analysis. *)
Theorem requests_are_well_formed `{Engine} (w : World) (body : FormData) :
  reachable w -> In body (requests w) ->
  exists env item,
    body = [ ("image", Route.EFile (file item));
             ("location", Route.EString (location env));
             ("lens", Route.EString (lens env));
             ("dynamic", Route.EString (dynamic env));
             ("includeInteriors", Route.EString (string_of_bool (includeInteriors env))) ]
    /\ In (Route.file_type (file item)) supported_types
    /\ Route.mime_of (file item) = Route.file_type (file item)
    /\ forall key sdk,
         key <> "" ->
         Route.POST (Some key) sdk {| Route.formData := Ok body |}
         = Route.bind
             (Route.analyzeSourceImage (sdk key) (base64 (Route.file_bytes (file item)))
                (Route.file_type (file item)))
             (Route.respond (sdk key)
                (or_default (location env) "Local waterways")
                (or_default (lens env) "wide-immersive")
                (or_default (dynamic env) "running")
                (includeInteriors env)).
Proof.
  intros Hw Hin. pose proof (requests_supported w Hw) as Hall.
  apply Forall_app in Hall as [Hall _]. rewrite Forall_forall in Hall.
  destruct (Hall body Hin) as [env [item [-> Hs]]]. exists env, item.
  apply supported_type in Hs.
  assert (Hmime : Route.mime_of (file item) = Route.file_type (file item)).
  { unfold Route.mime_of. destruct (String.eqb (Route.file_type (file item)) "") eqn:E;
      [|reflexivity].
    apply String.eqb_eq in E. rewrite E in Hs. cbn in Hs. intuition discriminate. }
  split; [reflexivity | split; [assumption | split; [assumption|]]].
  intros key sdk Hkey.
  rewrite (POST_with_image key sdk {| Route.formData := Ok (form_of env item) |}
             (form_of env item) (file item) Hkey eq_refl eq_refl).
  rewrite Hmime. cbn [form_of Route.form_get String.eqb Ascii.eqb Bool.eqb].
  unfold Route.field_or, or_default. now destruct (includeInteriors env).
Qed.

Lemma requests_are_well_formed_witness :
  Forall (fun body =>
            exists env item,
              body = form_of env item
              /\ In (Route.file_type (file item)) supported_types)
         (requests (@world_after v8_like mixed_pass)).
Proof.
  apply Forall_forall. intros body Hin.
  destruct (@requests_are_well_formed v8_like (@world_after v8_like mixed_pass) body)
    as [env [item [E [Hs _]]]]; [|assumption|].
  - apply world_after_reachable. vm_compute. reflexivity.
  - exists env, item. split; assumption.
Defined.

(** *** The page's options and the handler's lexicons *)

Section Styles.
Context `{Engine}.

Lemma style_after_update (f : State -> State) (st : State) :
  pass_update f -> lens (f st) = lens st /\ dynamic (f st) = dynamic st.
Proof. now intros [target updates Hu|b]. Qed.

Lemma style_after_run (t : Task) :
  pass_task t ->
  forall st seen,
    lens (fst (fst (run t st seen))) = lens st
    /\ dynamic (fst (fst (run t st seen))) = dynamic st.
Proof.
  induction 1 as [|f k Hf _ IH|body k _ _|k _ _]; intros st seen; cbn [run fst];
    try (now split).
  destruct (IH (f st) (f st :: seen)) as [-> ->]. now apply style_after_update.
Qed.

Lemma known_lens (v : string) :
  In v (map Page.option_id Page.lensStyles) ->
  exists phrase, Route.assoc v Route.lensLexicon = Some phrase.
Proof. intros [<-|[<-|[<-|[]]]]; cbn; eauto. Qed.

Lemma known_dynamic (v : string) :
  In v (map Page.option_id Page.shotDynamics) ->
  exists phrase, Route.assoc v Route.dynamicDirectives = Some phrase.
Proof. intros [<-|[<-|[<-|[]]]]; cbn; eauto. Qed.

Lemma known_style_step (w w' : World) (e : Event) :
  reachable w -> known_style (state w) -> Page.offered e -> step w e = Some w' ->
  known_style (state w').
Proof.
  intros Hw [Hl Hd] He Hstep. pose proof (pending_pass w Hw) as Hpend.
  assert (Hturn : forall others t, pass_task t -> known_style (state (resume w others t))).
  { intros others t Ht. destruct (resume_fields w others t) as [-> _].
    unfold known_style.
    now destruct (style_after_run t Ht (state w) (history w)) as [-> ->]. }
  destruct e as [files fresh | target | v | v | v | v | | | n o | n]; cbn in Hstep.
  - destruct (fresh_ok w files fresh); [|discriminate]. injection Hstep as <-. now split.
  - destruct (existsb _ (queue (state w))); [|discriminate]. injection Hstep as <-. now split.
  - injection Hstep as <-. now split.
  - injection Hstep as <-. split; [now apply known_lens | assumption].
  - injection Hstep as <-. split; [assumption | now apply known_dynamic].
  - injection Hstep as <-. now split.
  - destruct (isProcessing (state w)); [discriminate|]. injection Hstep as <-. now split.
  - injection Hstep as <-. apply Hturn, pass_processQueue.
  - destruct (nth_error (pending w) n) as [[body k|k]|] eqn:Hn; try discriminate.
    injection Hstep as <-. apply Hturn.
    apply nth_error_In in Hn. rewrite Forall_forall in Hpend. apply (Hpend _ Hn).
  - destruct (nth_error (pending w) n) as [[body k|k]|] eqn:Hn; try discriminate.
    injection Hstep as <-. apply Hturn.
    apply nth_error_In in Hn. rewrite Forall_forall in Hpend. apply (Hpend _ Hn).
Qed.

Lemma known_style_steps (es : list Event) :
  forall w w',
    reachable w -> known_style (state w) ->
    Forall (from_launch (fun env _ => known_style env)) (requests w ++ owed w) ->
    Forall Page.offered es -> steps w es = Some w' ->
    known_style (state w')
    /\ Forall (from_launch (fun env _ => known_style env)) (requests w' ++ owed w').
Proof.
  induction es as [|e es IH]; intros w w' Hw Hk Hall Hes Hsteps; cbn [steps] in Hsteps.
  - injection Hsteps as <-. now split.
  - destruct (step w e) as [w1|] eqn:Hstep; [|discriminate].
    inversion Hes as [|? ? He Hes']; subst.
    apply (IH w1 w'); try assumption.
    + now apply (reach_step w e).
    + now apply (known_style_step w w1 e).
    + apply (promise_after_step _ w w1 e Hw Hstep); [|assumption]. now intros item _.
Qed.

Lemma own_phrase (lexicon : list (string * string)) (key phrase : string) :
  Route.assoc key lexicon = Some phrase ->
  Route.read_property lexicon key = Some (Route.OwnString phrase).
Proof. intros Hk. unfold Route.read_property. now rewrite Hk. Qed.

End Styles.

(** The ids the page's radio buttons can select are keys of the handler's
    two lexicons.  So when the page is driven through its controls, the
    selected lens and dynamic always have a phrase of their own, and every
    request sent names a lens and a dynamic that the handler resolves to
    that phrase: neither the default of [??] nor a property inherited from
    [Object.prototype] is ever reached from the page. *)
Theorem page_styles_are_known `{Engine} (es : list Event) (w : World) :
  Forall Page.offered es -> steps initial es = Some w ->
  known_style (state w) /\ Forall styled_request (requests w).
Proof.
  intros Hes Hsteps.
  destruct (known_style_steps es initial w) as [Hk Hall]; try assumption.
  - constructor.
  - split; eexists; reflexivity.
  - constructor.
  - split; [assumption|]. apply Forall_app in Hall as [Hall _].
    revert Hall. apply Forall_impl.
    intros body [env [item [-> [[lp Hl] [dp Hd]]]]].
    exists (lens env), (dynamic env), lp, dp. repeat split.
    + unfold Route.lensDirective. now rewrite (own_phrase _ _ _ Hl).
    + unfold Route.motionDirective. now rewrite (own_phrase _ _ _ Hd).
Qed.

Lemma page_styles_witness :
  known_style (state (@world_after v8_like late_change))
  /\ Forall styled_request (requests (@world_after v8_like late_change)).
Proof.
  apply (@page_styles_are_known v8_like late_change).
  - unfold late_change, picked. cbn [app].
    repeat (apply Forall_cons; [cbn; auto|]). apply Forall_nil.
  - apply world_after_steps. vm_compute. reflexivity.
Defined.

(** *** One item at a time *)

Section Phases.
Context `{Engine}.

Lemma working_catch (rest : list string) (cur : string) (e : Thrown) (k : Task) :
  working rest Between k -> working rest (Closing cur) (on_catch cur e k).
Proof. intros Hk. unfold on_catch. now apply work_log, work_failed. Qed.

Lemma working_after_body (rest : list string) (item : QueueItem) (ok : bool)
  (text : Result string) (k : Task) :
  working rest Between k -> working rest (Closing (id item)) (after_body item ok text k).
Proof.
  intros Hk. unfold after_body. destruct ok; cbn [negb].
  - destruct (response_json text) as [payload|e]; [|now apply working_catch].
    apply (work_progress _ _ Generating); [auto|]. apply work_log.
    apply (work_progress _ _ Verifying); [auto|]. apply work_log.
    destruct (result_of payload) as [r|e]; [|now apply working_catch].
    now apply work_done.
  - destruct text as [t|e]; [|now apply working_catch].
    now apply work_log, work_failed.
Qed.

Lemma working_after_fetch (rest : list string) (item : QueueItem) (o : FetchOutcome)
  (k : Task) :
  working rest Between k -> working rest (Waiting (id item)) (after_fetch item o k).
Proof.
  intros Hk. destruct o as [e|ok text]; cbn [after_fetch].
  - now apply work_close, working_catch.
  - now apply work_body, working_after_body.
Qed.

Lemma working_items (env : State) (items : list QueueItem) :
  working (todo items) Between (process_items env items).
Proof.
  induction items as [|item items IH]; cbn [process_items]; [apply work_finish|].
  unfold process_item, todo. cbn [filter]. unfold not_complete at 1.
  destruct (status_eqb (status item) Complete); cbn [negb map]; [exact IH|].
  apply work_start. intros o. now apply working_after_fetch.
Qed.

(** One update, item by item. *)
Lemma updated_item (target : string) (updates : Partial) (q : list QueueItem)
  (b : QueueItem) :
  In b (updateQueueItem target updates q) ->
  exists a, In a q /\ ((id a <> target /\ b = a) \/ (id a = target /\ b = merge a updates)).
Proof.
  intros Hin. apply in_map_iff in Hin as [a [<- Ha]]. exists a. split; [assumption|].
  destruct (String.eqb (id a) target) eqn:E; cbn [negb].
  - right. apply String.eqb_eq in E. now split.
  - left. apply String.eqb_neq in E. now split.
Qed.

Lemma frame_refl (ids : list string) (q : list QueueItem) : frame ids q q.
Proof. induction q; constructor; auto. Qed.

Lemma frame_trans (ids : list string) (p q r : list QueueItem) :
  frame ids p q -> frame ids q r -> frame ids p r.
Proof.
  intros Hpq; revert r; induction Hpq as [|a b p q [Hid Hab] _ IH]; intros r Hqr;
    inversion Hqr as [|? c ? ? [Hid' Hbc] Hrest]; subst; constructor; [|now apply IH].
  split; [congruence|]. intros Hout. rewrite <- (Hab Hout). apply Hbc.
  now rewrite (Hab Hout).
Qed.

Lemma frame_weaken (ids ids' : list string) (q q' : list QueueItem) :
  incl ids ids' -> frame ids q q' -> frame ids' q q'.
Proof.
  intros Hincl. apply Forall2_impl. intros a b [Hid Hab]. split; [assumption|].
  intros Hout. apply Hab. intros Hin. apply Hout, Hincl, Hin.
Qed.

Lemma frame_update (ids : list string) (target : string) (updates : Partial)
  (q : list QueueItem) :
  pass_partial updates -> In target ids ->
  frame ids q (updateQueueItem target updates q).
Proof.
  intros Hu Hin. unfold frame, updateQueueItem.
  induction q as [|a q IH]; cbn [map]; constructor; [|exact IH].
  destruct (String.eqb (id a) target) eqn:E; cbn [negb].
  - apply String.eqb_eq in E. split; [now apply same_id_merge|].
    intros Hout. elim Hout. now rewrite E.
  - now split.
Qed.

Lemma frame_keeps (ids : list string) (q q' : list QueueItem) (a : QueueItem) :
  frame ids q q' -> In a q -> ~ In (id a) ids -> In a q'.
Proof.
  induction 1 as [|x y q q' [Hid Hxy] _ IH]; intros Hin Hout; [destruct Hin|].
  destruct Hin as [->|Hin]; [left; now apply Hxy | right; now apply IH].
Qed.

Lemma calm_closing (rest : list string) (cur : string) (q : list QueueItem) :
  calm rest (Waiting cur) q -> calm rest (Closing cur) q.
Proof.
  intros [Hnd [Hrest [Hcur Hq]]]. split; [assumption | split; [assumption|]].
  split; [assumption|]. intros a Ha. now apply Hq.
Qed.

(** A log line or a status short of the last for the current item. *)
Lemma calm_closing_update (rest : list string) (cur : string) (updates : Partial)
  (q : list QueueItem) :
  pass_partial updates ->
  calm rest (Closing cur) q -> calm rest (Closing cur) (updateQueueItem cur updates q).
Proof.
  intros Hu [Hnd [Hrest [Hcur Hq]]]. split; [assumption|]. split; [|split; [assumption|]].
  - intros b Hb Hin. destruct (updated_item _ _ _ _ Hb) as [a [Ha [[Hne ->]|[He ->]]]].
    + now apply Hrest.
    + rewrite (same_id_merge a updates Hu), He in Hin. contradiction.
  - intros b Hb Hne. destruct (updated_item _ _ _ _ Hb) as [a [Ha [[Hne' ->]|[He ->]]]].
    + now apply Hq.
    + rewrite (same_id_merge a updates Hu) in Hne. contradiction.
Qed.

(** The update that closes the current item. *)
Lemma calm_closed (rest : list string) (cur : string) (updates : Partial)
  (q : list QueueItem) :
  pass_partial updates ->
  (forall a, settled (merge a updates)) ->
  calm rest (Closing cur) q -> calm rest Between (updateQueueItem cur updates q).
Proof.
  intros Hu Hsettled [Hnd [Hrest [Hcur Hq]]]. split; [assumption|]. split.
  - intros b Hb Hin. destruct (updated_item _ _ _ _ Hb) as [a [Ha [[Hne ->]|[He ->]]]].
    + now apply Hrest.
    + rewrite (same_id_merge a updates Hu), He in Hin. contradiction.
  - intros b Hb. destruct (updated_item _ _ _ _ Hb) as [a [Ha [[Hne ->]|[He ->]]]].
    + now apply Hq.
    + apply Hsettled.
Qed.

(** The three updates that start an item. *)
Lemma calm_started (rest : list string) (target entry entry' : string)
  (q : list QueueItem) :
  calm (target :: rest) Between q ->
  calm rest (Waiting target)
    (appendLog target entry'
       (updateQueueItem target (status_update Analyzing None)
          (appendLog target entry q))).
Proof.
  intros [Hnd [Hrest Hq]]. inversion Hnd as [|? ? Hout Hnd']; subst.
  assert (Hitem : forall b,
             In b (appendLog target entry'
                     (updateQueueItem target (status_update Analyzing None)
                        (appendLog target entry q))) ->
             (id b <> target /\ In b q) \/ (id b = target /\ status b = Analyzing)).
  { intros b Hb. unfold appendLog in Hb.
    destruct (updated_item _ _ _ _ Hb) as [b1 [Hb1 Hcase1]].
    destruct (updated_item _ _ _ _ Hb1) as [b2 [Hb2 Hcase2]].
    destruct (updated_item _ _ _ _ Hb2) as [a [Ha Hcase3]].
    destruct Hcase3 as [[Hne3 ->]|[He3 ->]].
    - destruct Hcase2 as [[Hne2 ->]|[He2 _]]; [|contradiction].
      destruct Hcase1 as [[Hne1 ->]|[He1 _]]; [|contradiction]. left. now split.
    - destruct Hcase2 as [[Hne2 _]|[He2 ->]]; [now elim Hne2|].
      destruct Hcase1 as [[Hne1 _]|[He1 ->]]; [now elim Hne1|]. right. now split. }
  split; [assumption|]. split; [|split; [assumption|]].
  - intros b Hb Hin. destruct (Hitem b Hb) as [[Hne Hbq]|[He _]].
    + apply Hrest; [assumption | now right].
    + rewrite He in Hin. contradiction.
  - intros b Hb. destruct (Hitem b Hb) as [[Hne Hbq]|[He Hs]]; split; intros Hid;
      try contradiction; auto.
Qed.

Lemma frame_started (ids : list string) (target entry entry' : string)
  (q : list QueueItem) :
  In target ids ->
  frame ids q
    (appendLog target entry'
       (updateQueueItem target (status_update Analyzing None)
          (appendLog target entry q))).
Proof.
  intros Hin. unfold appendLog. fold (log_update [entry]). fold (log_update [entry']).
  apply (frame_trans ids _ (updateQueueItem target (log_update [entry]) q));
    [apply frame_update; [apply pass_log | assumption]|].
  apply (frame_trans ids _
           (updateQueueItem target (status_update Analyzing None)
              (updateQueueItem target (log_update [entry]) q)));
    [apply frame_update; [apply pass_progress; auto | assumption]|].
  apply frame_update; [apply pass_log | assumption].
Qed.

(** Running the remainder of a pass up to its next wait. *)
Lemma run_working (rest : list string) (ph : Phase) (t : Task) :
  working rest ph t ->
  forall st seen,
    calm rest ph (queue st) ->
    frame (phase_ids rest ph) (queue st) (queue (fst (fst (run t st seen))))
    /\ match snd (run t st seen) with
       | None => forall a, In a (queue (fst (fst (run t st seen)))) -> settled a
       | Some s =>
           exists rest' cur',
             working_suspended rest' cur' s
             /\ calm rest' (Waiting cur') (queue (fst (fst (run t st seen))))
             /\ incl (cur' :: rest') (phase_ids rest ph)
       end.
Proof.
  induction 1 as [|target rest entry entry' body k Hk _|cur rest k Hk _
                  |cur rest k _ IH|cur rest entry k _ IH|cur rest s k Hs _ IH
                  |cur rest message k _ IH|cur rest r k _ IH];
    intros st seen Hcalm.
  - cbn [run fst snd]. split; [apply frame_refl|]. now destruct Hcalm as [_ [_ Hq]].
  - cbn [run do_appendLog do_update fst snd setQueue queue phase_ids].
    split; [apply frame_started; now left|].
    exists rest, target. split; [exact Hk|]. split; [now apply calm_started|].
    apply incl_refl.
  - cbn [run fst snd phase_ids]. split; [apply frame_refl|].
    exists rest, cur. split; [exact Hk|]. split; [assumption | apply incl_refl].
  - apply IH. now apply calm_closing.
  - cbn [run do_appendLog phase_ids].
    destruct (IH (setQueue (appendLog cur entry) st)
                 (setQueue (appendLog cur entry) st :: seen)) as [Hframe Hrest].
    { cbn [setQueue queue]. apply calm_closing_update; [apply pass_log | assumption]. }
    split; [|exact Hrest].
    eapply frame_trans; [|exact Hframe]. cbn [setQueue queue].
    apply frame_update; [apply pass_log | now left].
  - cbn [run do_update phase_ids].
    assert (Hp : pass_partial (status_update s None)).
    { apply pass_progress. tauto. }
    destruct (IH (setQueue (updateQueueItem cur (status_update s None)) st)
                 (setQueue (updateQueueItem cur (status_update s None)) st :: seen))
      as [Hframe Hrest].
    { cbn [setQueue queue]. now apply calm_closing_update. }
    split; [|exact Hrest].
    eapply frame_trans; [|exact Hframe]. cbn [setQueue queue].
    apply frame_update; [assumption | now left].
  - cbn [run do_update phase_ids].
    destruct (IH (setQueue (updateQueueItem cur (status_update Error (Some message))) st)
                 (setQueue (updateQueueItem cur (status_update Error (Some message))) st
                  :: seen)) as [Hframe Hrest].
    { cbn [setQueue queue]. apply calm_closed; [apply pass_failed | | assumption].
      intros a. right. right. reflexivity. }
    split.
    + eapply frame_trans; [|apply (frame_weaken rest); [apply incl_tl, incl_refl | exact Hframe]].
      cbn [setQueue queue]. apply frame_update; [apply pass_failed | now left].
    + destruct (snd (run k _ _)) as [s|]; [|exact Hrest].
      destruct Hrest as [rest' [cur' [Hs [Hc Hincl]]]]. exists rest', cur'.
      split; [assumption | split; [assumption|]]. now apply incl_tl.
  - cbn [run do_update phase_ids].
    destruct (IH (setQueue (updateQueueItem cur (complete_update r)) st)
                 (setQueue (updateQueueItem cur (complete_update r)) st :: seen))
      as [Hframe Hrest].
    { cbn [setQueue queue]. apply calm_closed; [apply pass_done | | assumption].
      intros a. right. left. reflexivity. }
    split.
    + eapply frame_trans; [|apply (frame_weaken rest); [apply incl_tl, incl_refl | exact Hframe]].
      cbn [setQueue queue]. apply frame_update; [apply pass_done | now left].
    + destruct (snd (run k _ _)) as [s|]; [|exact Hrest].
      destruct Hrest as [rest' [cur' [Hs [Hc Hincl]]]]. exists rest', cur'.
      split; [assumption | split; [assumption|]]. now apply incl_tl.
Qed.

End Phases.

Section Orderly.
Context `{Engine}.

Lemma todo_calm (q : list QueueItem) :
  NoDup (map id q) -> (forall a, In a q -> settled a) -> calm (todo q) Between q.
Proof.
  intros Hnd Hq. split; [now apply ids_distinct_after_filter|]. split; [|assumption].
  intros a Ha Hin. unfold todo in Hin. apply in_map_iff in Hin as [r [Hid Hr]].
  apply filter_In in Hr as [Hr Hnc].
  assert (r = a) as -> by (eapply NoDup_map_inj; eauto).
  unfold not_complete in Hnc. intros Hs. rewrite Hs in Hnc. discriminate.
Qed.

(** One turn of a pass, from a queue that is calm for it. *)
Lemma orderly_resume (w : World) (rest : list string) (ph : Phase) (t : Task) :
  working rest ph t ->
  calm rest ph (queue (state w)) ->
  (forall x, In x (phase_ids rest ph) -> In x (issued w)) ->
  orderly (resume w [] t)
  /\ frame (phase_ids rest ph) (queue (state w)) (queue (state (resume w [] t))).
Proof.
  intros Ht Hcalm Hissued.
  destruct (run_working rest ph t Ht (state w) (history w) Hcalm) as [Hframe Hrest].
  destruct (resume_fields w [] t) as [Es [_ [Ep Ei]]].
  split; [|now rewrite Es]. constructor; rewrite ?Es, ?Ep, ?Ei.
  - destruct (snd (run t (state w) (history w))) as [s|]; [discriminate|].
    intros _. exact Hrest.
  - intros s Hin. destruct (snd (run t (state w) (history w))) as [s'|]; [|destruct Hin].
    destruct Hin as [<-|[]]. destruct Hrest as [rest' [cur' [Hs [Hc Hincl]]]].
    exists rest', cur'. split; [assumption | split; [assumption|]].
    intros x Hx. apply Hissued, Hincl, Hx.
Qed.

Lemma orderly_same_queue (w : World) (st : State) :
  queue st = queue (state w) -> orderly w -> orderly (with_state w st).
Proof. intros Hq [Hidle Hbusy]. constructor; cbn; rewrite Hq; assumption. Qed.

Lemma todo_issued (w : World) :
  invariant w -> forall x, In x (todo (queue (state w))) -> In x (issued w).
Proof.
  intros [_ _ Hiss _ _ _ _] x Hx. apply todo_subset in Hx.
  apply in_map_iff in Hx as [item [<- Hin]]. now apply Hiss.
Qed.

(** What one event does, for a page that is in order: the page is in
    order afterwards, and the queue is the old one with items added,
    dropped or, in a turn of the pass, updated among those the pass may
    still touch. *)
Lemma orderly_step (w w' : World) (e : Event) :
  reachable w -> orderly w -> step w e = Some w' ->
  orderly w'
  /\ match e with
     | ClickLaunch | FetchSettles _ _ | BodyRead _ =>
         exists ids,
           frame ids (queue (state w)) (queue (state w'))
           /\ forall a, In a (queue (state w)) -> status a = Complete -> ~ In (id a) ids
     | _ => True
     end.
Proof.
  intros Hw Hord Hstep. pose proof (reachable_invariant w Hw) as Hinv.
  pose proof Hinv as [_ Hnd Hiss _ Hpend _ _]. pose proof Hord as [Hidle Hbusy].
  assert (Hturn : forall s rest cur (t : Task) ph,
             pending w = [s] ->
             calm rest (Waiting cur) (queue (state w)) ->
             (forall x, In x (cur :: rest) -> In x (issued w)) ->
             working rest ph t -> ph = Waiting cur \/ ph = Closing cur ->
             orderly (resume w [] t)
             /\ exists ids,
                  frame ids (queue (state w)) (queue (state (resume w [] t)))
                  /\ forall a, In a (queue (state w)) -> status a = Complete ->
                               ~ In (id a) ids).
  { intros s rest cur t ph Hp Hcalm Hissued Ht Hph.
    assert (Hcalm' : calm rest ph (queue (state w))).
    { destruct Hph as [->| ->]; [assumption | now apply calm_closing]. }
    assert (Hids : phase_ids rest ph = cur :: rest) by (now destruct Hph as [->| ->]).
    destruct (orderly_resume w rest ph t Ht Hcalm') as [Ho Hf]; [now rewrite Hids|].
    split; [assumption|]. exists (cur :: rest). rewrite <- Hids. split; [assumption|].
    rewrite Hids. intros a Ha Hs [Hid|Hin].
    - destruct Hcalm as [_ [_ [_ Hq]]]. destruct (Hq a Ha) as [Hcur _].
      rewrite (Hcur (eq_sym Hid)) in Hs. discriminate.
    - destruct Hcalm as [_ [Hrest _]]. now apply (Hrest a Ha Hin). }
  destruct e as [files fresh | target | v | v | v | v | | | n o | n]; cbn in Hstep.
  - (* PickFiles *)
    destruct (fresh_ok w files fresh) eqn:Hfresh; [|discriminate].
    injection Hstep as <-. split; [|exact I].
    assert (Hnew : forall a, In a (new_items files fresh) ->
                             status a = Ready /\ ~ In (id a) (issued w)).
    { intros a Ha. split; [now destruct (new_items_ready _ _ _ Ha)|].
      now apply (fresh_ids_unseen w files fresh). }
    constructor; cbn; rewrite handleFiles_appends.
    + intros Hp a Ha. apply in_app_iff in Ha as [Ha|Ha]; [now apply Hidle|].
      left. now destruct (Hnew a Ha).
    + intros s Hs. destruct (Hbusy s Hs) as [rest [cur [Hwork [Hcalm Hissued]]]].
      exists rest, cur. split; [assumption|]. split.
      * destruct Hcalm as [Hnd' [Hrest [Hcur Hq]]]. split; [assumption|].
        split; [|split; [assumption|]].
        -- intros a Ha Hin. apply in_app_iff in Ha as [Ha|Ha]; [now apply Hrest|].
           destruct (Hnew a Ha) as [-> _]. discriminate.
        -- intros a Ha. apply in_app_iff in Ha as [Ha|Ha]; [now apply Hq|].
           destruct (Hnew a Ha) as [Hs' Hout]. split.
           ++ intros Hid. elim Hout. apply Hissued. left. now symmetry.
           ++ intros _. now left.
      * intros x Hx. apply in_app_iff. left. now apply Hissued.
  - (* ClickRemove *)
    destruct (existsb _ (queue (state w))); [|discriminate].
    injection Hstep as <-. split; [|exact I].
    assert (Hsub : forall a, In a (removeItem target (queue (state w))) ->
                             In a (queue (state w))).
    { intros a Ha. now apply filter_In in Ha as [Ha _]. }
    constructor; cbn.
    + intros Hp a Ha. apply Hidle; auto.
    + intros s Hs. destruct (Hbusy s Hs) as [rest [cur [Hwork [Hcalm Hissued]]]].
      exists rest, cur. split; [assumption|]. split; [|assumption].
      destruct Hcalm as [Hnd' [Hrest [Hcur Hq]]]. split; [assumption|].
      split; [|split; [assumption|]]; intros a Ha; [apply Hrest | apply Hq]; auto.
  - injection Hstep as <-. split; [now apply orderly_same_queue | exact I].
  - injection Hstep as <-. split; [now apply orderly_same_queue | exact I].
  - injection Hstep as <-. split; [now apply orderly_same_queue | exact I].
  - injection Hstep as <-. split; [now apply orderly_same_queue | exact I].
  - (* ClickClear *)
    destruct (isProcessing (state w)) eqn:Hflag; [discriminate|].
    injection Hstep as <-. split; [|exact I].
    destruct Hpend as [Hp|[s [ids [_ [Hflag' _]]]]]; [|congruence].
    constructor; cbn.
    + intros _ a [].
    + rewrite Hp. intros s [].
  - (* ClickLaunch *)
    injection Hstep as <-. unfold processQueue.
    destruct (negb (readyForProcessing (state w)) || isProcessing (state w)) eqn:Hguard.
    { rewrite resume_return. split; [assumption|]. exists []. split; [apply frame_refl|].
      intros a _ _ []. }
    apply orb_false_iff in Hguard as [_ Hflag].
    destruct Hpend as [Hp|[s [ids [_ [Hflag' _]]]]]; [|congruence].
    rewrite Hp, resume_set.
    destruct (orderly_resume (with_state w (setIsProcessing true (state w)))
                (todo (queue (state w))) Between
                (process_items (state w) (queue (state w)))) as [Ho Hf].
    + apply working_items.
    + cbn. apply todo_calm; [assumption | now apply Hidle].
    + cbn. now apply todo_issued.
    + split; [assumption|]. exists (todo (queue (state w))). split; [exact Hf|].
      intros a Ha Hs Hin.
      destruct (todo_calm (queue (state w)) Hnd (Hidle Hp)) as [_ [Hrest _]].
      now apply (Hrest a Ha Hin).
  - (* FetchSettles *)
    destruct (nth_error (pending w) n) as [[body k|k]|] eqn:Hn; try discriminate.
    injection Hstep as <-.
    destruct Hpend as [Hp|[s [ids [Hp _]]]]; [rewrite Hp in Hn; destruct n; discriminate|].
    rewrite Hp in Hn. apply pending_single in Hn as [-> <-].
    destruct (Hbusy (OnFetch body k)) as [rest [cur [Hwork [Hcalm Hissued]]]];
      [rewrite Hp; now left|].
    rewrite Hp. cbn [remove_nth].
    apply (Hturn (OnFetch body k) rest cur (k o) (Waiting cur)); auto.
  - (* BodyRead *)
    destruct (nth_error (pending w) n) as [[body k|k]|] eqn:Hn; try discriminate.
    injection Hstep as <-.
    destruct Hpend as [Hp|[s [ids [Hp _]]]]; [rewrite Hp in Hn; destruct n; discriminate|].
    rewrite Hp in Hn. apply pending_single in Hn as [-> <-].
    destruct (Hbusy (OnBody k)) as [rest [cur [Hwork [Hcalm Hissued]]]];
      [rewrite Hp; now left|].
    rewrite Hp. cbn [remove_nth].
    apply (Hturn (OnBody k) rest cur k (Closing cur)); auto.
Qed.

Lemma reachable_orderly (w : World) : reachable w -> orderly w.
Proof.
  induction 1 as [|w e w' Hw IH Hstep].
  - constructor; cbn; [intros _ a [] | intros s []].
  - now destruct (orderly_step w w' e Hw IH Hstep).
Qed.

End Orderly.

(** The pass works on one item at a time, and finishes what it starts.
    Between two events every item is ready, analyzing, complete or in
    error ([generating] and [verifying] are passed through without a wait
    in between); at most one item is analyzing, the one whose answer is
    awaited; and when no call waits on the network none is: no item is
    left half-processed. *)
Theorem one_item_at_a_time `{Engine} (w : World) :
  reachable w ->
  (pending w = [] -> forall a, In a (queue (state w)) -> settled a)
  /\ (forall a, In a (queue (state w)) -> settled a \/ status a = Analyzing)
  /\ (forall a b,
         In a (queue (state w)) -> In b (queue (state w)) ->
         status a = Analyzing -> status b = Analyzing -> a = b).
Proof.
  intros Hw. destruct (reachable_orderly w Hw) as [Hidle Hbusy].
  destruct (reachable_invariant w Hw) as [_ Hnd _ _ Hpend _ _].
  split; [assumption|].
  destruct Hpend as [Hp|[s [ids [Hp _]]]].
  - split.
    + intros a Ha. left. now apply Hidle.
    + intros a b Ha _ Hs. destruct (Hidle Hp a Ha) as [E|[E|E]]; rewrite E in Hs; discriminate.
  - destruct (Hbusy s) as [rest [cur [_ [[_ [_ [_ Hq]]] _]]]]; [rewrite Hp; now left|].
    assert (Hcur : forall a, In a (queue (state w)) -> status a = Analyzing -> id a = cur).
    { intros a Ha Hs. destruct (String.eqb (id a) cur) eqn:E; [now apply String.eqb_eq|].
      apply String.eqb_neq in E. destruct (Hq a Ha) as [_ Hother].
      destruct (Hother E) as [E'|[E'|E']]; rewrite E' in Hs; discriminate. }
    split.
    + intros a Ha. destruct (String.eqb (id a) cur) eqn:E.
      * apply String.eqb_eq in E. right. now apply (Hq a Ha).
      * apply String.eqb_neq in E. left. now apply (Hq a Ha).
    + intros a b Ha Hb Hsa Hsb. eapply NoDup_map_inj; eauto.
      now rewrite (Hcur a Ha Hsa), (Hcur b Hb Hsb).
Qed.

Lemma one_item_at_a_time_witness :
  Forall (fun a => settled a \/ status a = Analyzing)
         (queue (state (@world_after v8_like late_change)))
  /\ Forall settled (queue (state (@world_after v8_like mixed_pass))).
Proof.
  split; apply Forall_forall; intros a Ha.
  - destruct (@one_item_at_a_time v8_like (@world_after v8_like late_change)) as [_ [Hall _]].
    + apply world_after_reachable. vm_compute. reflexivity.
    + now apply Hall.
  - destruct (@one_item_at_a_time v8_like (@world_after v8_like mixed_pass)) as [Hidle _].
    + apply world_after_reachable. vm_compute. reflexivity.
    + apply Hidle; [vm_compute; reflexivity | assumption].
Defined.

(** A finished render is never lost or overwritten: an item that is
    complete stays in the queue exactly as it is (status, result, log and
    all) through every event except "Clear Queue".  A pass skips it, an
    update aimed at another item does not reach it, and it cannot be
    removed, since only an item in error shows the remove button. *)
Theorem complete_is_final `{Engine} (w w' : World) (e : Event) (a : QueueItem) :
  reachable w -> step w e = Some w' -> e <> ClickClear ->
  In a (queue (state w)) -> status a = Complete ->
  In a (queue (state w')).
Proof.
  intros Hw Hstep He Ha Hs.
  destruct (orderly_step w w' e Hw (reachable_orderly w Hw) Hstep) as [_ Hturn].
  destruct (reachable_invariant w Hw) as [_ Hnd _ _ _ _ _].
  destruct e as [files fresh | target | v | v | v | v | | | n o | n].
  8-10: destruct Hturn as [ids [Hframe Hout]];
        apply (frame_keeps ids (queue (state w))); auto.
  all: cbn in Hstep.
  - destruct (fresh_ok w files fresh); [|discriminate]. injection Hstep as <-. cbn.
    rewrite handleFiles_appends. apply in_app_iff. now left.
  - destruct (existsb _ (queue (state w))) eqn:Hex; [|discriminate].
    injection Hstep as <-. cbn. apply filter_In. split; [assumption|].
    apply negb_true_iff, String.eqb_neq. intros Hid.
    apply existsb_exists in Hex as [x [Hx Hcond]].
    apply andb_true_iff in Hcond as [Hidx Herr]. apply String.eqb_eq in Hidx.
    assert (x = a) as -> by (eapply NoDup_map_inj; eauto; congruence).
    rewrite Hs in Herr. discriminate.
  - now injection Hstep as <-.
  - now injection Hstep as <-.
  - now injection Hstep as <-.
  - now injection Hstep as <-.
  - now elim He.
Qed.

Lemma complete_is_final_witness :
  Forall (fun a => status a = Complete ->
                   In a (queue (state (@world_after v8_like
                                         (late_change ++ [FetchSettles 0 (Rejected NonError)])%list))))
         (queue (state (@world_after v8_like late_change))).
Proof.
  apply Forall_forall. intros a Ha Hs.
  apply (@complete_is_final v8_like (@world_after v8_like late_change) _
           (FetchSettles 0 (Rejected NonError)) a); try assumption.
  - apply world_after_reachable. vm_compute. reflexivity.
  - apply (@world_after_snoc v8_like late_change (FetchSettles 0 (Rejected NonError))).
    vm_compute. reflexivity.
  - discriminate.
Defined.

(* ================================================================= *)
(** ** What the component renders: properties *)
(* ================================================================= *)

(** *** The name of the download *)

Lemma extension_chars_app (a b : string) :
  Page.all_extension_chars (a ++ b)
  = Page.all_extension_chars a && Page.all_extension_chars b.
Proof.
  induction a as [|c a IH]; [reflexivity|]. cbn [append Page.all_extension_chars].
  now rewrite IH, andb_assoc.
Qed.

Lemma extension_chars_dot (a b : string) :
  Page.all_extension_chars (a ++ String "." b) = false.
Proof.
  rewrite extension_chars_app. cbn [Page.all_extension_chars].
  unfold Page.extension_char at 1. cbn. apply andb_false_r.
Qed.

Lemma extension_chars_slash (s : string) :
  occurs "/" s = true -> Page.all_extension_chars s = false.
Proof.
  induction s as [|c s IH]; [discriminate|]. cbn [occurs Page.all_extension_chars].
  unfold Page.extension_char. destruct (Ascii.eqb c "/"); [reflexivity|].
  cbn [orb negb andb]. intros Hs. rewrite (IH Hs). apply andb_false_r.
Qed.

Lemma strip_before_dot (base rest : string) :
  Page.strip_extension (base ++ String "." rest)
  = base ++ Page.strip_extension (String "." rest).
Proof.
  induction base as [|c base IH]; [reflexivity|].
  cbn [append]. cbn [Page.strip_extension].
  assert (Hno : Page.extension_here (String c (base ++ String "." rest)) = false).
  { unfold Page.extension_here.
    destruct (base ++ String "." rest) as [|d r] eqn:E.
    - destruct base; discriminate.
    - rewrite <- E, extension_chars_dot. apply andb_false_r. }
  rewrite Hno. now rewrite IH.
Qed.

Lemma strip_without_dot (s : string) :
  occurs "." s = false -> Page.strip_extension s = s.
Proof.
  induction s as [|c s IH]; [reflexivity|]. cbn [occurs]. intros Hno.
  apply orb_false_iff in Hno as [Hc Hs]. cbn [Page.strip_extension].
  assert (Hhere : Page.extension_here (String c s) = false).
  { unfold Page.extension_here. destruct s; [reflexivity|]. now rewrite Hc. }
  now rewrite Hhere, (IH Hs).
Qed.

Lemma extension_chars_no_dot (s : string) :
  Page.all_extension_chars s = true -> occurs "." s = false.
Proof.
  induction s as [|c s IH]; [reflexivity|]. cbn [occurs Page.all_extension_chars].
  intros Hs. apply andb_true_iff in Hs as [Hc Hs]. rewrite (IH Hs).
  unfold Page.extension_char in Hc. apply andb_true_iff in Hc as [_ Hc].
  apply negb_true_iff in Hc. now rewrite Hc.
Qed.

Lemma strip_last_extension (base ext : string) :
  ext <> "" -> Page.all_extension_chars ext = true ->
  Page.strip_extension (base ++ "." ++ ext) = base.
Proof.
  intros Hne Hext. change ("." ++ ext) with (String "." ext).
  rewrite strip_before_dot. cbn [Page.strip_extension].
  destruct ext as [|d r]; [now elim Hne|].
  unfold Page.extension_here. rewrite Hext. cbn [Ascii.eqb Bool.eqb andb].
  apply append_empty_r.
Qed.

(** The download is named after the upload, with its last extension cut
    off and "-on-water.png" added: "boat.jpg" gives "boat-on-water.png".
    Only a last extension goes (a dot followed by one or more characters
    other than a dot and a slash, up to the end); a name without a dot, a
    name that ends in a dot and a name with a slash after its last dot are
    kept whole, and what is kept is always an initial part of the name. *)
Theorem download_name_drops_extension :
  (forall item base ext,
      Route.file_name (Uploader.file item) = base ++ "." ++ ext ->
      ext <> "" -> Page.all_extension_chars ext = true ->
      Page.download_name item = base ++ "-on-water.png")
  /\ (forall name, occurs "." name = false -> Page.strip_extension name = name)
  /\ (forall base, Page.strip_extension (base ++ ".") = base ++ ".")
  /\ (forall base ext,
         occurs "." ext = false -> occurs "/" ext = true ->
         Page.strip_extension (base ++ "." ++ ext) = base ++ "." ++ ext)
  /\ (forall name, exists cut, name = Page.strip_extension name ++ cut).
Proof.
  split; [|split; [|split; [|split]]].
  - intros item base ext Hname Hne Hext. unfold Page.download_name.
    now rewrite Hname, (strip_last_extension base ext Hne Hext).
  - apply strip_without_dot.
  - intros base. change (base ++ ".") with (base ++ String "." "").
    now rewrite strip_before_dot.
  - intros base ext Hdot Hslash. change ("." ++ ext) with (String "." ext).
    rewrite strip_before_dot. f_equal. cbn [Page.strip_extension].
    assert (Hhere : Page.extension_here (String "." ext) = false).
    { unfold Page.extension_here. destruct ext as [|d r]; [reflexivity|].
      rewrite (extension_chars_slash _ Hslash). reflexivity. }
    now rewrite Hhere, (strip_without_dot ext Hdot).
  - induction name as [|c name [cut IH]]; [now exists ""|].
    cbn [Page.strip_extension].
    destruct (Page.extension_here (String c name)); [now exists (String c name)|].
    exists cut. cbn [append]. now rewrite <- IH.
Qed.

Lemma download_name_witness :
  Page.download_name boat_item = "boat-on-water.png"
  /\ Page.download_name
       {| Uploader.id := "id-3"; Uploader.file := tarball; Uploader.previewUrl := "blob:fleet";
          Uploader.status := Uploader.Complete; Uploader.logs := []; Uploader.result := None;
          Uploader.error := None |}
     = "fleet.2024.tar-on-water.png".
Proof.
  destruct download_name_drops_extension as [Hname _]. split.
  - apply (Hname boat_item "boat" "jpg"); [reflexivity | discriminate | reflexivity].
  - apply (Hname _ "fleet.2024.tar" "gz"); [reflexivity | discriminate | reflexivity].
Defined.

(** *** A card of the queue *)

Import Uploader.

Section CardFacts.
Context `{Engine}.

Lemma status_between_events (w : World) (a : QueueItem) :
  reachable w -> In a (queue (state w)) -> settled a \/ status a = Analyzing.
Proof.
  intros Hw Ha. destruct (reachable_orderly w Hw) as [Hidle Hbusy].
  destruct (reachable_invariant w Hw) as [_ _ _ _ Hpend _ _].
  destruct Hpend as [Hp|[s [ids [Hp _]]]]; [left; now apply Hidle|].
  destruct (Hbusy s) as [rest [cur [_ [[_ [_ [_ Hq]]] _]]]]; [rewrite Hp; now left|].
  destruct (String.eqb (id a) cur) eqn:E.
  - apply String.eqb_eq in E. right. now apply (Hq a Ha).
  - apply String.eqb_neq in E. left. now apply (Hq a Ha).
Qed.

Lemma result_when_complete (w : World) (a : QueueItem) :
  reachable w -> In a (queue (state w)) -> item_ok a.
Proof.
  intros Hw Ha. destruct (reachable_invariant w Hw) as [[older Hh] _ _ Hitems _ _ _].
  apply (Hitems (state w)); [rewrite Hh; now left | assumption].
Qed.

Lemma no_item_idle (w : World) :
  reachable w -> Forall (fun item => status item <> Idle) (queue (state w)).
Proof.
  intros Hw.
  destruct (items_reachable (fun item => status item <> Idle)) with (w := w)
    as [Hnow _]; try assumption.
  - intros item Hs _ _ _ _. rewrite Hs. discriminate.
  - intros item updates [entry|s Hs|message|r] Hitem; cbn; try discriminate.
    + exact Hitem.
    + destruct Hs as [-> | [-> | ->]]; discriminate.
Qed.

End CardFacts.

(** Between two events a card shows exactly one of three things, as its
    item's status has it: the progress bar for an item that is ready or
    analyzing (so already before any pass is launched), the result panel
    with the download link for a complete item, the remove button for an
    item in error.  The badge reads "Final" on a complete item only, and
    the picture is the upload's preview for every item that is not
    complete. *)
Theorem card_follows_status `{Engine} (w : World) (item : QueueItem) :
  reachable w -> In item (queue (state w)) ->
  (status item = Ready
   /\ card_of item = {| card_badge := "Source"; card_label := "Ready";
                        card_result := false; card_progress := true;
                        card_remove := false |}
   /\ Page.image_src item = JStr (previewUrl item))
  \/ (status item = Analyzing
      /\ card_of item = {| card_badge := "Source"; card_label := "Analyzing";
                           card_result := false; card_progress := true;
                           card_remove := false |}
      /\ Page.image_src item = JStr (previewUrl item))
  \/ (status item = Complete
      /\ card_of item = {| card_badge := "Final"; card_label := "Ready for download";
                           card_result := true; card_progress := false;
                           card_remove := false |}
      /\ exists r, result item = Some r
                   /\ Page.image_src item
                      = Route.value_or (finalImage r) (JStr (previewUrl item)))
  \/ (status item = Error
      /\ card_of item = {| card_badge := "Source"; card_label := "Action required";
                           card_result := false; card_progress := false;
                           card_remove := true |}
      /\ Page.image_src item = JStr (previewUrl item)).
Proof.
  intros Hw Hin. pose proof (result_when_complete w item Hw Hin) as [Hres Hcomp].
  assert (Hnone : status item <> Complete -> result item = None).
  { intros Hs. destruct (result item) as [r|]; [|reflexivity].
    elim Hs. apply Hres. discriminate. }
  unfold card_of, Page.badge, Page.status_label, Page.shows_result, Page.shows_progress,
    Page.shows_remove, Page.image_src.
  destruct (status_between_events w item Hw Hin) as [[Hs|[Hs|Hs]]|Hs].
  - left. rewrite Hs, Hnone by (rewrite Hs; discriminate). now repeat split.
  - right. right. left. destruct (result item) as [r|] eqn:Hr.
    + rewrite Hs. split; [reflexivity|]. split; [reflexivity|]. now exists r.
    + elim (Hcomp Hs). reflexivity.
  - right. right. right. rewrite Hs, Hnone by (rewrite Hs; discriminate). now repeat split.
  - right. left. rewrite Hs, Hnone by (rewrite Hs; discriminate). now repeat split.
Qed.

Lemma card_follows_status_witness :
  Forall (fun item => Page.shows_result item = true \/ Page.shows_progress item = true
                      \/ Page.shows_remove item = true)
         (queue (state (@world_after v8_like mixed_pass))).
Proof.
  apply Forall_forall. intros item Hin.
  destruct (@card_follows_status v8_like (@world_after v8_like mixed_pass) item)
    as [[_ [E _]]|[[_ [E _]]|[[_ [E _]]|[_ [E _]]]]]; try assumption.
  - apply world_after_reachable. vm_compute. reflexivity.
  - right. left. exact (f_equal card_progress E).
  - right. left. exact (f_equal card_progress E).
  - left. exact (f_equal card_result E).
  - right. right. exact (f_equal card_remove E).
Defined.

(** *** The footer *)

(** The two buttons follow the pass.  "Clear Queue" is disabled exactly
    while a call waits on the network, and a click on it then does
    nothing at all.  "Launch Transformation" is enabled exactly when no
    call waits and some item is ready; a click on it while it is disabled
    leaves the page as it is.  So items in error alone cannot be retried:
    they are sent again only by a pass launched for a newly added file.
    The banner and the label of the launch button announce a pass exactly
    while a call waits. *)
Theorem footer_follows_pass `{Engine} (w : World) :
  reachable w ->
  (Page.clear_disabled (state w) = true <-> pending w <> [])
  /\ (Page.launch_disabled (state w) = false
      <-> pending w = [] /\ exists item, In item (queue (state w)) /\ status item = Ready)
  /\ (Page.clear_disabled (state w) = true -> step w ClickClear = None)
  /\ (Page.launch_disabled (state w) = true -> step w ClickLaunch = Some w)
  /\ (pending w <> [] ->
      Page.banner (state w) = "Processing batch… Rendering premium marina assets."
      /\ Page.launch_label (state w) = "Transforming…")
  /\ (pending w = [] -> Page.launch_label (state w) = "Launch Transformation").
Proof.
  intros Hw. destruct (reachable_invariant w Hw) as [_ _ _ _ Hpend Hidle _].
  assert (Hflag : isProcessing (state w) = true <-> pending w <> []).
  { split.
    - intros Hf Hp. rewrite (Hidle Hp) in Hf. discriminate.
    - intros Hp. destruct Hpend as [Hnil|[s [ids [_ [Hf _]]]]]; [contradiction | assumption]. }
  assert (Hready : readyForProcessing (state w) = true
                   <-> exists item, In item (queue (state w)) /\ status item = Ready).
  { unfold readyForProcessing. rewrite (existsb_ready _ (no_item_idle w Hw)).
    rewrite existsb_exists. split; intros [item [Hin Hs]]; exists item; split; auto.
    - unfold is_ready in Hs. now destruct (status item).
    - unfold is_ready. now rewrite Hs. }
  unfold Page.clear_disabled, Page.launch_disabled.
  split; [exact Hflag|]. split; [|split; [|split; [|split]]].
  - rewrite orb_false_iff, negb_false_iff, Hready. split.
    + intros [Hr Hf]. split; [|assumption].
      destruct (pending w) eqn:Hp; [reflexivity|].
      assert (isProcessing (state w) = true) by (apply Hflag; discriminate). congruence.
    + intros [Hp Hr]. split; [assumption | now apply Hidle].
  - intros Hf. cbn. now rewrite Hf.
  - intros Hd.
    change (step w ClickLaunch) with (Some (resume w (pending w) (processQueue (state w)))).
    unfold processQueue. rewrite Hd. now rewrite resume_return.
  - intros Hp. apply Hflag in Hp. unfold Page.banner, Page.launch_label. now rewrite Hp.
  - intros Hp. unfold Page.launch_label. now rewrite (Hidle Hp).
Qed.

Lemma footer_follows_pass_witness :
  @step v8_like (@world_after v8_like (picked ++ [ClickLaunch])%list) ClickClear = None
  /\ @step v8_like (@world_after v8_like mixed_pass) ClickLaunch
     = Some (@world_after v8_like mixed_pass).
Proof.
  split.
  - destruct (@footer_follows_pass v8_like (@world_after v8_like (picked ++ [ClickLaunch])%list))
      as [_ [_ [Hclear _]]].
    + apply world_after_reachable. vm_compute. reflexivity.
    + apply Hclear. vm_compute. reflexivity.
  - destruct (@footer_follows_pass v8_like (@world_after v8_like mixed_pass))
      as [_ [_ [_ [Hlaunch _]]]].
    + apply world_after_reachable. vm_compute. reflexivity.
    + apply Hlaunch. vm_compute. reflexivity.
Defined.

(* ================================================================= *)
(** ** What an answer does to its item *)
(* ================================================================= *)

Section Answers.
Context `{Engine}.

Lemma touch_nothing (target : string) (q : list QueueItem) :
  map (touch target [] None None None) q = q.
Proof.
  induction q as [|a q IH]; [reflexivity|]. cbn [map]. rewrite IH. f_equal.
  unfold touch. destruct (String.eqb (id a) target); [|reflexivity].
  destruct a. cbn. now rewrite app_nil_r.
Qed.

Lemma touched_nothing (target : string) (st : State) :
  touched target [] None None None st = st.
Proof. unfold touched, setQueue. rewrite touch_nothing. now destruct st. Qed.

Lemma update_touched (target : string) (updates : Partial) (lines : list string)
  (s : option ProcessingStatus) (r : option ProcessedResult) (e : option string)
  (st : State) :
  p_id updates = None -> p_file updates = None -> p_previewUrl updates = None ->
  setQueue (updateQueueItem target updates) (touched target lines s r e st)
  = touched target (lines ++ or_else (p_logs updates) [])
      (match p_status updates with Some x => Some x | None => s end)
      (match p_result updates with Some x => Some x | None => r end)
      (match p_error updates with Some x => Some x | None => e end) st.
Proof.
  intros Hid Hfile Hurl. unfold touched, setQueue.
  cbn [queue location lens dynamic includeInteriors isProcessing]. f_equal.
  unfold updateQueueItem. rewrite map_map. apply map_ext. intros a.
  unfold touch at 1 2. destruct (String.eqb (id a) target) eqn:E.
  - cbn [id]. rewrite E. cbn [negb]. unfold merge, touch. rewrite E, Hid, Hfile, Hurl.
    cbn [id file previewUrl status logs result error or_else].
    destruct (p_status updates), (p_logs updates), (p_result updates), (p_error updates),
      s, r, e; cbn [or_else]; rewrite <- ?app_assoc, ?app_nil_r; reflexivity.
  - rewrite E. cbn [negb]. unfold touch. now rewrite E.
Qed.

Lemma run_update (target : string) (updates : Partial) (k : Task) (lines : list string)
  (s : option ProcessingStatus) (r : option ProcessedResult) (e : option string)
  (st : State) (seen : list State) :
  p_id updates = None -> p_file updates = None -> p_previewUrl updates = None ->
  exists seen',
    run (do_update target updates k) (touched target lines s r e st) seen
    = run k (touched target (lines ++ or_else (p_logs updates) [])
               (match p_status updates with Some x => Some x | None => s end)
               (match p_result updates with Some x => Some x | None => r end)
               (match p_error updates with Some x => Some x | None => e end) st)
            seen'.
Proof.
  intros Hid Hfile Hurl. cbn [run do_update].
  rewrite (update_touched target updates lines s r e st Hid Hfile Hurl). eauto.
Qed.

Lemma run_log (target entry : string) (k : Task) (lines : list string)
  (s : option ProcessingStatus) (r : option ProcessedResult) (e : option string)
  (st : State) (seen : list State) :
  exists seen',
    run (do_appendLog target entry k) (touched target lines s r e st) seen
    = run k (touched target (lines ++ [entry]) s r e st) seen'.
Proof.
  apply (run_update target (log_update [entry]) k lines s r e st seen); reflexivity.
Qed.

Lemma run_catch (target : string) (err : Thrown) (k : Task) (lines : list string)
  (s : option ProcessingStatus) (r : option ProcessedResult) (e : option string)
  (st : State) (seen : list State) :
  exists seen',
    run (on_catch target err k) (touched target lines s r e st) seen
    = run k (touched target (lines ++ [cross ++ " " ++ thrown_message err])
               (Some Error) r (Some (thrown_message err)) st)
            seen'.
Proof.
  destruct (run_log target (cross ++ " " ++ thrown_message err)
              (do_update target (status_update Error (Some (thrown_message err))) k)
              lines s r e st seen) as [seen1 E1].
  destruct (run_update target (status_update Error (Some (thrown_message err))) k
              (lines ++ [cross ++ " " ++ thrown_message err]) s r e st seen1)
    as [seen2 E2]; try reflexivity.
  exists seen2. etransitivity; [destruct err; exact E1|].
  etransitivity; [exact E2|].
  cbn [status_update p_logs p_status p_result p_error or_else]. now rewrite app_nil_r.
Qed.

Lemma run_progress (target : string) (k : Task) (st : State) (seen : list State) :
  exists seen',
    run (do_update target (status_update Generating None)
           (do_appendLog target rendering_line
              (do_update target (status_update Verifying None)
                 (do_appendLog target checking_line k))))
        st seen
    = run k (touched target [rendering_line; checking_line] (Some Verifying) None None st)
          seen'.
Proof.
  destruct (run_update target (status_update Generating None)
              (do_appendLog target rendering_line
                 (do_update target (status_update Verifying None)
                    (do_appendLog target checking_line k)))
              [] None None None st seen) as [s1 E1]; try reflexivity.
  rewrite touched_nothing in E1.
  destruct (run_log target rendering_line
              (do_update target (status_update Verifying None)
                 (do_appendLog target checking_line k))
              [] (Some Generating) None None st s1) as [s2 E2].
  destruct (run_update target (status_update Verifying None)
              (do_appendLog target checking_line k)
              [rendering_line] (Some Generating) None None st s2)
    as [s3 E3]; try reflexivity.
  destruct (run_log target checking_line k [rendering_line] (Some Verifying)
              None None st s3) as [s4 E4].
  exists s4. etransitivity; [exact E1|]. etransitivity; [exact E2|].
  etransitivity; [exact E3|]. exact E4.
Qed.

(** An ok answer whose body parses to a value other than [null]. *)
Lemma run_completes (item : QueueItem) (k : Task) (st : State) (seen : list State)
  (t : string) (payload : JSValue) :
  JSON_parse t = Some payload -> payload <> JNull ->
  exists seen',
    run (after_body item true (Ok t) k) st seen
    = run k (touched (id item) [rendering_line; checking_line] (Some Complete)
               (Some (payload_result payload)) None st)
          seen'.
Proof.
  intros Hparse Hnull. cbn [after_body negb response_json]. rewrite Hparse.
  assert (Hr : result_of payload = Ok (payload_result payload)).
  { destruct payload; try reflexivity. now elim Hnull. }
  rewrite Hr.
  destruct (run_progress (id item)
              (do_update (id item) (complete_update (payload_result payload)) k) st seen)
    as [s1 E1].
  destruct (run_update (id item) (complete_update (payload_result payload)) k
              [rendering_line; checking_line] (Some Verifying) None None st s1)
    as [s2 E2]; try reflexivity.
  exists s2. etransitivity; [exact E1|]. etransitivity; [exact E2|].
  cbn [complete_update p_logs p_status p_result p_error or_else]. now rewrite app_nil_r.
Qed.

End Answers.

(** What the page makes of an answer, for the item it was sent for and for
    no other.  An answer that is not ok leaves the item in error with the
    response text as message.  An ok answer whose body is not JSON leaves
    it in error with the parser's message, and one whose body is [null]
    with the message of the failed property read.  Any other ok answer
    completes the item, whatever the payload holds: the result is filled
    from the payload's [generatedImage], [prompt], [summary],
    [qualityReport] and [insights] unchecked, each undefined when the
    payload lacks it, so the empty object completes an item too.  A body
    that cannot be read leaves the item in error with the message of the
    failure, or "Unknown processing error" when what was thrown is no
    [Error]. *)
Theorem response_outcomes `{Engine} (item : QueueItem) (k : Task) (st : State)
  (seen : list State) :
  (forall t,
      exists seen',
        run (after_body item false (Ok t) k) st seen
        = run k (touched (id item) [cross ++ " Failed: " ++ t] (Some Error) None (Some t) st)
              seen')
  /\ (forall ok e,
      exists seen',
        run (after_body item ok (Throw e) k) st seen
        = run k (touched (id item) [cross ++ " " ++ thrown_message e] (Some Error) None
                   (Some (thrown_message e)) st)
              seen')
  /\ (forall t,
      JSON_parse t = None ->
      exists seen',
        run (after_body item true (Ok t) k) st seen
        = run k (touched (id item) [cross ++ " " ++ syntax_error_message t] (Some Error)
                   None (Some (syntax_error_message t)) st)
              seen')
  /\ (forall t,
      JSON_parse t = Some JNull ->
      exists seen',
        run (after_body item true (Ok t) k) st seen
        = run k (touched (id item)
                   [rendering_line; checking_line;
                    cross ++ " " ++ cannot_read_message true "generatedImage"]
                   (Some Error) None
                   (Some (cannot_read_message true "generatedImage")) st)
              seen')
  /\ (forall t payload,
      JSON_parse t = Some payload -> payload <> JNull ->
      exists seen',
        run (after_body item true (Ok t) k) st seen
        = run k (touched (id item) [rendering_line; checking_line] (Some Complete)
                   (Some (payload_result payload)) None st)
              seen').
Proof.
  assert (Hstart : st = touched (id item) [] None None None st).
  { symmetry. apply touched_nothing. }
  split; [|split; [|split; [|split]]].
  - intros t. cbn [after_body negb].
    destruct (run_log (id item) (cross ++ " Failed: " ++ t)
                (do_update (id item) (status_update Error (Some t)) k)
                [] None None None st seen) as [s1 E1].
    rewrite <- Hstart in E1.
    destruct (run_update (id item) (status_update Error (Some t)) k
                [cross ++ " Failed: " ++ t] None None None st s1)
      as [s2 E2]; try reflexivity.
    exists s2. etransitivity; [exact E1|]. etransitivity; [exact E2|].
    cbn [status_update p_logs p_status p_result p_error or_else]. now rewrite app_nil_r.
  - intros ok e.
    destruct (run_catch (id item) e k [] None None None st seen) as [s1 E1].
    rewrite <- Hstart in E1. exists s1. destruct ok; exact E1.
  - intros t Hparse. cbn [after_body negb response_json]. rewrite Hparse.
    destruct (run_catch (id item) (ErrorObj (syntax_error_message t)) k
                [] None None None st seen) as [s1 E1].
    rewrite <- Hstart in E1. exists s1. exact E1.
  - intros t Hparse. cbn [after_body negb response_json]. rewrite Hparse.
    cbn [result_of].
    destruct (run_progress (id item)
                (on_catch (id item) (ErrorObj (cannot_read_message true "generatedImage")) k)
                st seen) as [s1 E1].
    destruct (run_catch (id item) (ErrorObj (cannot_read_message true "generatedImage")) k
                [rendering_line; checking_line] (Some Verifying) None None st s1)
      as [s2 E2].
    exists s2. etransitivity; [exact E1|]. exact E2.
  - intros t payload. apply run_completes.
Qed.

Lemma response_outcomes_witness :
  exists seen',
    @run (@after_body v8_like boat_item true (Ok "{}") Return)
      {| queue := [boat_item]; location := ""; lens := "wide-immersive";
         dynamic := "running"; includeInteriors := true; isProcessing := true |} []
    = @run Return
        (touched "id-1" [rendering_line; checking_line] (Some Complete)
           (Some (payload_result (JObj []))) None
           {| queue := [boat_item]; location := ""; lens := "wide-immersive";
              dynamic := "running"; includeInteriors := true; isProcessing := true |})
        seen'.
Proof.
  destruct (@response_outcomes v8_like boat_item Return
              {| queue := [boat_item]; location := ""; lens := "wide-immersive";
                 dynamic := "running"; includeInteriors := true; isProcessing := true |} [])
    as [_ [_ [_ [_ Hok]]]].
  apply (Hok "{}" (JObj [])); [reflexivity | discriminate].
Defined.

(* ================================================================= *)
(** ** JSON on the wire: what is written is what is read *)
(* ================================================================= *)

Lemma value_induction (P : JSValue -> Prop) :
  P JNull -> (forall b, P (JBool b)) -> (forall n, P (JNum n)) -> (forall s, P (JStr s)) ->
  (forall items, Forall P items -> P (JArr items)) ->
  (forall ms, Forall (fun kv => P (snd kv)) ms -> P (JObj ms)) ->
  forall v, P v.
Proof.
  intros Hnull Hbool Hnum Hstr Harr Hobj. fix IH 1.
  intros [ | b | n | s | items | ms];
    [exact Hnull | apply Hbool | apply Hnum | apply Hstr | | ].
  - apply Harr. induction items as [|x items IHl]; constructor; [apply IH | exact IHl].
  - apply Hobj. induction ms as [|[k x] ms IHl]; constructor; [apply IH | exact IHl].
Qed.

(** *** Strings *)

Lemma parse_quote_char (c : ascii) (rest : string) :
  parse_chars (quote_char c ++ rest)
  = match parse_chars rest with
    | Some (ps, rest') => Some (piece_of c :: ps, rest')
    | None => None
    end.
Proof. destruct c as [[] [] [] [] [] [] [] []]; reflexivity. Qed.

Lemma encode_piece (c : ascii) (ps : list Piece) :
  encode_pieces None (piece_of c :: ps) = String c (encode_pieces None ps).
Proof. destruct c as [[] [] [] [] [] [] [] []]; reflexivity. Qed.

Lemma encode_pieces_of (s : string) : encode_pieces None (pieces_of s) = s.
Proof.
  induction s as [|c s IH]; [reflexivity|]. cbn [pieces_of].
  now rewrite encode_piece, IH.
Qed.

Lemma quote_chars_clean (c : ascii) (r : string) :
  clean (String c r) = true ->
  quote_chars (String c r) = quote_char c ++ quote_chars r /\ clean r = true.
Proof.
  cbn [clean]. intros Hc. apply andb_true_iff in Hc as [Hc Hr]. split; [|assumption].
  apply negb_true_iff in Hc. cbn [quote_chars].
  destruct r as [|b2 [|b3 r']]; try reflexivity. now rewrite Hc.
Qed.

Lemma parse_chars_quoted (s rest : string) :
  clean s = true ->
  parse_chars (quote_chars s ++ dq ++ rest) = Some (pieces_of s, rest).
Proof.
  induction s as [|c s IH]; intros Hc; [reflexivity|].
  destruct (quote_chars_clean c s Hc) as [-> Hs].
  rewrite append_assoc, parse_quote_char, (IH Hs). reflexivity.
Qed.

Lemma parse_string_quoted (s rest : string) :
  clean s = true -> parse_string (quote_chars s ++ dq ++ rest) = Some (s, rest).
Proof.
  intros Hc. unfold parse_string. now rewrite (parse_chars_quoted s rest Hc), encode_pieces_of.
Qed.

(** *** Values *)

Lemma substring_all (s : string) : substring 0 (String.length s) s = s.
Proof.
  pose proof (substring_take s "") as Ht. now rewrite append_empty_r in Ht.
Qed.

Lemma drop_prefix_app (p rest : string) : drop_prefix p (p ++ rest) = Some rest.
Proof.
  unfold drop_prefix.
  assert (Hp : prefix p (p ++ rest) = true) by (apply prefix_iff; now exists rest).
  rewrite Hp, length_append.
  replace (String.length p + String.length rest - String.length p)
    with (String.length rest) by lia.
  now rewrite substring_skip, substring_all.
Qed.

Section RoundTrip.
Context `{Engine}.

Lemma parse_null (n : nat) (rest : string) :
  parse_value (S n) ("null" ++ rest) = Some (JNull, rest).
Proof.
  transitivity (match drop_prefix "null" ("null" ++ rest) with
                | Some rest' => Some (JNull, rest')
                | None => None
                end); [reflexivity|].
  now rewrite drop_prefix_app.
Qed.

Lemma parse_true (n : nat) (rest : string) :
  parse_value (S n) ("true" ++ rest) = Some (JBool true, rest).
Proof.
  transitivity (match drop_prefix "true" ("true" ++ rest) with
                | Some rest' => Some (JBool true, rest')
                | None => None
                end); [reflexivity|].
  now rewrite drop_prefix_app.
Qed.

Lemma parse_false (n : nat) (rest : string) :
  parse_value (S n) ("false" ++ rest) = Some (JBool false, rest).
Proof.
  transitivity (match drop_prefix "false" ("false" ++ rest) with
                | Some rest' => Some (JBool false, rest')
                | None => None
                end); [reflexivity|].
  now rewrite drop_prefix_app.
Qed.

Lemma quote_app (s rest : string) :
  quote s ++ rest = String (ascii_of_nat 34) (quote_chars s ++ dq ++ rest).
Proof. unfold quote, dq. cbn [append]. now rewrite append_assoc. Qed.

Lemma parse_quoted (n : nat) (s rest : string) :
  clean s = true -> parse_value (S n) (quote s ++ rest) = Some (JStr s, rest).
Proof.
  intros Hc. rewrite quote_app.
  transitivity (match parse_string (quote_chars s ++ dq ++ rest) with
                | Some (str, rest') => Some (JStr str, rest')
                | None => None
                end); [reflexivity|].
  now rewrite (parse_string_quoted s rest Hc).
Qed.

(** What [JSON.stringify] writes starts with a character that is neither
    white space nor a closing bracket. *)
Lemma stringify_head (v : JSValue) :
  wire_safe v = true ->
  exists c r,
    stringify v = String c r /\ is_ws c = false
    /\ (nat_of_ascii c =? 93)%nat = false /\ (nat_of_ascii c =? 125)%nat = false.
Proof.
  destruct v as [ | [] | n | s | items | ms]; cbn [wire_safe stringify]; intros Hv;
    try discriminate; eexists; eexists; repeat split; reflexivity.
Qed.

Lemma join_cons (sep x : string) (y : string) (l : list string) :
  join sep (x :: y :: l) = x ++ sep ++ join sep (y :: l).
Proof. reflexivity. Qed.

Lemma parse_elements_written (items : list JSValue) :
  Forall (fun v =>
            wire_safe v = true ->
            forall rest m,
              String.length (stringify v) <= m ->
              parse_value m (stringify v ++ rest) = Some (normalize v, rest)) items ->
  forallb wire_safe items = true -> items <> [] ->
  forall acc rest m,
    String.length (join "," (map stringify items)) < m ->
    parse_elements m acc (join "," (map stringify items) ++ "]" ++ rest)
    = Some ((acc ++ map normalize items)%list, rest).
Proof.
  induction 1 as [|x items Hx _ IH]; intros Hsafe Hne acc rest m Hm; [now elim Hne|].
  cbn [forallb] in Hsafe. apply andb_true_iff in Hsafe as [Hsx Hsafe].
  destruct m as [|m]; [lia|]. cbn [parse_elements].
  destruct items as [|y items].
  - cbn [map join String.concat] in Hm |- *.
    rewrite (Hx Hsx ("]" ++ rest) m) by lia. reflexivity.
  - change (map stringify (x :: y :: items))
      with (stringify x :: stringify y :: map stringify items) in Hm |- *.
    rewrite join_cons in Hm |- *. rewrite !length_append in Hm.
    rewrite !append_assoc.
    rewrite (Hx Hsx ("," ++ join "," (stringify y :: map stringify items) ++ "]" ++ rest) m)
      by lia.
    cbn [append skip_ws is_ws]. cbv beta iota.
    change (parse_elements m (acc ++ [normalize x])
              (join "," (map stringify (y :: items)) ++ "]" ++ rest)
            = Some ((acc ++ map normalize (x :: y :: items))%list, rest)).
    rewrite (IH Hsafe ltac:(discriminate) (acc ++ [normalize x])%list rest m).
    + now rewrite <- app_assoc.
    + cbn [String.length] in Hm. change (map stringify (y :: items))
        with (stringify y :: map stringify items). lia.
Qed.

Lemma member_text_app (k : string) (v : JSValue) (tail : string) :
  member_text (k, v) ++ tail
  = String (ascii_of_nat 34) (quote_chars k ++ dq ++ String ":" (stringify v ++ tail)).
Proof.
  unfold member_text. cbn [fst snd]. rewrite !append_assoc. now rewrite quote_app.
Qed.

Lemma parse_member (n : nat) (acc : list (string * JSValue)) (k : string)
  (v v' : JSValue) (tail : string) :
  clean k = true ->
  parse_value n (stringify v ++ tail) = Some (v', tail) ->
  parse_members (S n) acc (member_text (k, v) ++ tail)
  = match skip_ws tail with
    | String c r =>
        if (nat_of_ascii c =? 44)%nat then parse_members n (obj_set k v' acc) r
        else if (nat_of_ascii c =? 125)%nat then Some (obj_set k v' acc, r)
        else None
    | EmptyString => None
    end.
Proof.
  intros Hk Hv. rewrite member_text_app.
  transitivity
    (match parse_string (quote_chars k ++ dq ++ String ":" (stringify v ++ tail)) with
     | None => None
     | Some (key, r1) =>
         match skip_ws r1 with
         | String c1 r2 =>
             if (nat_of_ascii c1 =? 58)%nat then
               match parse_value n r2 with
               | None => None
               | Some (x, r3) =>
                   match skip_ws r3 with
                   | String c3 r4 =>
                       if (nat_of_ascii c3 =? 44)%nat
                       then parse_members n (obj_set key x acc) r4
                       else if (nat_of_ascii c3 =? 125)%nat
                            then Some (obj_set key x acc, r4)
                            else None
                   | EmptyString => None
                   end
               end
             else None
         | EmptyString => None
         end
     end); [reflexivity|].
  rewrite (parse_string_quoted k _ Hk).
  transitivity
    (match parse_value n (stringify v ++ tail) with
     | None => None
     | Some (x, r3) =>
         match skip_ws r3 with
         | String c3 r4 =>
             if (nat_of_ascii c3 =? 44)%nat
             then parse_members n (obj_set k x acc) r4
             else if (nat_of_ascii c3 =? 125)%nat
                  then Some (obj_set k x acc, r4)
                  else None
         | EmptyString => None
         end
     end); [reflexivity|].
  now rewrite Hv.
Qed.

Lemma parse_members_written (ms : list (string * JSValue)) :
  Forall (fun kv =>
            wire_safe (snd kv) = true ->
            forall rest m,
              String.length (stringify (snd kv)) <= m ->
              parse_value m (stringify (snd kv) ++ rest) = Some (normalize (snd kv), rest))
         ms ->
  forallb (fun kv => clean (fst kv) && wire_safe (snd kv)) ms = true -> ms <> [] ->
  forall acc rest m,
    String.length (join "," (map member_text ms)) < m ->
    parse_members m acc (join "," (map member_text ms) ++ "}" ++ rest)
    = Some (fold_left (fun a kv => obj_set (fst kv) (normalize (snd kv)) a) ms acc, rest).
Proof.
  induction 1 as [|[k x] ms Hx _ IH]; intros Hsafe Hne acc rest m Hm; [now elim Hne|].
  cbn [forallb fst snd] in Hsafe, Hx. apply andb_true_iff in Hsafe as [Hkx Hsafe].
  apply andb_true_iff in Hkx as [Hk Hsx].
  destruct m as [|m]; [lia|].
  assert (Hlen : String.length (member_text (k, x))
                 = String.length (quote k) + S (String.length (stringify x))).
  { unfold member_text. cbn [fst snd]. now rewrite !length_append. }
  destruct ms as [|y ms].
  - cbn [map join String.concat fold_left fst snd] in Hm |- *.
    rewrite (parse_member m acc k x (normalize x) ("}" ++ rest) Hk); [reflexivity|].
    apply (Hx Hsx). lia.
  - change (map member_text ((k, x) :: y :: ms))
      with (member_text (k, x) :: member_text y :: map member_text ms) in Hm |- *.
    rewrite join_cons in Hm |- *. rewrite !length_append in Hm. rewrite !append_assoc.
    rewrite (parse_member m acc k x (normalize x)
               ("," ++ join "," (member_text y :: map member_text ms) ++ "}" ++ rest) Hk).
    + cbn [append skip_ws is_ws]. cbv beta iota.
      change (parse_members m (obj_set k (normalize x) acc)
                (join "," (map member_text (y :: ms)) ++ "}" ++ rest)
              = Some (fold_left (fun a kv => obj_set (fst kv) (normalize (snd kv)) a)
                        ((k, x) :: y :: ms) acc, rest)).
      rewrite (IH Hsafe ltac:(discriminate) (obj_set k (normalize x) acc) rest m);
        [reflexivity|].
      cbn [String.length] in Hm.
      change (map member_text (y :: ms)) with (member_text y :: map member_text ms). lia.
    + apply (Hx Hsx). lia.
Qed.

(** Reading back what was written: with enough fuel for its text, a value
    written by [JSON.stringify] is parsed into itself, rebuilt. *)
Lemma parse_written (v : JSValue) :
  wire_safe v = true ->
  forall rest m,
    String.length (stringify v) <= m ->
    parse_value m (stringify v ++ rest) = Some (normalize v, rest).
Proof.
  induction v as [ | b | n | s | items IH | ms IH] using value_induction;
    intros Hsafe rest m Hm; cbn [wire_safe] in Hsafe; try discriminate;
    cbn [stringify normalize] in Hm |- *.
  - destruct m as [|m]; [cbn in Hm; lia | apply parse_null].
  - destruct b; (destruct m as [|m]; [cbn in Hm; lia|]);
      [apply parse_true | apply parse_false].
  - destruct m as [|m]; [unfold quote, dq in Hm; cbn in Hm; lia|]. now apply parse_quoted.
  - destruct m as [|m]; [cbn in Hm; lia|].
    cbn [append String.length] in Hm. rewrite length_append in Hm. cbn [String.length] in Hm.
    cbn [append]. rewrite append_assoc.
    destruct items as [|x items].
    + reflexivity.
    + inversion IH as [|? ? Hx _]; subst.
      assert (Hsx : wire_safe x = true).
      { cbn [forallb] in Hsafe. now apply andb_true_iff in Hsafe as [Hsx _]. }
      destruct (stringify_head x Hsx) as [c [r [Ehead [Hws [Hc _]]]]].
      pose proof (parse_elements_written (x :: items) IH Hsafe ltac:(discriminate)
                    [] rest m ltac:(lia)) as Hparse.
      transitivity
        (match skip_ws (join "," (map stringify (x :: items)) ++ "]" ++ rest) with
         | String c2 r2 =>
             if (nat_of_ascii c2 =? 93)%nat then Some (JArr [], r2)
             else match parse_elements m []
                          (join "," (map stringify (x :: items)) ++ "]" ++ rest) with
                  | Some (vs, rest') => Some (JArr vs, rest')
                  | None => None
                  end
         | EmptyString => None
         end); [reflexivity|].
      rewrite Hparse.
      assert (Hstart : exists t,
                 join "," (map stringify (x :: items)) ++ "]" ++ rest = String c t).
      { destruct items as [|y items].
        - cbn [map join String.concat]. rewrite Ehead. cbn [append]. eauto.
        - change (map stringify (x :: y :: items))
            with (stringify x :: stringify y :: map stringify items).
          rewrite join_cons, Ehead. cbn [append]. eauto. }
      destruct Hstart as [t ->]. cbn [skip_ws]. now rewrite Hws, Hc.
  - fold member_text in Hm |- *.
    destruct m as [|m]; [cbn in Hm; lia|].
    cbn [append String.length] in Hm. rewrite length_append in Hm. cbn [String.length] in Hm.
    cbn [append]. rewrite append_assoc.
    destruct ms as [|[k x] ms].
    + reflexivity.
    + pose proof (parse_members_written ((k, x) :: ms) IH Hsafe ltac:(discriminate)
                    [] rest m ltac:(lia)) as Hparse.
      transitivity
        (match skip_ws (join "," (map member_text ((k, x) :: ms)) ++ "}" ++ rest) with
         | String c2 r2 =>
             if (nat_of_ascii c2 =? 125)%nat then Some (JObj [], r2)
             else match parse_members m []
                          (join "," (map member_text ((k, x) :: ms)) ++ "}" ++ rest) with
                  | Some (members, rest') => Some (JObj members, rest')
                  | None => None
                  end
         | EmptyString => None
         end); [reflexivity|].
      rewrite Hparse.
      assert (Hstart : exists t,
                 join "," (map member_text ((k, x) :: ms)) ++ "}" ++ rest
                 = String (ascii_of_nat 34) t).
      { destruct ms as [|y ms].
        - cbn [map join String.concat]. rewrite member_text_app. eauto.
        - change (map member_text ((k, x) :: y :: ms))
            with (member_text (k, x) :: member_text y :: map member_text ms).
          rewrite join_cons, append_assoc, member_text_app. eauto. }
      destruct Hstart as [t ->]. reflexivity.
Qed.

Lemma JSON_parse_written (v : JSValue) :
  wire_safe v = true -> JSON_parse (stringify v) = Some (normalize v).
Proof.
  intros Hsafe. unfold JSON_parse.
  pose proof (parse_written v Hsafe "" (S (String.length (stringify v))) ltac:(lia)) as Hp.
  rewrite append_empty_r in Hp. now rewrite Hp.
Qed.

End RoundTrip.

(** *** Objects in enumeration order are rebuilt as they are *)

Lemma obj_set_last (k : string) (v : JSValue) (acc : list (string * JSValue)) :
  forallb (fun k0 => negb (String.eqb k k0) && negb (precedes k k0)) (map fst acc) = true ->
  obj_set k v acc = (acc ++ [(k, v)])%list.
Proof.
  induction acc as [|[k0 v0] acc IH]; [reflexivity|]. cbn [map fst forallb obj_set app].
  intros Hall. apply andb_true_iff in Hall as [Hk Hall].
  apply andb_true_iff in Hk as [Hne Hpre].
  apply negb_true_iff in Hne. apply negb_true_iff in Hpre.
  now rewrite Hne, Hpre, (IH Hall).
Qed.

Lemma rebuild_sorted (ms : list (string * JSValue)) :
  forall acc,
    sorted_keys (map fst acc ++ map fst ms) = true ->
    fold_left (fun a kv => obj_set (fst kv) (snd kv) a) ms acc = (acc ++ ms)%list.
Proof.
  induction ms as [|[k v] ms IH]; intros acc Hs; cbn [fold_left fst snd].
  - now rewrite app_nil_r.
  - assert (Hlast : obj_set k v acc = (acc ++ [(k, v)])%list).
    { apply obj_set_last. clear IH. induction acc as [|[k0 v0] acc IHa]; [reflexivity|].
      cbn [map fst app sorted_keys forallb] in Hs |- *.
      apply andb_true_iff in Hs as [Hk0 Hs]. rewrite (IHa Hs), andb_true_r.
      rewrite forallb_app in Hk0. apply andb_true_iff in Hk0 as [_ Hk0].
      cbn [map fst forallb] in Hk0. now apply andb_true_iff in Hk0 as [Hk0 _]. }
    rewrite Hlast, IH.
    + now rewrite <- app_assoc.
    + rewrite map_app. cbn [map fst]. now rewrite <- app_assoc.
Qed.

Lemma fold_left_ext_in {A B : Type} (f g : A -> B -> A) (l : list B) :
  (forall a b, In b l -> f a b = g a b) ->
  forall a, fold_left f l a = fold_left g l a.
Proof.
  induction l as [|b l IH]; intros Hfg a; [reflexivity|]. cbn [fold_left].
  rewrite (Hfg a b) by now left. apply IH. intros a' b' Hb'. apply Hfg. now right.
Qed.

Lemma normalize_in_order (v : JSValue) : in_order v = true -> normalize v = v.
Proof.
  induction v as [ | b | n | s | items IH | ms IH] using value_induction;
    intros Ho; try reflexivity; cbn [in_order normalize] in Ho |- *.
  - f_equal. rewrite forallb_forall in Ho. rewrite Forall_forall in IH.
    rewrite <- (map_id items) at 2. apply map_ext_in. intros x Hx. apply IH; auto.
  - apply andb_true_iff in Ho as [Hs Ho]. rewrite forallb_forall in Ho.
    rewrite Forall_forall in IH. f_equal.
    rewrite (fold_left_ext_in _ (fun a kv => obj_set (fst kv) (snd kv) a)).
    + now apply (rebuild_sorted ms []).
    + intros a kv Hkv. rewrite (IH kv Hkv); [reflexivity | now apply Ho].
Qed.

(** *** What [JSON.parse] returns is in enumeration order *)

Lemma precedes_asym (a b : string) : precedes a b = true -> precedes b a = false.
Proof.
  unfold precedes. destruct (array_index a) as [x|], (array_index b) as [y|];
    try discriminate; try reflexivity.
  intros Hlt. apply N.ltb_lt in Hlt. apply N.ltb_ge. lia.
Qed.

Lemma precedes_between (k k0 k' : string) :
  precedes k k0 = true -> precedes k' k0 = false -> precedes k' k = false.
Proof.
  unfold precedes.
  destruct (array_index k) as [a|], (array_index k0) as [b|], (array_index k') as [c|];
    try discriminate; try reflexivity.
  intros Hab Hcb. apply N.ltb_lt in Hab. apply N.ltb_ge in Hcb. apply N.ltb_ge. lia.
Qed.

Lemma obj_set_keys (k : string) (v : JSValue) (acc : list (string * JSValue))
  (k' : string) :
  In k' (map fst (obj_set k v acc)) -> k' = k \/ In k' (map fst acc).
Proof.
  induction acc as [|[k0 v0] acc IH]; cbn [obj_set map fst].
  - intros [<-|[]]. now left.
  - destruct (String.eqb k k0) eqn:E.
    + apply String.eqb_eq in E as ->. cbn [map fst]. intros [<-|Hin]; auto. right. now right.
    + destruct (precedes k k0); cbn [map fst].
      * intros [<-|[<-|Hin]]; auto. right; now left. right; now right.
      * intros [<-|Hin]; [right; now left|]. destruct (IH Hin); auto. right. now right.
Qed.

Lemma obj_set_sorted (k : string) (v : JSValue) (acc : list (string * JSValue)) :
  sorted_keys (map fst acc) = true -> sorted_keys (map fst (obj_set k v acc)) = true.
Proof.
  induction acc as [|[k0 v0] acc IH]; [reflexivity|].
  cbn [map fst sorted_keys obj_set]. intros Hs. apply andb_true_iff in Hs as [H0 Hs].
  destruct (String.eqb k k0) eqn:E.
  - apply String.eqb_eq in E as ->. cbn [map fst sorted_keys]. now rewrite H0, Hs.
  - destruct (precedes k k0) eqn:Hp; cbn [map fst sorted_keys forallb].
    + rewrite H0, Hs, !andb_true_r. rewrite forallb_forall in H0.
      rewrite String.eqb_sym, E, (precedes_asym k k0 Hp). cbn [negb andb].
      apply forallb_forall. intros k' Hk'. specialize (H0 k' Hk').
      apply andb_true_iff in H0 as [Hne Hnp]. apply negb_true_iff in Hnp.
      rewrite (precedes_between k k0 k' Hp Hnp). cbn [negb]. rewrite andb_true_r.
      apply negb_true_iff, String.eqb_neq. intros ->. congruence.
    + rewrite (IH Hs), andb_true_r. apply forallb_forall. intros k' Hk'.
      destruct (obj_set_keys k v acc k' Hk') as [->|Hin].
      * now rewrite E, Hp.
      * rewrite forallb_forall in H0. now apply H0.
Qed.

Lemma obj_set_values (P : JSValue -> bool) (k : string) (v : JSValue)
  (acc : list (string * JSValue)) :
  P v = true -> forallb (fun kv => P (snd kv)) acc = true ->
  forallb (fun kv => P (snd kv)) (obj_set k v acc) = true.
Proof.
  intros Hv. induction acc as [|[k0 v0] acc IH]; cbn [obj_set forallb snd].
  - now rewrite Hv.
  - intros Hall. apply andb_true_iff in Hall as [H0 Hall].
    destruct (String.eqb k k0); [cbn [forallb snd]; now rewrite Hv, Hall|].
    destruct (precedes k k0); cbn [forallb snd].
    + now rewrite Hv, H0, Hall.
    + now rewrite H0, (IH Hall).
Qed.

Lemma parse_in_order (n : nat) :
  (forall s v rest, parse_value n s = Some (v, rest) -> in_order v = true)
  /\ (forall acc s vs rest,
         parse_elements n acc s = Some (vs, rest) ->
         forallb in_order acc = true -> forallb in_order vs = true)
  /\ (forall acc s ms rest,
         parse_members n acc s = Some (ms, rest) ->
         sorted_keys (map fst acc) = true ->
         forallb (fun kv => in_order (snd kv)) acc = true ->
         sorted_keys (map fst ms) = true
         /\ forallb (fun kv => in_order (snd kv)) ms = true).
Proof.
  induction n as [|n [IHv [IHe IHm]]]; [repeat split; discriminate|].
  split; [|split].
  - intros s v rest Hp. cbn [parse_value] in Hp. cbv zeta in Hp.
    destruct (skip_ws s) as [|c r]; [discriminate|].
    destruct (nat_of_ascii c =? 123)%nat.
    { destruct (skip_ws r) as [|c2 r2]; [discriminate|].
      destruct (nat_of_ascii c2 =? 125)%nat; [now injection Hp as <- _|].
      destruct (parse_members n [] r) as [[ms rest']|] eqn:Em; [|discriminate].
      injection Hp as <- _. destruct (IHm _ _ _ _ Em) as [Hs Hv]; try reflexivity.
      cbn [in_order]. now rewrite Hs, Hv. }
    destruct (nat_of_ascii c =? 91)%nat.
    { destruct (skip_ws r) as [|c2 r2]; [discriminate|].
      destruct (nat_of_ascii c2 =? 93)%nat; [now injection Hp as <- _|].
      destruct (parse_elements n [] r) as [[vs rest']|] eqn:Ee; [|discriminate].
      injection Hp as <- _. cbn [in_order]. now apply (IHe _ _ _ _ Ee). }
    destruct (nat_of_ascii c =? 34)%nat.
    { destruct (parse_string r) as [[str rest']|]; [|discriminate]. now injection Hp as <- _. }
    destruct (nat_of_ascii c =? 116)%nat.
    { destruct (drop_prefix "true" (String c r)); [|discriminate]. now injection Hp as <- _. }
    destruct (nat_of_ascii c =? 102)%nat.
    { destruct (drop_prefix "false" (String c r)); [|discriminate]. now injection Hp as <- _. }
    destruct (nat_of_ascii c =? 110)%nat.
    { destruct (drop_prefix "null" (String c r)); [|discriminate]. now injection Hp as <- _. }
    destruct (parse_number (String c r)) as [[lexeme rest']|]; [|discriminate].
    now injection Hp as <- _.
  - intros acc s vs rest Hp Hacc. cbn [parse_elements] in Hp.
    destruct (parse_value n s) as [[v r]|] eqn:Ev; [|discriminate].
    assert (Hnext : forallb in_order (acc ++ [v]) = true).
    { rewrite forallb_app, Hacc. cbn [forallb]. now rewrite (IHv _ _ _ Ev). }
    destruct (skip_ws r) as [|c r']; [discriminate|].
    destruct (nat_of_ascii c =? 44)%nat; [now apply (IHe _ _ _ _ Hp)|].
    destruct (nat_of_ascii c =? 93)%nat; [|discriminate]. now injection Hp as <- _.
  - intros acc s ms rest Hp Hs Hacc. cbn [parse_members] in Hp.
    destruct (skip_ws s) as [|c r]; [discriminate|].
    destruct (nat_of_ascii c =? 34)%nat; [|discriminate].
    destruct (parse_string r) as [[key r1]|]; [|discriminate].
    destruct (skip_ws r1) as [|c1 r2]; [discriminate|].
    destruct (nat_of_ascii c1 =? 58)%nat; [|discriminate].
    destruct (parse_value n r2) as [[v r3]|] eqn:Ev; [|discriminate].
    pose proof (obj_set_sorted key v acc Hs) as Hs'.
    pose proof (obj_set_values in_order key v acc (IHv _ _ _ Ev) Hacc) as Hacc'.
    destruct (skip_ws r3) as [|c3 r4]; [discriminate|].
    destruct (nat_of_ascii c3 =? 44)%nat; [now apply (IHm _ _ _ _ Hp)|].
    destruct (nat_of_ascii c3 =? 125)%nat; [|discriminate]. now injection Hp as <- _.
Qed.

Lemma JSON_parse_in_order (text : string) (v : JSValue) :
  JSON_parse text = Some v -> in_order v = true.
Proof.
  unfold JSON_parse.
  destruct (parse_value (S (String.length text)) text) as [[v' rest]|] eqn:Ep; [|discriminate].
  destruct (skip_ws rest); [|discriminate]. intros [= <-].
  now destruct (parse_in_order (S (String.length text))) as [Hv _]; apply (Hv _ _ _ Ep).
Qed.

(* ================================================================= *)
(** ** From the handler's answer to the card *)
(* ================================================================= *)

(** What [JSON.stringify] writes, [JSON.parse] reads back, for every value
    without numbers whose strings and keys hold no lone surrogate: the
    value comes back with its objects rebuilt property by property, and
    as it is when its objects have their keys in enumeration order, which
    is the case of every value that [JSON.parse] itself returned. *)
Theorem written_json_reads_back `{Engine} (v : JSValue) :
  wire_safe v = true ->
  JSON_parse (stringify v) = Some (normalize v)
  /\ (in_order v = true -> JSON_parse (stringify v) = Some v)
  /\ (forall text, JSON_parse text = Some v -> JSON_parse (stringify v) = Some v).
Proof.
  intros Hsafe. pose proof (JSON_parse_written v Hsafe) as Hback.
  split; [assumption|].
  assert (Hsame : in_order v = true -> JSON_parse (stringify v) = Some v).
  { intros Ho. now rewrite Hback, (normalize_in_order v Ho). }
  split; [assumption|]. intros text Hparse. apply Hsame.
  now apply (JSON_parse_in_order text).
Qed.

Lemma written_json_witness :
  JSON_parse (@stringify v8_like sample_report) = Some sample_report.
Proof.
  destruct (@written_json_reads_back v8_like sample_report) as [_ [Hsame _]];
    [reflexivity|].
  apply Hsame. reflexivity.
Defined.

Section Wire.
Context `{Engine}.

Lemma success_body_parses (url p report : string) (summary : JSValue)
  (insights : option JSValue) :
  clean url = true -> clean p = true -> clean report = true ->
  wire_safe summary = true -> in_order summary = true -> wire_ready insights ->
  exists payload,
    JSON_parse (stringify_literal
                  (Route.body (success_response url p summary report insights)))
    = Some payload
    /\ payload <> JNull
    /\ payload_result payload = stored_result url p summary report insights.
Proof.
  intros Hurl Hp Hreport Hs Hso Hins. unfold stringify_literal, success_response.
  cbn [Route.body literal_members].
  destruct insights as [x|]; cbn [literal_members wire_ready] in Hins |- *.
  - destruct Hins as [Hx Hxo].
    exists (JObj [ ("generatedImage", JStr url); ("prompt", JStr p); ("summary", summary);
                   ("qualityReport", JStr report); ("insights", x) ]).
    split; [|split; [discriminate | reflexivity]].
    rewrite JSON_parse_written.
    + rewrite normalize_in_order; [reflexivity|].
      cbn [in_order map fst snd forallb]. now rewrite Hso, Hxo.
    + cbn [wire_safe forallb fst snd]. now rewrite Hurl, Hp, Hreport, Hs, Hx.
  - exists (JObj [ ("generatedImage", JStr url); ("prompt", JStr p); ("summary", summary);
                   ("qualityReport", JStr report) ]).
    split; [|split; [discriminate | reflexivity]].
    rewrite JSON_parse_written.
    + rewrite normalize_in_order; [reflexivity|].
      cbn [in_order map fst snd forallb]. now rewrite Hso.
    + cbn [wire_safe forallb fst snd]. now rewrite Hurl, Hp, Hreport, Hs.
Qed.

End Wire.

(** The success answer of the handler reaches the card whole.  Sent as
    [NextResponse.json] writes it and read as [response.json()] reads it,
    it is an ok response, and the page completes the item with exactly
    what the handler put in: the generated image, the prompt, the summary,
    the quality report and the insights (the empty object when the handler
    had none), after the two log lines of the rendering and checking
    steps.  This holds whenever the texts hold no lone surrogate and the
    summary and insights are number-free values in enumeration order, as
    [JSON.parse] returns them. *)
Theorem success_reaches_card `{Engine} (url p report : string) (summary : JSValue)
  (insights : option JSValue) (item : QueueItem) (k : Task) (st : State)
  (seen : list State) :
  clean url = true -> clean p = true -> clean report = true ->
  wire_safe summary = true -> in_order summary = true -> wire_ready insights ->
  let response := success_response url p summary report insights in
  after_fetch item (over_http response) k
  = AwaitBody (after_body item true (Ok (stringify_literal (Route.body response))) k)
  /\ exists seen',
       run (after_body item true (Ok (stringify_literal (Route.body response))) k) st seen
       = run k (touched (id item) [rendering_line; checking_line] (Some Complete)
                  (Some (stored_result url p summary report insights)) None st)
             seen'.
Proof.
  intros Hurl Hp Hreport Hs Hso Hins. cbv zeta. split; [reflexivity|].
  destruct (success_body_parses url p report summary insights Hurl Hp Hreport Hs Hso Hins)
    as [payload [Hparse [Hnull Hresult]]].
  destruct (run_completes item k st seen _ payload Hparse Hnull) as [seen' E].
  exists seen'. now rewrite <- Hresult.
Qed.

Lemma success_reaches_card_witness :
  exists seen',
    @run (@after_body v8_like boat_item true
            (Ok (@stringify_literal v8_like
                   (Route.body
                      (success_response "data:image/png;base64,iVBORw0KGgo=" "A boat."
                         (JStr "Centre console at rest") "Clean composite."
                         (Some (JObj [("boatOverview", JStr "white centre console")]))))))
            Return)
      initial_state []
    = @run Return
        (touched "id-1" [rendering_line; checking_line] (Some Complete)
           (Some (stored_result "data:image/png;base64,iVBORw0KGgo=" "A boat."
                    (JStr "Centre console at rest") "Clean composite."
                    (Some (JObj [("boatOverview", JStr "white centre console")]))))
           None initial_state)
        seen'.
Proof.
  destruct (@success_reaches_card v8_like "data:image/png;base64,iVBORw0KGgo=" "A boat."
              "Clean composite." (JStr "Centre console at rest")
              (Some (JObj [("boatOverview", JStr "white centre console")]))
              boat_item Return initial_state []) as [_ Hrun];
    try reflexivity.
  - split; reflexivity.
  - exact Hrun.
Defined.

(** [cleanJson] finds an object that the model wrapped in prose or in a
    code fence.  When the text holds a span from an opening to a closing
    brace, with no opening brace before it and no closing brace after it,
    [cleanJson] returns what [JSON.parse] makes of exactly that span, and
    [null] when it does not parse; [analyzeSourceImage] then returns the
    parsed object after its one call, or the default analysis.  So an
    object as [JSON.stringify] writes it, with no number and no lone
    surrogate in it and its keys in enumeration order, is read back as
    itself. *)
Theorem cleanJson_reads_wrapped_object `{Engine} (pre mid post : string) :
  occurs "{" pre = false -> occurs "}" post = false ->
  Route.cleanJson (pre ++ "{" ++ mid ++ "}" ++ post) = JSON_parse ("{" ++ mid ++ "}")
  /\ (forall client b64 mime res,
        Route.responses_create client (Route.analysis_request b64 mime) = Ok res ->
        Route.extractMessageText res = pre ++ "{" ++ mid ++ "}" ++ post ->
        Route.analyzeSourceImage client b64 mime []
        = (Ok match JSON_parse ("{" ++ mid ++ "}") with
              | Some v => v
              | None => Route.default_analysis
              end,
           [Route.ResponsesCall (Route.analysis_request b64 mime)]))
  /\ (forall ms,
        wire_safe (JObj ms) = true -> in_order (JObj ms) = true ->
        "{" ++ mid ++ "}" = stringify (JObj ms) ->
        Route.cleanJson (pre ++ stringify (JObj ms) ++ post) = Some (JObj ms)).
Proof.
  intros Hpre Hpost.
  assert (Hclean : Route.cleanJson (pre ++ "{" ++ mid ++ "}" ++ post)
                   = JSON_parse ("{" ++ mid ++ "}")).
  { unfold Route.cleanJson. now rewrite (json_span_sandwich pre mid post Hpre Hpost). }
  split; [assumption|]. split.
  - intros client b64 mime res Hres Htext.
    unfold Route.analyzeSourceImage, Route.bind, Route.call_responses.
    rewrite Hres, Htext, Hclean.
    destruct (JSON_parse ("{" ++ mid ++ "}")) as [v|] eqn:Hparse; [|reflexivity].
    destruct (JSON_parse_object _ _ Hparse) as [ms ->]. reflexivity.
  - intros ms Hsafe Ho Hmid.
    assert (E : pre ++ stringify (JObj ms) ++ post = pre ++ "{" ++ mid ++ "}" ++ post).
    { rewrite <- Hmid. cbn [append]. now rewrite append_assoc. }
    rewrite E, Hclean, Hmid.
    now rewrite (JSON_parse_written _ Hsafe), (normalize_in_order _ Ho).
Qed.

Lemma cleanJson_wrapped_witness :
  Route.cleanJson
    (("Here is the inspection:" ++ fence ++ "json ")
     ++ @stringify v8_like
          (JObj [ ("shouldReject", JBool false); ("summary", JStr "Runabout afloat");
                  ("insights", JObj [("boatOverview", JStr "white runabout")]) ])
     ++ (fence ++ " Let me know if you need more."))
  = Some (JObj [ ("shouldReject", JBool false); ("summary", JStr "Runabout afloat");
                 ("insights", JObj [("boatOverview", JStr "white runabout")]) ]).
Proof.
  destruct (@cleanJson_reads_wrapped_object v8_like
              ("Here is the inspection:" ++ fence ++ "json ")
              (join ","
                 (map (@member_text v8_like)
                    [ ("shouldReject", JBool false); ("summary", JStr "Runabout afloat");
                      ("insights", JObj [("boatOverview", JStr "white runabout")]) ]))
              (fence ++ " Let me know if you need more.")) as [_ [_ Hread]];
    [reflexivity | reflexivity |].
  apply Hread; reflexivity.
Defined.

(** [analyzeSourceImage] makes one request: the instruction and the upload
    as a data URL of its MIME type, to the fixed model.  It always returns
    an object: the one [cleanJson] found in the answer's text, or the
    default analysis, which does not reject and has empty insights.  An
    error of the request is passed on. *)
Theorem analyzeSourceImage_returns_object `{Engine} (client : Route.OpenAI)
  (b64 mime : string) (tr : list Route.Call) :
  snd (Route.analyzeSourceImage client b64 mime tr)
  = (tr ++ [Route.ResponsesCall (Route.analysis_request b64 mime)])%list
  /\ Route.rq_image_url (Route.analysis_request b64 mime)
     = "data:" ++ mime ++ ";base64," ++ b64
  /\ (forall e,
         Route.responses_create client (Route.analysis_request b64 mime) = Throw e ->
         fst (Route.analyzeSourceImage client b64 mime tr) = Throw e)
  /\ (forall analysis,
         fst (Route.analyzeSourceImage client b64 mime tr) = Ok analysis ->
         exists ms,
           analysis = JObj ms
           /\ (analysis = Route.default_analysis
               \/ exists res,
                    Route.responses_create client (Route.analysis_request b64 mime) = Ok res
                    /\ Route.cleanJson (Route.extractMessageText res) = Some analysis)).
Proof.
  split; [apply analyze_trace|]. split; [reflexivity|]. rewrite analyze_result.
  split; [now intros e ->|]. intros analysis.
  destruct (Route.responses_create client (Route.analysis_request b64 mime)) as [res|e];
    [|discriminate].
  destruct (Route.cleanJson (Route.extractMessageText res)) as [parsed|] eqn:Hc.
  - destruct (cleanJson_object _ _ Hc) as [span [ms [_ [_ ->]]]].
    cbn [to_boolean]. intros [= <-]. exists ms. split; [reflexivity|]. right. now exists res.
  - intros [= <-]. eexists. split; [reflexivity | now left].
Qed.

Lemma analyzeSourceImage_witness :
  exists ms,
    fst (@Route.analyzeSourceImage v8_like (scripted_client rejecting_text)
           (base64 (Route.file_bytes boat_jpg)) "image/jpeg" [])
    = Ok (JObj ms).
Proof.
  destruct (@analyzeSourceImage_returns_object v8_like (scripted_client rejecting_text)
              (base64 (Route.file_bytes boat_jpg)) "image/jpeg" [])
    as [_ [_ [_ Hobj]]].
  destruct (Hobj (JObj [ ("shouldReject", JBool true);
                         ("rejectionReason", JStr "trailer visible");
                         ("summary", JStr "Boat on a trailer") ]) eq_refl)
    as [ms [E _]].
  exists ms. now rewrite <- E.
Defined.

(** *** A rejected image, from the handler to the card *)

Lemma as_is_quote_char (c : ascii) : as_is_char c = true -> quote_char c = String c "".
Proof. destruct c as [[] [] [] [] [] [] [] []]; intros Hc; try discriminate Hc; reflexivity. Qed.

Lemma quote_chars_as_is (s : string) : written_as_is s = true -> quote_chars s = s.
Proof.
  unfold written_as_is. induction s as [|c r IH]; [reflexivity|].
  intros Hs. apply andb_true_iff in Hs as [Hu Hc].
  cbn [unescaped] in Hu. apply andb_true_iff in Hu as [Hchar Hu].
  destruct (quote_chars_clean c r Hc) as [-> Hr].
  rewrite (as_is_quote_char c Hchar), IH; [reflexivity|].
  now rewrite Hu, Hr.
Qed.

Section Rejection.
Context `{Engine}.

Lemma rejection_body_text (r : string) :
  stringify_literal (Route.body (rejection_response (Some (JStr r)))) = rejection_text r.
Proof. reflexivity. Qed.

Lemma rejection_text_quotes (r : string) : contains (rejection_text r) (quote r).
Proof.
  unfold rejection_text.
  exists ("{" ++ quote "error" ++ ":" ++ quote "Source image rejected" ++ ","
          ++ quote "reason" ++ ":"), "}".
  now rewrite !append_assoc.
Qed.

Lemma rejection_text_verbatim (r : string) :
  written_as_is r = true -> contains (rejection_text r) r.
Proof.
  intros Hr. apply (contains_trans _ _ _ (rejection_text_quotes r)).
  unfold quote. rewrite (quote_chars_as_is r Hr). exists dq, dq. reflexivity.
Qed.

Lemma rejection_text_parses (r : string) :
  clean r = true ->
  JSON_parse (rejection_text r)
  = Some (JObj [("error", JStr "Source image rejected"); ("reason", JStr r)]).
Proof.
  intros Hr.
  change (rejection_text r)
    with (stringify (JObj [("error", JStr "Source image rejected"); ("reason", JStr r)])).
  rewrite JSON_parse_written.
  - now rewrite normalize_in_order.
  - cbn. now rewrite Hr.
Qed.

End Rejection.

(** C1, as amended.  When the analysis has [shouldReject] set to true,
    [POST] returns status 422 with the analysis's [rejectionReason] as
    [reason] after the one analysis call: no image request and no
    verification is made.  On the client the response is not [ok]: the
    item gets the log line, the status [Error] and, as its error, the
    whole body text of the response, which is the JSON object holding the
    reason as a JSON string.  The reason stands in it word for word when
    no character of it is escaped by [JSON.stringify], and [JSON.parse]
    of the text gives it back whenever it holds no lone surrogate. *)
Theorem rejection_ends_request `{Engine} (key : string) (sdk : string -> Route.OpenAI)
  (request : Route.Request) (form : Route.FormData) (image : Route.File)
  (analysis : JSValue) :
  key <> "" ->
  Route.formData request = Ok form ->
  Route.form_get form "image" = Some (Route.EFile image) ->
  fst (Route.analyzeSourceImage (sdk key) (base64 (Route.file_bytes image))
         (Route.mime_of image) [])
  = Ok analysis ->
  member "shouldReject" analysis = Some (JBool true) ->
  let response := rejection_response (member "rejectionReason" analysis) in
  let text := stringify_literal (Route.body response) in
  Route.POST (Some key) sdk request []
  = (Ok response,
     [Route.ResponsesCall
        (Route.analysis_request (base64 (Route.file_bytes image)) (Route.mime_of image))])
  /\ Route.status response = 422
  /\ (forall r, member "rejectionReason" analysis = Some (JStr r) ->
        text = rejection_text r
        /\ contains text (quote r)
        /\ (written_as_is r = true -> contains text r)
        /\ (clean r = true ->
            JSON_parse text
            = Some (JObj [("error", JStr "Source image rejected"); ("reason", JStr r)])))
  /\ forall item k st seen,
       after_fetch item (over_http response) k
       = AwaitBody (after_body item false (Ok text) k)
       /\ run (after_body item false (Ok text) k) st seen
          = run k (setQueue (map (mark_failed (id item) text)) st)
                (setQueue (map (mark_failed (id item) text)) st
                 :: setQueue (appendLog (id item) (cross ++ " Failed: " ++ text)) st
                 :: seen)
       /\ status (mark_failed (id item) text item) = Error
       /\ error (mark_failed (id item) text item) = Some text.
Proof.
  intros Hkey Hform Himage Han Hrej. cbv zeta.
  split; [|split; [reflexivity | split]].
  - apply (POST_rejects key sdk request form image analysis Hkey Hform Himage Han).
    now rewrite Hrej.
  - intros r Hr. rewrite Hr, rejection_body_text.
    split; [reflexivity|]. split; [apply rejection_text_quotes|].
    split; [apply rejection_text_verbatim | apply rejection_text_parses].
  - intros item k st seen. split; [reflexivity|]. split.
    + cbn [after_body negb do_appendLog do_update run].
      fold (status_update Error
              (Some (stringify_literal
                       (Route.body (rejection_response (member "rejectionReason" analysis)))))).
      rewrite !failed_state. reflexivity.
    + unfold mark_failed. rewrite String.eqb_refl. split; reflexivity.
Qed.

Lemma rejection_ends_request_witness :
  @Route.POST v8_like (Some "sk-test") (fun _ => scripted_client rejecting_text)
    {| Route.formData := Ok (form_with "action-zoom" "harbor" "true") |} []
  = (Ok (rejection_response (Some (JStr "trailer visible"))),
     [Route.ResponsesCall
        (Route.analysis_request (base64 (Route.file_bytes boat_jpg))
           (Route.mime_of boat_jpg))])
  /\ contains
       (@stringify_literal v8_like
          (Route.body (rejection_response (Some (JStr "trailer visible")))))
       "trailer visible"
  /\ error (mark_failed "id-1"
              (@stringify_literal v8_like
                 (Route.body (rejection_response (Some (JStr "trailer visible")))))
              boat_item)
     = Some (rejection_text "trailer visible").
Proof.
  pose proof (@rejection_ends_request v8_like "sk-test"
                (fun _ => scripted_client rejecting_text)
                {| Route.formData := Ok (form_with "action-zoom" "harbor" "true") |}
                (form_with "action-zoom" "harbor" "true") boat_jpg
                (JObj [ ("shouldReject", JBool true);
                        ("rejectionReason", JStr "trailer visible");
                        ("summary", JStr "Boat on a trailer") ])) as Hthm.
  cbv zeta in Hthm.
  destruct Hthm as [Hpost [_ [Hreason Hclient]]]; try reflexivity; [discriminate|].
  split; [exact Hpost|].
  destruct (Hreason "trailer visible" eq_refl) as [_ [_ [Hword _]]].
  split; [apply Hword; reflexivity|].
  destruct (Hclient boat_item Return initial_state []) as [_ [_ [_ Herr]]].
  exact Herr.
Defined.

(** C1 as it was worded fails where the reason holds a quotation mark.
    The analysis rejects with the reason [trailer "A" visible]; [POST]
    answers the page's own request with 422 and that reason; the page
    marks the item as failed, and the error it stores is the body text of
    the response, in which the quotation marks are escaped: the stored
    error is not the reason and does not hold it. *)
Lemma rejection_reason_not_verbatim :
  let text := @stringify_literal v8_like (Route.body quoted_rejection) in
  let w := @world_after v8_like rejected_run in
  requests (@world_after v8_like (picked ++ [ClickLaunch])%list)
  = [form_of initial_state boat_item]
  /\ @Route.POST v8_like (Some "sk-test") (fun _ => scripted_client rejecting_quoted_text)
       {| Route.formData := Ok (form_of initial_state boat_item) |} []
     = (Ok quoted_rejection,
        [Route.ResponsesCall
           (Route.analysis_request (base64 (Route.file_bytes boat_jpg))
              (Route.mime_of boat_jpg))])
  /\ Route.body quoted_rejection
     = [("error", Some (JStr "Source image rejected")); ("reason", Some (JStr quoted_reason))]
  /\ Route.status quoted_rejection = 422
  /\ @runs v8_like rejected_run = true
  /\ map status (queue (state w)) = [Error; Analyzing]
  /\ map error (queue (state w)) = [Some text; None]
  /\ text <> quoted_reason
  /\ ~ contains text quoted_reason.
Proof.
  cbv zeta.
  split; [vm_compute; reflexivity|]. split; [vm_compute; reflexivity|].
  split; [reflexivity|]. split; [reflexivity|]. split; [vm_compute; reflexivity|].
  split; [vm_compute; reflexivity|]. split; [vm_compute; reflexivity|].
  split; [vm_compute; discriminate|].
  intros Hin. apply containsb_iff in Hin. vm_compute in Hin. discriminate.
Qed.
